(** * Diskmap: a hash map backed by a memory mapped file

    A shallow embedding of [diskmap.c] (arena allocator over a growable
    mapped file, Robin Hood hash index on top of it, multi-map by nesting)
    and the proofs of the properties stated for it.

    Target conventions (LP64, as the source assumes): [size_t], [uint64_t]
    and pointers are 64 bits, [int] is 32 bits, [char] is signed, integers
    are stored little-endian.  [sizeof(struct mem)] is 16.

    The mapped file is a map from byte offsets to byte values; every
    reference stored in the file is such an offset. *)

From Stdlib Require Import ZArith List Lia Bool Permutation Sorted Znumtheory.
Import ListNotations.
Local Open Scope Z_scope.

(** ** Machine integers *)

(** Wrap-around of [uint64_t] / [size_t] arithmetic. *)
Definition u64 (z : Z) : Z := z mod 2 ^ 64.

(** Conversion to (32-bit, two's complement) [int]. *)
Definition to_int (z : Z) : Z := (z + 2 ^ 31) mod 2 ^ 32 - 2 ^ 31.

(** Value of a byte read through a [char*] (signed char). *)
Definition to_char (b : Z) : Z := if b <? 128 then b else b - 256.

(** ** Outcomes

    [Done] is a normal return.  [Exit] is the [handle_error] path (an I/O
    call failed and the process exits).  [Stuck] stands for an execution
    that does not return: a loop that never finishes or a read that runs
    off the mapping. *)

Inductive outcome (A : Type) : Type :=
| Done (a : A)
| Exit
| Stuck.
Arguments Done {A} a.
Arguments Exit {A}.
Arguments Stuck {A}.

Definition bind {A B : Type} (c : outcome A) (k : A -> outcome B) : outcome B :=
  match c with
  | Done a => k a
  | Exit => Exit
  | Stuck => Stuck
  end.

Notation "x <- c ;; k" := (bind c (fun x => k))
  (at level 61, c at next level, right associativity).
Notation "' p <- c ;; k" := (bind c (fun x => let p := x in k))
  (at level 61, p pattern, c at next level, right associativity).

(** ** The mapped file *)

(** [struct mem]: [header] is the address at which the file is currently
    mapped, [file] the content of the file (what the shared mapping shows),
    by offset. *)
Record mem : Type := { header : Z; file : Z -> Z }.

(** [MEMPTR(POS)]: the machine address of an offset. *)
Definition MEMPTR (m : mem) (pos : Z) : Z := header m + pos.

(** Reading the byte at a machine address goes through the mapping. *)
Definition peek (m : mem) (addr : Z) : Z := file m (addr - header m) mod 256.

Definition load8 (m : mem) (pos : Z) : Z := file m pos mod 256.

Definition store8 (m : mem) (pos v : Z) : mem :=
  {| header := header m;
     file := fun a => if a =? pos then v mod 256 else file m a |}.

(** Little-endian multi-byte accesses. *)
Fixpoint load_le (n : nat) (m : mem) (pos : Z) : Z :=
  match n with
  | O => 0
  | S k => load8 m pos + 256 * load_le k m (pos + 1)
  end.

Fixpoint store_le (n : nat) (m : mem) (pos v : Z) : mem :=
  match n with
  | O => m
  | S k => store_le k (store8 m pos v) (pos + 1) (v / 256)
  end.

Definition load64 : mem -> Z -> Z := load_le 8.
Definition store64 : mem -> Z -> Z -> mem := store_le 8.

(** Byte blocks: the source of a [memcpy] out of the file, and the effect
    of a [memcpy] / [memset] into it. *)
Fixpoint load_bytes (m : mem) (pos : Z) (n : nat) : list Z :=
  match n with
  | O => []
  | S k => load8 m pos :: load_bytes m (pos + 1) k
  end.

Fixpoint store_bytes (m : mem) (pos : Z) (bs : list Z) : mem :=
  match bs with
  | [] => m
  | b :: bs' => store_bytes (store8 m pos b) (pos + 1) bs'
  end.

Definition memset (m : mem) (pos v n : Z) : mem :=
  store_bytes m pos (repeat v (Z.to_nat n)).

(** A C string is represented by the list of its bytes before the
    terminating NUL. *)
Definition cstring := list Z.

Definition strlen (s : cstring) : Z := Z.of_nat (length s).

(** [strcmp(key, HTMEMPTR(ptr)) == 0], [key] in process memory and the
    other string in the file. *)
Fixpoint strcmp_eq (m : mem) (key : cstring) (ptr : Z) : bool :=
  match key with
  | [] => load8 m ptr =? 0
  | c :: k => (c =? load8 m ptr) && strcmp_eq m k (ptr + 1)
  end.

(** ** Memory management *)

Definition sizeof_mem : Z := 16.
Definition sizeof_mem_block : Z := 16.

(** [struct mem_header { BLOCK_POS next_free; size_t size; }] at offset 0. *)
Definition next_free (m : mem) : Z := load64 m 0.
Definition size (m : mem) : Z := load64 m 8.
Definition set_next_free (m : mem) (v : Z) : mem := store64 m 0 v.
Definition set_size (m : mem) (v : Z) : mem := store64 m 8 v.

(** [struct mem_block { BLOCK_POS prev; BLOCK_POS next; }] at [pos]. *)
Definition block_prev (m : mem) (pos : Z) : Z := load64 m pos.
Definition block_next (m : mem) (pos : Z) : Z := load64 m (pos + 8).
Definition set_block_prev (m : mem) (pos v : Z) : mem := store64 m pos v.
Definition set_block_next (m : mem) (pos v : Z) : mem := store64 m (pos + 8) v.

Definition mem_init (m : mem) : mem :=
  let first := sizeof_mem in
  let second := first + sizeof_mem_block in
  let m := set_next_free m second in
  let m := set_block_next m first second in
  let m := set_block_prev m first 0 in
  let m := set_block_prev m second first in
  set_block_next m second 0.

Section Arena.

(** The environment: the largest length the file system and the address
    space allow for the file, and where [mmap] places a mapping (given the
    hint and the length). *)
Variable capacity : Z.
Variable mmap : Z -> Z -> Z.

(** A mapping of [initial_size] bytes of a file whose content was [disk];
    the I/O calls are taken to succeed when the size is positive and within
    the capacity. *)
Definition mem_create (disk : Z -> Z) (initial_size : Z) : outcome mem :=
  if (0 <? initial_size) && (initial_size <=? capacity) then
    let disk' := fun a => if a =? initial_size + 1 then 0 else disk a in
    let m := {| header := mmap 0 initial_size; file := disk' |} in
    let m := set_size m initial_size in
    Done (mem_init m)
  else Exit.

(** [mem_resize]: sync, unmap, write one byte at offset [size], map again
    (possibly elsewhere), record the size. *)
Definition mem_resize (m : mem) (sz : Z) : outcome mem :=
  if sz <=? capacity then
    let m := store8 m sz 0 in
    let m := {| header := mmap (header m) sz; file := file m |} in
    Done (set_size m sz)
  else Exit.

(** The walk along the chain at the start of [mem_alloc]. *)
Fixpoint find_free (fuel : nat) (m : mem) (free needed : Z) : outcome Z :=
  match fuel with
  | O => Stuck
  | S f =>
      if (needed <? u64 (block_next m free - free)) || (block_next m free =? 0)
      then Done free
      else find_free f m (block_next m free) needed
  end.

(** [(size_t)(new_size * 1.5)], then rounded to the next multiple of 256.
    The product is computed in [double]; it is exact for values below 2^52. *)
Definition grow_size (new_size : Z) : Z :=
  let new_size := u64 (3 * new_size / 2) in
  u64 (Z.shiftl (Z.shiftr new_size 8 + 1) 8).

Definition mem_alloc (m : mem) (sz : Z) : outcome (Z * mem) :=
  let needed := u64 (sizeof_mem_block + sz) in
  free <- find_free (S (Z.to_nat (size m))) m (next_free m) needed ;;
  let prev := block_prev m free in
  let next := block_next m prev in
  '(next, m) <-
    (if block_next m free =? 0 then
       let next := u64 (free + needed) in
       let next := u64 (Z.shiftl (Z.shiftr next 2 + 1) 2) in
       m <- (if size m <=? u64 (next + sizeof_mem_block)
             then mem_resize m (grow_size (u64 (next + sizeof_mem_block)))
             else Done m) ;;
       let m := set_block_next m free next in
       let m := set_block_next m next 0 in
       Done (next, m)
     else Done (next, m)) ;;
  let m := set_next_free m (block_next m free) in
  let m := set_block_next m free next in
  let m := set_block_prev m free prev in
  let m := set_block_next m prev free in
  let m := set_block_prev m next free in
  Done (u64 (free + sizeof_mem_block), m).

(** [mem_insert_str]: the string and its NUL are copied into a new block. *)
Definition mem_insert_str (m : mem) (str : cstring) : outcome (Z * mem) :=
  let len := u64 (strlen str + 1) in
  '(ptr, m) <- mem_alloc m len ;;
  Done (ptr, store_bytes m ptr (str ++ [0])).

(** ** Hash table *)

(** One round of FNV-1a as the source writes it: [v = v ^ *str] with
    [*str] a (signed) [char] converted to [uint64_t], then the product. *)
Definition hash_step (v c : Z) : Z :=
  u64 (Z.lxor v (u64 (to_char c)) * 0x100000001b3).

Fixpoint hash_loop (v : Z) (str : cstring) : Z :=
  match str with
  | [] => hash_step v 0
  | c :: s => hash_loop (hash_step v c) s
  end.

Definition hash (str : cstring) : Z :=
  let v := hash_loop 0xcbf29ce484222325 str in
  if v =? 0 then 1 else v.

(** The same loop over a string that lies in the file, as in
    [hash(HTMEMPTR(key))]; the fuel is the distance to the end of the
    mapping. *)
Fixpoint hash_mem_loop (fuel : nat) (m : mem) (ptr v : Z) : outcome Z :=
  match fuel with
  | O => Stuck
  | S f =>
      let c := load8 m ptr in
      let v := hash_step v c in
      if c =? 0 then Done v else hash_mem_loop f m (ptr + 1) v
  end.

Definition hash_mem (m : mem) (ptr : Z) : outcome Z :=
  v <- hash_mem_loop (Z.to_nat (size m - ptr)) m ptr 0xcbf29ce484222325 ;;
  Done (if v =? 0 then 1 else v).

(** [struct hash_table]: the handle of the header (the [mem] field is the
    arena that is threaded through every operation). *)
Record hash_table : Type := { header_ptr : Z }.

(** [struct hash_table_header], read through [HTHEADER(table)]. *)
Definition sizeof_hash_table_header : Z := 40.
Definition sizeof_hash_bucket : Z := 16.

Definition bucket_count (m : mem) (t : hash_table) : Z := load64 m (header_ptr t).
Definition bucket_size (m : mem) (t : hash_table) : Z := load64 m (header_ptr t + 8).
Definition filled (m : mem) (t : hash_table) : Z := load64 m (header_ptr t + 16).
Definition max_dist (m : mem) (t : hash_table) : Z := load64 m (header_ptr t + 24).
Definition buckets_ptr (m : mem) (t : hash_table) : Z := load64 m (header_ptr t + 32).

Definition set_bucket_count (m : mem) (t : hash_table) (v : Z) : mem :=
  store64 m (header_ptr t) v.
Definition set_bucket_size (m : mem) (t : hash_table) (v : Z) : mem :=
  store64 m (header_ptr t + 8) v.
Definition set_filled (m : mem) (t : hash_table) (v : Z) : mem :=
  store64 m (header_ptr t + 16) v.
Definition set_max_dist (m : mem) (t : hash_table) (v : Z) : mem :=
  store64 m (header_ptr t + 24) v.
Definition set_buckets_ptr (m : mem) (t : hash_table) (v : Z) : mem :=
  store64 m (header_ptr t + 32) v.

(** [struct hash_bucket] followed by the payload: the content of one slot,
    as held in the [calloc]ed buffers of [ht_insert_intern]. *)
Record bucket : Type := { b_hash : Z; b_keyptr : Z; b_value : list Z }.

(** Offset of the bucket [idx] of the array at [bptr]. *)
Definition ht_bucket_rel (m : mem) (t : hash_table) (idx bptr : Z) : Z :=
  bptr + u64 (idx * bucket_size m t).

Definition ht_bucket (m : mem) (t : hash_table) (idx : Z) : Z :=
  ht_bucket_rel m t idx (buckets_ptr m t).

Definition ht_value_rel (bucket_pos : Z) : Z := bucket_pos + sizeof_hash_bucket.

Definition ht_value (m : mem) (t : hash_table) (bucket_idx : Z) : Z :=
  ht_value_rel (ht_bucket m t (u64 bucket_idx)).

(** [memcpy(buf, bucket, bucket_size)] and [memcpy(bucket, buf, bucket_size)]. *)
Definition read_bucket (m : mem) (pos bsz : Z) : bucket :=
  {| b_hash := load64 m pos;
     b_keyptr := load64 m (pos + 8);
     b_value := load_bytes m (pos + 16) (Z.to_nat (bsz - 16)) |}.

Definition write_bucket (m : mem) (pos : Z) (b : bucket) : mem :=
  let m := store64 m pos (b_hash b) in
  let m := store64 m (pos + 8) (b_keyptr b) in
  store_bytes m (pos + 16) (b_value b).

(** The loop of [ht_init] that clears the hash fields. *)
Fixpoint clear_hashes (n : nat) (m : mem) (t : hash_table) (i : Z) : mem :=
  match n with
  | O => m
  | S k => clear_hashes k (store64 m (ht_bucket m t (u64 i)) 0) t (to_int (i + 1))
  end.

Definition ht_init (m : mem) (value_size : Z) : outcome (hash_table * mem) :=
  '(hp, m) <- mem_alloc m sizeof_hash_table_header ;;
  let t := {| header_ptr := hp |} in
  let m := set_bucket_size m t (u64 (sizeof_hash_bucket + value_size)) in
  let m := set_bucket_count m t 2 in
  let m := set_filled m t 0 in
  let m := set_max_dist m t 0 in
  '(tmp, m) <- mem_alloc m (u64 (bucket_count m t * bucket_size m t)) ;;
  let m := set_buckets_ptr m t tmp in
  Done (t, clear_hashes (Z.to_nat (bucket_count m t)) m t 0).

(** [ht_next]: the loop runs [i] from [bucket_idx + 1] up to the bucket
    count. *)
Fixpoint ht_next_loop (n : nat) (m : mem) (t : hash_table) (i : Z) : Z :=
  match n with
  | O => -1
  | S k =>
      if negb (load64 m (ht_bucket m t (u64 i)) =? 0) then i
      else ht_next_loop k m t (to_int (i + 1))
  end.

Definition ht_next (m : mem) (t : hash_table) (bucket_idx : Z) : Z :=
  let i := to_int (bucket_idx + 1) in
  ht_next_loop (Z.to_nat (bucket_count m t - u64 i)) m t i.

(** [HTFOREACH]: the bucket indices the iteration visits. *)
Fixpoint ht_foreach_from (fuel : nat) (m : mem) (t : hash_table) (i : Z) : list Z :=
  match fuel with
  | O => []
  | S f => if 0 <=? i then i :: ht_foreach_from f m t (to_int (ht_next m t i)) else []
  end.

Definition ht_foreach (m : mem) (t : hash_table) : list Z :=
  ht_foreach_from (Z.to_nat (bucket_count m t)) m t (to_int (ht_next m t (-1))).

(** [ht_lookup]: at most [max_dist + 2] rounds of the loop run. *)
Fixpoint ht_lookup_loop (fuel : nat) (m : mem) (t : hash_table)
    (key : cstring) (h pos dist : Z) : outcome Z :=
  match fuel with
  | O => Stuck
  | S f =>
      let bucket := ht_bucket m t pos in
      if (load64 m bucket =? 0) || (max_dist m t <? dist) then Done (-1)
      else if (load64 m bucket =? h) && strcmp_eq m key (load64 m (bucket + 8))
      then Done pos
      else
        let pos := u64 (pos + 1) in
        let pos := if pos =? bucket_count m t then 0 else pos in
        ht_lookup_loop f m t key h pos (u64 (dist + 1))
  end.

Definition ht_lookup (m : mem) (t : hash_table) (key : cstring) : outcome Z :=
  let h := hash key in
  ht_lookup_loop (Z.to_nat (max_dist m t + 2)) m t key h
    (h mod bucket_count m t) 0.

(** [min(floor(0.9 * bucket_count), bucket_count - 1)] converted to [int].
    The product is computed in [double]; for a power of two below 2^53 its
    floor is that of the exact 9/10. *)
Definition max_filled (m : mem) (t : hash_table) : Z :=
  to_int (Z.min (9 * bucket_count m t / 10) (u64 (bucket_count m t - 1))).

(** The Robin Hood loop of [ht_insert_intern]. *)
Fixpoint robin_hood (fuel : nat) (m : mem) (t : hash_table)
    (to_insert : bucket) (pos insert_dist result : Z) : outcome (Z * mem) :=
  match fuel with
  | O => Stuck
  | S f =>
      let bucket := ht_bucket m t (u64 pos) in
      if load64 m bucket =? 0 then
        let m := write_bucket m bucket to_insert in
        let result := if result <? 0 then pos else result in
        let m := set_max_dist m t (Z.max (max_dist m t) insert_dist) in
        Done (result, m)
      else
        let exist_dist :=
          to_int (u64 (pos - load64 m bucket) mod bucket_count m t) in
        let '(m, to_insert, insert_dist, result) :=
          if u64 exist_dist <? insert_dist then
            let tmp := read_bucket m bucket (bucket_size m t) in
            let m := write_bucket m bucket to_insert in
            let m := set_max_dist m t (Z.max (max_dist m t) insert_dist) in
            (m, tmp, u64 exist_dist, if result <? 0 then pos else result)
          else (m, to_insert, insert_dist, result) in
        let insert_dist := u64 (insert_dist + 1) in
        let pos := to_int (pos + 1) in
        let pos := if u64 pos =? bucket_count m t then 0 else pos in
        robin_hood f m t to_insert pos insert_dist result
  end.

(** The re-insertion loop of [ht_resize]. *)
Fixpoint reinsert (insert : mem -> hash_table -> Z -> outcome (Z * mem))
    (n : nat) (m : mem) (t : hash_table) (old_ptr value_size i : Z) : outcome mem :=
  match n with
  | O => Done m
  | S k =>
      let old_bucket := ht_bucket_rel m t (u64 i) old_ptr in
      m <- (if negb (load64 m old_bucket =? 0) then
              '(bucket_idx, m) <- insert m t (load64 m (old_bucket + 8)) ;;
              Done (store_bytes m (ht_value m t bucket_idx)
                      (load_bytes m (ht_value_rel old_bucket) (Z.to_nat value_size)))
            else Done m) ;;
      reinsert insert k m t old_ptr value_size (to_int (i + 1))
  end.

Definition ht_resize (insert : mem -> hash_table -> Z -> outcome (Z * mem))
    (m : mem) (t : hash_table) : outcome mem :=
  let old_count := bucket_count m t in
  let m := set_bucket_count m t (u64 (bucket_count m t * 2)) in
  let sz := u64 (bucket_count m t * bucket_size m t) in
  let old_ptr := buckets_ptr m t in
  let m := set_filled m t 0 in
  let m := set_max_dist m t 0 in
  '(tmp, m) <- mem_alloc m sz ;;
  let m := set_buckets_ptr m t tmp in
  let m := memset m (buckets_ptr m t) 0 sz in
  let value_size := u64 (bucket_size m t - sizeof_hash_bucket) in
  m <- reinsert insert (Z.to_nat old_count) m t old_ptr value_size 0 ;;
  Done (memset m old_ptr 255 (u64 (old_count * bucket_size m t))).

(** [ht_insert_intern] and [ht_resize] call each other; [depth] bounds the
    nesting of these calls. *)
Fixpoint ht_insert_intern (depth : nat) (m : mem) (t : hash_table) (key : Z)
    : outcome (Z * mem) :=
  m <- (if u64 (max_filled m t) <=? filled m t then
          match depth with
          | O => Stuck
          | S d => ht_resize (ht_insert_intern d) m t
          end
        else Done m) ;;
  let m := set_filled m t (u64 (filled m t + 1)) in
  let result := -1 in
  h <- hash_mem m key ;;
  let to_insert :=
    {| b_hash := h; b_keyptr := key;
       b_value := repeat 0 (Z.to_nat (bucket_size m t - sizeof_hash_bucket)) |} in
  let pos := to_int (h mod bucket_count m t) in
  robin_hood (Z.to_nat (bucket_count m t)) m t to_insert pos 0 result.

(** [ht_insert_str].  The statement [if(pos >= 0) pos;] has no effect. *)
Definition ht_insert_str (m : mem) (t : hash_table) (key : cstring)
    : outcome (Z * mem) :=
  pos <- ht_lookup m t key ;;
  '(keyptr, m) <- mem_insert_str m key ;;
  ht_insert_intern 2 m t keyptr.

(** [multimap_insert_key_val]. *)
Definition multimap_insert_key_val (m : mem) (t : hash_table)
    (key val : cstring) : outcome mem :=
  pos <- ht_lookup m t key ;;
  '(tab, m) <-
    (if pos <? 0 then
       '(pos, m) <- ht_insert_str m t key ;;
       '(tab, m) <- ht_init m 0 ;;
       Done (tab, store64 m (ht_value m t pos) (header_ptr tab))
     else
       Done ({| header_ptr := load64 m (ht_value m t pos) |}, m)) ;;
  '(_, m) <- ht_insert_str m tab val ;;
  Done m.

(** [multimap_get], [ptr] being the offset of a payload. *)
Definition multimap_get (m : mem) (ptr : Z) : hash_table :=
  {| header_ptr := load64 m ptr |}.

End Arena.

(** ** Drivers

    The test harness inserts a list of keys into a table, one after the
    other ([test1]), and pairs into a multi-map ([test2]). *)

Section Drivers.

Variable capacity : Z.
Variable mmap : Z -> Z -> Z.

Fixpoint insert_all (m : mem) (t : hash_table) (keys : list cstring) : outcome mem :=
  match keys with
  | [] => Done m
  | key :: rest =>
      '(_, m) <- ht_insert_str capacity mmap m t key ;;
      insert_all m t rest
  end.

(** A new arena with a new table in it. *)
Definition new_table (disk : Z -> Z) (initial_size value_size : Z)
    : outcome (hash_table * mem) :=
  m <- mem_create capacity mmap disk initial_size ;;
  ht_init capacity mmap m value_size.

(** A new table into which [keys] were inserted. *)
Definition table_of (disk : Z -> Z) (initial_size value_size : Z)
    (keys : list cstring) : outcome (hash_table * mem) :=
  '(t, m) <- new_table disk initial_size value_size ;;
  m <- insert_all m t keys ;;
  Done (t, m).

Fixpoint multimap_insert_all (m : mem) (t : hash_table)
    (pairs : list (cstring * cstring)) : outcome mem :=
  match pairs with
  | [] => Done m
  | (key, val) :: rest =>
      m <- multimap_insert_key_val capacity mmap m t key val ;;
      multimap_insert_all m t rest
  end.

(** A new multi-map (a table with payloads of 8 bytes, as in [main]) into
    which [pairs] were inserted. *)
Definition multimap_of (disk : Z -> Z) (initial_size : Z)
    (pairs : list (cstring * cstring)) : outcome (hash_table * mem) :=
  '(t, m) <- new_table disk initial_size 8 ;;
  m <- multimap_insert_all m t pairs ;;
  Done (t, m).

End Drivers.

(** [ht_check] of the test harness: the enumeration is counted, and the
    result tells whether the assertion [filled == count] holds. *)
Definition ht_check (m : mem) (t : hash_table) : bool :=
  filled m t =? u64 (Z.of_nat (length (ht_foreach m t))).

(** [bit_rep] and [print_byte] of the test harness; the result is what is
    printed ('0' is 48 and '1' is 49). *)
Definition bit_rep : list cstring :=
  [[48; 48; 48; 48]; [48; 48; 48; 49]; [48; 48; 49; 48]; [48; 48; 49; 49];
   [48; 49; 48; 48]; [48; 49; 48; 49]; [48; 49; 49; 48]; [48; 49; 49; 49];
   [49; 48; 48; 48]; [49; 48; 48; 49]; [49; 48; 49; 48]; [49; 48; 49; 49];
   [49; 49; 48; 48]; [49; 49; 48; 49]; [49; 49; 49; 48]; [49; 49; 49; 49]].

Definition print_byte (byte : Z) : cstring :=
  nth (Z.to_nat (Z.shiftr byte 4)) bit_rep [] ++
  nth (Z.to_nat (Z.land byte 0x0F)) bit_rep [].

(** [sprintf(buf, "%d", i)] for an [int]: the decimal digits, behind a
    '-' (45) when the number is negative.  Ten digits are enough for an
    [int]. *)
Fixpoint digits (fuel : nat) (n : Z) (acc : cstring) : cstring :=
  match fuel with
  | O => acc
  | S f =>
      let acc := (48 + n mod 10) :: acc in
      if n / 10 =? 0 then acc else digits f (n / 10) acc
  end.

Definition sprintf_d (i : Z) : cstring :=
  if i <? 0 then 45 :: digits 10 (- i) [] else digits 10 i [].

(** [MAKEKEY(i)] and [MAKEVAL(i)] of the test harness: the strings
    "key<i>" and "<key>val<i>". *)
Definition MAKEKEY (i : Z) : cstring := [107; 101; 121] ++ sprintf_d i.
Definition MAKEVAL (key : cstring) (i : Z) : cstring :=
  key ++ [118; 97; 108] ++ sprintf_d i.

(** The tests of the harness.  The result tells whether every assertion
    holds; what the tests print is left out.  The number of keys, [n], is
    [5000000] in [test1] and [3000] in [test2]. *)
Section Tests.

Variable capacity : Z.
Variable mmap : Z -> Z -> Z.

(** The two loops of [test1], from [i] on. *)
Fixpoint test1_insert (rounds : nat) (m : mem) (t : hash_table) (i : Z) : outcome mem :=
  match rounds with
  | O => Done m
  | S k =>
      '(_, m) <- ht_insert_str capacity mmap m t (MAKEKEY i) ;;
      test1_insert k m t (to_int (i + 1))
  end.

Fixpoint test1_check (rounds : nat) (m : mem) (t : hash_table) (i : Z) : outcome bool :=
  match rounds with
  | O => Done true
  | S k =>
      pos <- ht_lookup m t (MAKEKEY i) ;;
      let pos := to_int pos in
      if 0 <=? pos then test1_check k m t (to_int (i + 1)) else Done false
  end.

Definition test1_with (disk : Z -> Z) (n : Z) : outcome bool :=
  m <- mem_create capacity mmap disk 4000 ;;
  '(t, m) <- ht_init capacity mmap m 0 ;;
  m <- test1_insert (Z.to_nat n) m t 0 ;;
  if filled m t =? u64 n then test1_check (Z.to_nat n) m t 0 else Done false.

Definition test1 (disk : Z -> Z) : outcome bool := test1_with disk 5000000.

(** The loops of [test2]: the values of one key, the keys from [i] on, and
    the check of the keys from [i] on.  A bucket index below 0 would lead
    the check off the bucket array. *)
Fixpoint test2_values (rounds : nat) (m : mem) (t : hash_table)
    (key : cstring) (j : Z) : outcome mem :=
  match rounds with
  | O => Done m
  | S k =>
      m <- multimap_insert_key_val capacity mmap m t key (MAKEVAL key j) ;;
      test2_values k m t key (to_int (j + 1))
  end.

Fixpoint test2_insert (rounds : nat) (m : mem) (t : hash_table) (i : Z) : outcome mem :=
  match rounds with
  | O => Done m
  | S k =>
      m <- test2_values (Z.to_nat i) m t (MAKEKEY i) 0 ;;
      test2_insert k m t (to_int (i + 1))
  end.

Fixpoint test2_check (rounds : nat) (m : mem) (t : hash_table) (i : Z) : outcome bool :=
  match rounds with
  | O => Done true
  | S k =>
      bucket_idx <- ht_lookup m t (MAKEKEY i) ;;
      if bucket_idx <? 0 then Stuck
      else
        let tab := multimap_get m (ht_value m t bucket_idx) in
        if filled m tab =? u64 i then test2_check k m t (to_int (i + 1))
        else Done false
  end.

Definition test2_with (disk : Z -> Z) (n : Z) : outcome bool :=
  m <- mem_create capacity mmap disk 65536 ;;
  '(t, m) <- ht_init capacity mmap m 8 ;;
  m <- test2_insert (Z.to_nat n) m t 1 ;;
  if filled m t =? u64 n then test2_check (Z.to_nat n) m t 1 else Done false.

Definition test2 (disk : Z -> Z) : outcome bool := test2_with disk 3000.

End Tests.

(** ** FNV-1a, as the specification words it

    64-bit FNV-1a over a sequence of bytes: start from the offset basis;
    for each byte, xor it in, then multiply by the prime, modulo 2^64. *)

Definition fnv_offset_basis : Z := 0xcbf29ce484222325.
Definition fnv_prime : Z := 0x100000001b3.

Definition fnv1a (bytes : list Z) : Z :=
  fold_left (fun v b => (Z.lxor v b * fnv_prime) mod 2 ^ 64) bytes fnv_offset_basis.

(** The hash the specification describes: FNV-1a over the bytes of the key
    and its terminating NUL, with 0 replaced by 1. *)
Definition spec_hash (key : cstring) : Z :=
  let v := fnv1a (key ++ [0]) in if v =? 0 then 1 else v.

(** * Specification predicates *)

(** ** Arena *)

(** Well-formed arena without freed blocks: [next_free] is the tail block,
    the tail block records its predecessor, and the tail descriptor lies
    inside the mapping. *)
Definition arena_ok (capacity : Z) (m : mem) : Prop :=
  sizeof_mem <= block_prev m (next_free m) /\
  block_prev m (next_free m) + sizeof_mem_block <= next_free m /\
  next_free m mod 4 = 0 /\
  block_next m (next_free m) = 0 /\
  next_free m + sizeof_mem_block <= size m /\
  size m <= capacity.

(** The bytes that belong to clients: everything between the sentinels and
    the tail except the descriptor of the last block. *)
Definition used (m : mem) (x : Z) : Prop :=
  48 <= x < next_free m /\
  ~ (block_prev m (next_free m) <= x < block_prev m (next_free m) + sizeof_mem_block).

(** [n] bytes at [a] belong to clients. *)
Definition owned (m : mem) (a n : Z) : Prop :=
  forall x, a <= x < a + n -> used m x.

(** What may happen to an arena between two moments: an allocation, or a
    client writing into blocks it was given. *)
Inductive arena_step (capacity : Z) (mmap : Z -> Z -> Z) : mem -> mem -> Prop :=
| step_alloc m sz h m' :
    0 <= sz < 2 ^ 61 -> mem_alloc capacity mmap m sz = Done (h, m') ->
    arena_step capacity mmap m m'
| step_store m m' :
    (forall x, ~ used m x -> load8 m' x = load8 m x) ->
    arena_step capacity mmap m m'.

Inductive arena_later (capacity : Z) (mmap : Z -> Z -> Z) : mem -> mem -> Prop :=
| later_refl m : arena_later capacity mmap m m
| later_step m1 m2 m3 :
    arena_later capacity mmap m1 m2 -> arena_step capacity mmap m2 m3 ->
    arena_later capacity mmap m1 m3.

(** ** Hash table *)

(** Offset and content of slot [i] of the current bucket array. *)
Definition slot_pos (m : mem) (t : hash_table) (i : Z) : Z :=
  buckets_ptr m t + i * bucket_size m t.

Definition slot (m : mem) (t : hash_table) (i : Z) : bucket :=
  read_bucket m (slot_pos m t i) (bucket_size m t).

Definition occupiedb (b : bucket) : bool := negb (b_hash b =? 0).
Definition occupied (b : bucket) : Prop := b_hash b <> 0.

Definition occ (b : bucket) : list bucket := if occupiedb b then [b] else [].

(** The occupied ones among the first [n] slots of an array [f], in
    ascending order of index. *)
Fixpoint entries_upto (f : Z -> bucket) (n : nat) : list bucket :=
  match n with
  | O => []
  | S k => entries_upto f k ++ occ (f (Z.of_nat k))
  end.

Definition entries (m : mem) (t : hash_table) : list bucket :=
  entries_upto (slot m t) (Z.to_nat (bucket_count m t)).

(** Keys: NUL-free strings of bytes, of a length a C string in memory can
    have. *)
Definition is_char (c : Z) : Prop := 0 < c < 256.

Definition is_key (s : cstring) : Prop :=
  Forall is_char s /\ strlen s < 2 ^ 32.

(** The C string [s] lies at offset [ptr]. *)
Definition cstr_at (m : mem) (ptr : Z) (s : cstring) : Prop :=
  load_bytes m ptr (S (length s)) = s ++ [0].

(** The bytes a table may write: its header and its bucket array. *)
Definition table_bytes (m : mem) (t : hash_table) (x : Z) : Prop :=
  header_ptr t <= x < header_ptr t + sizeof_hash_table_header \/
  buckets_ptr m t <= x < buckets_ptr m t + bucket_count m t * bucket_size m t.

(** An occupied slot designates an interned key and stores its hash. *)
Definition key_ok (m : mem) (t : hash_table) (b : bucket) : Prop :=
  exists s, is_key s /\ cstr_at m (b_keyptr b) s /\ hash s = b_hash b /\
    (forall x, b_keyptr b <= x < b_keyptr b + strlen s + 1 ->
       used m x /\ ~ table_bytes m t x).

(** Probe distance of the entry [b] when it rests at index [i]. *)
Definition probe_dist (bc i : Z) (b : bucket) : Z := (i - b_hash b) mod bc.

(** Every slot between the home of an entry and the entry is occupied. *)
Definition contig (bc : Z) (f : Z -> bucket) : Prop :=
  forall i, 0 <= i < bc -> occupied (f i) ->
  forall j, 0 <= j < probe_dist bc i (f i) ->
    occupied (f ((b_hash (f i) + j) mod bc)).

Definition dist_ok (bc md : Z) (f : Z -> bucket) : Prop :=
  forall i, 0 <= i < bc -> occupied (f i) -> probe_dist bc i (f i) <= md.

Record ht_ok (m : mem) (t : hash_table) : Prop := {
  ok_pow : exists k, 0 < k <= 30 /\ bucket_count m t = 2 ^ k;
  ok_bs : sizeof_hash_bucket <= bucket_size m t <= 2 ^ 30;
  ok_hdr : owned m (header_ptr t) sizeof_hash_table_header;
  ok_arr : owned m (buckets_ptr m t) (bucket_count m t * bucket_size m t);
  ok_sep : header_ptr t + sizeof_hash_table_header <= buckets_ptr m t \/
           buckets_ptr m t + bucket_count m t * bucket_size m t <= header_ptr t;
  ok_keys : forall i, 0 <= i < bucket_count m t ->
            occupied (slot m t i) -> key_ok m t (slot m t i);
  ok_filled : filled m t = Z.of_nat (length (entries m t));
  ok_load : 10 * filled m t <= 9 * bucket_count m t /\
            filled m t < bucket_count m t;
  ok_dist : dist_ok (bucket_count m t) (max_dist m t) (slot m t);
  ok_md : max_dist m t < bucket_count m t;
  ok_contig : contig (bucket_count m t) (slot m t)
}.

(** [returns c Q]: the call [c] comes back (it may have left through
    [handle_error]), and when it returns normally its result satisfies [Q]. *)
Definition returns {A : Type} (c : outcome A) (Q : A -> Prop) : Prop :=
  match c with
  | Done a => Q a
  | Exit => True
  | Stuck => False
  end.

(** * Proofs *)

(** ** Outcomes *)

Lemma bind_Done {A B} (c : outcome A) (k : A -> outcome B) (b : B) :
  bind c k = Done b -> exists a, c = Done a /\ k a = Done b.
Proof. destruct c; simpl; intros H; try discriminate; eauto. Qed.

(** ** Machine integers *)

Lemma u64_small z : 0 <= z < 2 ^ 64 -> u64 z = z.
Proof. intros; unfold u64; apply Z.mod_small; assumption. Qed.

Lemma u64_range z : 0 <= u64 z < 2 ^ 64.
Proof. unfold u64; apply Z.mod_pos_bound; lia. Qed.

Lemma to_int_small z : - 2 ^ 31 <= z < 2 ^ 31 -> to_int z = z.
Proof. intros; unfold to_int; rewrite Z.mod_small; lia. Qed.

(** ** Bytes and words *)

Lemma load8_range m a : 0 <= load8 m a < 256.
Proof. unfold load8; apply Z.mod_pos_bound; lia. Qed.

Lemma load8_store8 m a v x :
  load8 (store8 m a v) x = if x =? a then v mod 256 else load8 m x.
Proof.
  unfold load8, store8; simpl. destruct (x =? a); [apply Z.mod_mod; lia | reflexivity].
Qed.

Lemma header_store8 m a v : header (store8 m a v) = header m.
Proof. reflexivity. Qed.

Lemma header_store_le n : forall m a v, header (store_le n m a v) = header m.
Proof. induction n; simpl; intros; [reflexivity | rewrite IHn; reflexivity]. Qed.

Lemma header_store_bytes bs : forall m a, header (store_bytes m a bs) = header m.
Proof. induction bs; simpl; intros; [reflexivity | rewrite IHbs; reflexivity]. Qed.

Lemma load8_store_le_other n : forall m a v x,
  x < a \/ a + Z.of_nat n <= x -> load8 (store_le n m a v) x = load8 m x.
Proof.
  induction n; intros m a v x H; [reflexivity |].
  cbn [store_le]. rewrite IHn by lia. rewrite load8_store8.
  destruct (Z.eqb_spec x a); [lia | reflexivity].
Qed.

Lemma load_le_ext n : forall m m' a,
  (forall x, a <= x < a + Z.of_nat n -> load8 m' x = load8 m x) ->
  load_le n m' a = load_le n m a.
Proof.
  induction n; intros m m' a H; [reflexivity |].
  cbn [load_le]. rewrite (H a) by lia. rewrite (IHn m m' (a + 1)); [reflexivity |].
  intros x Hx; apply H; lia.
Qed.

Lemma load_le_range n : forall m a, 0 <= load_le n m a < 256 ^ Z.of_nat n.
Proof.
  induction n; intros m a; [simpl; lia |].
  cbn [load_le]. rewrite Nat2Z.inj_succ, Z.pow_succ_r by lia.
  pose proof (IHn m (a + 1)). pose proof (load8_range m a). lia.
Qed.

Lemma load_le_store_le n : forall m a v,
  load_le n (store_le n m a v) a = v mod 256 ^ Z.of_nat n.
Proof.
  induction n; intros m a v.
  - simpl. rewrite Z.mod_1_r; reflexivity.
  - cbn [load_le store_le]. rewrite IHn.
    rewrite load8_store_le_other by lia. rewrite load8_store8, Z.eqb_refl.
    rewrite Nat2Z.inj_succ, Z.pow_succ_r by lia.
    rewrite Z.rem_mul_r by lia. reflexivity.
Qed.

Lemma load64_range m a : 0 <= load64 m a < 2 ^ 64.
Proof. exact (load_le_range 8 m a). Qed.

Lemma load64_ext m m' a :
  (forall x, a <= x < a + 8 -> load8 m' x = load8 m x) -> load64 m' a = load64 m a.
Proof. intros H; apply (load_le_ext 8); exact H. Qed.

Lemma load8_store64_other m a v x :
  x < a \/ a + 8 <= x -> load8 (store64 m a v) x = load8 m x.
Proof. intros H; apply (load8_store_le_other 8); exact H. Qed.

Lemma load64_store64_same m a v : load64 (store64 m a v) a = u64 v.
Proof. exact (load_le_store_le 8 m a v). Qed.

Lemma load64_store64_other m a v b :
  b + 8 <= a \/ a + 8 <= b -> load64 (store64 m a v) b = load64 m b.
Proof.
  intros H; apply load64_ext; intros x Hx; apply load8_store64_other; lia.
Qed.

Lemma header_store64 m a v : header (store64 m a v) = header m.
Proof. exact (header_store_le 8 m a v). Qed.

Arguments load64 : simpl never.
Arguments store64 : simpl never.

Lemma load8_store_bytes_other bs : forall m a x,
  x < a \/ a + Z.of_nat (length bs) <= x -> load8 (store_bytes m a bs) x = load8 m x.
Proof.
  induction bs as [|b bs IH]; intros m a x H; [reflexivity |].
  cbn [store_bytes length] in *. rewrite IH by lia. rewrite load8_store8.
  destruct (Z.eqb_spec x a); [lia | reflexivity].
Qed.

Lemma load64_store_bytes_other bs m a b :
  b + 8 <= a \/ a + Z.of_nat (length bs) <= b ->
  load64 (store_bytes m a bs) b = load64 m b.
Proof.
  intros H; apply load64_ext; intros x Hx; apply load8_store_bytes_other; lia.
Qed.

Lemma load_bytes_ext n : forall m m' a,
  (forall x, a <= x < a + Z.of_nat n -> load8 m' x = load8 m x) ->
  load_bytes m' a n = load_bytes m a n.
Proof.
  induction n; intros m m' a H; [reflexivity |].
  cbn [load_bytes]. rewrite (H a) by lia. f_equal. apply IHn.
  intros x Hx; apply H; lia.
Qed.

Lemma length_load_bytes n : forall m a, length (load_bytes m a n) = n.
Proof. induction n; intros; simpl; [reflexivity | rewrite IHn; reflexivity]. Qed.

Definition is_byte (b : Z) : Prop := 0 <= b < 256.

Lemma load_bytes_store_bytes bs : forall m a,
  Forall is_byte bs -> load_bytes (store_bytes m a bs) a (length bs) = bs.
Proof.
  induction bs as [|b bs IH]; intros m a H; [reflexivity |].
  inversion H; subst. cbn [store_bytes length load_bytes].
  rewrite IH by assumption. rewrite load8_store_bytes_other by lia.
  rewrite load8_store8, Z.eqb_refl. rewrite Z.mod_small by assumption. reflexivity.
Qed.

Lemma load_bytes_is_byte n : forall m a, Forall is_byte (load_bytes m a n).
Proof.
  induction n; intros; simpl; constructor; [apply load8_range | apply IHn].
Qed.

Lemma load8_load_bytes n : forall m m' a a',
  load_bytes m' a' n = load_bytes m a n ->
  forall i, 0 <= i < Z.of_nat n -> load8 m' (a' + i) = load8 m (a + i).
Proof.
  induction n; intros m m' a a' H i Hi; [lia |].
  cbn [load_bytes] in H. injection H as H0 H1.
  destruct (Z.eq_dec i 0) as [->|Hne]; [rewrite !Z.add_0_r; exact H0 |].
  replace (a' + i) with (a' + 1 + (i - 1)) by lia.
  replace (a + i) with (a + 1 + (i - 1)) by lia.
  apply IHn; [exact H1 | lia].
Qed.

(** ** Arena *)

Lemma align4 x : 0 <= x ->
  Z.shiftl (Z.shiftr x 2 + 1) 2 = 4 * (x / 4 + 1).
Proof.
  intros Hx. rewrite Z.shiftl_mul_pow2, Z.shiftr_div_pow2 by lia.
  change (2 ^ 2) with 4. lia.
Qed.

Lemma align4_bounds x : 0 <= x ->
  x < 4 * (x / 4 + 1) <= x + 4 /\ (4 * (x / 4 + 1)) mod 4 = 0.
Proof.
  intros Hx. pose proof (Z.div_mod x 4 ltac:(lia)).
  pose proof (Z.mod_pos_bound x 4 ltac:(lia)).
  split; [lia |]. rewrite Z.mul_comm. apply Z.mod_mul; lia.
Qed.

Lemma grow_size_bounds x : 0 <= x < 2 ^ 63 ->
  x < grow_size x < 2 ^ 64.
Proof.
  intros Hx. unfold grow_size.
  assert (H1 : x <= 3 * x / 2 < 2 ^ 63 + 2 ^ 62).
  { split; [apply Z.div_le_lower_bound; lia | apply Z.div_lt_upper_bound; lia]. }
  rewrite (u64_small (3 * x / 2)) by lia.
  rewrite Z.shiftl_mul_pow2, Z.shiftr_div_pow2 by lia.
  change (2 ^ 8) with 256.
  pose proof (Z.div_mod (3 * x / 2) 256 ltac:(lia)).
  pose proof (Z.mod_pos_bound (3 * x / 2) 256 ltac:(lia)).
  rewrite u64_small by lia. lia.
Qed.

Lemma load64_store64_eq m a v b : a = b -> load64 (store64 m a v) b = u64 v.
Proof. intros <-; apply load64_store64_same. Qed.

Ltac mem_step :=
  match goal with
  | |- context [load64 (store64 ?m ?a ?v) ?b] =>
      first [ rewrite (load64_store64_eq m a v b) by lia
            | rewrite (load64_store64_other m a v b) by lia ]
  | |- context [load8 (store64 ?m ?a ?v) ?b] =>
      rewrite (load8_store64_other m a v b) by lia
  | |- context [load64 (store_bytes ?m ?a ?bs) ?b] =>
      rewrite (load64_store_bytes_other bs m a b) by lia
  | |- context [load8 (store_bytes ?m ?a ?bs) ?b] =>
      rewrite (load8_store_bytes_other bs m a b) by lia
  end.

Ltac mem_simp := repeat mem_step.

Lemma used_below m x : used m x -> 48 <= x < next_free m.
Proof. intros [H _]; exact H. Qed.

Lemma next_free_range m : 0 <= next_free m < 2 ^ 64.
Proof. apply load64_range. Qed.

Ltac unfold_arena :=
  unfold arena_ok, mem_init, next_free, size, block_prev, block_next,
    set_next_free, set_size, set_block_prev, set_block_next,
    sizeof_mem, sizeof_mem_block in *.

Lemma mem_create_ok cap mmap disk isz :
  cap < 2 ^ 62 -> 48 <= isz <= cap ->
  exists m, mem_create cap mmap disk isz = Done m /\ arena_ok cap m /\
            next_free m = 32 /\ size m = isz.
Proof.
  intros Hc H. unfold mem_create.
  replace ((0 <? isz) && (isz <=? cap)) with true
    by (symmetry; apply andb_true_iff; split; [apply Z.ltb_lt | apply Z.leb_le]; lia).
  eexists; split; [reflexivity |].
  unfold_arena. mem_simp.
  change (u64 (16 + 16)) with 32. change (u64 16) with 16. change (u64 0) with 0.
  mem_simp. change (u64 16) with 16. change (u64 0) with 0.
  rewrite (u64_small isz) by lia.
  repeat split; try lia; reflexivity.
Qed.

Lemma find_free_tail fuel m needed :
  block_next m (next_free m) = 0 ->
  find_free (S fuel) m (next_free m) needed = Done (next_free m).
Proof.
  intros H. cbn [find_free]. rewrite H. rewrite Z.eqb_refl, orb_true_r. reflexivity.
Qed.

Lemma mem_alloc_spec cap mmap m sz :
  cap < 2 ^ 62 -> arena_ok cap m -> 0 <= sz < 2 ^ 61 ->
  mem_alloc cap mmap m sz = Exit \/
  exists m', mem_alloc cap mmap m sz = Done (next_free m + 16, m') /\
    arena_ok cap m' /\
    block_prev m' (next_free m') = next_free m /\
    next_free m + 16 + sz < next_free m' /\
    (forall x, 16 <= x < next_free m ->
       ~ (block_prev m (next_free m) + 8 <= x < block_prev m (next_free m) + 16) ->
       load8 m' x = load8 m x).
Proof.
  intros Hc (Hp1 & Hp2 & Hal & Hnx & Hsz & Hcap) Hs.
  unfold mem_alloc. rewrite find_free_tail by assumption. cbn [bind].
  rewrite Hnx, Z.eqb_refl.
  set (t := next_free m) in *. set (p := block_prev m t) in *.
  unfold sizeof_mem, sizeof_mem_block in *.
  pose proof (next_free_range m) as Ht. fold t in Ht.
  assert (Ht' : t < 2 ^ 62) by lia.
  rewrite (u64_small (16 + sz)) by lia.
  rewrite (u64_small (t + (16 + sz))) by lia.
  rewrite align4 by lia.
  pose proof (align4_bounds (t + (16 + sz)) ltac:(lia)) as (Hn1 & Hn2).
  set (next := 4 * ((t + (16 + sz)) / 4 + 1)) in *. clearbody next.
  rewrite (u64_small next) by lia.
  rewrite (u64_small (next + 16)) by lia.
  rewrite (u64_small (t + 16)) by lia.
  destruct (Z.leb_spec (size m) (next + 16)) as [Hgrow | Hfit].
  - (* the file grows *)
    unfold mem_resize.
    pose proof (grow_size_bounds (next + 16) ltac:(lia)) as Hg.
    set (g := grow_size (next + 16)) in *.
    destruct (Z.leb_spec g cap) as [Hok | Hbig]; [| left; reflexivity].
    right. cbn [bind]. eexists; split; [reflexivity |].
    unfold_arena. fold t. fold p.
    assert (Hg64 : u64 g = g) by (apply u64_small; lia).
    assert (Hl8 : forall m0 x, load8 {| header := mmap (header (store8 m g 0)) g; file := file m0 |} x = load8 m0 x) by reflexivity.
    assert (Hl64 : forall m0 x, load64 {| header := mmap (header (store8 m g 0)) g; file := file m0 |} x = load64 m0 x)
      by (intros; apply load64_ext; intros; apply Hl8).
    assert (Hpr : p < 2 ^ 64) by lia.
    mem_simp. rewrite ?(u64_small next), ?(u64_small t), ?Hg64 by lia.
    mem_simp. rewrite ?(u64_small next), ?(u64_small t), ?Hg64 by lia.
    change (u64 0) with 0.
    repeat split; try lia.
    intros x Hx Hnp. mem_simp. rewrite Hl8. rewrite load8_store8.
    destruct (Z.eqb_spec x g); [lia | reflexivity].
  - right. cbn [bind]. eexists; split; [reflexivity |].
    unfold_arena. fold t. fold p.
    mem_simp. rewrite ?(u64_small next), ?(u64_small t) by lia.
    mem_simp. rewrite ?(u64_small next), ?(u64_small t) by lia.
    change (u64 0) with 0.
    repeat split; try lia.
    intros x Hx Hnp. mem_simp. reflexivity.
Qed.

(** ** Occupied entries of an array *)

Lemma occupiedb_spec b : reflect (occupied b) (occupiedb b).
Proof.
  unfold occupied, occupiedb. destruct (Z.eqb_spec (b_hash b) 0); constructor; lia.
Qed.

Lemma occ_occupied b : occupied b -> occ b = [b].
Proof. unfold occ; destruct (occupiedb_spec b); tauto. Qed.

Lemma occ_empty b : ~ occupied b -> occ b = [].
Proof. unfold occ; destruct (occupiedb_spec b); tauto. Qed.

Lemma entries_upto_ext f g n :
  (forall i, 0 <= i < Z.of_nat n -> g i = f i) ->
  entries_upto g n = entries_upto f n.
Proof.
  induction n; intros H; [reflexivity |].
  cbn [entries_upto]. rewrite IHn by (intros; apply H; lia).
  rewrite H by lia. reflexivity.
Qed.

Lemma entries_upto_update f g n p :
  0 <= p < Z.of_nat n ->
  (forall i, 0 <= i < Z.of_nat n -> i <> p -> g i = f i) ->
  Permutation (occ (f p) ++ entries_upto g n) (occ (g p) ++ entries_upto f n).
Proof.
  induction n; intros Hp H; [lia |].
  cbn [entries_upto].
  destruct (Z.eq_dec p (Z.of_nat n)) as [-> | Hne].
  - rewrite (entries_upto_ext f g n) by (intros; apply H; lia).
    rewrite !app_assoc.
    etransitivity; [apply Permutation_app_comm |].
    etransitivity; [| apply Permutation_app_comm].
    rewrite !app_assoc. apply Permutation_app_tail, Permutation_app_comm.
  - rewrite (H (Z.of_nat n)) by lia.
    rewrite !app_assoc. apply Permutation_app_tail.
    apply IHn; [lia | intros; apply H; lia].
Qed.

Lemma in_entries_upto f n b :
  In b (entries_upto f n) <->
  exists i, 0 <= i < Z.of_nat n /\ f i = b /\ occupied b.
Proof.
  induction n; cbn [entries_upto].
  - split; [intros [] | intros (i & Hi & _); lia].
  - rewrite in_app_iff, IHn. split.
    + intros [(i & Hi & E & O) | Hin].
      * exists i; repeat split; try assumption; lia.
      * unfold occ in Hin. destruct (occupiedb_spec (f (Z.of_nat n))) as [O | O];
          [| destruct Hin].
        destruct Hin as [<- | []]. exists (Z.of_nat n); repeat split; try assumption; lia.
    + intros (i & Hi & E & O).
      destruct (Z.eq_dec i (Z.of_nat n)) as [-> | Hne].
      * right. subst b. rewrite occ_occupied by assumption. left; reflexivity.
      * left. exists i; repeat split; try assumption; lia.
Qed.

Lemma length_entries_upto f n : (length (entries_upto f n) <= n)%nat.
Proof.
  induction n; cbn [entries_upto]; [simpl; lia |].
  rewrite length_app. unfold occ. destruct (occupiedb _); simpl; lia.
Qed.

Lemma entries_upto_full f n :
  length (entries_upto f n) = n ->
  forall i, 0 <= i < Z.of_nat n -> occupied (f i).
Proof.
  induction n; intros H i Hi; [lia |].
  cbn [entries_upto] in H. rewrite length_app in H.
  pose proof (length_entries_upto f n).
  unfold occ in H. destruct (occupiedb_spec (f (Z.of_nat n))) as [O | O]; simpl in H.
  - destruct (Z.eq_dec i (Z.of_nat n)) as [-> | Hne]; [exact O |].
    apply IHn; lia.
  - lia.
Qed.

Lemma entries_upto_none f n :
  (forall i, 0 <= i < Z.of_nat n -> ~ occupied (f i)) -> entries_upto f n = [].
Proof.
  induction n; intros H; [reflexivity |].
  cbn [entries_upto]. rewrite IHn by (intros; apply H; lia).
  rewrite occ_empty by (apply H; lia). reflexivity.
Qed.

(** Some slot is empty when fewer entries than slots are occupied; the
    first one met from [pos] on, going round, is at some distance [k]. *)
Lemma first_empty f bc pos :
  0 <= pos < bc ->
  (exists e, 0 <= e < bc /\ ~ occupied (f e)) ->
  exists k, 0 <= k < bc /\ ~ occupied (f ((pos + k) mod bc)) /\
            forall j, 0 <= j < k -> occupied (f ((pos + j) mod bc)).
Proof.
  intros Hpos (e & He & Hemp).
  assert (Hex : exists k, 0 <= k < bc /\ ~ occupied (f ((pos + k) mod bc))).
  { exists ((e - pos) mod bc). split; [apply Z.mod_pos_bound; lia |].
    rewrite Zplus_mod_idemp_r. replace (pos + (e - pos)) with e by lia.
    rewrite Z.mod_small by lia. exact Hemp. }
  clear e He Hemp.
  assert (Hall : forall n : nat,
     (forall j, 0 <= j < Z.of_nat n -> occupied (f ((pos + j) mod bc))) \/
     exists k, 0 <= k < Z.of_nat n /\ ~ occupied (f ((pos + k) mod bc)) /\
               forall j, 0 <= j < k -> occupied (f ((pos + j) mod bc))).
  { induction n as [| n [IH | IH]].
    - left; intros; lia.
    - destruct (occupiedb_spec (f ((pos + Z.of_nat n) mod bc))) as [O | O].
      + left. intros j Hj. destruct (Z.eq_dec j (Z.of_nat n)) as [-> | ?];
          [exact O | apply IH; lia].
      + right. exists (Z.of_nat n). repeat split; try lia; assumption.
    - right. destruct IH as (k & Hk & H1 & H2). exists k; repeat split; try lia; assumption. }
  destruct Hex as (k0 & Hk0 & Hn0).
  destruct (Hall (Z.to_nat bc)) as [H | (k & Hk & H1 & H2)].
  - exfalso. apply Hn0. apply H. lia.
  - exists k; repeat split; try lia; assumption.
Qed.

(** ** Modular arithmetic of probing *)

Lemma pow2_range k : 0 < k <= 30 -> 2 <= 2 ^ k <= 2 ^ 30.
Proof.
  intros H. split.
  - change 2 with (2 ^ 1) at 1. apply Z.pow_le_mono_r; lia.
  - apply Z.pow_le_mono_r; lia.
Qed.

Lemma u64_mod_pow2 a k : 0 < k <= 30 -> u64 a mod 2 ^ k = a mod 2 ^ k.
Proof.
  intros H. unfold u64. apply Z.mod_mod_divide.
  exists (2 ^ (64 - k)). rewrite <- Z.pow_add_r by lia. f_equal; lia.
Qed.

Lemma mod_succ bc p : 0 <= p < bc -> (p + 1) mod bc = if p + 1 =? bc then 0 else p + 1.
Proof.
  intros H. destruct (Z.eqb_spec (p + 1) bc) as [E | E].
  - rewrite E. apply Z_mod_same_full.
  - apply Z.mod_small; lia.
Qed.

Lemma mod_add_assoc bc a b c : ((a + b) mod bc + c) mod bc = (a + (b + c)) mod bc.
Proof. rewrite Zplus_mod_idemp_l. f_equal; lia. Qed.

Lemma home_plus_dist bc i h : 0 < bc -> 0 <= i < bc -> (h + (i - h) mod bc) mod bc = i.
Proof.
  intros Hbc Hi. rewrite Zplus_mod_idemp_r. replace (h + (i - h)) with i by lia.
  apply Z.mod_small; lia.
Qed.

Lemma dist_of_home_plus bc h d : 0 < bc -> 0 <= d < bc -> ((h + d) mod bc - h) mod bc = d.
Proof.
  intros Hbc Hd. rewrite Zminus_mod_idemp_l. replace (h + d - h) with d by lia.
  apply Z.mod_small; lia.
Qed.

Lemma mod_plus_inj bc p j1 j2 :
  0 < bc -> 0 <= j1 < bc -> 0 <= j2 < bc ->
  (p + j1) mod bc = (p + j2) mod bc -> j1 = j2.
Proof.
  intros Hbc H1 H2 E.
  assert (E' : ((p + j1) mod bc - p) mod bc = ((p + j2) mod bc - p) mod bc) by (rewrite E; reflexivity).
  rewrite !dist_of_home_plus in E' by lia. exact E'.
Qed.

(** ** Buckets in the file *)

Definition bucket_wf (bsz : Z) (b : bucket) : Prop :=
  0 <= b_hash b < 2 ^ 64 /\ 0 <= b_keyptr b < 2 ^ 64 /\
  Forall is_byte (b_value b) /\ length (b_value b) = Z.to_nat (bsz - 16).

Lemma read_bucket_wf m pos bsz : bucket_wf bsz (read_bucket m pos bsz).
Proof.
  unfold bucket_wf, read_bucket; cbn [b_hash b_keyptr b_value].
  repeat split; try apply load64_range; [apply load_bytes_is_byte | apply length_load_bytes].
Qed.

Lemma read_bucket_ext m m' pos bsz :
  (forall x, pos <= x < pos + Z.max 16 bsz -> load8 m' x = load8 m x) ->
  read_bucket m' pos bsz = read_bucket m pos bsz.
Proof.
  intros H. unfold read_bucket. f_equal.
  - apply load64_ext; intros; apply H; lia.
  - apply load64_ext; intros; apply H; lia.
  - apply load_bytes_ext; intros; apply H; lia.
Qed.

Lemma load8_write_bucket_other m pos b x :
  x < pos \/ pos + 16 + Z.of_nat (length (b_value b)) <= x ->
  load8 (write_bucket m pos b) x = load8 m x.
Proof.
  intros H. unfold write_bucket. mem_simp. reflexivity.
Qed.

Lemma read_write_bucket m pos bsz b :
  bucket_wf bsz b -> read_bucket (write_bucket m pos b) pos bsz = b.
Proof.
  intros (Hh & Hk & Hv & Hl). unfold read_bucket, write_bucket. destruct b as [h k v]; cbn [b_hash b_keyptr b_value] in *.
  f_equal.
  - mem_simp. apply u64_small; assumption.
  - mem_simp. apply u64_small; assumption.
  - rewrite <- Hl. apply load_bytes_store_bytes; assumption.
Qed.

(** ** Layout of a table *)

Definition layout (m : mem) (t : hash_table) : Prop :=
  (exists k, 0 < k <= 30 /\ bucket_count m t = 2 ^ k) /\
  sizeof_hash_bucket <= bucket_size m t <= 2 ^ 30 /\
  (header_ptr t + sizeof_hash_table_header <= buckets_ptr m t \/
   buckets_ptr m t + bucket_count m t * bucket_size m t <= header_ptr t).

Lemma layout_bc m t : layout m t -> 2 <= bucket_count m t <= 2 ^ 30.
Proof. intros ((k & Hk & E) & _). rewrite E. apply pow2_range; exact Hk. Qed.

Lemma slot_bounds bc bs i : 0 <= i < bc -> 0 < bs -> 0 <= i * bs /\ i * bs + bs <= bc * bs.
Proof. intros; nia. Qed.

Lemma slot_apart bs i j : 0 < bs -> i <> j -> i * bs + bs <= j * bs \/ j * bs + bs <= i * bs.
Proof. intros; nia. Qed.

Lemma ht_bucket_slot m t i :
  layout m t -> 0 <= i < bucket_count m t -> ht_bucket m t (u64 i) = slot_pos m t i.
Proof.
  intros L Hi. pose proof (layout_bc m t L). destruct L as (_ & Hbs & _).
  unfold ht_bucket, ht_bucket_rel, slot_pos, sizeof_hash_bucket in *.
  rewrite (u64_small i) by lia. rewrite u64_small by nia. reflexivity.
Qed.

Lemma ht_bucket_slot' m t i :
  layout m t -> 0 <= i < bucket_count m t -> ht_bucket m t i = slot_pos m t i.
Proof.
  intros L Hi. rewrite <- (ht_bucket_slot m t i L Hi).
  pose proof (layout_bc m t L). rewrite (u64_small i) by lia. reflexivity.
Qed.

Lemma load64_slot m t i : load64 m (slot_pos m t i) = b_hash (slot m t i).
Proof. reflexivity. Qed.

(** The fields of the header depend on the bytes of the header only. *)
Lemma header_fields_ext m m' t :
  (forall x, header_ptr t <= x < header_ptr t + sizeof_hash_table_header ->
     load8 m' x = load8 m x) ->
  bucket_count m' t = bucket_count m t /\ bucket_size m' t = bucket_size m t /\
  filled m' t = filled m t /\ max_dist m' t = max_dist m t /\
  buckets_ptr m' t = buckets_ptr m t.
Proof.
  intros H. unfold bucket_count, bucket_size, filled, max_dist, buckets_ptr,
    sizeof_hash_table_header in *.
  repeat split; apply load64_ext; intros; apply H; lia.
Qed.

Lemma slot_ext m m' t i :
  bucket_size m' t = bucket_size m t -> buckets_ptr m' t = buckets_ptr m t ->
  (forall x, slot_pos m t i <= x < slot_pos m t i + Z.max 16 (bucket_size m t) ->
     load8 m' x = load8 m x) ->
  slot m' t i = slot m t i.
Proof.
  intros E1 E2 H. unfold slot, slot_pos in *. rewrite E1, E2.
  apply read_bucket_ext. exact H.
Qed.

(** Writing one slot and the [max_dist] field. *)
Lemma place_spec m t pos c v :
  layout m t -> 0 <= pos < bucket_count m t ->
  bucket_wf (bucket_size m t) c -> 0 <= v < 2 ^ 64 ->
  let m1 := set_max_dist (write_bucket m (slot_pos m t pos) c) t v in
  bucket_count m1 t = bucket_count m t /\ bucket_size m1 t = bucket_size m t /\
  filled m1 t = filled m t /\ buckets_ptr m1 t = buckets_ptr m t /\
  max_dist m1 t = v /\
  max_dist (write_bucket m (slot_pos m t pos) c) t = max_dist m t /\
  bucket_count (write_bucket m (slot_pos m t pos) c) t = bucket_count m t /\
  slot m1 t pos = c /\
  (forall i, 0 <= i < bucket_count m t -> i <> pos -> slot m1 t i = slot m t i) /\
  (forall x, ~ table_bytes m t x -> load8 m1 x = load8 m x).
Proof.
  intros L Hpos Hwf Hv64 m1. pose proof Hwf as (Hh & Hk & Hv & Hl).
  pose proof (layout_bc m t L) as Hbc. destruct L as (_ & Hbs & Hsep).
  unfold sizeof_hash_bucket, sizeof_hash_table_header in *.
  pose proof (slot_bounds _ (bucket_size m t) pos Hpos ltac:(lia)) as Hsb.
  assert (Hlen : Z.of_nat (length (b_value c)) = bucket_size m t - 16) by lia.
  assert (F : forall x, x < slot_pos m t pos \/ slot_pos m t pos + bucket_size m t <= x ->
              load8 (write_bucket m (slot_pos m t pos) c) x = load8 m x).
  { intros x Hx. apply load8_write_bucket_other. lia. }
  assert (F1 : forall x, (x < slot_pos m t pos \/ slot_pos m t pos + bucket_size m t <= x) ->
              (x < header_ptr t + 24 \/ header_ptr t + 32 <= x) ->
              load8 m1 x = load8 m x).
  { intros x Hx Hx'. unfold m1, set_max_dist. mem_simp. apply F; exact Hx. }
  unfold slot_pos in *.
  destruct (header_fields_ext m (write_bucket m (buckets_ptr m t + pos * bucket_size m t) c) t)
    as (W1 & W2 & W3 & W4 & W5).
  { intros x Hx. apply F. unfold sizeof_hash_table_header in Hx. lia. }
  assert (E1 : bucket_count m1 t = bucket_count m t).
  { unfold m1, set_max_dist, bucket_count. mem_simp. exact W1. }
  assert (E2 : bucket_size m1 t = bucket_size m t).
  { unfold m1, set_max_dist, bucket_size. mem_simp. exact W2. }
  assert (E3 : filled m1 t = filled m t).
  { unfold m1, set_max_dist, filled. mem_simp. exact W3. }
  assert (E5 : buckets_ptr m1 t = buckets_ptr m t).
  { unfold m1, set_max_dist, buckets_ptr. mem_simp. exact W5. }
  repeat split; try assumption.
  - unfold m1, set_max_dist, max_dist. mem_simp. apply u64_small; assumption.
  - unfold slot, slot_pos. rewrite E2, E5.
    rewrite (read_bucket_ext (write_bucket m (buckets_ptr m t + pos * bucket_size m t) c) m1).
    + apply read_write_bucket. exact Hwf.
    + intros x Hx. unfold m1, set_max_dist. mem_simp. reflexivity.
  - intros i Hi Hne. apply slot_ext; try assumption.
    intros x Hx. unfold slot_pos in Hx.
    pose proof (slot_bounds _ (bucket_size m t) i Hi ltac:(lia)).
    pose proof (slot_apart (bucket_size m t) i pos ltac:(lia) Hne).
    apply F1; lia.
  - intros x Hx. unfold table_bytes, sizeof_hash_table_header in Hx.
    apply F1; lia.
Qed.

(** ** Robin Hood placement on an array *)

(** [g] is [f] with [c] put at index [pos]. *)
Definition placed (bc : Z) (f g : Z -> bucket) (pos : Z) (c : bucket) : Prop :=
  g pos = c /\ forall i, 0 <= i < bc -> i <> pos -> g i = f i.

Lemma contig_place bc f g pos c d :
  0 < bc -> contig bc f -> placed bc f g pos c -> occupied c ->
  0 <= d < bc -> pos = (b_hash c + d) mod bc ->
  (forall j, 0 <= j < d -> occupied (f ((b_hash c + j) mod bc))) ->
  contig bc g.
Proof.
  intros Hbc Hf (Hg1 & Hg2) Hc Hd Hpos Hrun i Hi Hocc j Hj.
  assert (Hmono : forall x, 0 <= x < bc -> occupied (f x) -> occupied (g x)).
  { intros x Hx Hox. destruct (Z.eq_dec x pos) as [-> | Hne];
      [rewrite Hg1; exact Hc | rewrite Hg2 by assumption; exact Hox]. }
  destruct (Z.eq_dec i pos) as [-> | Hne].
  - rewrite Hg1 in *. unfold probe_dist in Hj. rewrite Hpos in Hj.
    rewrite dist_of_home_plus in Hj by lia.
    apply Hmono; [apply Z.mod_pos_bound; lia | apply Hrun; lia].
  - rewrite (Hg2 i Hi Hne) in *.
    apply Hmono; [apply Z.mod_pos_bound; lia | apply (Hf i); assumption].
Qed.

Lemma dist_ok_place bc md md' f g pos c :
  dist_ok bc md f -> placed bc f g pos c ->
  probe_dist bc pos c <= md' -> md <= md' -> dist_ok bc md' g.
Proof.
  intros Hf (Hg1 & Hg2) Hc Hmd i Hi Hocc.
  destruct (Z.eq_dec i pos) as [-> | Hne].
  - rewrite Hg1. exact Hc.
  - rewrite (Hg2 i Hi Hne) in *. specialize (Hf i Hi Hocc). lia.
Qed.

Lemma placed_entries bc f g pos c :
  0 <= pos < bc -> placed bc f g pos c -> occupied c ->
  Permutation (occ (f pos) ++ entries_upto g (Z.to_nat bc))
              (c :: entries_upto f (Z.to_nat bc)).
Proof.
  intros Hpos (Hg1 & Hg2) Hc.
  change (c :: entries_upto f (Z.to_nat bc)) with ([c] ++ entries_upto f (Z.to_nat bc)).
  rewrite <- (occ_occupied c Hc), <- Hg1.
  apply entries_upto_update; [lia |].
  intros i Hi Hne. apply Hg2; lia.
Qed.

Lemma layout_ext m m' t :
  layout m t -> bucket_count m' t = bucket_count m t ->
  bucket_size m' t = bucket_size m t -> buckets_ptr m' t = buckets_ptr m t ->
  layout m' t.
Proof. unfold layout. intros L -> -> ->. exact L. Qed.

Lemma table_bytes_ext m m' t x :
  bucket_count m' t = bucket_count m t ->
  bucket_size m' t = bucket_size m t -> buckets_ptr m' t = buckets_ptr m t ->
  table_bytes m' t x <-> table_bytes m t x.
Proof. unfold table_bytes. intros -> -> ->. tauto. Qed.

(** ** The Robin Hood loop *)

Lemma run_short (f : Z -> bucket) bc h d e :
  0 < bc ->
  (forall j, 0 <= j < d -> occupied (f ((h + j) mod bc))) ->
  0 <= e < bc -> ~ occupied (f e) -> d < bc.
Proof.
  intros Hbc Hrun He Hemp.
  destruct (Z_lt_dec d bc) as [Hlt | Hge]; [exact Hlt | exfalso].
  apply Hemp. rewrite <- (home_plus_dist bc e h) by lia.
  apply Hrun. pose proof (Z.mod_pos_bound (e - h) bc ltac:(lia)). lia.
Qed.

Lemma robin_hood_spec t : forall (k fuel : nat) m c pos d result,
  layout m t ->
  bucket_wf (bucket_size m t) c -> occupied c ->
  0 <= pos < bucket_count m t -> 0 <= d ->
  pos = (b_hash c + d) mod bucket_count m t ->
  (forall j, 0 <= j < d ->
     occupied (slot m t ((b_hash c + j) mod bucket_count m t))) ->
  Z.of_nat k < bucket_count m t ->
  ~ occupied (slot m t ((pos + Z.of_nat k) mod bucket_count m t)) ->
  (forall j, 0 <= j < Z.of_nat k ->
     occupied (slot m t ((pos + j) mod bucket_count m t))) ->
  contig (bucket_count m t) (slot m t) ->
  dist_ok (bucket_count m t) (max_dist m t) (slot m t) ->
  max_dist m t < bucket_count m t ->
  (k < fuel)%nat ->
  -1 <= result < bucket_count m t ->
  exists r m', robin_hood fuel m t c pos d result = Done (r, m') /\
    bucket_count m' t = bucket_count m t /\
    bucket_size m' t = bucket_size m t /\
    filled m' t = filled m t /\
    buckets_ptr m' t = buckets_ptr m t /\
    max_dist m t <= max_dist m' t < bucket_count m t /\
    (forall x, ~ table_bytes m t x -> load8 m' x = load8 m x) /\
    (forall i, 0 <= i < bucket_count m t ->
       (forall j, 0 <= j <= Z.of_nat k -> i <> (pos + j) mod bucket_count m t) ->
       slot m' t i = slot m t i) /\
    contig (bucket_count m t) (slot m' t) /\
    dist_ok (bucket_count m t) (max_dist m' t) (slot m' t) /\
    Permutation (entries_upto (slot m' t) (Z.to_nat (bucket_count m t)))
                (c :: entries_upto (slot m t) (Z.to_nat (bucket_count m t))) /\
    (result < 0 -> 0 <= r < bucket_count m t /\ slot m' t r = c) /\
    (0 <= result -> r = result).
Proof.
  induction k as [| k IH];
    intros fuel m c pos d result L Hwf Hc Hpos Hd Hhome Hrun Hk Hemp Hocc Hct Hds Hmd Hfuel Hres.
  all: pose proof (layout_bc m t L) as Hbc.
  all: set (bc := bucket_count m t) in *.
  all: assert (Hdlt : d < bc)
    by (eapply (run_short (slot m t) bc (b_hash c) d);
        [lia | exact Hrun | apply Z.mod_pos_bound; lia | exact Hemp]).
  all: destruct fuel as [| fuel]; [lia |].
  all: cbn [robin_hood].
  all: rewrite (ht_bucket_slot m t pos L Hpos), load64_slot.
  all: pose proof (max_dist_range := load64_range m (header_ptr t + 24)).
  all: fold (max_dist m t) in max_dist_range.
  - (* the slot is empty *)
    rewrite Z.add_0_r, (Z.mod_small pos) in Hemp by lia.
    unfold occupied in Hemp.
    replace (b_hash (slot m t pos) =? 0) with true by (symmetry; apply Z.eqb_eq; lia).
    destruct (place_spec m t pos c (Z.max (max_dist m t) d) L Hpos Hwf ltac:(lia))
      as (E1 & E2 & E3 & E4 & E5 & E6 & E7 & E8 & E9 & E10).
    rewrite E6.
    eexists _, _. split; [reflexivity |].
    set (m1 := set_max_dist _ t _) in *.
    assert (Hpl : placed bc (slot m t) (slot m1 t) pos c) by (split; assumption).
    rewrite E5. fold bc in E1. 
    repeat split; try assumption; try lia.
    + intros i Hi Hnv. apply E9; [exact Hi |].
      specialize (Hnv 0 ltac:(lia)). rewrite Z.add_0_r, Z.mod_small in Hnv by lia. exact Hnv.
    + apply (contig_place bc (slot m t) (slot m1 t) pos c d); try assumption; lia.
    + apply (dist_ok_place bc (max_dist m t) _ (slot m t) (slot m1 t) pos c); try assumption; try lia.
      unfold probe_dist. rewrite Hhome. fold bc. rewrite dist_of_home_plus by lia. lia.
    + pose proof (placed_entries bc (slot m t) (slot m1 t) pos c Hpos Hpl Hc) as P.
      rewrite occ_empty in P by (unfold occupied; lia). exact P.
    + destruct (Z.ltb_spec result 0); lia.
    + destruct (Z.ltb_spec result 0); lia.
    + destruct (Z.ltb_spec result 0); [exact E8 | lia].
    + intros Hr. destruct (Z.ltb_spec result 0); [lia | reflexivity].
  - (* the slot is occupied *)
    assert (Hb : occupied (slot m t pos)).
    { specialize (Hocc 0 ltac:(lia)). rewrite Z.add_0_r, Z.mod_small in Hocc by lia. exact Hocc. }
    set (b := slot m t pos) in *.
    replace (b_hash b =? 0) with false by (symmetry; apply Z.eqb_neq; exact Hb).
    pose proof L as ((kk & Hkk & Ebc) & Hbs & Hsep).
    replace (u64 (pos - b_hash b) mod bucket_count m t) with (probe_dist bc pos b)
      by (unfold probe_dist, bc; rewrite Ebc; symmetry; apply u64_mod_pow2; lia).
    assert (Hx : 0 <= probe_dist bc pos b < bc) by (apply Z.mod_pos_bound; lia).
    set (x := probe_dist bc pos b) in *.
    rewrite (to_int_small x), (u64_small x), (to_int_small (pos + 1)),
      (u64_small (pos + 1)) by lia.
    set (pos' := (pos + 1) mod bc).
    assert (Hpos' : 0 <= pos' < bc) by (apply Z.mod_pos_bound; lia).
    assert (Hshift : forall j, (pos' + j) mod bc = (pos + (1 + j)) mod bc)
      by (intros; apply mod_add_assoc).
    assert (Hfar : forall j, 0 <= j <= Z.of_nat k -> pos <> (pos' + j) mod bc).
    { intros j Hj E. rewrite Hshift in E.
      rewrite <- (Z.mod_small pos bc) in E at 1 by lia.
      rewrite <- (Z.add_0_r pos) in E at 1.
      apply mod_plus_inj in E; lia. }
    destruct (Z.ltb_spec x d) as [Hswap | Hkeep]; cbv beta iota zeta.
    + (* steal from the rich *)
      change (read_bucket m (slot_pos m t pos) (bucket_size m t)) with b.
      destruct (place_spec m t pos c (Z.max (max_dist m t) d) L Hpos Hwf ltac:(lia))
        as (E1 & E2 & E3 & E4 & E5 & E6 & E7 & E8 & E9 & E10).
      rewrite E6. set (m1 := set_max_dist _ t _) in *.
      rewrite E1. fold bc. rewrite <- (mod_succ bc pos Hpos). fold pos'.
      assert (Hpl : placed bc (slot m t) (slot m1 t) pos c) by (split; assumption).
      assert (Hmono : forall i, 0 <= i < bc -> occupied (slot m t i) -> occupied (slot m1 t i)).
      { intros i Hi Ho. destruct (Z.eq_dec i pos) as [-> | Hne];
          [rewrite E8; exact Hc | rewrite E9 by assumption; exact Ho]. }
      assert (Hhb : pos = (b_hash b + x) mod bc)
        by (symmetry; apply home_plus_dist; lia).
      rewrite (u64_small (x + 1)) by lia.
      set (result' := if result <? 0 then pos else result).
      assert (Hr' : result < 0 /\ result' = pos \/ 0 <= result /\ result' = result)
        by (unfold result'; destruct (Z.ltb_spec result 0); lia).
      clearbody result'.
      destruct (IH fuel m1 b pos' (x + 1) result')
        as (r & m' & Hrun' & F1 & F2 & F3 & F4 & F5 & F6 & F7 & F8 & F9 & F10 & F11 & F12).
      * apply (layout_ext m); assumption.
      * rewrite E2. apply read_bucket_wf.
      * exact Hb.
      * rewrite E1; exact Hpos'.
      * lia.
      * rewrite E1. fold bc. unfold pos'. rewrite Hhb at 1. apply mod_add_assoc.
      * rewrite E1. fold bc. intros j Hj. apply Hmono; [apply Z.mod_pos_bound; lia |].
        destruct (Z.eq_dec j x) as [-> | Hne]; [rewrite <- Hhb; exact Hb |].
        apply (Hct pos Hpos Hb). fold b. fold x. lia.
      * rewrite E1; fold bc; lia.
      * rewrite E1. fold bc. rewrite E9.
        -- rewrite Hshift. replace (1 + Z.of_nat k) with (Z.of_nat (S k)) by lia. exact Hemp.
        -- apply Z.mod_pos_bound; lia.
        -- intros E. symmetry in E. apply Hfar in E; [exact E | lia].
      * rewrite E1. fold bc. intros j Hj. apply Hmono; [apply Z.mod_pos_bound; lia |].
        rewrite Hshift. apply Hocc. lia.
      * rewrite E1. fold bc.
        apply (contig_place bc (slot m t) (slot m1 t) pos c d); try assumption; lia.
      * rewrite E1, E5. fold bc.
        apply (dist_ok_place bc (max_dist m t) _ (slot m t) (slot m1 t) pos c); try assumption; try lia.
        unfold probe_dist. rewrite Hhome. fold bc. rewrite dist_of_home_plus by lia. lia.
      * rewrite E1, E5. fold bc. lia.
      * lia.
      * rewrite E1. fold bc. lia.
      * rewrite E1 in F1, F5, F7, F8, F9, F10, F11. rewrite E2 in F2. rewrite E3 in F3.
        rewrite E4 in F4. rewrite E5 in F5. fold bc in F1, F5, F7, F8, F9, F10, F11.
        exists r, m'. split; [exact Hrun' |].
        repeat split; try assumption; try lia.
        -- intros y Hy. rewrite F6; [apply E10; exact Hy |].
           intros Hy'. apply Hy. apply (table_bytes_ext m m1 t y); assumption.
        -- intros i Hi Hnv. rewrite F7.
           ++ apply E9; [exact Hi |]. specialize (Hnv 0 ltac:(lia)).
              rewrite Z.add_0_r, Z.mod_small in Hnv by lia. exact Hnv.
           ++ exact Hi.
           ++ intros j Hj. rewrite Hshift. apply Hnv. lia.
        -- etransitivity; [exact F10 |].
           pose proof (placed_entries bc (slot m t) (slot m1 t) pos c Hpos Hpl Hc) as P.
           fold b in P. rewrite (occ_occupied b Hb) in P. exact P.
        -- specialize (F12 ltac:(lia)). replace r with pos by lia.
           rewrite F7; [exact E8 | exact Hpos | exact Hfar].
    + (* keep going *)
      rewrite (u64_small (d + 1)) by lia.
      fold bc. rewrite <- (mod_succ bc pos Hpos). fold pos'.
      destruct (IH fuel m c pos' (d + 1) result)
        as (r & m' & Hrun' & F1 & F2 & F3 & F4 & F5 & F6 & F7 & F8 & F9 & F10 & F11 & F12);
        try assumption; try lia.
      * fold bc. unfold pos'. rewrite Hhome at 1. apply mod_add_assoc.
      * fold bc. intros j Hj.
        destruct (Z.eq_dec j d) as [-> | Hne]; [rewrite <- Hhome; exact Hb |].
        apply Hrun. lia.
      * fold bc. rewrite Hshift. replace (1 + Z.of_nat k) with (Z.of_nat (S k)) by lia.
        exact Hemp.
      * fold bc. intros j Hj. rewrite Hshift. apply Hocc. lia.
      * fold bc in F1, F5, F7, F8, F9, F10, F11 |- *. exists r, m'. split; [exact Hrun' |].
        repeat split; try assumption; try lia.
        -- intros i Hi Hnv. apply F7; [exact Hi |].
           intros j Hj. rewrite Hshift. apply Hnv. lia.
        -- apply F11; assumption.
Qed.

(** ** Strings in the file *)

Lemma cstr_at_nil m ptr : cstr_at m ptr [] <-> load8 m ptr = 0.
Proof.
  unfold cstr_at; cbn. split; [intros H; injection H; auto | intros ->; reflexivity].
Qed.

Lemma cstr_at_cons m ptr c s :
  cstr_at m ptr (c :: s) <-> load8 m ptr = c /\ cstr_at m (ptr + 1) s.
Proof.
  unfold cstr_at; cbn [length load_bytes app]. split.
  - intros H; injection H; auto.
  - intros [-> ->]; reflexivity.
Qed.

Lemma cstr_at_ext m m' ptr s :
  (forall x, ptr <= x < ptr + strlen s + 1 -> load8 m' x = load8 m x) ->
  cstr_at m ptr s -> cstr_at m' ptr s.
Proof.
  unfold cstr_at, strlen. intros H <-. apply load_bytes_ext.
  intros x Hx. apply H. lia.
Qed.

Lemma cstr_at_inj s : forall s' m ptr,
  Forall is_char s -> Forall is_char s' ->
  cstr_at m ptr s -> cstr_at m ptr s' -> s = s'.
Proof.
  induction s as [| c s IH]; intros [| c' s'] m ptr Hs Hs' H H'.
  - reflexivity.
  - apply cstr_at_nil in H. apply cstr_at_cons in H' as [H' _].
    inversion Hs'; subst. unfold is_char in *. lia.
  - apply cstr_at_nil in H'. apply cstr_at_cons in H as [H _].
    inversion Hs; subst. unfold is_char in *. lia.
  - apply cstr_at_cons in H as [H1 H2]. apply cstr_at_cons in H' as [H1' H2'].
    inversion Hs; inversion Hs'; subst. f_equal.
    eapply IH; eassumption.
Qed.

Lemma strcmp_eq_true m s : forall ptr, cstr_at m ptr s -> strcmp_eq m s ptr = true.
Proof.
  induction s as [| c s IH]; intros ptr H; cbn [strcmp_eq].
  - apply cstr_at_nil in H. rewrite H. reflexivity.
  - apply cstr_at_cons in H as [H1 H2]. rewrite H1, Z.eqb_refl, (IH _ H2). reflexivity.
Qed.

Lemma strcmp_eq_cstr m s : forall ptr, strcmp_eq m s ptr = true -> cstr_at m ptr s.
Proof.
  induction s as [| c s IH]; intros ptr H; cbn [strcmp_eq] in H.
  - apply cstr_at_nil. apply Z.eqb_eq. exact H.
  - apply andb_true_iff in H as [H1 H2]. apply cstr_at_cons.
    split; [symmetry; apply Z.eqb_eq; exact H1 | apply IH; exact H2].
Qed.

(** ** The hash function *)

Lemma hash_step_range v c : 0 <= hash_step v c < 2 ^ 64.
Proof. apply u64_range. Qed.

Lemma hash_loop_range s : forall v, 0 <= hash_loop v s < 2 ^ 64.
Proof. induction s; intros v; cbn [hash_loop]; [apply hash_step_range | apply IHs]. Qed.

Lemma hash_range s : 0 < hash s < 2 ^ 64.
Proof.
  unfold hash. pose proof (hash_loop_range s 0xcbf29ce484222325).
  destruct (Z.eqb_spec (hash_loop 0xcbf29ce484222325 s) 0); lia.
Qed.

Lemma hash_mem_loop_spec s : forall fuel m ptr v,
  Forall is_char s -> cstr_at m ptr s -> (length s < fuel)%nat ->
  hash_mem_loop fuel m ptr v = Done (hash_loop v s).
Proof.
  induction s as [| c s IH]; intros fuel m ptr v Hs H Hf;
    (destruct fuel as [| fuel]; [simpl in Hf; lia |]); cbn [hash_mem_loop hash_loop].
  - apply cstr_at_nil in H. rewrite H. reflexivity.
  - apply cstr_at_cons in H as [H1 H2]. inversion Hs; subst.
    replace (load8 m ptr =? 0) with false
      by (symmetry; apply Z.eqb_neq; unfold is_char in *; lia).
    apply IH; [assumption | assumption | simpl in Hf; lia].
Qed.

Lemma hash_mem_spec m ptr s :
  Forall is_char s -> cstr_at m ptr s -> ptr + strlen s + 1 <= size m ->
  hash_mem m ptr = Done (hash s).
Proof.
  intros Hs H Hsz. unfold hash_mem.
  rewrite (hash_mem_loop_spec s) by (try assumption; unfold strlen in Hsz; lia).
  reflexivity.
Qed.

(** ** Lookup *)

Lemma ht_ok_layout m t : ht_ok m t -> layout m t.
Proof. intros H. split; [apply (ok_pow m t H) | split; [apply (ok_bs m t H) | apply (ok_sep m t H)]]. Qed.

(** What a result of [ht_lookup] means. *)
Definition found (m : mem) (t : hash_table) (key : cstring) (r : Z) : Prop :=
  0 <= r < bucket_count m t /\ b_hash (slot m t r) = hash key /\
  cstr_at m (b_keyptr (slot m t r)) key.

Lemma lookup_step m t key h pos dist fuel :
  layout m t -> 0 <= pos < bucket_count m t -> 0 <= dist < 2 ^ 62 ->
  ht_lookup_loop (S fuel) m t key h pos dist =
    if (b_hash (slot m t pos) =? 0) || (max_dist m t <? dist) then Done (-1)
    else if (b_hash (slot m t pos) =? h) && strcmp_eq m key (b_keyptr (slot m t pos))
    then Done pos
    else ht_lookup_loop fuel m t key h ((pos + 1) mod bucket_count m t) (dist + 1).
Proof.
  intros L Hpos Hd. pose proof (layout_bc m t L).
  cbn [ht_lookup_loop]. rewrite (ht_bucket_slot' m t pos L Hpos).
  rewrite (u64_small (pos + 1)), (u64_small (dist + 1)) by lia.
  rewrite <- (mod_succ _ pos Hpos). reflexivity.
Qed.

(** The loop of [ht_lookup] always finishes, and what it returns is -1 or
    a slot holding the key. *)
Lemma ht_lookup_loop_total m t key : forall fuel pos dist,
  layout m t -> max_dist m t < bucket_count m t ->
  0 <= pos < bucket_count m t -> 0 <= dist ->
  Z.max 0 (max_dist m t + 1 - dist) < Z.of_nat fuel ->
  exists r, ht_lookup_loop fuel m t key (hash key) pos dist = Done r /\
            (r = -1 \/ found m t key r).
Proof.
  induction fuel as [| fuel IH]; intros pos dist L Hmd Hpos Hd Hf.
  - lia.
  - pose proof (layout_bc m t L).
    destruct (Z.ltb_spec (max_dist m t) dist) as [Hgt | Hle].
    + cbn [ht_lookup_loop]. replace (max_dist m t <? dist) with true
        by (symmetry; apply Z.ltb_lt; exact Hgt).
      rewrite orb_true_r. exists (-1). split; [reflexivity | left; reflexivity].
    + rewrite lookup_step by (try assumption; lia).
      replace (max_dist m t <? dist) with false by (symmetry; apply Z.ltb_ge; exact Hle).
      rewrite orb_false_r.
      destruct (b_hash (slot m t pos) =? 0).
      { exists (-1). split; [reflexivity | left; reflexivity]. }
      destruct (Z.eqb_spec (b_hash (slot m t pos)) (hash key)) as [Eh | Nh]; cbn [andb].
      * destruct (strcmp_eq m key (b_keyptr (slot m t pos))) eqn:Es.
        -- exists pos. split; [reflexivity | right].
           repeat split; try lia; try assumption. apply strcmp_eq_cstr; exact Es.
        -- apply IH; try assumption; try lia. apply Z.mod_pos_bound; lia.
      * apply IH; try assumption; try lia. apply Z.mod_pos_bound; lia.
Qed.

(** A key that is stored is found. *)
Lemma ht_lookup_loop_found m t key i :
  layout m t -> max_dist m t < bucket_count m t ->
  contig (bucket_count m t) (slot m t) ->
  dist_ok (bucket_count m t) (max_dist m t) (slot m t) ->
  0 <= i < bucket_count m t -> b_hash (slot m t i) = hash key ->
  cstr_at m (b_keyptr (slot m t i)) key ->
  forall (n fuel : nat) j,
    0 <= j -> j + Z.of_nat n = probe_dist (bucket_count m t) i (slot m t i) ->
    (n < fuel)%nat ->
    exists r, ht_lookup_loop fuel m t key (hash key)
                ((hash key + j) mod bucket_count m t) j = Done r /\
              found m t key r.
Proof.
  intros L Hmd Hct Hds Hi Eh Hs. pose proof (layout_bc m t L) as Hbc.
  assert (Hocc : occupied (slot m t i))
    by (unfold occupied; rewrite Eh; pose proof (hash_range key); lia).
  pose proof (Hds i Hi Hocc) as HD.
  induction n as [| n IH]; intros fuel j Hj HjD Hf;
    (destruct fuel as [| fuel]; [lia |]).
  - rewrite Z.add_0_r in HjD. subst j.
    assert (Ehome : (hash key + probe_dist (bucket_count m t) i (slot m t i))
                      mod bucket_count m t = i)
      by (unfold probe_dist; rewrite Eh; apply home_plus_dist; lia).
    rewrite Ehome.
    rewrite lookup_step by (try assumption; lia).
    replace (b_hash (slot m t i) =? 0) with false
      by (symmetry; apply Z.eqb_neq; exact Hocc).
    replace (max_dist m t <? probe_dist (bucket_count m t) i (slot m t i)) with false
      by (symmetry; apply Z.ltb_ge; exact HD).
    cbn [orb]. rewrite Eh, Z.eqb_refl, (strcmp_eq_true _ _ _ Hs). cbn [andb].
    exists i. split; [reflexivity |]. repeat split; try lia; assumption.
  - set (pos := (hash key + j) mod bucket_count m t).
    assert (Hpos : 0 <= pos < bucket_count m t) by (apply Z.mod_pos_bound; lia).
    assert (Ho : occupied (slot m t pos)).
    { unfold pos. rewrite <- Eh. apply (Hct i Hi Hocc). lia. }
    rewrite lookup_step by (try assumption; lia).
    replace (b_hash (slot m t pos) =? 0) with false
      by (symmetry; apply Z.eqb_neq; exact Ho).
    replace (max_dist m t <? j) with false by (symmetry; apply Z.ltb_ge; lia).
    cbn [orb].
    destruct ((b_hash (slot m t pos) =? hash key) &&
              strcmp_eq m key (b_keyptr (slot m t pos))) eqn:E.
    + apply andb_true_iff in E as [E1 E2]. exists pos. split; [reflexivity |].
      split; [lia | split; [apply Z.eqb_eq; exact E1 | apply strcmp_eq_cstr; exact E2]].
    + unfold pos. rewrite mod_add_assoc. apply IH; lia.
Qed.

Lemma ht_lookup_total m t key :
  ht_ok m t ->
  exists r, ht_lookup m t key = Done r /\ (r = -1 \/ found m t key r).
Proof.
  intros H. pose proof (ht_ok_layout m t H) as L. pose proof (layout_bc m t L).
  pose proof (load64_range m (header_ptr t + 24)) as Hr. fold (max_dist m t) in Hr.
  unfold ht_lookup. apply ht_lookup_loop_total; try assumption; try lia.
  - apply (ok_md m t H).
  - apply Z.mod_pos_bound; lia.
Qed.

Lemma ht_lookup_found m t key i :
  ht_ok m t ->
  0 <= i < bucket_count m t -> b_hash (slot m t i) = hash key ->
  cstr_at m (b_keyptr (slot m t i)) key ->
  exists r, ht_lookup m t key = Done r /\ found m t key r.
Proof.
  intros H Hi Eh Hs. pose proof (ht_ok_layout m t H) as L. pose proof (layout_bc m t L).
  pose proof (load64_range m (header_ptr t + 24)) as Hr. fold (max_dist m t) in Hr.
  assert (Hocc : occupied (slot m t i))
    by (unfold occupied; rewrite Eh; pose proof (hash_range key); lia).
  pose proof (ok_dist m t H i Hi Hocc) as HD.
  assert (HD0 : 0 <= probe_dist (bucket_count m t) i (slot m t i))
    by (apply Z.mod_pos_bound; lia).
  unfold ht_lookup.
  replace (hash key mod bucket_count m t) with ((hash key + 0) mod bucket_count m t)
    by (rewrite Z.add_0_r; reflexivity).
  apply (ht_lookup_loop_found m t key i L (ok_md m t H) (ok_contig m t H) (ok_dist m t H)
           Hi Eh Hs (Z.to_nat (probe_dist (bucket_count m t) i (slot m t i)))); lia.
Qed.

(** ** Frames *)

(** The arena only looks at bytes that are not client bytes. *)
Lemma arena_view_ext m m' :
  (forall x, ~ used m x -> load8 m' x = load8 m x) ->
  next_free m' = next_free m /\ size m' = size m /\
  block_prev m' (next_free m) = block_prev m (next_free m) /\
  block_next m' (next_free m) = block_next m (next_free m).
Proof.
  intros H.
  assert (N : next_free m' = next_free m).
  { apply load64_ext. intros x Hx. apply H. intros [U _]. lia. }
  repeat split; [exact N | ..].
  - apply load64_ext. intros x Hx. apply H. intros [U _]. lia.
  - apply load64_ext. intros x Hx. apply H. intros [U _]. lia.
  - apply load64_ext. intros x Hx. apply H. intros [U _]. lia.
Qed.

Lemma used_ext m m' x :
  (forall x, ~ used m x -> load8 m' x = load8 m x) -> used m' x <-> used m x.
Proof.
  intros H. destruct (arena_view_ext m m' H) as (N & _ & P & _).
  unfold used. rewrite N, P. tauto.
Qed.

Lemma arena_ok_ext cap m m' :
  (forall x, ~ used m x -> load8 m' x = load8 m x) -> arena_ok cap m -> arena_ok cap m'.
Proof.
  intros H. destruct (arena_view_ext m m' H) as (N & S & P & X).
  unfold arena_ok. rewrite N, S, P, X. tauto.
Qed.

Lemma contig_ext bc f g :
  0 < bc -> (forall i, 0 <= i < bc -> g i = f i) -> contig bc f -> contig bc g.
Proof.
  intros Hbc E H i Hi Ho j Hj. rewrite (E i Hi) in *.
  rewrite E by (apply Z.mod_pos_bound; lia). apply (H i); assumption.
Qed.

Lemma dist_ok_ext bc md f g :
  (forall i, 0 <= i < bc -> g i = f i) -> dist_ok bc md f -> dist_ok bc md g.
Proof. intros E H i Hi Ho. rewrite (E i Hi) in *. apply H; assumption. Qed.

Lemma exists_empty f n :
  (length (entries_upto f n) < n)%nat ->
  exists i, 0 <= i < Z.of_nat n /\ ~ occupied (f i).
Proof.
  induction n; intros H; [lia |].
  cbn [entries_upto] in H. rewrite length_app in H.
  destruct (occupiedb_spec (f (Z.of_nat n))) as [O | O].
  - rewrite (occ_occupied _ O) in H. simpl in H.
    destruct IHn as (i & Hi & He); [lia |]. exists i; split; [lia | exact He].
  - exists (Z.of_nat n). split; [lia | exact O].
Qed.

Lemma slots_ext m m' t :
  layout m t ->
  bucket_size m' t = bucket_size m t -> buckets_ptr m' t = buckets_ptr m t ->
  (forall x, buckets_ptr m t <= x < buckets_ptr m t + bucket_count m t * bucket_size m t ->
     load8 m' x = load8 m x) ->
  forall i, 0 <= i < bucket_count m t -> slot m' t i = slot m t i.
Proof.
  intros L E1 E2 H i Hi. destruct L as (_ & Hbs & _). unfold sizeof_hash_bucket in Hbs.
  apply slot_ext; try assumption. intros x Hx. apply H.
  pose proof (slot_bounds _ (bucket_size m t) i Hi ltac:(lia)).
  unfold slot_pos in Hx. lia.
Qed.

Lemma entries_ext m m' t :
  bucket_count m' t = bucket_count m t ->
  (forall i, 0 <= i < bucket_count m t -> slot m' t i = slot m t i) ->
  entries m' t = entries m t.
Proof.
  intros E H. unfold entries. rewrite E. apply entries_upto_ext.
  intros i Hi. apply H. lia.
Qed.

Lemma in_entries m t b :
  In b (entries m t) <->
  exists i, 0 <= i < bucket_count m t /\ slot m t i = b /\ occupied b.
Proof.
  unfold entries. rewrite in_entries_upto. split; intros (i & Hi & H); exists i; (split; [lia | exact H]).
Qed.

(** An interned key stays one when neither its bytes nor the layout of
    the table change. *)
Lemma key_ok_ext m m' t b :
  (forall x, used m x -> used m' x) ->
  (forall x, used m x -> ~ table_bytes m t x -> load8 m' x = load8 m x) ->
  (forall x, table_bytes m' t x -> table_bytes m t x \/ ~ used m x) ->
  key_ok m t b -> key_ok m' t b.
Proof.
  intros U F T (s & Hk & Hs & Hh & Hu). exists s.
  split; [exact Hk |]. split; [| split; [exact Hh |]].
  - apply (cstr_at_ext m); [| exact Hs]. intros x Hx. apply F; apply Hu; lia.
  - intros x Hx. split; [apply U; apply Hu; assumption |].
    intros Ht. destruct (T x Ht) as [Ht' | Hn];
      [apply (Hu x); assumption | apply Hn; apply Hu; assumption].
Qed.

(** Writing a field of the header. *)
Lemma set_filled_spec m t v :
  layout m t ->
  let m1 := set_filled m t v in
  bucket_count m1 t = bucket_count m t /\ bucket_size m1 t = bucket_size m t /\
  filled m1 t = u64 v /\ max_dist m1 t = max_dist m t /\
  buckets_ptr m1 t = buckets_ptr m t /\
  (forall x, ~ (header_ptr t + 16 <= x < header_ptr t + 24) -> load8 m1 x = load8 m x) /\
  (forall i, 0 <= i < bucket_count m t -> slot m1 t i = slot m t i).
Proof.
  intros L m1.
  assert (F : forall x, ~ (header_ptr t + 16 <= x < header_ptr t + 24) -> load8 m1 x = load8 m x).
  { intros x Hx. unfold m1, set_filled. mem_simp. reflexivity. }
  assert (E2 : bucket_size m1 t = bucket_size m t)
    by (apply load64_ext; intros; apply F; lia).
  assert (E5 : buckets_ptr m1 t = buckets_ptr m t)
    by (apply load64_ext; intros; apply F; lia).
  repeat split; try assumption.
  - apply load64_ext; intros; apply F; lia.
  - unfold m1, set_filled, filled. mem_simp. reflexivity.
  - apply load64_ext; intros; apply F; lia.
  - apply slots_ext; try assumption. intros x Hx. apply F.
    destruct L as (_ & _ & Hsep). unfold sizeof_hash_table_header in Hsep. lia.
Qed.

Lemma ht_insert_intern_unfold cap mmap depth m t key :
  ht_insert_intern cap mmap depth m t key =
  (m <- (if u64 (max_filled m t) <=? filled m t then
           match depth with
           | O => Stuck
           | S d => ht_resize cap mmap (ht_insert_intern cap mmap d) m t
           end
         else Done m) ;;
   let m := set_filled m t (u64 (filled m t + 1)) in
   h <- hash_mem m key ;;
   let to_insert :=
     {| b_hash := h; b_keyptr := key;
        b_value := repeat 0 (Z.to_nat (bucket_size m t - sizeof_hash_bucket)) |} in
   let pos := to_int (h mod bucket_count m t) in
   robin_hood (Z.to_nat (bucket_count m t)) m t to_insert pos 0 (-1)).
Proof. destruct depth; reflexivity. Qed.

Lemma max_filled_eq m t :
  layout m t ->
  u64 (max_filled m t) = Z.min (9 * bucket_count m t / 10) (bucket_count m t - 1).
Proof.
  intros L. pose proof (layout_bc m t L) as Hbc. unfold max_filled.
  rewrite (u64_small (bucket_count m t - 1)) by lia.
  assert (0 <= 9 * bucket_count m t / 10) by (apply Z.div_pos; lia).
  rewrite to_int_small by lia. apply u64_small. lia.
Qed.

(** ** Insertion without rehash *)

Definition new_bucket (m : mem) (t : hash_table) (s : cstring) (kp : Z) : bucket :=
  {| b_hash := hash s; b_keyptr := kp;
     b_value := repeat 0 (Z.to_nat (bucket_size m t - sizeof_hash_bucket)) |}.

Lemma table_bytes_used m t x : ht_ok m t -> table_bytes m t x -> used m x.
Proof.
  intros H [Hx | Hx]; [apply (ok_hdr m t H) | apply (ok_arr m t H)]; exact Hx.
Qed.

Lemma Forall_repeat {A} (P : A -> Prop) a n : P a -> Forall P (repeat a n).
Proof. intros H. induction n; simpl; constructor; assumption. Qed.

Lemma ht_insert_intern_fits cap mmap depth m t kp s :
  arena_ok cap m -> ht_ok m t ->
  filled m t < Z.min (9 * bucket_count m t / 10) (bucket_count m t - 1) ->
  is_key s -> cstr_at m kp s ->
  (forall x, kp <= x < kp + strlen s + 1 -> used m x /\ ~ table_bytes m t x) ->
  exists r m', ht_insert_intern cap mmap depth m t kp = Done (r, m') /\
    ht_ok m' t /\ arena_ok cap m' /\
    (forall x, ~ table_bytes m t x -> load8 m' x = load8 m x) /\
    bucket_count m' t = bucket_count m t /\ bucket_size m' t = bucket_size m t /\
    buckets_ptr m' t = buckets_ptr m t /\ filled m' t = filled m t + 1 /\
    0 <= r < bucket_count m t /\ slot m' t r = new_bucket m t s kp /\
    Permutation (entries m' t) (new_bucket m t s kp :: entries m t).
Proof.
  intros A H Hfill Hkey Hs Hku.
  pose proof (ht_ok_layout m t H) as L. pose proof (layout_bc m t L) as Hbc.
  pose proof (load64_range m (header_ptr t + 16)) as Hfr. fold (filled m t) in Hfr.
  assert (Hload : 10 * (filled m t + 1) <= 9 * bucket_count m t /\
                  filled m t + 1 < bucket_count m t).
  { pose proof (Z.mul_div_le (9 * bucket_count m t) 10 ltac:(lia)). lia. }
  rewrite ht_insert_intern_unfold. rewrite (max_filled_eq m t L).
  replace (_ <=? filled m t) with false by (symmetry; apply Z.leb_gt; exact Hfill).
  cbn [bind]. rewrite (u64_small (filled m t + 1)) by lia.
  destruct (set_filled_spec m t (filled m t + 1) L) as (E1 & E2 & E3 & E4 & E5 & E6 & E7).
  set (m0 := set_filled m t (filled m t + 1)) in *.
  rewrite (u64_small (filled m t + 1)) in E3 by lia.
  assert (L0 : layout m0 t) by (apply (layout_ext m); assumption).
  assert (Hkr : 48 <= kp /\ kp + strlen s + 1 <= next_free m).
  { unfold strlen in *. pose proof (Hku kp ltac:(lia)) as [[U1 _] _].
    pose proof (Hku (kp + Z.of_nat (length s)) ltac:(lia)) as [[U2 _] _]. lia. }
  pose proof (next_free_range m) as Hnf.
  assert (Hlen0 : 0 <= strlen s) by (unfold strlen; lia).
  assert (F0 : forall x, ~ table_bytes m t x -> load8 m0 x = load8 m x).
  { intros x Hx. apply E6. unfold table_bytes, sizeof_hash_table_header in Hx. lia. }
  assert (Hs0 : cstr_at m0 kp s).
  { apply (cstr_at_ext m); [| exact Hs]. intros x Hx. apply F0. apply Hku. exact Hx. }
  assert (Hsz0 : size m0 = size m).
  { apply (arena_view_ext m m0). intros x Hx. apply F0. intros Ht. apply Hx.
    apply (table_bytes_used m t x H Ht). }
  rewrite (hash_mem_spec m0 kp s (proj1 Hkey) Hs0)
    by (rewrite Hsz0; destruct A as (_ & _ & _ & _ & A5 & _); unfold sizeof_mem_block in A5; lia).
  cbn [bind]. rewrite E1, E2.
  pose proof (hash_range s) as Hh.
  assert (Hhm : 0 <= hash s mod bucket_count m t < bucket_count m t)
    by (apply Z.mod_pos_bound; lia).
  rewrite to_int_small by lia.
  fold (new_bucket m t s kp). set (c := new_bucket m t s kp).
  (* an empty slot lies ahead *)
  assert (Hcnt : entries m0 t = entries m t) by (apply entries_ext; assumption).
  destruct (exists_empty (slot m0 t) (Z.to_nat (bucket_count m t))) as (e & He & Hemp).
  { fold (entries m t) in *. unfold entries in Hcnt. rewrite E1 in Hcnt. rewrite Hcnt.
    fold (entries m t). pose proof (ok_filled m t H). lia. }
  destruct (first_empty (slot m0 t) (bucket_count m t) (hash s mod bucket_count m t) Hhm)
    as (k & Hk & Hkemp & Hkocc); [exists e; split; [lia | exact Hemp] |].
  destruct (robin_hood_spec t (Z.to_nat k) (Z.to_nat (bucket_count m t)) m0 c
              (hash s mod bucket_count m t) 0 (-1))
    as (r & m' & Hrun & F1 & F2 & F3 & F4 & F5 & F6 & F7 & F8 & F9 & F10 & F11 & F12);
    rewrite ?E1, ?E2, ?E4, ?Z2Nat.id by lia; try assumption; try lia.
  - unfold bucket_wf, c, new_bucket, sizeof_hash_bucket; cbn [b_hash b_keyptr b_value].
    split; [lia | split; [lia | split]].
    + apply Forall_repeat. unfold is_byte; lia.
    + apply repeat_length.
  - unfold occupied, c, new_bucket; cbn [b_hash]. lia.
  - unfold c, new_bucket; cbn [b_hash]. rewrite Z.add_0_r. reflexivity.
  - apply (contig_ext _ (slot m t)); [lia | exact E7 | apply (ok_contig m t H)].
  - apply (dist_ok_ext _ _ (slot m t)); [exact E7 | apply (ok_dist m t H)].
  - apply (ok_md m t H).
  - rewrite E1, ?E2, ?E3, ?E4, ?E5 in *.
    assert (Fm : forall x, ~ table_bytes m t x -> load8 m' x = load8 m x).
    { intros x Hx. rewrite F6; [apply F0; exact Hx |].
      intros Hx'. apply Hx. apply (table_bytes_ext m m0 t x); assumption. }
    assert (Fu : forall x, ~ used m x -> load8 m' x = load8 m x).
    { intros x Hx. apply Fm. intros Ht. apply Hx. apply (table_bytes_used m t x H Ht). }
    assert (Tb : forall x, table_bytes m' t x <-> table_bytes m t x).
    { intros x. apply table_bytes_ext; congruence. }
    assert (P : Permutation (entries m' t) (c :: entries m t)).
    { unfold entries. rewrite F1.
      rewrite (entries_upto_ext (slot m t) (slot m0 t)) in F10 by (intros; apply E7; lia).
      exact F10. }
    exists r, m'. split; [exact Hrun |].
    split; [| repeat split; try assumption; try congruence; try lia;
              try (apply (arena_ok_ext cap m); assumption); apply F11; lia].
    constructor; rewrite ?F1, ?F2, ?F3, ?F4; try assumption.
    + apply (ok_pow m t H).
    + apply (ok_bs m t H).
    + intros x Hx. apply (used_ext m m' x Fu). apply (ok_hdr m t H). exact Hx.
    + intros x Hx. apply (used_ext m m' x Fu). apply (ok_arr m t H). exact Hx.
    + apply (ok_sep m t H).
    + intros i Hi Ho.
      assert (Hin : In (slot m' t i) (c :: entries m t)).
      { apply (Permutation_in _ P). apply in_entries. exists i. rewrite F1. auto. }
      destruct Hin as [<- | Hin].
      * exists s. split; [exact Hkey |]. split; [| split; [reflexivity |]].
        -- apply (cstr_at_ext m); [| exact Hs]. intros x Hx. apply Fm. apply Hku. exact Hx.
        -- intros x Hx. destruct (Hku x Hx) as [U T]. split; [apply (used_ext m m' x Fu); exact U |].
           rewrite Tb. exact T.
      * apply in_entries in Hin as (i0 & Hi0 & Es & Ho').
        rewrite <- Es. apply (key_ok_ext m m' t).
        -- intros x. apply (used_ext m m' x Fu).
        -- intros x _. apply Fm.
        -- intros x Hx. left. apply Tb. exact Hx.
        -- apply (ok_keys m t H i0 Hi0). rewrite Es. exact Ho'.
    + rewrite (Permutation_length P). cbn [length]. pose proof (ok_filled m t H). lia.
    + lia.
Qed.

(** ** What the invariant of a table depends on *)

(** The bytes of the interned keys of a table. *)
Definition key_bytes (m : mem) (t : hash_table) (x : Z) : Prop :=
  exists i s, 0 <= i < bucket_count m t /\ occupied (slot m t i) /\
    is_key s /\ cstr_at m (b_keyptr (slot m t i)) s /\
    b_keyptr (slot m t i) <= x < b_keyptr (slot m t i) + strlen s + 1.

(** The header, the bucket descriptors and the keys: everything but the
    payloads. *)
Definition core_bytes (m : mem) (t : hash_table) (x : Z) : Prop :=
  header_ptr t <= x < header_ptr t + sizeof_hash_table_header \/
  (exists i, 0 <= i < bucket_count m t /\
             slot_pos m t i <= x < slot_pos m t i + sizeof_hash_bucket) \/
  key_bytes m t x.

(** Everything the table refers to. *)
Definition footprint (m : mem) (t : hash_table) (x : Z) : Prop :=
  table_bytes m t x \/ key_bytes m t x.

Lemma core_footprint m t x : layout m t -> core_bytes m t x -> footprint m t x.
Proof.
  intros L [Hx | [(i & Hi & Hx) | Hx]].
  - left; left; exact Hx.
  - left; right. destruct L as (_ & Hbs & _). unfold sizeof_hash_bucket in *.
    pose proof (slot_bounds _ (bucket_size m t) i Hi ltac:(lia)).
    unfold slot_pos in Hx. lia.
  - right; exact Hx.
Qed.

Lemma contig_hash_ext bc f g :
  0 < bc -> (forall i, 0 <= i < bc -> b_hash (g i) = b_hash (f i)) ->
  contig bc f -> contig bc g.
Proof.
  intros Hbc E H i Hi Ho j Hj. unfold occupied, probe_dist in *.
  rewrite (E i Hi) in *. rewrite E by (apply Z.mod_pos_bound; lia).
  apply (H i); assumption.
Qed.

Lemma dist_ok_hash_ext bc md f g :
  (forall i, 0 <= i < bc -> b_hash (g i) = b_hash (f i)) ->
  dist_ok bc md f -> dist_ok bc md g.
Proof.
  intros E H i Hi Ho. unfold occupied, probe_dist in *. rewrite (E i Hi) in *.
  apply H; assumption.
Qed.

Lemma length_entries_hash_ext f g n :
  (forall i, 0 <= i < Z.of_nat n -> b_hash (g i) = b_hash (f i)) ->
  length (entries_upto g n) = length (entries_upto f n).
Proof.
  induction n; intros E; [reflexivity |].
  cbn [entries_upto]. rewrite !length_app. rewrite IHn by (intros; apply E; lia).
  f_equal. unfold occ, occupiedb. rewrite E by lia.
  destruct (b_hash (f (Z.of_nat n)) =? 0); reflexivity.
Qed.

Lemma slot_hash_key_ext m m' t i :
  bucket_size m' t = bucket_size m t -> buckets_ptr m' t = buckets_ptr m t ->
  (forall x, slot_pos m t i <= x < slot_pos m t i + sizeof_hash_bucket ->
     load8 m' x = load8 m x) ->
  b_hash (slot m' t i) = b_hash (slot m t i) /\
  b_keyptr (slot m' t i) = b_keyptr (slot m t i).
Proof.
  intros E1 E2 H. unfold slot, slot_pos, read_bucket, sizeof_hash_bucket in *.
  cbn [b_hash b_keyptr]. rewrite E1, E2.
  split; apply load64_ext; intros; apply H; lia.
Qed.

Lemma ht_ok_stable m m' t :
  ht_ok m t ->
  (forall x, used m x -> used m' x) ->
  (forall x, core_bytes m t x -> load8 m' x = load8 m x) ->
  ht_ok m' t /\
  bucket_count m' t = bucket_count m t /\ bucket_size m' t = bucket_size m t /\
  filled m' t = filled m t /\ max_dist m' t = max_dist m t /\
  buckets_ptr m' t = buckets_ptr m t /\
  (forall i, 0 <= i < bucket_count m t ->
     b_hash (slot m' t i) = b_hash (slot m t i) /\
     b_keyptr (slot m' t i) = b_keyptr (slot m t i)).
Proof.
  intros H U F. pose proof (ht_ok_layout m t H) as L. pose proof (layout_bc m t L) as Hbc.
  destruct (header_fields_ext m m' t) as (E1 & E2 & E3 & E4 & E5).
  { intros x Hx. apply F. left. exact Hx. }
  assert (S : forall i, 0 <= i < bucket_count m t ->
     b_hash (slot m' t i) = b_hash (slot m t i) /\
     b_keyptr (slot m' t i) = b_keyptr (slot m t i)).
  { intros i Hi. apply slot_hash_key_ext; try assumption.
    intros x Hx. apply F. right; left. exists i. split; assumption. }
  assert (Sh : forall i, 0 <= i < bucket_count m t ->
     b_hash (slot m' t i) = b_hash (slot m t i)) by (intros i Hi; apply S; exact Hi).
  split; [| repeat split; try assumption; apply S; assumption].
  constructor; rewrite ?E1, ?E2, ?E3, ?E4, ?E5.
  - apply (ok_pow m t H).
  - apply (ok_bs m t H).
  - intros x Hx. apply U. apply (ok_hdr m t H). exact Hx.
  - intros x Hx. apply U. apply (ok_arr m t H). exact Hx.
  - apply (ok_sep m t H).
  - intros i Hi Ho. destruct (S i Hi) as [Sh' Sk].
    assert (Ho' : occupied (slot m t i)) by (unfold occupied in *; rewrite <- Sh'; exact Ho).
    destruct (ok_keys m t H i Hi Ho') as (s & Hk & Hs & Hh & Hu).
    exists s. rewrite Sh', Sk. split; [exact Hk |]. split; [| split; [exact Hh |]].
    + apply (cstr_at_ext m); [| exact Hs]. intros x Hx. apply F. right; right.
      exists i, s. split; [exact Hi |]. split; [exact Ho' |]. split; [exact Hk |].
      split; [exact Hs | lia].
    + intros x Hx. destruct (Hu x Hx) as [U1 T1]. split; [apply U; exact U1 |].
      intros T. apply T1. apply (table_bytes_ext m' m t x); congruence.
  - unfold entries. rewrite E1.
    rewrite (length_entries_hash_ext (slot m t) (slot m' t)) by (intros; apply Sh; lia).
    apply (ok_filled m t H).
  - apply (ok_load m t H).
  - apply (dist_ok_hash_ext _ _ (slot m t)); [exact Sh | apply (ok_dist m t H)].
  - apply (ok_md m t H).
  - apply (contig_hash_ext _ (slot m t)); [lia | exact Sh | apply (ok_contig m t H)].
Qed.

(** ** Payloads *)

Lemma load8_store_repeat v : forall n m a x,
  a <= x < a + Z.of_nat n -> load8 (store_bytes m a (repeat v n)) x = v mod 256.
Proof.
  induction n; intros m a x Hx; [lia |].
  cbn [repeat store_bytes]. destruct (Z.eq_dec x a) as [-> | Hne].
  - rewrite load8_store_bytes_other by lia. rewrite load8_store8, Z.eqb_refl. reflexivity.
  - apply IHn. lia.
Qed.

Lemma load64_zero m a : (forall x, a <= x < a + 8 -> load8 m x = 0) -> load64 m a = 0.
Proof.
  intros H. unfold load64. cbn [load_le]. rewrite !H by lia. reflexivity.
Qed.

Lemma ht_ok_arena_frame cap m m' t :
  ht_ok m t -> arena_ok cap m ->
  (forall x, ~ table_bytes m t x -> load8 m' x = load8 m x) ->
  arena_ok cap m' /\ (forall x, used m' x <-> used m x).
Proof.
  intros H A F.
  assert (Fu : forall x, ~ used m x -> load8 m' x = load8 m x).
  { intros x Hx. apply F. intros Ht. apply Hx. apply (table_bytes_used m t x H Ht). }
  split; [apply (arena_ok_ext cap m); assumption | intros x; apply used_ext; exact Fu].
Qed.

(** Changing the payload of one slot keeps the table what it is. *)
Lemma payload_change cap m m' t r :
  ht_ok m t -> arena_ok cap m -> 0 <= r < bucket_count m t ->
  (forall x, ~ (slot_pos m t r + sizeof_hash_bucket <= x < slot_pos m t r + bucket_size m t) ->
     load8 m' x = load8 m x) ->
  ht_ok m' t /\ arena_ok cap m' /\ (forall x, used m' x <-> used m x) /\
  bucket_count m' t = bucket_count m t /\ bucket_size m' t = bucket_size m t /\
  filled m' t = filled m t /\ max_dist m' t = max_dist m t /\
  buckets_ptr m' t = buckets_ptr m t /\
  (forall i, 0 <= i < bucket_count m t -> i <> r -> slot m' t i = slot m t i) /\
  b_hash (slot m' t r) = b_hash (slot m t r) /\
  b_keyptr (slot m' t r) = b_keyptr (slot m t r).
Proof.
  intros H A Hr F. pose proof (ht_ok_layout m t H) as L. pose proof (layout_bc m t L) as Hbc.
  pose proof L as (_ & Hbs & Hsep). unfold sizeof_hash_bucket, sizeof_hash_table_header in *.
  pose proof (slot_bounds _ (bucket_size m t) r Hr ltac:(lia)) as Hrb.
  assert (Ft : forall x, ~ table_bytes m t x -> load8 m' x = load8 m x).
  { intros x Hx. apply F. unfold table_bytes, slot_pos, sizeof_hash_table_header in *. lia. }
  destruct (ht_ok_arena_frame cap m m' t H A Ft) as (A' & U).
  assert (U1 : forall x, used m x -> used m' x) by (intros x; apply U).
  assert (C : forall x, core_bytes m t x -> load8 m' x = load8 m x).
  { intros x [Hx | [(i & Hi & Hx) | (i & s & Hi & Ho & Hk & Hs & Hx)]]; apply F.
    - unfold slot_pos, sizeof_hash_table_header in *. lia.
    - unfold slot_pos, sizeof_hash_bucket in *.
      pose proof (slot_bounds _ (bucket_size m t) i Hi ltac:(lia)).
      destruct (Z.eq_dec i r) as [-> | Hne]; [lia |].
      pose proof (slot_apart (bucket_size m t) i r ltac:(lia) Hne). lia.
    - destruct (ok_keys m t H i Hi Ho) as (s' & Hk' & Hs' & _ & Hu).
      assert (s' = s) by (eapply cstr_at_inj; try eassumption; [apply Hk' | apply Hk]).
      subst s'. destruct (Hu x Hx) as [_ T]. intros Hp. apply T.
      right. unfold slot_pos in *. lia. }
  destruct (ht_ok_stable m m' t H U1 C) as (H' & E1 & E2 & E3 & E4 & E5 & S).
  do 8 (split; [assumption |]). split; [| apply S; exact Hr].
  intros i Hi Hne. apply slot_ext; try assumption.
  intros x Hx. apply F. unfold slot_pos in *.
  pose proof (slot_bounds _ (bucket_size m t) i Hi ltac:(lia)).
  pose proof (slot_apart (bucket_size m t) i r ltac:(lia) Hne). lia.
Qed.

Lemma length_entries_upto_mono f a b :
  (a <= b)%nat -> (length (entries_upto f a) <= length (entries_upto f b))%nat.
Proof.
  induction 1; [lia |]. cbn [entries_upto]. rewrite length_app. lia.
Qed.

Lemma bucket_eta b : {| b_hash := b_hash b; b_keyptr := b_keyptr b; b_value := b_value b |} = b.
Proof. destruct b; reflexivity. Qed.

(** ** Rehash *)

Section Rehash.

Variables (cap : Z) (mmap : Z -> Z -> Z) (d : nat).

(** [m] is the table before the rehash, [tmp] the new bucket array; it
    lies beyond everything that was in use in [m]. *)
Variables (m : mem) (t : hash_table) (tmp : Z).
Hypothesis Hm : ht_ok m t.
Hypothesis Hfresh : next_free m <= tmp.

(** State of the re-insertion loop before round [i]. *)
Definition rehash_inv (i : Z) (mi : mem) : Prop :=
  arena_ok cap mi /\ ht_ok mi t /\
  bucket_count mi t = 2 * bucket_count m t /\
  bucket_size mi t = bucket_size m t /\ buckets_ptr mi t = tmp /\
  (forall x, used m x -> used mi x) /\
  (forall x, used m x ->
     ~ (header_ptr t <= x < header_ptr t + sizeof_hash_table_header) ->
     load8 mi x = load8 m x) /\
  Permutation (entries mi t) (entries_upto (slot m t) (Z.to_nat i)).

Lemma old_array_kept i mi x :
  rehash_inv i mi ->
  buckets_ptr m t <= x < buckets_ptr m t + bucket_count m t * bucket_size m t ->
  load8 mi x = load8 m x /\ ~ table_bytes mi t x.
Proof.
  intros (A & H & E1 & E2 & E3 & U & F & P) Hx.
  pose proof (ok_sep m t Hm) as Hsep. unfold sizeof_hash_table_header in *.
  pose proof (ok_arr m t Hm x Hx) as Hu. pose proof (used_below m x Hu).
  split; [apply F; [exact Hu | lia] |].
  unfold table_bytes, sizeof_hash_table_header. rewrite E3. lia.
Qed.

Lemma old_slot_kept i mi j :
  rehash_inv i mi -> 0 <= j < bucket_count m t ->
  read_bucket mi (buckets_ptr m t + j * bucket_size m t) (bucket_size m t) = slot m t j.
Proof.
  intros I Hj. pose proof (ok_bs m t Hm) as Hbs. unfold sizeof_hash_bucket in Hbs.
  apply read_bucket_ext. intros x Hx. unfold slot_pos in Hx.
  apply (old_array_kept i mi x I).
  pose proof (slot_bounds _ (bucket_size m t) j Hj ltac:(lia)). lia.
Qed.

Lemma reinsert_step i mi :
  rehash_inv i mi -> 0 <= i < bucket_count m t ->
  bucket_count m t <= 2 ^ 29 ->
  exists mi',
    (let old_bucket := ht_bucket_rel mi t (u64 i) (buckets_ptr m t) in
     if negb (load64 mi old_bucket =? 0) then
       '(bucket_idx, m1) <- ht_insert_intern cap mmap d mi t (load64 mi (old_bucket + 8)) ;;
       Done (store_bytes m1 (ht_value m1 t bucket_idx)
               (load_bytes m1 (ht_value_rel old_bucket)
                  (Z.to_nat (u64 (bucket_size m t - sizeof_hash_bucket)))))
     else Done mi) = Done mi' /\
    rehash_inv (i + 1) mi'.
Proof.
  intros I Hi Hbig. pose proof I as (A & H & E1 & E2 & E3 & U & F & P).
  pose proof (ht_ok_layout m t Hm) as L. pose proof (layout_bc m t L) as Hbc.
  pose proof (ok_bs m t Hm) as Hbs. unfold sizeof_hash_bucket in *.
  cbv zeta. unfold ht_bucket_rel. rewrite E2.
  rewrite (u64_small i) by lia. rewrite (u64_small (i * bucket_size m t)) by nia.
  rewrite (u64_small (bucket_size m t - 16)) by lia.
  pose proof (old_slot_kept i mi i I Hi) as Hold.
  set (ob := buckets_ptr m t + i * bucket_size m t) in *.
  assert (Hh : load64 mi ob = b_hash (slot m t i)) by (rewrite <- Hold; reflexivity).
  assert (Hk : load64 mi (ob + 8) = b_keyptr (slot m t i)) by (rewrite <- Hold; reflexivity).
  rewrite Hh, Hk.
  assert (Hsucc : entries_upto (slot m t) (Z.to_nat (i + 1)) =
                  entries_upto (slot m t) (Z.to_nat i) ++ occ (slot m t i))
    by (replace (Z.to_nat (i + 1)) with (S (Z.to_nat i)) by lia;
        cbn [entries_upto]; rewrite Z2Nat.id by lia; reflexivity).
  destruct (occupiedb_spec (slot m t i)) as [Ho | Ho].
  2: { replace (b_hash (slot m t i) =? 0) with true
         by (symmetry; apply Z.eqb_eq; unfold occupied in Ho; lia).
       cbn [negb]. exists mi. split; [reflexivity |].
       unfold rehash_inv. rewrite Hsucc, (occ_empty _ Ho), app_nil_r. exact I. }
  replace (b_hash (slot m t i) =? 0) with false by (symmetry; apply Z.eqb_neq; exact Ho).
  cbn [negb]. set (b := slot m t i) in *.
  destruct (ok_keys m t Hm i Hi Ho) as (s & Hkey & Hs & Hhash & Hu). fold b in Hs, Hhash, Hu.
  (* the new table has room *)
  assert (Hroom : filled mi t < Z.min (9 * bucket_count mi t / 10) (bucket_count mi t - 1)).
  { rewrite (ok_filled mi t H), (Permutation_length P), E1.
    pose proof (length_entries_upto_mono (slot m t) (Z.to_nat (i + 1))
                  (Z.to_nat (bucket_count m t)) ltac:(lia)) as Hmono.
    rewrite Hsucc, length_app, (occ_occupied _ Ho) in Hmono. cbn [length] in Hmono.
    pose proof (ok_filled m t Hm) as Hf. unfold entries in Hf.
    pose proof (ok_load m t Hm) as [Hl1 Hl2].
    assert (9 * bucket_count m t <= 10 * (9 * (2 * bucket_count m t) / 10)).
    { pose proof (Z.mod_pos_bound (9 * (2 * bucket_count m t)) 10 ltac:(lia)).
      pose proof (Z.div_mod (9 * (2 * bucket_count m t)) 10 ltac:(lia)). lia. }
    lia. }
  destruct (ht_insert_intern_fits cap mmap d mi t (b_keyptr b) s A H Hroom Hkey)
    as (r & m1 & Hrun & H1 & A1 & F1 & G1 & G2 & G3 & G4 & Hr & Hsl & P1).
  { apply (cstr_at_ext m); [| exact Hs]. intros x Hx. destruct (Hu x Hx) as [Ux Tx].
    apply F; [exact Ux |]. intros Hhx. apply Tx. left. exact Hhx. }
  { intros x Hx. destruct (Hu x Hx) as [Ux Tx]. split; [apply U; exact Ux |].
    pose proof (used_below m x Ux). unfold table_bytes. rewrite E3.
    intros [Hhx | Hax]; [apply Tx; left; exact Hhx | lia]. }
  rewrite Hrun. cbn [bind].
  pose proof (ht_ok_layout m1 t H1) as L1.
  unfold ht_value, ht_value_rel. rewrite (u64_small r) by lia.
  rewrite (ht_bucket_slot' m1 t r L1) by lia.
  unfold sizeof_hash_bucket.
  assert (Hval : load_bytes m1 (ob + 16) (Z.to_nat (bucket_size m t - 16)) = b_value b).
  { rewrite <- Hold. cbn [b_value read_bucket]. apply load_bytes_ext. intros x Hx.
    pose proof (slot_bounds _ (bucket_size m t) i Hi ltac:(lia)).
    destruct (old_array_kept i mi x I ltac:(unfold ob in *; lia)) as [_ Tx].
    apply F1. exact Tx. }
  rewrite Hval.
  set (m2 := store_bytes m1 (slot_pos m1 t r + 16) (b_value b)).
  assert (Hbv : Z.of_nat (length (b_value b)) = bucket_size m t - 16).
  { unfold b, slot, read_bucket; cbn [b_value]. rewrite length_load_bytes. lia. }
  destruct (payload_change cap m1 m2 t r H1 A1 ltac:(lia))
    as (H2 & A2 & U2 & K1 & K2 & K3 & K4 & K5 & K6 & K7 & K8).
  { intros x Hx. unfold m2. apply load8_store_bytes_other.
    unfold sizeof_hash_bucket in Hx. rewrite G2, E2 in Hx. lia. }
  assert (Hpl : placed (bucket_count m1 t) (slot m1 t) (slot m2 t) r b).
  { split; [| intros j Hj Hne; apply K6; assumption].
    rewrite <- (bucket_eta (slot m2 t r)), <- (bucket_eta b). f_equal.
    - rewrite K7, Hsl. cbn [b_hash new_bucket]. exact Hhash.
    - rewrite K8, Hsl. reflexivity.
    - unfold slot at 1. unfold read_bucket; cbn [b_value]. unfold slot_pos.
      rewrite K2, K5, G2, E2. unfold m2, slot_pos. rewrite G2, E2.
      replace (Z.to_nat (bucket_size m t - 16)) with (length (b_value b)) by lia.
      apply load_bytes_store_bytes.
      unfold b, slot, read_bucket; cbn [b_value]. apply load_bytes_is_byte. }
  exists m2. split; [reflexivity |].
  unfold rehash_inv. split; [exact A2 |]. split; [exact H2 |].
  split; [congruence |]. split; [congruence |]. split; [congruence |].
  split; [intros x Hx; apply U2; apply (ht_ok_arena_frame cap mi m1 t H A F1); apply U; exact Hx |].
  split.
  - intros x Ux Hhx. pose proof (used_below m x Ux).
    unfold m2. rewrite load8_store_bytes_other.
    + rewrite F1; [apply F; assumption |].
      unfold table_bytes. rewrite E3. intros [Hh' | Ha']; [apply Hhx; exact Hh' | lia].
    + pose proof (slot_bounds (bucket_count mi t) (bucket_size m t) r Hr ltac:(lia)).
      unfold slot_pos. rewrite G3, E3. lia.
  - pose proof (placed_entries (bucket_count m1 t) (slot m1 t) (slot m2 t) r b
                  ltac:(rewrite G1; exact Hr) Hpl Ho) as P2.
    rewrite Hsl in P2. rewrite (occ_occupied (new_bucket mi t s (b_keyptr b))) in P2
      by (unfold occupied, new_bucket; cbn [b_hash]; pose proof (hash_range s); lia).
    unfold entries at 1. rewrite K1. fold (entries m1 t) in P2.
    rewrite Hsucc, (occ_occupied _ Ho). fold b.
    apply Permutation_cons_inv with (a := new_bucket mi t s (b_keyptr b)).
    etransitivity; [exact P2 |].
    etransitivity; [apply perm_skip; exact P1 |].
    etransitivity; [apply perm_swap |]. apply perm_skip.
    etransitivity; [apply perm_skip; exact P |]. apply Permutation_cons_append.
Qed.

Lemma reinsert_spec : forall (n : nat) i mi,
  0 <= i -> i + Z.of_nat n = bucket_count m t ->
  bucket_count m t <= 2 ^ 29 ->
  rehash_inv i mi ->
  exists m7,
    reinsert (ht_insert_intern cap mmap d) n mi t (buckets_ptr m t)
      (u64 (bucket_size m t - sizeof_hash_bucket)) i = Done m7 /\
    rehash_inv (bucket_count m t) m7.
Proof.
  induction n as [| n IH]; intros i mi Hi Hn Hbig I.
  - exists mi. split; [reflexivity |]. replace (bucket_count m t) with i by lia. exact I.
  - cbn [reinsert].
    destruct (reinsert_step i mi I ltac:(lia) Hbig) as (mi' & Hstep & I').
    cbv zeta in Hstep. rewrite Hstep. cbn [bind].
    rewrite to_int_small by lia. apply IH; try assumption; lia.
Qed.

End Rehash.

(** ** The whole rehash *)

Lemma returns_bind {A B} (c : outcome A) (k : A -> outcome B) (P : A -> Prop) (Q : B -> Prop) :
  returns c P -> (forall a, P a -> returns (k a) Q) -> returns (bind c k) Q.
Proof. destruct c; cbn; auto. Qed.

Lemma returns_weaken {A} (c : outcome A) (P Q : A -> Prop) :
  returns c P -> (forall a, P a -> Q a) -> returns c Q.
Proof. destruct c; cbn; auto. Qed.

Lemma returns_Done {A} (c : outcome A) (P : A -> Prop) a :
  returns c P -> c = Done a -> P a.
Proof. intros H ->. exact H. Qed.

(** [mem_alloc] in the terms of clients. *)
Lemma mem_alloc_returns cap mmap m sz :
  cap < 2 ^ 62 -> arena_ok cap m -> 0 <= sz < 2 ^ 61 ->
  returns (mem_alloc cap mmap m sz) (fun '(h, m') =>
    h = next_free m + 16 /\ arena_ok cap m' /\
    next_free m + 16 + sz < next_free m' /\
    (forall x, used m x -> used m' x) /\
    (forall x, used m x -> load8 m' x = load8 m x) /\
    (forall x, next_free m + 16 <= x < next_free m' -> used m' x)).
Proof.
  intros Hc A Hs.
  destruct (mem_alloc_spec cap mmap m sz Hc A Hs) as [-> | (m' & -> & A' & P & N & F)];
    [exact I |].
  cbn. destruct A as (A1 & A2 & _). unfold sizeof_mem, sizeof_mem_block in *.
  split; [reflexivity |]. split; [exact A' |]. split; [exact N |].
  split; [| split].
  - intros x [Hx Hp]. unfold used. rewrite P. unfold sizeof_mem_block. lia.
  - intros x [Hx Hp]. apply F; unfold sizeof_mem_block in *; lia.
  - intros x Hx. unfold used. rewrite P. unfold sizeof_mem_block.
    pose proof (next_free_range m). lia.
Qed.

Ltac unfold_fields :=
  unfold bucket_count, bucket_size, filled, max_dist, buckets_ptr,
    set_bucket_count, set_bucket_size, set_filled, set_max_dist, set_buckets_ptr.

Lemma ht_resize_spec cap mmap d m t :
  cap < 2 ^ 62 -> arena_ok cap m -> ht_ok m t -> bucket_count m t <= 2 ^ 29 ->
  returns (ht_resize cap mmap (ht_insert_intern cap mmap d) m t) (fun m' =>
    arena_ok cap m' /\ ht_ok m' t /\
    bucket_count m' t = 2 * bucket_count m t /\
    bucket_size m' t = bucket_size m t /\
    filled m' t = filled m t /\
    Permutation (entries m' t) (entries m t) /\
    (forall x, used m x -> used m' x) /\
    (forall x, used m x -> ~ table_bytes m t x -> load8 m' x = load8 m x) /\
    (forall x, table_bytes m' t x ->
       header_ptr t <= x < header_ptr t + sizeof_hash_table_header \/ ~ used m x)).
Proof.
  intros Hc A H Hbig.
  pose proof (ht_ok_layout m t H) as L. pose proof (layout_bc m t L) as Hbc.
  pose proof (ok_bs m t H) as Hbs. pose proof (ok_sep m t H) as Hsep.
  pose proof (ok_hdr m t H) as Hhdr. pose proof (ok_arr m t H) as Harr.
  unfold sizeof_hash_bucket, sizeof_hash_table_header in *.
  assert (Hhp : 48 <= header_ptr t /\ header_ptr t + 40 <= next_free m).
  { pose proof (used_below m _ (Hhdr (header_ptr t) ltac:(lia))).
    pose proof (used_below m _ (Hhdr (header_ptr t + 39) ltac:(lia))). lia. }
  assert (Hold_end : buckets_ptr m t + bucket_count m t * bucket_size m t <= next_free m).
  { assert (0 < bucket_count m t * bucket_size m t) by nia.
    pose proof (used_below m _ (Harr (buckets_ptr m t + bucket_count m t * bucket_size m t - 1)
                                  ltac:(lia))). lia. }
  unfold ht_resize.
  set (bc := bucket_count m t) in *. set (bs := bucket_size m t) in *.
  set (m1 := set_bucket_count m t (u64 (bc * 2))).
  assert (B1 : bucket_count m1 t = 2 * bc).
  { unfold m1, bc. unfold_fields. mem_simp. fold (bucket_count m t). fold bc.
    rewrite (u64_small (bc * 2)) by lia. rewrite u64_small by lia. lia. }
  assert (S1 : bucket_size m1 t = bs) by (unfold m1, bs; unfold_fields; mem_simp; reflexivity).
  assert (P1 : buckets_ptr m1 t = buckets_ptr m t)
    by (unfold m1; unfold_fields; mem_simp; reflexivity).
  rewrite B1, S1, P1.
  set (m3 := set_max_dist (set_filled m1 t 0) t 0).
  assert (B3 : load64 m3 (header_ptr t) = 2 * bc).
  { rewrite <- B1. unfold m3. unfold_fields. mem_simp. reflexivity. }
  assert (S3 : load64 m3 (header_ptr t + 8) = bs).
  { rewrite <- S1. unfold m3. unfold_fields. mem_simp. reflexivity. }
  assert (Fi3 : load64 m3 (header_ptr t + 16) = 0).
  { unfold m3. unfold_fields. mem_simp. reflexivity. }
  assert (M3 : load64 m3 (header_ptr t + 24) = 0).
  { unfold m3. unfold_fields. mem_simp. reflexivity. }
  assert (F3 : forall x, ~ (header_ptr t <= x < header_ptr t + 40) -> load8 m3 x = load8 m x).
  { intros x Hx. unfold m3, m1. unfold_fields. mem_simp. reflexivity. }
  assert (Fu3 : forall x, ~ used m x -> load8 m3 x = load8 m x).
  { intros x Hx. apply F3. intros Hx'. apply Hx. apply Hhdr. exact Hx'. }
  pose proof (arena_ok_ext cap m m3 Fu3 A) as A3.
  destruct (arena_view_ext m m3 Fu3) as (N3 & _).
  assert (Hsz : 0 <= 2 * bc * bs < 2 ^ 61) by nia.
  rewrite (u64_small (2 * bc * bs)) by lia.
  eapply returns_bind; [apply (mem_alloc_returns cap mmap m3 (2 * bc * bs) Hc A3 Hsz) |].
  intros [h m4] (-> & A4 & N4 & U4 & F4 & W4). cbv beta iota zeta.
  rewrite N3 in *. set (tl := next_free m) in *.
  set (m5 := set_buckets_ptr m4 t (tl + 16)).
  assert (Hfield : forall off, 0 <= off <= 32 ->
            load64 m4 (header_ptr t + off) = load64 m3 (header_ptr t + off)).
  { intros off Hoff. apply load64_ext. intros x Hx. apply F4.
    apply (used_ext m m3 x Fu3). apply Hhdr. lia. }
  assert (B5 : bucket_count m5 t = 2 * bc).
  { unfold m5. unfold_fields. mem_simp. rewrite <- (Z.add_0_r (header_ptr t)), Hfield by lia.
    rewrite Z.add_0_r. exact B3. }
  assert (S5 : bucket_size m5 t = bs).
  { unfold m5. unfold_fields. mem_simp. rewrite Hfield by lia. exact S3. }
  assert (P5 : buckets_ptr m5 t = tl + 16).
  { unfold m5. unfold_fields. mem_simp. apply u64_small. pose proof (next_free_range m4). lia. }
  rewrite P5.
  set (m6 := memset m5 (tl + 16) 0 (2 * bc * bs)).
  assert (Z6 : forall x, tl + 16 <= x < tl + 16 + 2 * bc * bs -> load8 m6 x = 0).
  { intros x Hx. unfold m6, memset. rewrite load8_store_repeat by lia. reflexivity. }
  assert (F6 : forall x, ~ (tl + 16 <= x < tl + 16 + 2 * bc * bs) ->
                         ~ (header_ptr t + 32 <= x < header_ptr t + 40) ->
                         load8 m6 x = load8 m4 x).
  { intros x Hx Hx'. unfold m6, memset, m5. unfold_fields.
    rewrite load8_store_bytes_other by (rewrite repeat_length; lia). mem_simp. reflexivity. }
  assert (G6 : forall off, 0 <= off <= 24 ->
            load64 m6 (header_ptr t + off) = load64 m3 (header_ptr t + off)).
  { intros off Hoff. rewrite <- Hfield by lia. apply load64_ext. intros x Hx. apply F6; lia. }
  assert (B6 : bucket_count m6 t = 2 * bc).
  { unfold bucket_count. rewrite <- (Z.add_0_r (header_ptr t)), G6 by lia.
    rewrite Z.add_0_r. exact B3. }
  assert (S6 : bucket_size m6 t = bs) by (unfold bucket_size; rewrite G6 by lia; exact S3).
  assert (Fi6 : filled m6 t = 0) by (unfold filled; rewrite G6 by lia; exact Fi3).
  assert (M6 : max_dist m6 t = 0) by (unfold max_dist; rewrite G6 by lia; exact M3).
  assert (P6 : buckets_ptr m6 t = tl + 16).
  { rewrite <- P5. apply load64_ext. intros x Hx. unfold m6, memset.
    rewrite load8_store_bytes_other by (rewrite repeat_length; lia). reflexivity. }
  assert (Fu6 : forall x, ~ used m4 x -> load8 m6 x = load8 m4 x).
  { intros x Hx. apply F6; intros Hx'; apply Hx.
    - apply W4. lia.
    - apply U4. apply (used_ext m m3 x Fu3). apply Hhdr. lia. }
  pose proof (arena_ok_ext cap m4 m6 Fu6 A4) as A6.
  assert (U6 : forall x, used m x -> used m6 x).
  { intros x Hx. apply (used_ext m4 m6 x Fu6). apply U4. apply (used_ext m m3 x Fu3). exact Hx. }
  assert (K6 : forall x, used m x -> ~ (header_ptr t <= x < header_ptr t + 40) ->
                 load8 m6 x = load8 m x).
  { intros x Hx Hh. pose proof (used_below m x Hx). fold tl in H0.
    rewrite F6 by lia. rewrite F4 by (apply (used_ext m m3 x Fu3); exact Hx).
    apply F3. exact Hh. }
  assert (E6 : forall i, 0 <= i < 2 * bc -> ~ occupied (slot m6 t i)).
  { intros i Hi Ho. apply Ho. unfold slot, read_bucket; cbn [b_hash].
    apply load64_zero. intros x Hx. apply Z6.
    pose proof (slot_bounds (2 * bc) bs i Hi ltac:(lia)).
    unfold slot_pos in Hx. rewrite P6, S6 in Hx. lia. }
  assert (En6 : entries m6 t = []).
  { unfold entries. apply entries_upto_none. intros i Hi. apply E6. rewrite B6 in Hi. lia. }
  assert (H6 : ht_ok m6 t).
  { constructor; rewrite ?B6, ?S6, ?Fi6, ?M6, ?P6; unfold sizeof_hash_bucket, sizeof_hash_table_header.
    - destruct (ok_pow m t H) as (k & Hk & Ek). exists (k + 1). fold bc in Ek.
      assert (k < 30).
      { destruct (Z_lt_dec k 30); [assumption | exfalso].
        assert (k = 30) by lia. subst k. lia. }
      split; [lia |]. rewrite Z.pow_add_r by lia. lia.
    - exact Hbs.
    - intros x Hx. apply U6. apply Hhdr. exact Hx.
    - intros x Hx. apply (used_ext m4 m6 x Fu6). apply W4. lia.
    - lia.
    - intros i Hi Ho. exfalso. apply (E6 i Hi Ho).
    - rewrite En6. reflexivity.
    - lia.
    - intros i Hi Ho. exfalso. apply (E6 i Hi Ho).
    - lia.
    - intros i Hi Ho. exfalso. apply (E6 i Hi Ho). }
  assert (I6 : rehash_inv cap m t (tl + 16) 0 m6).
  { unfold rehash_inv. fold bc bs. rewrite En6.
    repeat (split; [assumption |]). apply perm_nil. }
  rewrite S6.
  destruct (reinsert_spec cap mmap d m t (tl + 16) H ltac:(fold tl; lia)
              (Z.to_nat bc) 0 m6 ltac:(lia) ltac:(fold bc; lia) Hbig I6) as (m7 & Hre & I7).
  fold bs in Hre. rewrite Hre. cbn [bind returns].
  destruct I7 as (A7 & H7 & B7 & S7 & P7 & U7 & K7 & Perm7).
  fold bc bs in B7, S7, Perm7. rewrite S7. rewrite (u64_small (bc * bs)) by nia.
  set (m8 := memset m7 (buckets_ptr m t) 255 (bc * bs)).
  assert (F8 : forall x, ~ (buckets_ptr m t <= x < buckets_ptr m t + bc * bs) ->
                 load8 m8 x = load8 m7 x).
  { intros x Hx. unfold m8, memset. apply load8_store_bytes_other. rewrite repeat_length. lia. }
  assert (Fu8 : forall x, ~ used m7 x -> load8 m8 x = load8 m7 x).
  { intros x Hx. apply F8. intros Hx'. apply Hx. apply U7. apply Harr. exact Hx'. }
  assert (Hkeys : forall i, 0 <= i < bucket_count m7 t -> occupied (slot m7 t i) ->
            key_ok m t (slot m7 t i)).
  { intros i Hi Ho.
    assert (Hin : In (slot m7 t i) (entries m t)).
    { unfold entries. fold bc. apply (Permutation_in _ Perm7). apply in_entries. exists i. auto. }
    apply in_entries in Hin as (j & Hj & Es & _). rewrite <- Es.
    apply (ok_keys m t H j Hj). rewrite Es. exact Ho. }
  destruct (ht_ok_stable m7 m8 t H7) as (H8 & B8 & S8 & Fi8 & M8 & P8 & Sl8).
  { intros x. apply (used_ext m7 m8 x Fu8). }
  { intros x Hx. apply F8. intros Hold.
    pose proof (used_below m x (Harr x Hold)) as Hxt. fold tl in Hxt.
    destruct Hx as [Hx | [(i & Hi & Hx) | (i & s & Hi & Ho & Hk & Hs & Hx)]].
    - unfold sizeof_hash_table_header in Hx. lia.
    - rewrite B7 in Hi. pose proof (slot_bounds (2 * bc) bs i Hi ltac:(lia)).
      unfold slot_pos, sizeof_hash_bucket in Hx. rewrite P7, S7 in Hx. lia.
    - destruct (Hkeys i Hi Ho) as (s' & Hk' & Hs' & _ & Hu').
      assert (Hs7 : cstr_at m7 (b_keyptr (slot m7 t i)) s').
      { apply (cstr_at_ext m); [| exact Hs']. intros y Hy. destruct (Hu' y Hy) as [Uy Ty].
        apply K7; [exact Uy |]. intros Hh. apply Ty. left. exact Hh. }
      assert (s' = s) by (eapply cstr_at_inj; try eassumption; [apply Hk' | apply Hk]).
      subst s'. destruct (Hu' x Hx) as [_ Tx]. apply Tx. right. exact Hold. }
  split; [apply (arena_ok_ext cap m7); assumption |]. split; [exact H8 |].
  split; [lia |]. split; [lia |].
  assert (Pm : Permutation (entries m8 t) (entries m t)).
  { replace (entries m8 t) with (entries m7 t); [exact Perm7 |].
    symmetry. apply entries_ext; [exact B8 |]. apply slots_ext; try assumption.
    - apply (ht_ok_layout m7 t H7).
    - intros x Hx. apply F8. rewrite P7 in Hx. lia. }
  split.
  { rewrite (ok_filled m8 t H8), (ok_filled m t H). rewrite (Permutation_length Pm). reflexivity. }
  split; [exact Pm |].
  split; [intros x Hx; apply (used_ext m7 m8 x Fu8); apply U7; exact Hx |].
  split.
  - intros x Ux Tx. rewrite F8 by (intros Hx; apply Tx; right; exact Hx).
    apply K7; [exact Ux |]. intros Hx; apply Tx; left; exact Hx.
  - intros x [Hx | Hx]; [left; exact Hx | right].
    rewrite P8, P7 in Hx. intros Ux. pose proof (used_below m x Ux). fold tl in H0. lia.
Qed.

(** ** Insertion *)

Lemma footprint_used m t x : ht_ok m t -> footprint m t x -> used m x.
Proof.
  intros H [Hx | (i & s & Hi & Ho & Hk & Hs & Hx)]; [apply (table_bytes_used m t x H Hx) |].
  destruct (ok_keys m t H i Hi Ho) as (s' & Hk' & Hs' & _ & Hu).
  assert (s' = s) by (eapply cstr_at_inj; try eassumption; [apply Hk' | apply Hk]).
  subst s'. apply Hu. exact Hx.
Qed.

(** A table is untouched by changes outside its footprint. *)
Lemma ht_ok_frame m m' t :
  ht_ok m t ->
  (forall x, used m x -> used m' x) ->
  (forall x, footprint m t x -> load8 m' x = load8 m x) ->
  ht_ok m' t /\
  bucket_count m' t = bucket_count m t /\ bucket_size m' t = bucket_size m t /\
  filled m' t = filled m t /\ max_dist m' t = max_dist m t /\
  buckets_ptr m' t = buckets_ptr m t /\
  (forall i, 0 <= i < bucket_count m t -> slot m' t i = slot m t i) /\
  entries m' t = entries m t /\
  (forall x, table_bytes m' t x <-> table_bytes m t x).
Proof.
  intros H U F. pose proof (ht_ok_layout m t H) as L.
  destruct (ht_ok_stable m m' t H U) as (H' & E1 & E2 & E3 & E4 & E5 & _).
  { intros x Hx. apply F. apply core_footprint; assumption. }
  assert (S : forall i, 0 <= i < bucket_count m t -> slot m' t i = slot m t i).
  { apply slots_ext; try assumption. intros x Hx. apply F. left. right. exact Hx. }
  do 6 (split; [assumption |]). split; [exact S |]. split.
  - apply entries_ext; assumption.
  - intros x. apply table_bytes_ext; assumption.
Qed.

Lemma rehash_due m t :
  ht_ok m t -> filled m t < 2 ^ 28 ->
  Z.min (9 * bucket_count m t / 10) (bucket_count m t - 1) <= filled m t ->
  bucket_count m t <= 2 ^ 29.
Proof.
  intros H Hf Hd. pose proof (layout_bc m t (ht_ok_layout m t H)).
  pose proof (Z.div_mod (9 * bucket_count m t) 10 ltac:(lia)).
  pose proof (Z.mod_pos_bound (9 * bucket_count m t) 10 ltac:(lia)). lia.
Qed.

Lemma ht_insert_intern_spec cap mmap d m t kp s :
  cap < 2 ^ 62 -> arena_ok cap m -> ht_ok m t -> filled m t < 2 ^ 28 ->
  is_key s -> cstr_at m kp s ->
  (forall x, kp <= x < kp + strlen s + 1 -> used m x /\ ~ table_bytes m t x) ->
  returns (ht_insert_intern cap mmap (S d) m t kp) (fun '(r, m') =>
    arena_ok cap m' /\ ht_ok m' t /\
    (bucket_count m' t = bucket_count m t \/
     bucket_count m' t = 2 * bucket_count m t) /\
    bucket_size m' t = bucket_size m t /\
    filled m' t = filled m t + 1 /\
    0 <= r < bucket_count m' t /\ slot m' t r = new_bucket m t s kp /\
    Permutation (entries m' t) (new_bucket m t s kp :: entries m t) /\
    (forall x, used m x -> used m' x) /\
    (forall x, used m x -> ~ table_bytes m t x -> load8 m' x = load8 m x) /\
    (forall x, table_bytes m' t x -> table_bytes m t x \/ ~ used m x)).
Proof.
  intros Hc A H Hf Hkey Hs Hku.
  pose proof (ht_ok_layout m t H) as L. pose proof (layout_bc m t L) as Hbc.
  destruct (Z_lt_dec (filled m t) (Z.min (9 * bucket_count m t / 10) (bucket_count m t - 1)))
    as [Hroom | Hfull].
  - destruct (ht_insert_intern_fits cap mmap (S d) m t kp s A H Hroom Hkey Hs Hku)
      as (r & m' & -> & H' & A' & F & E1 & E2 & E3 & E4 & Hr & Hsl & P).
    cbn [returns]. destruct (ht_ok_arena_frame cap m m' t H A F) as (_ & U).
    split; [exact A' |]. split; [exact H' |]. split; [left; exact E1 |].
    split; [exact E2 |]. split; [exact E4 |]. split; [rewrite E1; exact Hr |].
    split; [exact Hsl |]. split; [exact P |].
    split; [intros x; apply U |]. split; [intros x _; apply F |].
    intros x Hx. left. apply (table_bytes_ext m m' t x E1 E2 E3). exact Hx.
  - rewrite ht_insert_intern_unfold. rewrite (max_filled_eq m t L).
    replace (_ <=? filled m t) with true by (symmetry; apply Z.leb_le; lia).
    eapply returns_bind;
      [apply (ht_resize_spec cap mmap d m t Hc A H); apply rehash_due; assumption || lia |].
    intros m1 (A1 & H1 & B1 & S1 & F1 & P1 & U1 & K1 & T1). cbv beta.
    pose proof (ht_ok_layout m1 t H1) as L1.
    pose proof (ok_load m t H) as [Hl1 Hl2].
    assert (Hroom : filled m1 t <
              Z.min (9 * bucket_count m1 t / 10) (bucket_count m1 t - 1)).
    { rewrite F1, B1.
      pose proof (Z.div_mod (9 * (2 * bucket_count m t)) 10 ltac:(lia)).
      pose proof (Z.mod_pos_bound (9 * (2 * bucket_count m t)) 10 ltac:(lia)). lia. }
    match goal with
    | |- returns ?c _ => replace c with (ht_insert_intern cap mmap 0 m1 t kp)
    end.
    2: { rewrite ht_insert_intern_unfold, (max_filled_eq m1 t L1).
         replace (_ <=? filled m1 t) with false by (symmetry; apply Z.leb_gt; exact Hroom).
         reflexivity. }
    destruct (ht_insert_intern_fits cap mmap 0 m1 t kp s A1 H1 Hroom Hkey)
      as (r & m' & -> & H' & A' & F & E1 & E2 & E3 & E4 & Hr & Hsl & P).
    { apply (cstr_at_ext m); [| exact Hs]. intros x Hx. destruct (Hku x Hx) as [Ux Tx].
      apply K1; assumption. }
    { intros x Hx. destruct (Hku x Hx) as [Ux Tx]. split; [apply U1; exact Ux |].
      intros Hx1. destruct (T1 x Hx1) as [Hh | Hn]; [apply Tx; left; exact Hh | apply Hn; exact Ux]. }
    cbn [returns]. destruct (ht_ok_arena_frame cap m1 m' t H1 A1 F) as (_ & U).
    assert (Enb : new_bucket m1 t s kp = new_bucket m t s kp)
      by (unfold new_bucket; rewrite S1; reflexivity).
    rewrite Enb in *.
    split; [exact A' |]. split; [exact H' |]. split; [right; congruence |].
    split; [congruence |]. split; [lia |]. split; [rewrite E1; exact Hr |].
    split; [exact Hsl |].
    split; [etransitivity; [exact P | apply perm_skip; exact P1] |].
    split; [intros x Hx; apply U; apply U1; exact Hx |].
    split.
    + intros x Ux Tx. rewrite F; [apply K1; assumption |].
      intros Hx1. destruct (T1 x Hx1) as [Hh | Hn]; [apply Tx; left; exact Hh | apply Hn; exact Ux].
    + intros x Hx. apply (table_bytes_ext m1 m' t x E1 E2 E3) in Hx.
      destruct (T1 x Hx) as [Hh | Hn]; [left; left; exact Hh | right; exact Hn].
Qed.

(** ** Interning and inserting a key *)

Lemma used_dec m x : used m x \/ ~ used m x.
Proof. unfold used. lia. Qed.

Lemma is_key_bytes s : is_key s -> Forall is_byte (s ++ [0]).
Proof.
  intros [Hs _]. apply Forall_app. split.
  - eapply Forall_impl; [| exact Hs]. unfold is_char, is_byte. intros; lia.
  - constructor; [unfold is_byte; lia | constructor].
Qed.

Lemma mem_insert_str_spec cap mmap m s :
  cap < 2 ^ 62 -> arena_ok cap m -> is_key s ->
  returns (mem_insert_str cap mmap m s) (fun '(kp, m') =>
    kp = next_free m + 16 /\ arena_ok cap m' /\ cstr_at m' kp s /\
    (forall x, used m x -> used m' x) /\
    (forall x, used m x -> load8 m' x = load8 m x) /\
    (forall x, kp <= x < kp + strlen s + 1 -> used m' x)).
Proof.
  intros Hc A Hk. pose proof Hk as [Hs Hlen].
  assert (Hl0 : 0 <= strlen s) by (unfold strlen; lia).
  unfold mem_insert_str. rewrite (u64_small (strlen s + 1)) by lia.
  eapply returns_bind;
    [apply (mem_alloc_returns cap mmap m (strlen s + 1) Hc A); lia |].
  intros [h m1] (-> & A1 & N1 & U1 & F1 & W1). cbn [returns].
  set (kp := next_free m + 16) in *.
  assert (Hlen' : Z.of_nat (length (s ++ [0])) = strlen s + 1)
    by (rewrite length_app; unfold strlen; cbn [length]; lia).
  assert (Fu : forall x, ~ used m1 x -> load8 (store_bytes m1 kp (s ++ [0])) x = load8 m1 x).
  { intros x Hx. apply load8_store_bytes_other.
    destruct (Z_lt_dec x kp); [left; assumption | right].
    destruct (Z_le_dec (kp + Z.of_nat (length (s ++ [0]))) x); [assumption | exfalso].
    apply Hx. apply W1. lia. }
  split; [reflexivity |]. split; [apply (arena_ok_ext cap m1); assumption |].
  split; [| split; [| split]].
  - unfold cstr_at. replace (S (length s)) with (length (s ++ [0]))
      by (rewrite length_app; cbn [length]; lia).
    apply load_bytes_store_bytes. apply is_key_bytes. exact Hk.
  - intros x Hx. apply (used_ext m1 _ x Fu). apply U1. exact Hx.
  - intros x Hx. pose proof (used_below m x Hx).
    rewrite load8_store_bytes_other by (unfold kp; lia). apply F1. exact Hx.
  - intros x Hx. apply (used_ext m1 _ x Fu). apply W1. unfold kp in *. lia.
Qed.

Lemma ht_insert_str_spec cap mmap m t s :
  cap < 2 ^ 62 -> arena_ok cap m -> ht_ok m t -> filled m t < 2 ^ 28 -> is_key s ->
  returns (ht_insert_str cap mmap m t s) (fun '(r, m') =>
    arena_ok cap m' /\ ht_ok m' t /\
    (bucket_count m' t = bucket_count m t \/
     bucket_count m' t = 2 * bucket_count m t) /\
    bucket_size m' t = bucket_size m t /\
    filled m' t = filled m t + 1 /\
    0 <= r < bucket_count m' t /\
    (exists kp, next_free m <= kp /\ cstr_at m' kp s /\
       slot m' t r = new_bucket m t s kp /\
       Permutation (entries m' t) (new_bucket m t s kp :: entries m t)) /\
    (forall x, used m x -> used m' x) /\
    (forall x, used m x -> ~ table_bytes m t x -> load8 m' x = load8 m x) /\
    (forall x, table_bytes m' t x -> table_bytes m t x \/ ~ used m x)).
Proof.
  intros Hc A H Hf Hk. unfold ht_insert_str.
  destruct (ht_lookup_total m t s H) as (pos & -> & _). cbn [bind].
  eapply returns_bind; [apply (mem_insert_str_spec cap mmap m s Hc A Hk) |].
  intros [kp m1] (Ekp & A1 & Hs1 & U1 & F1 & W1). cbv beta iota zeta.
  destruct (ht_ok_frame m m1 t H U1) as (H1 & E1 & E2 & E3 & E4 & E5 & S1 & En1 & T1).
  { intros x Hx. apply F1. apply (footprint_used m t x H Hx). }
  assert (Hfresh : forall x, kp <= x -> ~ used m x).
  { intros x Hx Ux. pose proof (used_below m x Ux). lia. }
  assert (Hl0 : 0 <= strlen s) by (unfold strlen; lia).
  eapply returns_weaken.
  - apply (ht_insert_intern_spec cap mmap 1 m1 t kp s Hc A1 H1); try assumption; [lia |].
    intros x Hx. split; [apply W1; exact Hx |].
    rewrite T1. intros Tx. apply (Hfresh x ltac:(lia)). apply (table_bytes_used m t x H Tx).
  - intros [r m'] (A' & H' & B' & S' & F' & Hr & Hsl & P & U' & K' & T').
    assert (Enb : new_bucket m1 t s kp = new_bucket m t s kp)
      by (unfold new_bucket; rewrite E2; reflexivity).
    rewrite Enb, En1, E1, E2, E3 in *.
    do 6 (split; [assumption |]). split; [| split; [| split]].
    + exists kp. split; [lia |]. split; [| split; assumption].
      apply (cstr_at_ext m1); [| exact Hs1]. intros x Hx. apply K'; [apply W1; exact Hx |].
      rewrite T1. intros Tx. apply (Hfresh x ltac:(lia)). apply (table_bytes_used m t x H Tx).
    + intros x Hx. apply U'. apply U1. exact Hx.
    + intros x Ux Tx. rewrite K'; [apply F1; exact Ux | apply U1; exact Ux | rewrite T1; exact Tx].
    + intros x Hx. destruct (T' x Hx) as [Hx1 | Hn]; [left; apply T1; exact Hx1 |].
      destruct (used_dec m x) as [Ux | Ux]; [exfalso; apply Hn; apply U1; exact Ux | right; exact Ux].
Qed.

(** ** Creation of a table *)

Lemma ht_init_spec cap mmap m vs :
  cap < 2 ^ 62 -> arena_ok cap m -> 0 <= vs <= 2 ^ 30 - 16 ->
  returns (ht_init cap mmap m vs) (fun '(t, m') =>
    header_ptr t = next_free m + 16 /\
    arena_ok cap m' /\ ht_ok m' t /\
    bucket_count m' t = 2 /\ bucket_size m' t = 16 + vs /\
    filled m' t = 0 /\ max_dist m' t = 0 /\ entries m' t = [] /\
    (forall x, used m x -> used m' x) /\
    (forall x, used m x -> load8 m' x = load8 m x) /\
    (forall x, table_bytes m' t x -> ~ used m x)).
Proof.
  intros Hc A Hvs. unfold ht_init, sizeof_hash_table_header, sizeof_hash_bucket.
  eapply returns_bind; [apply (mem_alloc_returns cap mmap m 40 Hc A); lia |].
  intros [hp m1] (-> & A1 & N1 & U1 & F1 & W1). cbv beta iota zeta.
  set (tl := next_free m) in *. set (t := {| header_ptr := tl + 16 |}).
  pose proof (next_free_range m) as Htl. fold tl in Htl.
  rewrite (u64_small (16 + vs)) by lia.
  set (m2 := set_max_dist (set_filled (set_bucket_count (set_bucket_size m1 t (16 + vs)) t 2) t 0) t 0).
  assert (B2 : bucket_count m2 t = 2) by (unfold m2; unfold_fields; mem_simp; reflexivity).
  assert (S2 : bucket_size m2 t = 16 + vs)
    by (unfold m2; unfold_fields; mem_simp; apply u64_small; lia).
  assert (Fi2 : filled m2 t = 0) by (unfold m2; unfold_fields; mem_simp; reflexivity).
  assert (M2 : max_dist m2 t = 0) by (unfold m2; unfold_fields; mem_simp; reflexivity).
  assert (F2 : forall x, ~ (tl + 16 <= x < tl + 16 + 40) -> load8 m2 x = load8 m1 x).
  { intros x Hx. unfold m2. unfold_fields. cbn [header_ptr t]. mem_simp. reflexivity. }
  assert (Fu2 : forall x, ~ used m1 x -> load8 m2 x = load8 m1 x).
  { intros x Hx. apply F2. intros Hx'. apply Hx. apply W1. lia. }
  pose proof (arena_ok_ext cap m1 m2 Fu2 A1) as A2.
  destruct (arena_view_ext m1 m2 Fu2) as (N2 & _).
  rewrite B2, S2. rewrite (u64_small (2 * (16 + vs))) by lia.
  eapply returns_bind; [apply (mem_alloc_returns cap mmap m2 (2 * (16 + vs)) Hc A2); lia |].
  intros [tmp m3] (-> & A3 & N3 & U3 & F3 & W3). cbv beta iota zeta.
  rewrite N2 in *. set (nf := next_free m1) in *.
  pose proof (next_free_range m3) as Hnf3.
  assert (Hf3 : forall off, 0 <= off <= 32 ->
            load64 m3 (tl + 16 + off) = load64 m2 (tl + 16 + off)).
  { intros off Hoff. apply load64_ext. intros x Hx. apply F3.
    apply (used_ext m1 m2 x Fu2). apply W1. lia. }
  set (m4 := set_buckets_ptr m3 t (nf + 16)).
  assert (F4 : forall x, ~ (tl + 16 + 32 <= x < tl + 16 + 40) -> load8 m4 x = load8 m3 x).
  { intros x Hx. unfold m4. unfold_fields. cbn [header_ptr t]. mem_simp. reflexivity. }
  assert (Hf4 : forall off, 0 <= off <= 24 ->
            load64 m4 (tl + 16 + off) = load64 m2 (tl + 16 + off)).
  { intros off Hoff. rewrite <- Hf3 by lia. apply load64_ext. intros x Hx. apply F4. lia. }
  assert (B4 : bucket_count m4 t = 2).
  { rewrite <- B2. unfold bucket_count; cbn [header_ptr t].
    rewrite <- (Z.add_0_r (tl + 16)). apply Hf4. lia. }
  assert (S4 : bucket_size m4 t = 16 + vs)
    by (rewrite <- S2; unfold bucket_size; cbn [header_ptr t]; apply Hf4; lia).
  assert (P4 : buckets_ptr m4 t = nf + 16).
  { unfold m4. unfold_fields. mem_simp. apply u64_small. lia. }
  rewrite B4. change (Z.to_nat 2) with 2%nat. cbn [clear_hashes].
  change (u64 0) with 0. change (to_int (0 + 1)) with 1. change (u64 1) with 1.
  replace (ht_bucket m4 t 0) with (nf + 16)
    by (unfold ht_bucket, ht_bucket_rel; rewrite P4, Z.mul_0_l; change (u64 0) with 0; lia).
  set (m5 := store64 m4 (nf + 16) 0).
  assert (F5 : forall x, ~ (nf + 16 <= x < nf + 16 + 8) -> load8 m5 x = load8 m4 x).
  { intros x Hx. unfold m5. mem_simp. reflexivity. }
  assert (S5 : bucket_size m5 t = 16 + vs).
  { rewrite <- S4. apply load64_ext. cbn [header_ptr t]. intros x Hx. apply F5. lia. }
  assert (P5 : buckets_ptr m5 t = nf + 16).
  { rewrite <- P4. apply load64_ext. cbn [header_ptr t]. intros x Hx. apply F5. lia. }
  unfold ht_bucket, ht_bucket_rel. rewrite P5, S5, Z.mul_1_l.
  rewrite (u64_small (16 + vs)) by lia.
  set (m6 := store64 m5 (nf + 16 + (16 + vs)) 0).
  assert (F6 : forall x, ~ (nf + 16 <= x < nf + 16 + 2 * (16 + vs)) -> load8 m6 x = load8 m4 x).
  { intros x Hx. unfold m6. mem_simp. apply F5. lia. }
  assert (Hf6 : forall off, 0 <= off <= 32 ->
            load64 m6 (tl + 16 + off) = load64 m4 (tl + 16 + off)).
  { intros off Hoff. apply load64_ext. intros x Hx. apply F6. lia. }
  assert (B6 : bucket_count m6 t = 2).
  { rewrite <- B4. unfold bucket_count; cbn [header_ptr t].
    rewrite <- (Z.add_0_r (tl + 16)). apply Hf6. lia. }
  assert (S6 : bucket_size m6 t = 16 + vs)
    by (rewrite <- S4; unfold bucket_size; cbn [header_ptr t]; apply Hf6; lia).
  assert (Fi6 : filled m6 t = 0).
  { rewrite <- Fi2. unfold filled; cbn [header_ptr t]. rewrite Hf6, Hf4 by lia. reflexivity. }
  assert (M6 : max_dist m6 t = 0).
  { rewrite <- M2. unfold max_dist; cbn [header_ptr t]. rewrite Hf6, Hf4 by lia. reflexivity. }
  assert (P6 : buckets_ptr m6 t = nf + 16)
    by (rewrite <- P4; unfold buckets_ptr; cbn [header_ptr t]; apply Hf6; lia).
  assert (E6 : forall i, 0 <= i < 2 -> ~ occupied (slot m6 t i)).
  { intros i Hi Ho. apply Ho. unfold slot, read_bucket, slot_pos; cbn [b_hash].
    rewrite P6, S6. assert (i = 0 \/ i = 1) as [-> | ->] by lia.
    - rewrite Z.mul_0_l, Z.add_0_r. unfold m6, m5. mem_simp. reflexivity.
    - rewrite Z.mul_1_l. unfold m6. mem_simp. reflexivity. }
  assert (Fu6 : forall x, ~ used m3 x -> load8 m6 x = load8 m3 x).
  { intros x Hx. rewrite F6, F4; [reflexivity | |]; intros Hx'; apply Hx.
    - apply U3. apply (used_ext m1 m2 x Fu2). apply W1. lia.
    - apply W3. lia. }
  assert (U6 : forall x, used m x -> used m6 x).
  { intros x Hx. apply (used_ext m3 m6 x Fu6). apply U3.
    apply (used_ext m1 m2 x Fu2). apply U1. exact Hx. }
  assert (En6 : entries m6 t = []).
  { unfold entries. apply entries_upto_none. intros i Hi. apply E6. rewrite B6 in Hi. lia. }
  cbn [returns]. split; [reflexivity |].
  split; [apply (arena_ok_ext cap m3); assumption |].
  split.
  { constructor; rewrite ?B6, ?S6, ?Fi6, ?M6, ?P6;
      unfold sizeof_hash_bucket, sizeof_hash_table_header; cbn [header_ptr t].
    - exists 1. split; [lia | reflexivity].
    - lia.
    - intros x Hx. apply (used_ext m3 m6 x Fu6). apply U3.
      apply (used_ext m1 m2 x Fu2). apply W1. lia.
    - intros x Hx. apply (used_ext m3 m6 x Fu6). apply W3. lia.
    - lia.
    - intros i Hi Ho. exfalso. apply (E6 i Hi Ho).
    - rewrite En6. reflexivity.
    - lia.
    - intros i Hi Ho. exfalso. apply (E6 i Hi Ho).
    - lia.
    - intros i Hi Ho. exfalso. apply (E6 i Hi Ho). }
  do 5 (split; [assumption |]). split; [exact U6 |]. split.
  - intros x Hx. pose proof (used_below m x Hx). fold tl in H.
    rewrite F6, F4 by lia. rewrite F3 by (apply (used_ext m1 m2 x Fu2); apply U1; exact Hx).
    rewrite F2 by lia. apply F1. exact Hx.
  - intros x Hx Ux. pose proof (used_below m x Ux). fold tl in H.
    unfold table_bytes, sizeof_hash_table_header in Hx. cbn [header_ptr t] in Hx.
    rewrite P6, B6, S6 in Hx. lia.
Qed.

(** * The stated properties *)

(** ** Arena *)

Lemma arena_step_ok cap mmap m m' :
  cap < 2 ^ 62 -> arena_ok cap m -> arena_step cap mmap m m' ->
  arena_ok cap m' /\ (forall x, used m x -> used m' x).
Proof.
  intros Hc A S. revert A. destruct S as [m1 sz h m2 Hsz Hrun | m1 m2 F]; intros A.
  - pose proof (mem_alloc_returns cap mmap m1 sz Hc A Hsz) as R.
    rewrite Hrun in R. cbn in R. destruct R as (_ & A' & _ & U & _). split; assumption.
  - split; [apply (arena_ok_ext cap m1); assumption |].
    intros x. apply (used_ext m1 m2 x F).
Qed.

Lemma arena_later_ok cap mmap m m' :
  cap < 2 ^ 62 -> arena_ok cap m -> arena_later cap mmap m m' ->
  arena_ok cap m' /\ (forall x, used m x -> used m' x).
Proof.
  intros Hc A L. induction L as [m | m1 m2 m3 L IH S].
  - split; [exact A | auto].
  - destruct (IH A) as (A2 & U2).
    destruct (arena_step_ok cap mmap m2 m3 Hc A2 S) as (A3 & U3).
    split; [exact A3 | intros x Hx; apply U3, U2, Hx].
Qed.

Lemma peek_MEMPTR m x : peek m (MEMPTR m x) = load8 m x.
Proof. unfold peek, MEMPTR, load8. f_equal. f_equal. lia. Qed.

(** C1 -- Handle stability.  Let [h] be the handle returned by an
    allocation of [n] bytes.  In every later state of the arena (after any
    number of allocations, growing the file or not, and of writes by
    clients into their blocks) the [n] bytes at [h] are still a block of
    the client, and an allocation made in that state comes back and,
    whether or not it grows and remaps the file, leaves each of these
    bytes as it was: the byte found at the machine address of [h + i]
    after the allocation is the byte that was found at the machine address
    of [h + i] before it. *)
Theorem handle_stability cap mmap m0 n h m1 m :
  cap <= 2 ^ 47 -> arena_ok cap m0 -> 0 <= n < 2 ^ 61 ->
  mem_alloc cap mmap m0 n = Done (h, m1) ->
  arena_later cap mmap m1 m ->
  (forall x, h <= x < h + n -> used m x) /\
  (forall sz, 0 <= sz < 2 ^ 61 ->
     returns (mem_alloc cap mmap m sz) (fun '(h', m') =>
       forall x, h <= x < h + n ->
         peek m' (MEMPTR m' x) = peek m (MEMPTR m x))).
Proof.
  intros Hc A Hn Hrun L. assert (Hc' : cap < 2 ^ 62) by lia.
  pose proof (mem_alloc_returns cap mmap m0 n Hc' A Hn) as R.
  rewrite Hrun in R. cbn in R. destruct R as (-> & A1 & N1 & U1 & F1 & W1).
  destruct (arena_later_ok cap mmap m1 m Hc' A1 L) as (Am & Um).
  assert (Hu : forall x, next_free m0 + 16 <= x < next_free m0 + 16 + n -> used m x).
  { intros x Hx. apply Um. apply W1. lia. }
  split; [exact Hu |].
  intros sz Hsz.
  eapply returns_weaken; [apply (mem_alloc_returns cap mmap m sz Hc' Am Hsz) |].
  intros [h' m'] (_ & _ & _ & _ & F & _) x Hx.
  rewrite !peek_MEMPTR. apply F. apply Hu. exact Hx.
Qed.

(** C9 -- Allocation alignment.  In an arena that was created by
    [mem_create] (with room for the sentinels) and went through any number
    of allocations and client writes, an allocation returns (unless the
    file cannot grow) the offset of the tail block plus the size of a
    block descriptor; the tail, and so this offset, is a multiple of 4,
    and so is the new tail. *)
Theorem allocation_alignment cap mmap disk isz m0 m sz :
  cap <= 2 ^ 47 -> 48 <= isz ->
  mem_create cap mmap disk isz = Done m0 ->
  arena_later cap mmap m0 m -> 0 <= sz < 2 ^ 61 ->
  returns (mem_alloc cap mmap m sz) (fun '(h, m') =>
    h mod 4 = 0 /\ h = next_free m + sizeof_mem_block /\
    next_free m mod 4 = 0 /\ next_free m' mod 4 = 0).
Proof.
  intros Hc Hisz Hcr L Hsz. assert (Hc' : cap < 2 ^ 62) by lia.
  assert (Hle : isz <= cap).
  { unfold mem_create in Hcr. destruct (Z.leb_spec isz cap); [assumption |].
    rewrite andb_false_r in Hcr. discriminate. }
  destruct (mem_create_ok cap mmap disk isz Hc' ltac:(lia)) as (m0' & E & A0 & _).
  rewrite Hcr in E. injection E as <-.
  destruct (arena_later_ok cap mmap m0 m Hc' A0 L) as (A & _).
  eapply returns_weaken; [apply (mem_alloc_returns cap mmap m sz Hc' A Hsz) |].
  intros [h m'] (-> & A' & _). unfold sizeof_mem_block.
  destruct A as (_ & _ & Hal & _). destruct A' as (_ & _ & Hal' & _).
  split; [| split; [reflexivity | split; assumption]].
  rewrite <- Zplus_mod_idemp_l, Hal. reflexivity.
Qed.

(** ** The hash function *)

(** The hash is never 0. *)
Lemma hash_nonzero s : hash s <> 0.
Proof. pose proof (hash_range s). lia. Qed.

Lemma to_char_ascii c : 0 <= c < 128 -> u64 (to_char c) = c.
Proof.
  intros H. unfold to_char. destruct (Z.ltb_spec c 128); [| lia]. apply u64_small. lia.
Qed.

Lemma fold_fnv_app bytes : forall v b,
  fold_left (fun v b => (Z.lxor v b * fnv_prime) mod 2 ^ 64) (bytes ++ [b]) v =
  (Z.lxor (fold_left (fun v b => (Z.lxor v b * fnv_prime) mod 2 ^ 64) bytes v) b
   * fnv_prime) mod 2 ^ 64.
Proof. intros v b. rewrite fold_left_app. reflexivity. Qed.

Lemma hash_loop_ascii s : forall v,
  Forall (fun c => 0 <= c < 128) s ->
  hash_loop v s =
  fold_left (fun v b => (Z.lxor v b * fnv_prime) mod 2 ^ 64) (s ++ [0]) v.
Proof.
  induction s as [| c s IH]; intros v Hs; cbn [hash_loop app fold_left].
  - unfold hash_step. rewrite to_char_ascii by lia. reflexivity.
  - inversion Hs; subst. rewrite IH by assumption.
    unfold hash_step. rewrite to_char_ascii by assumption. reflexivity.
Qed.

(** X6 -- The hash of a key of 7-bit characters.  When every byte of the
    key is below 128, [hash] returns the 64-bit FNV-1a of the bytes of the
    key and of its NUL (offset basis 0xcbf29ce484222325, prime
    0x100000001b3, modulo 2^64), with 0 replaced by 1. *)
Lemma hash_ascii s :
  Forall (fun c => 0 <= c < 128) s -> hash s = spec_hash s.
Proof.
  intros Hs. unfold hash, spec_hash, fnv1a. rewrite hash_loop_ascii by assumption.
  reflexivity.
Qed.

(** C8 -- the hash of a key with a byte above 0x7f.  For the key "é"
    (the bytes c3 a9) the code returns a value that is not the FNV-1a of
    the bytes c3 a9 00: [*str] is a signed [char], so the byte is
    sign-extended to 64 bits before the xor. *)
Theorem hash_sign_extension :
  hash [0xc3; 0xa9] = 8866029762317226419 /\
  spec_hash [0xc3; 0xa9] = 6911656656799202227 /\
  hash [0xc3; 0xa9] <> spec_hash [0xc3; 0xa9].
Proof. split; [| split]; vm_compute; congruence. Qed.

(** ** Tables built by insertions *)

(** The key [s] is stored in the table. *)
Definition stored (m : mem) (t : hash_table) (s : cstring) : Prop :=
  exists i, found m t s i.

Lemma found_entry m t s i :
  found m t s i -> In (slot m t i) (entries m t).
Proof.
  intros (Hi & Hh & Hs). apply in_entries. exists i.
  split; [exact Hi |]. split; [reflexivity |].
  unfold occupied. rewrite Hh. apply hash_nonzero.
Qed.

(** Keys stay stored when the entries stay and their bytes are kept. *)
Lemma stored_kept m m' t s :
  ht_ok m t -> is_key s ->
  (forall b, In b (entries m t) -> In b (entries m' t)) ->
  (forall x, used m x -> ~ table_bytes m t x -> load8 m' x = load8 m x) ->
  stored m t s -> stored m' t s.
Proof.
  intros H Hk Hin F (i & Hf). pose proof (found_entry m t s i Hf) as He.
  destruct Hf as (Hi & Hh & Hs).
  apply Hin, in_entries in He. destruct He as (j & Hj & Es & Ho).
  exists j. split; [exact Hj |]. rewrite Es. split; [exact Hh |].
  assert (Hoi : occupied (slot m t i)) by (unfold occupied; rewrite Hh; apply hash_nonzero).
  destruct (ok_keys m t H i Hi Hoi) as (s' & Hk' & Hs' & _ & Hu).
  assert (s' = s) by (eapply cstr_at_inj; try eassumption; [apply Hk' | apply Hk]).
  subst s'. apply (cstr_at_ext m); [| exact Hs].
  intros x Hx. destruct (Hu x Hx). apply F; assumption.
Qed.

Lemma insert_all_spec cap mmap keys : forall m t,
  cap < 2 ^ 62 -> arena_ok cap m -> ht_ok m t ->
  filled m t + Z.of_nat (length keys) < 2 ^ 28 ->
  Forall is_key keys ->
  returns (insert_all cap mmap m t keys) (fun m' =>
    arena_ok cap m' /\ ht_ok m' t /\
    filled m' t = filled m t + Z.of_nat (length keys) /\
    bucket_size m' t = bucket_size m t /\
    (forall s, is_key s -> stored m t s -> stored m' t s) /\
    (forall s, In s keys -> stored m' t s)).
Proof.
  induction keys as [| k keys IH]; intros m t Hc A H Hn Hk.
  - cbn [insert_all returns length]. split; [exact A |]. split; [exact H |].
    split; [lia |]. split; [reflexivity |]. split; [auto | intros s []].
  - cbn [insert_all]. inversion Hk as [| k' ks Hk1 Hk2]; subst.
    cbn [length] in Hn.
    eapply returns_bind;
      [apply (ht_insert_str_spec cap mmap m t k Hc A H ltac:(lia) Hk1) |].
    intros [r m1] (A1 & H1 & B1 & S1 & F1 & Hr & (kp & Hfr & Hs & Hsl & P) & U1 & K1 & T1).
    cbv beta iota zeta.
    eapply returns_weaken; [apply (IH m1 t Hc A1 H1); [lia | exact Hk2] |].
    intros m' (A' & H' & F' & S' & M' & N').
    assert (Hst : stored m1 t k).
    { exists r. split; [exact Hr |]. rewrite Hsl. cbn [b_hash b_keyptr new_bucket].
      split; [reflexivity | exact Hs]. }
    assert (Hmono : forall s, is_key s -> stored m t s -> stored m1 t s).
    { intros s Hks. apply stored_kept; try assumption.
      intros b Hb. apply (Permutation_in _ (Permutation_sym P)). right. exact Hb. }
    split; [exact A' |]. split; [exact H' |]. split; [cbn [length]; lia |].
    split; [congruence |]. split.
    + intros s Hks Hss. apply M'; [exact Hks |]. apply Hmono; assumption.
    + intros s [<- | Hin]; [apply M'; assumption | apply N'; exact Hin].
Qed.

Lemma new_table_spec cap mmap disk isz vs :
  cap < 2 ^ 62 -> 48 <= isz -> 0 <= vs <= 2 ^ 30 - 16 ->
  returns (new_table cap mmap disk isz vs) (fun '(t, m) =>
    arena_ok cap m /\ ht_ok m t /\ bucket_count m t = 2 /\
    bucket_size m t = 16 + vs /\ filled m t = 0 /\ entries m t = []).
Proof.
  intros Hc Hisz Hvs. unfold new_table.
  destruct (Z_le_dec isz cap) as [Hle | Hgt].
  - destruct (mem_create_ok cap mmap disk isz Hc ltac:(lia)) as (m0 & -> & A0 & _).
    cbn [bind]. eapply returns_weaken; [apply (ht_init_spec cap mmap m0 vs Hc A0 Hvs) |].
    intros [t m] (_ & A & H & B & S & F & _ & E & _).
    do 5 (split; [assumption |]); assumption.
  - unfold mem_create. replace (isz <=? cap) with false by (symmetry; apply Z.leb_gt; lia).
    rewrite andb_false_r. exact I.
Qed.

Lemma table_of_spec cap mmap disk isz vs keys :
  cap < 2 ^ 62 -> 48 <= isz -> 0 <= vs <= 2 ^ 30 - 16 ->
  Z.of_nat (length keys) < 2 ^ 28 -> Forall is_key keys ->
  returns (table_of cap mmap disk isz vs keys) (fun '(t, m) =>
    arena_ok cap m /\ ht_ok m t /\
    filled m t = Z.of_nat (length keys) /\
    bucket_size m t = 16 + vs /\
    (forall s, In s keys -> stored m t s)).
Proof.
  intros Hc Hisz Hvs Hn Hk. unfold table_of.
  eapply returns_bind; [apply (new_table_spec cap mmap disk isz vs Hc Hisz Hvs) |].
  intros [t m] (A & H & B & S & F & E). cbv beta iota zeta.
  eapply returns_bind; [apply (insert_all_spec cap mmap keys m t Hc A H); [lia | exact Hk] |].
  intros m' (A' & H' & F' & S' & _ & N'). cbn [returns].
  split; [exact A' |]. split; [exact H' |]. split; [lia |]. split; [congruence | exact N'].
Qed.

(** ** Enumeration *)

(** The indices of the occupied slots among the [n] slots from [i] on. *)
Fixpoint occupied_from (m : mem) (t : hash_table) (i : Z) (n : nat) : list Z :=
  match n with
  | O => []
  | S k => (if occupiedb (slot m t i) then [i] else []) ++ occupied_from m t (i + 1) k
  end.

Lemma occupied_from_snoc m t n : forall i,
  occupied_from m t i (S n) =
  occupied_from m t i n ++
  (if occupiedb (slot m t (i + Z.of_nat n)) then [i + Z.of_nat n] else []).
Proof.
  induction n as [| n IH]; intros i.
  - cbn [occupied_from]. rewrite Z.add_0_r, app_nil_r. reflexivity.
  - change (occupied_from m t i (S (S n)))
      with ((if occupiedb (slot m t i) then [i] else []) ++ occupied_from m t (i + 1) (S n)).
    rewrite IH. cbn [occupied_from]. rewrite app_assoc.
    replace (i + 1 + Z.of_nat n) with (i + Z.of_nat (S n)) by lia. reflexivity.
Qed.

Lemma occupied_from_entries m t n :
  map (slot m t) (occupied_from m t 0 n) = entries_upto (slot m t) n.
Proof.
  induction n as [| n IH]; [reflexivity |].
  rewrite occupied_from_snoc, map_app, IH. cbn [entries_upto]. f_equal.
  rewrite Z.add_0_l. unfold occ. destruct (occupiedb _); reflexivity.
Qed.

Lemma in_occupied_from m t n : forall i j,
  In j (occupied_from m t i n) -> i <= j < i + Z.of_nat n /\ occupied (slot m t j).
Proof.
  induction n as [| n IH]; intros i j Hin; [destruct Hin |].
  cbn [occupied_from] in Hin. apply in_app_or in Hin as [Hin | Hin].
  - destruct (occupiedb_spec (slot m t i)) as [O | O]; [| destruct Hin].
    destruct Hin as [<- | []]. split; [lia | exact O].
  - apply IH in Hin. split; [lia | apply Hin].
Qed.

Lemma ht_next_loop_step m t n i :
  layout m t -> 0 <= i < bucket_count m t ->
  ht_next_loop (S n) m t i =
  if occupiedb (slot m t i) then i else ht_next_loop n m t (i + 1).
Proof.
  intros L Hi. pose proof (layout_bc m t L). cbn [ht_next_loop].
  rewrite (ht_bucket_slot m t i L Hi), load64_slot, (to_int_small (i + 1)) by lia.
  reflexivity.
Qed.

Lemma ht_next_eq m t i :
  layout m t -> -1 <= i < bucket_count m t ->
  ht_next m t i = ht_next_loop (Z.to_nat (bucket_count m t - (i + 1))) m t (i + 1).
Proof.
  intros L Hi. pose proof (layout_bc m t L). unfold ht_next.
  rewrite (to_int_small (i + 1)), (u64_small (i + 1)) by lia. reflexivity.
Qed.

Lemma ht_foreach_from_spec m t :
  layout m t ->
  forall (n fuel : nat) i,
    0 <= i -> i + Z.of_nat n = bucket_count m t -> (n <= fuel)%nat ->
    ht_foreach_from fuel m t (to_int (ht_next_loop n m t i)) = occupied_from m t i n.
Proof.
  intros L. pose proof (layout_bc m t L) as Hbc.
  induction n as [| n IH]; intros fuel i Hi Hn Hf.
  - cbn [ht_next_loop occupied_from]. change (to_int (-1)) with (-1).
    destruct fuel; reflexivity.
  - rewrite ht_next_loop_step by (try assumption; lia). cbn [occupied_from].
    destruct (occupiedb (slot m t i)).
    + destruct fuel as [| fuel]; [lia |]. rewrite to_int_small by lia.
      cbn [ht_foreach_from]. replace (0 <=? i) with true by (symmetry; apply Z.leb_le; lia).
      cbn [app]. f_equal. rewrite ht_next_eq by (try assumption; lia).
      replace (Z.to_nat (bucket_count m t - (i + 1))) with n by lia.
      apply IH; lia.
    + cbn [app]. apply IH; lia.
Qed.

Lemma ht_foreach_spec m t :
  layout m t ->
  ht_foreach m t = occupied_from m t 0 (Z.to_nat (bucket_count m t)).
Proof.
  intros L. pose proof (layout_bc m t L). unfold ht_foreach.
  rewrite ht_next_eq by (try assumption; lia).
  replace (Z.to_nat (bucket_count m t - (-1 + 1))) with (Z.to_nat (bucket_count m t)) by lia.
  apply ht_foreach_from_spec; try assumption; lia.
Qed.

Lemma length_ht_foreach m t :
  ht_ok m t -> Z.of_nat (length (ht_foreach m t)) = filled m t.
Proof.
  intros H. rewrite (ht_foreach_spec m t (ht_ok_layout m t H)).
  rewrite <- (length_map (slot m t)), occupied_from_entries.
  symmetry. apply (ok_filled m t H).
Qed.

(** ** The stated properties of tables *)

Lemma stored_lookup m t s :
  ht_ok m t -> stored m t s ->
  exists p, ht_lookup m t s = Done p /\ found m t s p.
Proof.
  intros H (i & Hi & Hh & Hs). apply (ht_lookup_found m t s i); assumption.
Qed.

(** C3 -- Insert-lookup round trip.  After pairwise distinct keys
    [k1 .. kn] were inserted in this order into a new table, [ht_lookup] of
    each of them returns the index of a bucket (which holds that key), and
    the enumeration visits exactly [n] buckets, all of them occupied. *)
Theorem insert_lookup_round_trip cap mmap disk isz vs keys :
  cap <= 2 ^ 47 -> 48 <= isz -> 0 <= vs <= 2 ^ 30 - 16 ->
  Forall is_key keys -> NoDup keys -> Z.of_nat (length keys) < 2 ^ 28 ->
  returns (table_of cap mmap disk isz vs keys) (fun '(t, m) =>
    (forall k, In k keys ->
       exists p, ht_lookup m t k = Done p /\ 0 <= p < bucket_count m t /\
                 strcmp_eq m k (load64 m (ht_bucket m t p + 8)) = true) /\
    length (ht_foreach m t) = length keys /\
    (forall i, In i (ht_foreach m t) ->
       0 <= i < bucket_count m t /\ load64 m (ht_bucket m t i) <> 0)).
Proof.
  intros Hc Hisz Hvs Hk _ Hn.
  eapply returns_weaken;
    [apply (table_of_spec cap mmap disk isz vs keys); try assumption; lia |].
  intros [t m] (A & H & F & S & N). pose proof (ht_ok_layout m t H) as L.
  split; [| split].
  - intros k Hin. destruct (stored_lookup m t k H (N k Hin)) as (p & Hl & Hp & Hh & Hs).
    exists p. split; [exact Hl |]. split; [exact Hp |].
    rewrite (ht_bucket_slot' m t p L Hp). apply strcmp_eq_true. exact Hs.
  - apply Nat2Z.inj. rewrite (length_ht_foreach m t H). exact F.
  - intros i Hin. rewrite (ht_foreach_spec m t L) in Hin.
    apply in_occupied_from in Hin as [Hi Ho].
    assert (Hi' : 0 <= i < bucket_count m t) by lia.
    split; [exact Hi' |]. rewrite (ht_bucket_slot' m t i L Hi'). exact Ho.
Qed.

(** C5 -- Load-factor bound.  After any sequence of insertions into a
    table created with two buckets, [filled] is at most the floor of 0.9
    times [bucket_count], and [bucket_count] is a power of two, at least 2. *)
Theorem load_factor_bound cap mmap disk isz vs keys :
  cap <= 2 ^ 47 -> 48 <= isz -> 0 <= vs <= 2 ^ 30 - 16 ->
  Forall is_key keys -> Z.of_nat (length keys) < 2 ^ 28 ->
  returns (table_of cap mmap disk isz vs keys) (fun '(t, m) =>
    filled m t <= 9 * bucket_count m t / 10 /\
    2 <= bucket_count m t /\
    exists k, 0 < k /\ bucket_count m t = 2 ^ k).
Proof.
  intros Hc Hisz Hvs Hk Hn.
  eapply returns_weaken;
    [apply (table_of_spec cap mmap disk isz vs keys); try assumption; lia |].
  intros [t m] (A & H & _). pose proof (layout_bc m t (ht_ok_layout m t H)).
  destruct (ok_load m t H) as [Hl _]. destruct (ok_pow m t H) as (k & Hk' & E).
  split; [apply Z.div_le_lower_bound; lia |]. split; [lia |].
  exists k. split; [lia | exact E].
Qed.

(** C6 -- Probe-distance bound.  In a table built by insertions, every
    bucket [p] whose hash field is not 0 satisfies
    [(p - hash mod bucket_count) mod bucket_count <= max_dist]. *)
Theorem probe_distance_bound cap mmap disk isz vs keys :
  cap <= 2 ^ 47 -> 48 <= isz -> 0 <= vs <= 2 ^ 30 - 16 ->
  Forall is_key keys -> Z.of_nat (length keys) < 2 ^ 28 ->
  returns (table_of cap mmap disk isz vs keys) (fun '(t, m) =>
    forall p, 0 <= p < bucket_count m t ->
      load64 m (ht_bucket m t p) <> 0 ->
      (p - load64 m (ht_bucket m t p) mod bucket_count m t) mod bucket_count m t
      <= max_dist m t).
Proof.
  intros Hc Hisz Hvs Hk Hn.
  eapply returns_weaken;
    [apply (table_of_spec cap mmap disk isz vs keys); try assumption; lia |].
  intros [t m] (A & H & _) p Hp Ho. pose proof (ht_ok_layout m t H) as L.
  rewrite (ht_bucket_slot' m t p L Hp), load64_slot in *.
  rewrite Zminus_mod_idemp_r. apply (ok_dist m t H p Hp Ho).
Qed.

(** C10 -- Bucket-key coherence.  In a table built by insertions, every
    bucket whose hash field is not 0 has a key handle that is not 0 and
    designates, in the client bytes of the arena, a NUL-terminated string
    without other NUL bytes; the hash field is the hash of this string. *)
Theorem bucket_key_coherence cap mmap disk isz vs keys :
  cap <= 2 ^ 47 -> 48 <= isz -> 0 <= vs <= 2 ^ 30 - 16 ->
  Forall is_key keys -> Z.of_nat (length keys) < 2 ^ 28 ->
  returns (table_of cap mmap disk isz vs keys) (fun '(t, m) =>
    forall p, 0 <= p < bucket_count m t ->
      load64 m (ht_bucket m t p) <> 0 ->
      let keyptr := load64 m (ht_bucket m t p + 8) in
      keyptr <> 0 /\
      exists s, Forall is_char s /\ cstr_at m keyptr s /\
        (forall x, keyptr <= x < keyptr + strlen s + 1 -> used m x) /\
        load64 m (ht_bucket m t p) = hash s).
Proof.
  intros Hc Hisz Hvs Hk Hn.
  eapply returns_weaken;
    [apply (table_of_spec cap mmap disk isz vs keys); try assumption; lia |].
  intros [t m] (A & H & _) p Hp Ho. pose proof (ht_ok_layout m t H) as L.
  rewrite (ht_bucket_slot' m t p L Hp) in *. rewrite load64_slot in *.
  change (load64 m (slot_pos m t p + 8)) with (b_keyptr (slot m t p)). cbv zeta.
  destruct (ok_keys m t H p Hp Ho) as (s & (Hs & Hlen) & Hc' & Hh & Hu).
  assert (Hl0 : 0 <= strlen s) by (unfold strlen; lia).
  split.
  - pose proof (used_below m _ (proj1 (Hu (b_keyptr (slot m t p)) ltac:(lia)))). lia.
  - exists s. split; [exact Hs |]. split; [exact Hc' |]. split; [| symmetry; exact Hh].
    intros x Hx. apply Hu. exact Hx.
Qed.

(** ** Rehash and the keys of the table *)

(** A rehash doubles the bucket array and carries every entry over (hash,
    key handle and payload); every key that was stored is found again, and
    a key that had a single bucket is found with the bucket content,
    payload included, that it had. *)
Lemma rehash_transparent cap mmap d m t :
  cap < 2 ^ 62 -> arena_ok cap m -> ht_ok m t -> bucket_count m t <= 2 ^ 29 ->
  returns (ht_resize cap mmap (ht_insert_intern cap mmap d) m t) (fun m' =>
    ht_ok m' t /\
    bucket_count m' t = 2 * bucket_count m t /\
    filled m' t = filled m t /\
    Permutation (entries m' t) (entries m t) /\
    (forall k, is_key k -> stored m t k ->
       exists p', ht_lookup m' t k = Done p' /\ found m' t k p') /\
    (forall k p p', is_key k -> found m t k p ->
       (forall i, found m t k i -> i = p) ->
       found m' t k p' -> slot m' t p' = slot m t p)).
Proof.
  intros Hc A H Hbig.
  eapply returns_weaken; [apply (ht_resize_spec cap mmap d m t Hc A H Hbig) |].
  intros m' (A' & H' & B & S & F & P & U & K & T).
  split; [exact H' |]. split; [exact B |]. split; [exact F |]. split; [exact P |].
  split.
  - intros k Hk Hst. apply stored_lookup; [exact H' |].
    apply (stored_kept m m' t k H Hk); try assumption.
    intros b Hb. apply (Permutation_in _ (Permutation_sym P)). exact Hb.
  - intros k p p' Hk Hf Huniq Hf'.
    pose proof (found_entry m' t k p' Hf') as Hin.
    apply (Permutation_in _ P), in_entries in Hin. destruct Hin as (j & Hj & Es & Ho).
    destruct Hf' as (Hp' & Hh' & Hs').
    rewrite <- Es in Ho.
    destruct (ok_keys m t H j Hj Ho) as (s & Hks & Hs & _ & Hu).
    assert (Hs2 : cstr_at m' (b_keyptr (slot m t j)) s).
    { apply (cstr_at_ext m); [| exact Hs]. intros x Hx. destruct (Hu x Hx). apply K; assumption. }
    rewrite <- Es in Hs', Hh'.
    assert (s = k) by (eapply cstr_at_inj; try eassumption; [apply Hks | apply Hk]).
    subst s.
    assert (Hfj : found m t k j) by (split; [exact Hj | split; assumption]).
    rewrite <- Es. f_equal. apply Huniq. exact Hfj.
Qed.

(** ** Tables side by side

    A multi-map is a table whose payloads are handles of further tables.
    The tables live in one arena; an operation on one of them must leave
    the others as they are. *)

(** The table [t] is in [m'] what it is in [m]. *)
Record same_table (m m' : mem) (t : hash_table) : Prop := {
  same_bc : bucket_count m' t = bucket_count m t;
  same_bs : bucket_size m' t = bucket_size m t;
  same_filled : filled m' t = filled m t;
  same_bp : buckets_ptr m' t = buckets_ptr m t;
  same_slot : forall i, 0 <= i < bucket_count m t -> slot m' t i = slot m t i;
  same_entries : entries m' t = entries m t;
  same_table_bytes : forall x, table_bytes m' t x <-> table_bytes m t x;
  same_footprint : forall x, footprint m' t x <-> footprint m t x;
  same_bytes : forall x, footprint m t x -> load8 m' x = load8 m x
}.

(** No byte of [t1] (keys included) is a byte that [t2] may write. *)
Definition apart (m : mem) (t1 t2 : hash_table) : Prop :=
  forall x, footprint m t1 x -> ~ table_bytes m t2 x.

(** The effect on the arena of an operation on the table [t]: what was
    allocated stays allocated, only bytes of the header and of the bucket
    array of [t] are overwritten, and whatever the table refers to
    afterwards it referred to before or is newly allocated. *)
Record grows_in (m m' : mem) (t : hash_table) : Prop := {
  grow_used : forall x, used m x -> used m' x;
  grow_kept : forall x, used m x -> ~ table_bytes m t x -> load8 m' x = load8 m x;
  grow_table : forall x, table_bytes m' t x -> table_bytes m t x \/ ~ used m x;
  grow_footprint : forall x, footprint m' t x -> footprint m t x \/ ~ used m x
}.

Ltac conjs := repeat (split; [assumption |]); try assumption.

Lemma key_bytes_kept m m' t :
  ht_ok m t ->
  bucket_count m' t = bucket_count m t ->
  (forall i, 0 <= i < bucket_count m t ->
     b_hash (slot m' t i) = b_hash (slot m t i) /\
     b_keyptr (slot m' t i) = b_keyptr (slot m t i)) ->
  (forall x, key_bytes m t x -> load8 m' x = load8 m x) ->
  forall x, key_bytes m' t x <-> key_bytes m t x.
Proof.
  intros H Eb S F x.
  assert (K : forall i s, 0 <= i < bucket_count m t -> occupied (slot m t i) ->
            is_key s -> cstr_at m (b_keyptr (slot m t i)) s ->
            cstr_at m' (b_keyptr (slot m t i)) s).
  { intros i s Hi Ho Hk Hs. apply (cstr_at_ext m); [| exact Hs].
    intros y Hy. apply F. exists i, s. conjs. }
  split; intros (i & s & Hi & Ho & Hk & Hs & Hx).
  - rewrite Eb in Hi. destruct (S i Hi) as (Eh & Ek).
    unfold occupied in Ho. rewrite Eh in Ho. rewrite Ek in Hs, Hx.
    destruct (ok_keys m t H i Hi Ho) as (s0 & Hk0 & Hs0 & _).
    assert (s0 = s).
    { apply (cstr_at_inj s0 s m' (b_keyptr (slot m t i))); try assumption;
        [apply Hk0 | apply Hk | apply K; assumption]. }
    subst s0. exists i, s. conjs.
  - destruct (S i Hi) as (Eh & Ek). exists i, s. rewrite Eb.
    unfold occupied. rewrite Eh, Ek. conjs. split; [apply K |]; assumption.
Qed.

(** A table is what it was after writes that avoid its footprint. *)
Lemma bystander m m' t (W : Z -> Prop) :
  ht_ok m t ->
  (forall x, used m x -> used m' x) ->
  (forall x, used m x -> ~ W x -> load8 m' x = load8 m x) ->
  (forall x, footprint m t x -> ~ W x) ->
  ht_ok m' t /\ same_table m m' t.
Proof.
  intros H U F D.
  assert (Fb : forall x, footprint m t x -> load8 m' x = load8 m x).
  { intros x Hx. apply F; [apply (footprint_used m t x H Hx) | apply D; exact Hx]. }
  destruct (ht_ok_frame m m' t H U Fb) as (H' & E1 & E2 & E3 & E4 & E5 & S & En & T).
  split; [exact H' |].
  assert (K : forall x, key_bytes m' t x <-> key_bytes m t x).
  { apply key_bytes_kept; try assumption.
    - intros i Hi. rewrite (S i Hi). split; reflexivity.
    - intros x Hx. apply Fb. right. exact Hx. }
  constructor; try assumption.
  intros x. unfold footprint. rewrite T, K. reflexivity.
Qed.

Lemma same_table_refl m t : same_table m m t.
Proof. constructor; intros; reflexivity. Qed.

Lemma same_table_trans m1 m2 m3 t :
  same_table m1 m2 t -> same_table m2 m3 t -> same_table m1 m3 t.
Proof.
  intros A B. constructor.
  - rewrite (same_bc _ _ _ B). apply (same_bc _ _ _ A).
  - rewrite (same_bs _ _ _ B). apply (same_bs _ _ _ A).
  - rewrite (same_filled _ _ _ B). apply (same_filled _ _ _ A).
  - rewrite (same_bp _ _ _ B). apply (same_bp _ _ _ A).
  - intros i Hi. rewrite (same_slot _ _ _ B) by (rewrite (same_bc _ _ _ A); exact Hi).
    apply (same_slot _ _ _ A); exact Hi.
  - rewrite (same_entries _ _ _ B). apply (same_entries _ _ _ A).
  - intros x. rewrite (same_table_bytes _ _ _ B). apply (same_table_bytes _ _ _ A).
  - intros x. rewrite (same_footprint _ _ _ B). apply (same_footprint _ _ _ A).
  - intros x Hx. rewrite (same_bytes _ _ _ B) by (apply (same_footprint _ _ _ A); exact Hx).
    apply (same_bytes _ _ _ A); exact Hx.
Qed.

(** The key of an entry of a table that is what it was. *)
Lemma same_key m m' t b s :
  ht_ok m t -> same_table m m' t -> In b (entries m t) -> is_key s ->
  cstr_at m' (b_keyptr b) s <-> cstr_at m (b_keyptr b) s.
Proof.
  intros H S Hb Hk. apply in_entries in Hb. destruct Hb as (i & Hi & <- & Ho).
  destruct (ok_keys m t H i Hi Ho) as (s0 & Hk0 & Hs0 & _).
  assert (K : forall s1, is_key s1 -> cstr_at m (b_keyptr (slot m t i)) s1 ->
            cstr_at m' (b_keyptr (slot m t i)) s1).
  { intros s1 Hk1 Hs1. apply (cstr_at_ext m); [| exact Hs1].
    intros y Hy. apply (same_bytes _ _ _ S). right. exists i, s1. conjs. }
  split; intros Hs; [| apply K; assumption].
  assert (s0 = s).
  { apply (cstr_at_inj s0 s m' (b_keyptr (slot m t i))); try assumption;
      [apply Hk0 | apply Hk | apply K; assumption]. }
  subst s0. exact Hs0.
Qed.

Lemma same_stored m m' t s :
  ht_ok m t -> same_table m m' t -> is_key s -> stored m t s -> stored m' t s.
Proof.
  intros H S Hk (i & Hf). pose proof (found_entry m t s i Hf) as He.
  destruct Hf as (Hi & Hh & Hs). exists i.
  split; [rewrite (same_bc _ _ _ S); exact Hi |].
  rewrite (same_slot _ _ _ S i Hi). split; [exact Hh |].
  apply (same_key m m' t _ s H S He Hk). exact Hs.
Qed.

(** An operation on a table keeps the keys of that table. *)
Lemma own_key_kept m m' t b s :
  ht_ok m t -> grows_in m m' t -> In b (entries m t) -> is_key s ->
  cstr_at m (b_keyptr b) s -> cstr_at m' (b_keyptr b) s.
Proof.
  intros H G Hb Hk Hs. apply in_entries in Hb. destruct Hb as (i & Hi & <- & Ho).
  destruct (ok_keys m t H i Hi Ho) as (s0 & Hk0 & Hs0 & _ & Hu).
  assert (s0 = s) by (eapply cstr_at_inj; try eassumption; [apply Hk0 | apply Hk]).
  subst s0. apply (cstr_at_ext m); [| exact Hs].
  intros x Hx. destruct (Hu x Hx). apply (grow_kept _ _ _ G); assumption.
Qed.

(** The footprint after an insertion. *)
Lemma footprint_grows m m' t nb s :
  ht_ok m t -> ht_ok m' t -> is_key s ->
  next_free m <= b_keyptr nb -> cstr_at m' (b_keyptr nb) s ->
  (forall b, In b (entries m' t) -> b = nb \/ In b (entries m t)) ->
  (forall x, used m x -> ~ table_bytes m t x -> load8 m' x = load8 m x) ->
  (forall x, table_bytes m' t x -> table_bytes m t x \/ ~ used m x) ->
  forall x, footprint m' t x -> footprint m t x \/ ~ used m x.
Proof.
  intros H H' Hk Hkp Hs Hin F T x [Hx | (i & s' & Hi & Ho & Hk' & Hs' & Hx)].
  - destruct (T x Hx) as [Ht | Hn]; [left; left; exact Ht | right; exact Hn].
  - assert (He : In (slot m' t i) (entries m' t)) by 
      (apply in_entries; exists i; split; [exact Hi | split; [reflexivity | exact Ho]]).
    destruct (Hin _ He) as [E | Hold].
    + right. rewrite E in *. intros Ux. pose proof (used_below m x Ux). lia.
    + left. right. apply in_entries in Hold. destruct Hold as (j & Hj & Ej & Hoj).
      rewrite <- Ej in *.
      destruct (ok_keys m t H j Hj Hoj) as (s0 & Hk0 & Hs0 & _ & Hu).
      assert (s0 = s').
      { apply (cstr_at_inj s0 s' m' (b_keyptr (slot m t j))); try assumption;
          [apply Hk0 | apply Hk' |].
        apply (cstr_at_ext m); [| exact Hs0]. intros y Hy. destruct (Hu y Hy).
        apply F; assumption. }
      subst s0. exists j, s'. conjs.
Qed.

(** ** Separation is kept *)

Lemma apart_left m m' t t2 :
  ht_ok m t2 -> grows_in m m' t -> same_table m m' t2 ->
  apart m t t2 -> apart m' t t2.
Proof.
  intros H2 G S D x Hx Tx. apply (same_table_bytes _ _ _ S) in Tx.
  destruct (grow_footprint _ _ _ G x Hx) as [Hf | Hn].
  - apply (D x Hf Tx).
  - apply Hn. apply (table_bytes_used m t2 x H2 Tx).
Qed.

Lemma apart_right m m' t t2 :
  ht_ok m t2 -> grows_in m m' t -> same_table m m' t2 ->
  apart m t2 t -> apart m' t2 t.
Proof.
  intros H2 G S D x Hx Tx. apply (same_footprint _ _ _ S) in Hx.
  destruct (grow_table _ _ _ G x Tx) as [Ht | Hn].
  - apply (D x Hx Ht).
  - apply Hn. apply (footprint_used m t2 x H2 Hx).
Qed.

Lemma apart_same m m' t1 t2 :
  same_table m m' t1 -> same_table m m' t2 -> apart m t1 t2 -> apart m' t1 t2.
Proof.
  intros S1 S2 D x Hx Tx. apply (same_footprint _ _ _ S1) in Hx.
  apply (same_table_bytes _ _ _ S2) in Tx. apply (D x Hx Tx).
Qed.

(** ** Families of tables *)

Lemma hash_table_eq_dec (a b : hash_table) : a = b \/ a <> b.
Proof.
  destruct a as [x], b as [y]. destruct (Z.eq_dec x y) as [-> | N].
  - left; reflexivity.
  - right; intros E; apply N; congruence.
Qed.

(** The tables of [F] are well formed and pairwise apart. *)
Definition fam_ok (m : mem) (F : hash_table -> Prop) : Prop :=
  (forall t, F t -> ht_ok m t) /\
  (forall t1 t2, F t1 -> F t2 -> t1 <> t2 -> apart m t1 t2).

Lemma fam_ok_sub m (F G : hash_table -> Prop) :
  (forall t, G t -> F t) -> fam_ok m F -> fam_ok m G.
Proof.
  intros S (H & D). split.
  - intros t Ht. apply H, S, Ht.
  - intros t1 t2 H1 H2. apply D; apply S; assumption.
Qed.

(** An operation on a table of the family. *)
Lemma fam_op m m' F t :
  fam_ok m F -> F t -> ht_ok m' t -> grows_in m m' t ->
  fam_ok m' F /\ (forall t2, F t2 -> t2 <> t -> same_table m m' t2).
Proof.
  intros (H & D) Ft H' G.
  assert (B : forall t2, F t2 -> t2 <> t -> ht_ok m' t2 /\ same_table m m' t2).
  { intros t2 F2 N. apply (bystander m m' t2 (table_bytes m t)).
    - apply H, F2.
    - apply (grow_used _ _ _ G).
    - apply (grow_kept _ _ _ G).
    - apply (D t2 t F2 Ft N). }
  split; [split |].
  - intros t2 F2. destruct (hash_table_eq_dec t2 t) as [-> | N]; [exact H' | apply B; assumption].
  - intros t1 t2 F1 F2 N.
    destruct (hash_table_eq_dec t1 t) as [-> | N1].
    + apply (apart_left m m' t t2); [apply H, F2 | exact G | apply B; auto | apply D; auto].
    + destruct (hash_table_eq_dec t2 t) as [-> | N2].
      * apply (apart_right m m' t t1); [apply H, F1 | exact G | apply B; auto | apply D; auto].
      * apply (apart_same m m'); [apply B; auto | apply B; auto | apply D; auto].
  - intros t2 F2 N. apply B; assumption.
Qed.

(** A new table joins the family. *)
Lemma fam_new m m' F tab :
  fam_ok m F ->
  (forall x, used m x -> used m' x) ->
  (forall x, used m x -> load8 m' x = load8 m x) ->
  ht_ok m' tab -> (forall x, footprint m' tab x -> ~ used m x) ->
  fam_ok m' (fun t => F t \/ t = tab) /\ (forall t, F t -> same_table m m' t).
Proof.
  intros (H & D) U K Ht Fr.
  assert (B : forall t, F t -> ht_ok m' t /\ same_table m m' t).
  { intros t Ft. apply (bystander m m' t (fun _ => False)); auto. }
  split; [split |].
  - intros t [Ft | ->]; [apply B, Ft | exact Ht].
  - intros t1 t2 [F1 | ->] [F2 | ->] N.
    + apply (apart_same m m'); [apply B; auto | apply B; auto | apply D; auto].
    + intros x Hx Tx. apply (Fr x); [left; exact Tx |].
      apply (footprint_used m t1 x (H t1 F1)).
      apply (same_footprint _ _ _ (proj2 (B t1 F1))). exact Hx.
    + intros x Hx Tx. apply (Fr x Hx).
      apply (table_bytes_used m t2 x (H t2 F2)).
      apply (same_table_bytes _ _ _ (proj2 (B t2 F2))). exact Tx.
    + contradiction.
  - intros t Ft. apply B, Ft.
Qed.

(** ** The operations, once more *)

Lemma entries_replace (nb b' : bucket) (E0 E1 E3 : list bucket) :
  Permutation E1 (nb :: E0) -> Permutation (nb :: E3) (b' :: E1) ->
  Permutation E3 (b' :: E0).
Proof.
  intros P1 P2. apply (Permutation_cons_inv (a := nb)).
  rewrite P2. rewrite P1. apply perm_swap.
Qed.

Lemma ht_insert_str_grows cap mmap m t s :
  cap < 2 ^ 62 -> arena_ok cap m -> ht_ok m t -> filled m t < 2 ^ 28 -> is_key s ->
  returns (ht_insert_str cap mmap m t s) (fun '(r, m') =>
    arena_ok cap m' /\ ht_ok m' t /\
    bucket_size m' t = bucket_size m t /\
    filled m' t = filled m t + 1 /\
    0 <= r < bucket_count m' t /\
    (exists kp, next_free m <= kp /\ cstr_at m' kp s /\
       slot m' t r = new_bucket m t s kp /\
       Permutation (entries m' t) (new_bucket m t s kp :: entries m t)) /\
    grows_in m m' t).
Proof.
  intros Hc A H Hf Hk. eapply returns_weaken; [apply ht_insert_str_spec; assumption |].
  intros [r m'] (A' & H' & _ & Ebs & Ef & Hr & (kp & Hkp & Hs & Hsl & P) & U & K & T).
  do 5 (split; [assumption |]). split.
  - exists kp. conjs.
  - constructor; try assumption.
    apply (footprint_grows m m' t (new_bucket m t s kp) s); try assumption.
    intros b Hb. apply (Permutation_in _ P) in Hb. destruct Hb as [E | Hb]; auto.
Qed.

Lemma ht_init_fresh cap mmap m vs :
  cap < 2 ^ 62 -> arena_ok cap m -> 0 <= vs <= 2 ^ 30 - 16 ->
  returns (ht_init cap mmap m vs) (fun '(t, m') =>
    arena_ok cap m' /\ ht_ok m' t /\
    bucket_size m' t = 16 + vs /\ filled m' t = 0 /\ entries m' t = [] /\
    (forall x, used m x -> used m' x) /\
    (forall x, used m x -> load8 m' x = load8 m x) /\
    (forall x, footprint m' t x -> ~ used m x)).
Proof.
  intros Hc A Hvs. eapply returns_weaken; [apply ht_init_spec; assumption |].
  intros [t m'] (_ & A' & H' & _ & Ebs & Ef & _ & En & U & K & T).
  do 7 (split; [assumption |]).
  intros x [Hx | (i & s & Hi & Ho & _)]; [apply T; exact Hx |].
  assert (He : In (slot m' t i) (entries m' t))
    by (apply in_entries; exists i; split; [exact Hi | split; [reflexivity | exact Ho]]).
  rewrite En in He. destruct He.
Qed.

(** ** Nested tables *)

(** The number that a little-endian sequence of bytes stands for. *)
Fixpoint le_decode (bs : list Z) : Z :=
  match bs with
  | [] => 0
  | b :: r => b + 256 * le_decode r
  end.

(** The table whose header handle the payload of [b] holds: what
    [multimap_get] makes of that payload. *)
Definition nested_of (b : bucket) : hash_table :=
  {| header_ptr := le_decode (b_value b) |}.

Lemma load_le_decode n : forall m a, load_le n m a = le_decode (load_bytes m a n).
Proof.
  induction n; intros m a; cbn [load_le load_bytes le_decode]; [reflexivity |].
  rewrite IHn. reflexivity.
Qed.

Lemma ht_value_slot m t p :
  layout m t -> 0 <= p < bucket_count m t -> ht_value m t p = slot_pos m t p + 16.
Proof.
  intros L Hp. unfold ht_value, ht_value_rel, sizeof_hash_bucket.
  rewrite (ht_bucket_slot m t p L Hp). reflexivity.
Qed.

Lemma multimap_get_slot m t p :
  layout m t -> bucket_size m t = 24 -> 0 <= p < bucket_count m t ->
  multimap_get m (ht_value m t p) = nested_of (slot m t p).
Proof.
  intros L Hbs Hp. unfold multimap_get, nested_of. rewrite (ht_value_slot m t p L Hp).
  unfold slot, read_bucket. cbn [b_value]. rewrite Hbs.
  change (Z.to_nat (24 - 16)) with 8%nat. unfold load64.
  rewrite load_le_decode. reflexivity.
Qed.

(** Storing a handle in the payload of a slot. *)
Lemma payload_set cap m t r v :
  ht_ok m t -> arena_ok cap m -> bucket_size m t = 24 ->
  0 <= r < bucket_count m t -> occupied (slot m t r) -> 0 <= v < 2 ^ 64 ->
  let m' := store64 m (ht_value m t r) v in
  ht_ok m' t /\ arena_ok cap m' /\ grows_in m m' t /\
  bucket_count m' t = bucket_count m t /\ bucket_size m' t = 24 /\
  filled m' t = filled m t /\
  nested_of (slot m' t r) = {| header_ptr := v |} /\
  b_hash (slot m' t r) = b_hash (slot m t r) /\
  b_keyptr (slot m' t r) = b_keyptr (slot m t r) /\
  Permutation (slot m t r :: entries m' t) (slot m' t r :: entries m t).
Proof.
  intros H A Hbs Hr Ho Hv m'. pose proof (ht_ok_layout m t H) as L.
  assert (F : forall x,
    ~ (slot_pos m t r + sizeof_hash_bucket <= x < slot_pos m t r + bucket_size m t) ->
    load8 m' x = load8 m x).
  { intros x Hx. unfold m'. rewrite (ht_value_slot m t r L Hr).
    apply load8_store64_other. unfold sizeof_hash_bucket in Hx. lia. }
  destruct (payload_change cap m m' t r H A Hr F)
    as (H' & A' & U & E1 & E2 & E3 & E4 & E5 & S & Eh & Ek).
  pose proof (layout_bc m t L) as Hbc.
  pose proof (slot_bounds _ (bucket_size m t) r Hr ltac:(lia)) as Hrb.
  assert (Fk : forall x, used m x -> ~ table_bytes m t x -> load8 m' x = load8 m x).
  { intros x _ Tx. apply F. intros Hp. apply Tx. right.
    unfold slot_pos, sizeof_hash_bucket in Hp. lia. }
  assert (T : forall x, table_bytes m' t x <-> table_bytes m t x)
    by (intros x; apply table_bytes_ext; assumption).
  assert (K : forall x, key_bytes m' t x <-> key_bytes m t x).
  { apply key_bytes_kept; try assumption.
    - intros i Hi. destruct (Z.eq_dec i r) as [-> | N]; [split; assumption |].
      rewrite (S i Hi N). split; reflexivity.
    - intros x (i & s & Hi & Hoi & Hk & Hs & Hx).
      destruct (ok_keys m t H i Hi Hoi) as (s0 & Hk0 & Hs0 & _ & Hu).
      assert (s0 = s) by (eapply cstr_at_inj; try eassumption; [apply Hk0 | apply Hk]).
      subst s0. destruct (Hu x Hx). apply Fk; assumption. }
  split; [exact H' |]. split; [exact A' |]. split.
  { constructor.
    - intros x; apply U.
    - exact Fk.
    - intros x Hx; left; apply T; exact Hx.
    - intros x [Hx | Hx]; left; [left; apply T | right; apply K]; exact Hx. }
  split; [exact E1 |]. split; [rewrite E2; exact Hbs |]. split; [exact E3 |].
  split; [| split; [exact Eh | split; [exact Ek |]]].
  - rewrite <- (multimap_get_slot m' t r); try assumption;
      [| apply (ht_ok_layout m' t H') | lia | lia].
    unfold multimap_get. rewrite (ht_value_slot m' t r (ht_ok_layout m' t H')) by lia.
    unfold m' at 1. rewrite (ht_value_slot m t r L Hr).
    unfold slot_pos. rewrite E2, E5. rewrite load64_store64_same.
    rewrite u64_small by exact Hv. reflexivity.
  - unfold entries. rewrite E1.
    assert (P : placed (bucket_count m t) (slot m t) (slot m' t) r (slot m' t r)).
    { split; [reflexivity |]. intros i Hi N. apply S; assumption. }
    apply (placed_entries _ _ _ _ _ Hr) in P; [| unfold occupied; rewrite Eh; exact Ho].
    rewrite (occ_occupied _ Ho) in P. exact P.
Qed.

(** ** The multi-map *)

Definition cstring_eqb (a b : cstring) : bool :=
  if list_eq_dec Z.eq_dec a b then true else false.

(** The values inserted under the key [k], in the order of insertion. *)
Definition values_under (k : cstring) (pairs : list (cstring * cstring)) : list cstring :=
  map snd (filter (fun kv => cstring_eqb (fst kv) k) pairs).

(** The string [s] is the key of the entry [b]. *)
Definition key_of (m : mem) (b : bucket) (s : cstring) : Prop :=
  is_key s /\ cstr_at m (b_keyptr b) s.

(** The tables of the multi-map [t]: [t] itself and the nested ones. *)
Definition tables (m : mem) (t : hash_table) (n : hash_table) : Prop :=
  n = t \/ exists b, In b (entries m t) /\ n = nested_of b.

(** The multi-map [t] holds the pairs [done]: its tables are well formed
    and apart from each other, the payload of every entry designates a
    nested table of its own, which holds the values inserted under the key
    of the entry, and a key has one entry. *)
Record mm_ok (cap : Z) (m : mem) (t : hash_table)
    (done : list (cstring * cstring)) : Prop := {
  mm_arena : arena_ok cap m;
  mm_bs : bucket_size m t = 24;
  mm_fam : fam_ok m (tables m t);
  mm_nested : forall b, In b (entries m t) ->
    nested_of b <> t /\ bucket_size m (nested_of b) = 16;
  mm_values : forall b s, In b (entries m t) -> key_of m b s ->
    filled m (nested_of b) = Z.of_nat (length (values_under s done)) /\
    (forall v, In v (values_under s done) -> stored m (nested_of b) v);
  mm_inj : forall b1 b2, In b1 (entries m t) -> In b2 (entries m t) ->
    nested_of b1 = nested_of b2 -> b1 = b2;
  mm_key : forall b1 b2 s, In b1 (entries m t) -> In b2 (entries m t) ->
    key_of m b1 s -> key_of m b2 s -> b1 = b2;
  mm_keys : forall k v, In (k, v) done -> stored m t k
}.

Definition pair_ok (kv : cstring * cstring) : Prop := is_key (fst kv) /\ is_key (snd kv).

Lemma cstring_eqb_spec a b : cstring_eqb a b = true <-> a = b.
Proof.
  unfold cstring_eqb. destruct (list_eq_dec Z.eq_dec a b); split; congruence.
Qed.

Lemma values_under_In k pairs v : In v (values_under k pairs) <-> In (k, v) pairs.
Proof.
  unfold values_under. rewrite in_map_iff. split.
  - intros ([k' v'] & E & Hin). apply filter_In in Hin. destruct Hin as (Hin & Hk).
    cbn in E, Hk. apply cstring_eqb_spec in Hk. subst. exact Hin.
  - intros Hin. exists (k, v). split; [reflexivity |]. apply filter_In.
    split; [exact Hin |]. apply cstring_eqb_spec. reflexivity.
Qed.

Lemma values_under_snoc k pairs k' v :
  values_under k (pairs ++ [(k', v)]) =
  values_under k pairs ++ (if cstring_eqb k' k then [v] else []).
Proof.
  unfold values_under. rewrite filter_app, map_app. cbn [filter fst].
  destruct (cstring_eqb k' k); reflexivity.
Qed.

Lemma values_under_same k pairs v :
  values_under k (pairs ++ [(k, v)]) = values_under k pairs ++ [v].
Proof.
  rewrite values_under_snoc. rewrite (proj2 (cstring_eqb_spec k k) eq_refl). reflexivity.
Qed.

Lemma values_under_other k pairs k' v :
  k' <> k -> values_under k (pairs ++ [(k', v)]) = values_under k pairs.
Proof.
  intros N. rewrite values_under_snoc. destruct (cstring_eqb k' k) eqn:E.
  - apply cstring_eqb_spec in E. contradiction.
  - apply app_nil_r.
Qed.

Lemma key_of_inj m b s s' : key_of m b s -> key_of m b s' -> s = s'.
Proof.
  intros (Hk & Hs) (Hk' & Hs'). eapply cstr_at_inj; try eassumption; [apply Hk | apply Hk'].
Qed.

(** A key is stored when an entry has it. *)
Lemma stored_entry m t s :
  ht_ok m t -> is_key s ->
  stored m t s <-> exists b, In b (entries m t) /\ key_of m b s.
Proof.
  intros H Hk. split.
  - intros (i & Hf). exists (slot m t i).
    split; [apply (found_entry m t s i Hf) |]. split; [exact Hk | apply Hf].
  - intros (b & Hb & _ & Hs). apply in_entries in Hb. destruct Hb as (i & Hi & <- & Ho).
    destruct (ok_keys m t H i Hi Ho) as (s0 & Hk0 & Hs0 & Hh0 & _).
    assert (s0 = s) by (eapply cstr_at_inj; try eassumption; [apply Hk0 | apply Hk]).
    subst s0. exists i. split; [exact Hi |]. split; [symmetry; exact Hh0 | exact Hs].
Qed.

(** Every entry has a key. *)
Lemma entry_key m t b :
  ht_ok m t -> In b (entries m t) -> exists s, key_of m b s.
Proof.
  intros H Hb. apply in_entries in Hb. destruct Hb as (i & Hi & <- & Ho).
  destruct (ok_keys m t H i Hi Ho) as (s0 & Hk0 & Hs0 & _). exists s0. split; assumption.
Qed.

(** Inserting a value into the nested table of an entry. *)
Lemma mm_add cap mmap m t done b k v :
  cap < 2 ^ 62 -> mm_ok cap m t done -> Forall pair_ok done ->
  Z.of_nat (length done) < 2 ^ 28 ->
  In b (entries m t) -> key_of m b k -> is_key v ->
  returns (ht_insert_str cap mmap m (nested_of b) v) (fun '(_, m') =>
    mm_ok cap m' t (done ++ [(k, v)]) /\
    filled m' t = filled m t /\ entries m' t = entries m t /\
    (forall b s, In b (entries m t) -> key_of m b s -> key_of m' b s)).
Proof.
  intros Hc I Hd Hlen Hb Hkb Hv.
  pose proof (mm_fam _ _ _ _ I) as (Hok & Hap).
  assert (Ht : ht_ok m t) by (apply Hok; left; reflexivity).
  set (n := nested_of b).
  assert (Fn : tables m t n) by (right; exists b; split; [exact Hb | reflexivity]).
  assert (Hn : ht_ok m n) by (apply Hok, Fn).
  destruct (mm_values _ _ _ _ I b k Hb Hkb) as (Efn & Hst). fold n in Efn, Hst.
  assert (Lv : Z.of_nat (length (values_under k done)) <= Z.of_nat (length done)).
  { unfold values_under. rewrite length_map. pose proof (filter_length_le (fun kv => cstring_eqb (fst kv) k) done). lia. }
  eapply returns_weaken;
    [apply (ht_insert_str_grows cap mmap m n v Hc (mm_arena _ _ _ _ I) Hn); [lia | exact Hv] |].
  intros [r m'] (A' & Hn' & Ebs & Ef & Hr & (kp & Hkp & Hs & Hsl & P) & G).
  destruct (fam_op m m' (tables m t) n (mm_fam _ _ _ _ I) Fn Hn' G) as (Fam' & Same).
  assert (Nt : n <> t) by (apply (mm_nested _ _ _ _ I b Hb)).
  assert (St : same_table m m' t) by (apply Same; [left; reflexivity | congruence]).
  assert (En : entries m' t = entries m t) by (apply (same_entries _ _ _ St)).
  assert (Tb : forall x, tables m' t x <-> tables m t x).
  { intros x. unfold tables. rewrite En. reflexivity. }
  assert (Kf : forall b s, In b (entries m t) -> key_of m b s -> key_of m' b s).
  { intros b0 s Hb0 (Hk0 & Hs0). split; [exact Hk0 |].
    apply (same_key m m' t b0 s Ht St Hb0 Hk0). exact Hs0. }
  assert (Kb : forall b s, In b (entries m t) -> key_of m' b s -> key_of m b s).
  { intros b0 s Hb0 (Hk0 & Hs0). split; [exact Hk0 |].
    apply (same_key m m' t b0 s Ht St Hb0 Hk0). exact Hs0. }
  assert (Hsv : stored m' n v).
  { exists r. split; [exact Hr |]. rewrite Hsl. cbn [new_bucket b_hash b_keyptr].
    split; [reflexivity | exact Hs]. }
  split; [| split; [apply (same_filled _ _ _ St) | split; [exact En | exact Kf]]].
  constructor.
  - exact A'.
  - rewrite (same_bs _ _ _ St). apply (mm_bs _ _ _ _ I).
  - apply (fam_ok_sub m' (tables m t)); [intros x; apply Tb | exact Fam'].
  - rewrite En. intros b2 Hb2. destruct (mm_nested _ _ _ _ I b2 Hb2) as (N2 & B2).
    split; [exact N2 |].
    destruct (hash_table_eq_dec (nested_of b2) n) as [E | N].
    + rewrite E, Ebs. fold n in B2. rewrite <- E. exact B2.
    + rewrite (same_bs _ _ _ (Same (nested_of b2) ltac:(right; exists b2; auto) N)). exact B2.
  - rewrite En. intros b2 s Hb2 Hk2. apply (Kb b2 s Hb2) in Hk2.
    destruct (mm_values _ _ _ _ I b2 s Hb2 Hk2) as (Ef2 & Hst2).
    destruct (hash_table_eq_dec (nested_of b2) n) as [E | N].
    + assert (b2 = b) by (apply (mm_inj _ _ _ _ I); assumption). subst b2.
      assert (s = k) by (apply (key_of_inj m b); assumption). subst s.
      fold n. rewrite values_under_same, length_app. cbn [length]. split; [lia |].
      intros v' Hv'. apply in_app_or in Hv'. destruct Hv' as [Hv' | [<- | []]]; [| exact Hsv].
      apply (stored_kept m m' n v' Hn).
      * apply values_under_In in Hv'. rewrite Forall_forall in Hd. apply (Hd _ Hv').
      * intros x Hx. apply (Permutation_in _ (Permutation_sym P)). right. exact Hx.
      * apply (grow_kept _ _ _ G).
      * apply Hst. exact Hv'.
    + assert (Nk : k <> s).
      { intros <-. apply N. unfold n. f_equal. apply (mm_key _ _ _ _ I b2 b k); assumption. }
      rewrite (values_under_other s done k v Nk).
      assert (S2 : same_table m m' (nested_of b2))
        by (apply Same; [right; exists b2; auto | exact N]).
      rewrite (same_filled _ _ _ S2). split; [exact Ef2 |].
      intros v' Hv'. apply (same_stored m m' _ v'); [apply Hok; right; exists b2; auto | exact S2 | |].
      * apply values_under_In in Hv'. rewrite Forall_forall in Hd. apply (Hd _ Hv').
      * apply Hst2. exact Hv'.
  - rewrite En. apply (mm_inj _ _ _ _ I).
  - rewrite En. intros b1 b2 s H1 H2 K1 K2.
    apply (mm_key _ _ _ _ I b1 b2 s); try assumption; apply Kb; assumption.
  - intros k' v' Hin. apply in_app_or in Hin.
    assert (Hst' : is_key k' /\ stored m t k').
    { destruct Hin as [Hin | [E | []]].
      - split; [rewrite Forall_forall in Hd; apply (Hd _ Hin) | apply (mm_keys _ _ _ _ I k' v' Hin)].
      - injection E as <- <-. split; [apply Hkb |].
        apply stored_entry; [exact Ht | apply Hkb |]. exists b. split; assumption. }
    destruct Hst' as (Hk' & Hst'). apply (same_stored m m' t k' Ht St Hk' Hst').
Qed.

Lemma new_table_distinct m m' (F : hash_table -> Prop) tab :
  (forall t, F t -> ht_ok m t) -> ht_ok m' tab ->
  (forall x, footprint m' tab x -> ~ used m x) ->
  forall t, F t -> t <> tab.
Proof.
  intros H Ht Fr t Ft ->. apply (Fr (header_ptr tab)).
  - left; left. unfold sizeof_hash_table_header. lia.
  - apply (ok_hdr m tab (H tab Ft)). unfold sizeof_hash_table_header. lia.
Qed.

Lemma hash_table_eta t : {| header_ptr := header_ptr t |} = t.
Proof. destruct t; reflexivity. Qed.

(** A key that the multi-map does not have yet gets an entry, and the
    entry an empty nested table. *)
Lemma mm_create cap mmap m t done k :
  cap < 2 ^ 62 -> mm_ok cap m t done -> Forall pair_ok done ->
  filled m t < 2 ^ 28 -> is_key k -> ~ stored m t k ->
  returns ('(pos, m) <- ht_insert_str cap mmap m t k ;;
           '(tab, m) <- ht_init cap mmap m 0 ;;
           Done (tab, store64 m (ht_value m t pos) (header_ptr tab)))
    (fun '(tab, m') =>
       mm_ok cap m' t done /\ filled m' t = filled m t + 1 /\
       (exists b', In b' (entries m' t) /\ key_of m' b' k /\ nested_of b' = tab) /\
       (forall b, In b (entries m t) -> In b (entries m' t)) /\
       (forall b s, In b (entries m t) -> key_of m b s -> key_of m' b s)).
Proof.
  intros Hc I Hd Hf Hk Habs.
  pose proof (mm_fam _ _ _ _ I) as (Hok & Hap).
  assert (Ft : tables m t t) by (left; reflexivity).
  assert (Ht : ht_ok m t) by (apply Hok, Ft).
  assert (Fn : forall b, In b (entries m t) -> tables m t (nested_of b))
    by (intros b Hb; right; exists b; split; [exact Hb | reflexivity]).
  (* the entry *)
  eapply returns_bind;
    [apply (ht_insert_str_grows cap mmap m t k Hc (mm_arena _ _ _ _ I) Ht Hf Hk) |].
  intros [r m1] (A1 & H1 & Ebs1 & Ef1 & Hr1 & (kp & Hkp & Hs1 & Hsl1 & P1) & G1).
  set (nb := new_bucket m t k kp) in *.
  destruct (fam_op m m1 (tables m t) t (mm_fam _ _ _ _ I) Ft H1 G1) as (Fam1 & S1).
  (* the nested table *)
  eapply returns_bind; [apply (ht_init_fresh cap mmap m1 0 Hc A1); lia |].
  intros [tab m2] (A2 & Ht2 & Ebs_tab & Ef_tab & En_tab & U2 & K2 & Fr2).
  destruct (fam_new m1 m2 (tables m t) tab Fam1 U2 K2 Ht2 Fr2) as (Fam2 & S2).
  assert (Ntab : forall x, tables m t x -> x <> tab)
    by (apply (new_table_distinct m1 m2 (tables m t) tab (proj1 Fam1) Ht2 Fr2)).
  set (F2 := fun x => tables m t x \/ x = tab) in *.
  assert (H2 : ht_ok m2 t) by (apply (proj1 Fam2); left; exact Ft).
  pose proof (S2 t Ft) as S2t.
  assert (Hr2 : 0 <= r < bucket_count m2 t) by (rewrite (same_bc _ _ _ S2t); exact Hr1).
  assert (Hsl2 : slot m2 t r = nb) by (rewrite (same_slot _ _ _ S2t r Hr1); exact Hsl1).
  assert (Ho2 : occupied (slot m2 t r)).
  { rewrite Hsl2. unfold occupied, nb, new_bucket. cbn [b_hash]. apply hash_nonzero. }
  assert (Bs2 : bucket_size m2 t = 24).
  { rewrite (same_bs _ _ _ S2t), Ebs1. apply (mm_bs _ _ _ _ I). }
  assert (Hhp : 0 <= header_ptr tab < 2 ^ 64).
  { assert (Uh : used m2 (header_ptr tab))
      by (apply (ok_hdr m2 tab Ht2); unfold sizeof_hash_table_header; lia).
    pose proof (used_below m2 _ Uh). destruct A2 as (_ & _ & _ & _ & Hsz & Hcap).
    unfold sizeof_mem_block in Hsz. lia. }
  (* the handle *)
  cbv beta iota zeta. cbn [returns].
  destruct (payload_set cap m2 t r (header_ptr tab) H2 A2 Bs2 Hr2 Ho2 Hhp)
    as (H3 & A3 & G3 & Ebc3 & Ebs3 & Ef3 & En3 & Eh3 & Ek3 & P3).
  set (m3 := store64 m2 (ht_value m2 t r) (header_ptr tab)) in *.
  rewrite hash_table_eta in En3. set (b' := slot m3 t r) in *.
  destruct (fam_op m2 m3 F2 t Fam2 (or_introl Ft) H3 G3) as (Fam3 & S3).
  assert (P : Permutation (entries m3 t) (b' :: entries m t)).
  { apply (entries_replace nb b' (entries m t) (entries m1 t)); [exact P1 |].
    rewrite <- (same_entries _ _ _ S2t). rewrite <- Hsl2. exact P3. }
  assert (Hin3 : forall x, In x (entries m3 t) -> x = b' \/ In x (entries m t)).
  { intros x Hx. apply (Permutation_in _ P) in Hx. destruct Hx as [E | Hx]; auto. }
  assert (Hold : forall x, In x (entries m t) -> In x (entries m3 t)).
  { intros x Hx. apply (Permutation_in _ (Permutation_sym P)). right; exact Hx. }
  assert (Hb' : In b' (entries m3 t)).
  { apply (Permutation_in _ (Permutation_sym P)). left; reflexivity. }
  assert (Hnb1 : In nb (entries m1 t)).
  { apply (Permutation_in _ (Permutation_sym P1)). left; reflexivity. }
  assert (Hold1 : forall x, In x (entries m t) -> In x (entries m1 t)).
  { intros x Hx. apply (Permutation_in _ (Permutation_sym P1)). right; exact Hx. }
  (* keys *)
  assert (K13 : forall x s, In x (entries m1 t) -> key_of m1 x s ->
            cstr_at m3 (b_keyptr x) s).
  { intros x s Hx (Hks & Hs).
    apply (own_key_kept m2 m3 t x s H2 G3);
      [rewrite (same_entries _ _ _ S2t); exact Hx | exact Hks |].
    apply (same_key m1 m2 t x s H1 S2t Hx Hks). exact Hs. }
  assert (Kf : forall x s, In x (entries m t) -> key_of m x s -> key_of m3 x s).
  { intros x s Hx (Hks & Hs). split; [exact Hks |].
    apply (K13 x s (Hold1 x Hx)). split; [exact Hks |].
    apply (own_key_kept m m1 t x s Ht G1 Hx Hks Hs). }
  assert (Kb : forall x s, In x (entries m t) -> key_of m3 x s -> key_of m x s).
  { intros x s Hx Hk3. destruct (entry_key m t x Ht Hx) as (s0 & Hk0).
    rewrite (key_of_inj m3 x s s0 Hk3 (Kf x s0 Hx Hk0)). exact Hk0. }
  assert (Kb' : key_of m3 b' k).
  { split; [exact Hk |]. rewrite Ek3, Hsl2.
    apply (K13 nb k Hnb1). split; [exact Hk | exact Hs1]. }
  (* the nested tables *)
  assert (Sn : forall x, In x (entries m t) -> same_table m m3 (nested_of x)).
  { intros x Hx. pose proof (mm_nested _ _ _ _ I x Hx) as (Nx & _).
    apply (same_table_trans m m1 m3); [apply S1; [apply Fn, Hx | exact Nx] |].
    apply (same_table_trans m1 m2 m3); [apply S2, Fn, Hx |].
    apply S3; [left; apply Fn, Hx | exact Nx]. }
  assert (Nt : tab <> t) by (intros E; apply (Ntab t Ft); symmetry; exact E).
  assert (St3 : same_table m2 m3 tab) by (apply S3; [right; reflexivity | exact Nt]).
  assert (Nold : forall x, In x (entries m t) -> x <> b').
  { intros x Hx ->. apply (Ntab (nested_of b') (Fn b' Hx)). exact En3. }
  assert (Nk : forall x, In x (entries m t) -> ~ key_of m3 x k).
  { intros x Hx Hkx. apply Habs. apply stored_entry; [exact Ht | exact Hk |].
    exists x. split; [exact Hx | apply Kb; assumption]. }
  split; [| split; [| split; [| split; [exact Hold | exact Kf]]]].
  - constructor.
    + exact A3.
    + exact Ebs3.
    + apply (fam_ok_sub m3 F2); [| exact Fam3].
      intros x [-> | (b & Hb & ->)]; [left; exact Ft |].
      destruct (Hin3 b Hb) as [-> | Hb0]; [right; exact En3 | left; apply Fn, Hb0].
    + intros x Hx. destruct (Hin3 x Hx) as [-> | Hx0].
      * rewrite En3. split; [exact Nt |]. rewrite (same_bs _ _ _ St3). rewrite Ebs_tab. reflexivity.
      * destruct (mm_nested _ _ _ _ I x Hx0) as (Nx & Bx). split; [exact Nx |].
        rewrite (same_bs _ _ _ (Sn x Hx0)). exact Bx.
    + intros x s Hx Hks. destruct (Hin3 x Hx) as [-> | Hx0].
      * rewrite (key_of_inj m3 b' s k Hks Kb').
        assert (E : values_under k done = []).
        { destruct (values_under k done) as [| v l] eqn:E; [reflexivity | exfalso].
          apply Habs. assert (Hv : In v (values_under k done)) by (rewrite E; left; reflexivity).
          apply values_under_In in Hv. apply (mm_keys _ _ _ _ I k v Hv). }
        rewrite E, En3, (same_filled _ _ _ St3), Ef_tab. split; [reflexivity | intros v []].
      * apply (Kb x s Hx0) in Hks.
        destruct (mm_values _ _ _ _ I x s Hx0 Hks) as (Efx & Hstx).
        rewrite (same_filled _ _ _ (Sn x Hx0)). split; [exact Efx |].
        intros v Hv. apply (same_stored m m3 _ v (Hok _ (Fn x Hx0)) (Sn x Hx0)); [| apply Hstx, Hv].
        apply values_under_In in Hv. rewrite Forall_forall in Hd. apply (Hd _ Hv).
    + intros x1 x2 Hx1 Hx2 E.
      destruct (Hin3 x1 Hx1) as [-> | Hx10], (Hin3 x2 Hx2) as [-> | Hx20].
      * reflexivity.
      * exfalso. apply (Ntab _ (Fn x2 Hx20)). rewrite <- E. exact En3.
      * exfalso. apply (Ntab _ (Fn x1 Hx10)). rewrite E. exact En3.
      * apply (mm_inj _ _ _ _ I); assumption.
    + intros x1 x2 s Hx1 Hx2 Q1 Q2.
      destruct (Hin3 x1 Hx1) as [-> | Hx10], (Hin3 x2 Hx2) as [-> | Hx20].
      * reflexivity.
      * exfalso. apply (Nk x2 Hx20). rewrite <- (key_of_inj m3 b' s k Q1 Kb'). exact Q2.
      * exfalso. apply (Nk x1 Hx10). rewrite <- (key_of_inj m3 b' s k Q2 Kb'). exact Q1.
      * apply (mm_key _ _ _ _ I x1 x2 s); try assumption; apply Kb; assumption.
    + intros k' v' Hin. assert (Hk' : is_key k')
        by (rewrite Forall_forall in Hd; apply (Hd _ Hin)).
      pose proof (mm_keys _ _ _ _ I k' v' Hin) as Hst.
      apply (stored_entry m t k' Ht Hk') in Hst. destruct Hst as (x & Hx & Hkx).
      apply (stored_entry m3 t k' H3 Hk'). exists x. split; [apply Hold, Hx | apply Kf; assumption].
  - rewrite Ef3, (same_filled _ _ _ S2t). exact Ef1.
  - exists b'. split; [exact Hb' |]. split; [exact Kb' | exact En3].
Qed.

(** [multimap_insert_key_val]. *)
Lemma multimap_insert_key_val_spec cap mmap m t done k v :
  cap < 2 ^ 62 -> mm_ok cap m t done -> Forall pair_ok done ->
  is_key k -> is_key v ->
  filled m t <= Z.of_nat (length done) -> Z.of_nat (length done) + 1 < 2 ^ 28 ->
  returns (multimap_insert_key_val cap mmap m t k v) (fun m' =>
    mm_ok cap m' t (done ++ [(k, v)]) /\
    filled m' t <= filled m t + 1 /\
    (forall b, In b (entries m t) -> In b (entries m' t)) /\
    (forall b s, In b (entries m t) -> key_of m b s -> key_of m' b s)).
Proof.
  intros Hc I Hd Hk Hv Hf Hlen. unfold multimap_insert_key_val.
  assert (Ht : ht_ok m t) by (apply (mm_fam _ _ _ _ I); left; reflexivity).
  pose proof (ht_ok_layout m t Ht) as L.
  destruct (ht_lookup_total m t k Ht) as (pos & E & Hcase). rewrite E. cbn [bind].
  destruct Hcase as [-> | Hfound].
  - change (-1 <? 0) with true. cbv iota.
    assert (Habs : ~ stored m t k).
    { intros Hst. destruct (stored_lookup m t k Ht Hst) as (p & E2 & Hp & _).
      rewrite E in E2. injection E2 as <-. lia. }
    eapply returns_bind; [apply (mm_create cap mmap m t done k); try assumption; lia |].
    intros [tab m3] (I3 & Ef3 & (b' & Hb' & Kb' & <-) & Hold & Kf).
    eapply returns_bind; [apply (mm_add cap mmap m3 t done b' k v); try assumption; lia |].
    intros [r m4] (I4 & Ef4 & En4 & Kf4). cbn [returns].
    split; [exact I4 |]. split; [lia |]. split.
    + intros b Hb. rewrite En4. apply Hold, Hb.
    + intros b s Hb Hks. apply Kf4; [apply Hold, Hb | apply Kf; assumption].
  - pose proof Hfound as (Hpos & Hh & Hs).
    replace (pos <? 0) with false by (symmetry; apply Z.ltb_ge; lia). cbv iota.
    cbn [bind]. cbv beta iota zeta.
    change {| header_ptr := load64 m (ht_value m t pos) |}
      with (multimap_get m (ht_value m t pos)).
    rewrite (multimap_get_slot m t pos L (mm_bs _ _ _ _ I) Hpos).
    eapply returns_bind;
      [apply (mm_add cap mmap m t done (slot m t pos) k v); try assumption;
         [lia | apply (found_entry m t k pos Hfound) | split; assumption] |].
    intros [r m4] (I4 & Ef4 & En4 & Kf4). cbn [returns].
    split; [exact I4 |]. split; [lia |]. split; [| exact Kf4].
    intros b Hb. rewrite En4. exact Hb.
Qed.

Lemma multimap_insert_all_spec cap mmap pairs : forall m t done,
  cap < 2 ^ 62 -> mm_ok cap m t done -> Forall pair_ok done -> Forall pair_ok pairs ->
  filled m t <= Z.of_nat (length done) ->
  Z.of_nat (length done) + Z.of_nat (length pairs) < 2 ^ 28 ->
  returns (multimap_insert_all cap mmap m t pairs) (fun m' =>
    mm_ok cap m' t (done ++ pairs) /\
    filled m' t <= Z.of_nat (length (done ++ pairs)) /\
    (forall b, In b (entries m t) -> In b (entries m' t)) /\
    (forall b s, In b (entries m t) -> key_of m b s -> key_of m' b s)).
Proof.
  induction pairs as [| [k v] rest IH]; intros m t done Hc I Hd Hp Hf Hlen.
  - cbn [multimap_insert_all returns]. rewrite app_nil_r. auto.
  - cbn [multimap_insert_all]. inversion Hp as [| kv l Hkv Hrest]; subst.
    destruct Hkv as (Hk & Hv). cbn [fst snd] in Hk, Hv. cbn [length] in Hlen.
    eapply returns_bind;
      [apply (multimap_insert_key_val_spec cap mmap m t done k v); try assumption; lia |].
    intros m1 (I1 & Ef1 & Hold1 & Kf1).
    eapply returns_weaken; [apply (IH m1 t (done ++ [(k, v)]) Hc I1) |].
    + apply Forall_app. split; [exact Hd |]. constructor; [split; assumption | constructor].
    + exact Hrest.
    + rewrite length_app. cbn [length]. lia.
    + rewrite length_app. cbn [length]. lia.
    + intros m' (I' & Ef' & Hold' & Kf'). rewrite <- app_assoc in I', Ef'. cbn [app] in I', Ef'.
      split; [exact I' |]. split; [exact Ef' |]. split.
      * intros b Hb. apply Hold', Hold1, Hb.
      * intros b s Hb Hks. apply Kf'; [apply Hold1, Hb | apply Kf1; assumption].
Qed.

Lemma new_multimap_ok cap mmap disk isz :
  cap < 2 ^ 62 -> 48 <= isz ->
  returns (new_table cap mmap disk isz 8) (fun '(t, m) =>
    mm_ok cap m t [] /\ filled m t = 0).
Proof.
  intros Hc Hisz.
  eapply returns_weaken; [apply (new_table_spec cap mmap disk isz 8 Hc Hisz); lia |].
  intros [t m] (A & H & _ & Ebs & Ef & En). split; [| exact Ef].
  constructor.
  - exact A.
  - exact Ebs.
  - split.
    + intros x [-> | (b & Hb & _)]; [exact H | rewrite En in Hb; destruct Hb].
    + intros x1 x2 [-> | (b & Hb & _)] [-> | (b2 & Hb2 & _)] N;
        try (rewrite En in *; contradiction). exfalso; apply N; reflexivity.
  - rewrite En. intros b [].
  - rewrite En. intros b s [].
  - rewrite En. intros b1 b2 [].
  - rewrite En. intros b1 b2 s [].
  - intros k v [].
Qed.

(** What [ht_lookup] and [multimap_get] find in a multi-map. *)
Lemma mm_lookup cap m t pairs k :
  mm_ok cap m t pairs -> Forall pair_ok pairs -> In k (map fst pairs) ->
  exists p, ht_lookup m t k = Done p /\ 0 <= p < bucket_count m t /\
    In (slot m t p) (entries m t) /\ key_of m (slot m t p) k /\
    multimap_get m (ht_value m t p) = nested_of (slot m t p) /\
    ht_ok m (nested_of (slot m t p)) /\
    filled m (nested_of (slot m t p)) = Z.of_nat (length (values_under k pairs)) /\
    (forall v, In v (values_under k pairs) ->
       exists q, ht_lookup m (nested_of (slot m t p)) v = Done q /\
                 0 <= q < bucket_count m (nested_of (slot m t p))).
Proof.
  intros I Hd Hk. apply in_map_iff in Hk. destruct Hk as ([k' v] & E & Hin).
  cbn [fst] in E. subst k'.
  assert (Hkk : is_key k) by (rewrite Forall_forall in Hd; apply (Hd _ Hin)).
  assert (Ht : ht_ok m t) by (apply (mm_fam _ _ _ _ I); left; reflexivity).
  destruct (stored_lookup m t k Ht (mm_keys _ _ _ _ I k v Hin)) as (p & E & Hf).
  pose proof (found_entry m t k p Hf) as Hb. pose proof Hf as (Hp & _ & Hs).
  assert (Kb : key_of m (slot m t p) k) by (split; assumption).
  assert (Hn : ht_ok m (nested_of (slot m t p))).
  { apply (mm_fam _ _ _ _ I). right. exists (slot m t p). split; [exact Hb | reflexivity]. }
  destruct (mm_values _ _ _ _ I _ k Hb Kb) as (Ef & Hst).
  exists p. do 4 (split; [assumption |]).
  split; [apply (multimap_get_slot m t p (ht_ok_layout m t Ht) (mm_bs _ _ _ _ I) Hp) |].
  split; [exact Hn |]. split; [exact Ef |].
  intros v' Hv'. destruct (stored_lookup m _ v' Hn (Hst v' Hv')) as (q & Eq & Hq & _).
  exists q. split; assumption.
Qed.

(** ** Multi-map closure *)

(** C7 -- Multi-map closure.  Let pairs be inserted into a new multi-map
    with [multimap_insert_key_val], first the pairs [pre], then the pairs
    [post], all pairwise distinct.  Then for every key [k] among them,
    [v1 .. vm] being the values inserted under [k]: [ht_lookup] finds [k]
    in the outer table; the handle that [multimap_get] reads back from the
    payload of that bucket designates a well-formed table whose [filled]
    is [m] and in which [ht_lookup] finds every [vj]; and if [k] was
    inserted in [pre] already, that handle is the one that was read back
    before the pairs [post] were inserted, whatever rehashes of the outer
    and of the nested tables these insertions caused. *)
Theorem multimap_closure cap mmap disk isz pre post :
  cap <= 2 ^ 47 -> 48 <= isz ->
  Forall pair_ok (pre ++ post) -> NoDup (pre ++ post) ->
  Z.of_nat (length (pre ++ post)) < 2 ^ 28 ->
  returns (multimap_of cap mmap disk isz pre) (fun '(t, m1) =>
    returns (multimap_insert_all cap mmap m1 t post) (fun m =>
      forall k, In k (map fst (pre ++ post)) ->
        exists p, ht_lookup m t k = Done p /\ 0 <= p < bucket_count m t /\
          let tab := multimap_get m (ht_value m t p) in
          ht_ok m tab /\
          filled m tab = Z.of_nat (length (values_under k (pre ++ post))) /\
          (forall v, In v (values_under k (pre ++ post)) ->
             exists q, ht_lookup m tab v = Done q /\ 0 <= q < bucket_count m tab) /\
          (In k (map fst pre) ->
             exists p1, ht_lookup m1 t k = Done p1 /\
                        multimap_get m1 (ht_value m1 t p1) = tab))).
Proof.
  intros Hcap Hisz Hd _ Hlen. assert (Hc : cap < 2 ^ 62) by lia.
  apply Forall_app in Hd. destruct Hd as (Hpre & Hpost).
  rewrite length_app, Nat2Z.inj_add in Hlen.
  unfold multimap_of.
  eapply returns_bind; [apply (new_multimap_ok cap mmap disk isz Hc Hisz) |].
  intros [t m0] (I0 & Ef0). cbv beta iota zeta.
  eapply returns_bind;
    [apply (multimap_insert_all_spec cap mmap pre m0 t [] Hc I0);
       [constructor | exact Hpre | cbn [length]; lia | cbn [length]; lia] |].
  cbn [app]. intros m1 (I1 & Ef1 & _). cbn [returns].
  eapply returns_weaken;
    [apply (multimap_insert_all_spec cap mmap post m1 t pre Hc I1); try assumption; lia |].
  intros m (I & _ & Hold & Kf) k Hk.
  assert (Hd : Forall pair_ok (pre ++ post)) by (apply Forall_app; split; assumption).
  destruct (mm_lookup cap m t (pre ++ post) k I Hd Hk)
    as (p & E & Hp & Hb & Kb & Eg & Hn & Ef & Hv).
  exists p. split; [exact E |]. split; [exact Hp |]. cbv zeta. rewrite Eg.
  do 3 (split; [assumption |]).
  intros Hk1.
  destruct (mm_lookup cap m1 t pre k I1 Hpre Hk1)
    as (p1 & E1 & Hp1 & Hb1 & Kb1 & Eg1 & _).
  exists p1. split; [exact E1 |]. rewrite Eg1. f_equal.
  apply (mm_key _ _ _ _ I _ _ k); [apply Hold, Hb1 | exact Hb | | exact Kb].
  apply Kf; assumption.
Qed.

(** ** Concrete runs *)

(** The environment of the runs: a 47-bit address space, and an [mmap]
    that places every new mapping somewhere else. *)
Definition cap47 : Z := 2 ^ 47.
Definition mmap_moving (hint len : Z) : Z := hint + 4096 + len.
Definition blank_disk : Z -> Z := fun _ => 0.

(** "key0", "key1", "key2" *)
Definition key0 : cstring := [107; 101; 121; 48].
Definition key1 : cstring := [107; 101; 121; 49].
Definition key2 : cstring := [107; 101; 121; 50].
Definition three_keys : list cstring := [key0; key1; key2].

Definition is_done {A : Type} (c : outcome A) : bool :=
  match c with Done _ => true | _ => false end.

(** An arena of 420 bytes, the same after a block of 2000 bytes was
    allocated (the file grows to 3328 bytes and is mapped elsewhere), and
    after one more block of 5000 bytes. *)
Definition arena_420 : mem :=
  match mem_create cap47 mmap_moving blank_disk 420 with
  | Done m => m
  | _ => {| header := 0; file := blank_disk |}
  end.

Definition arena_block : mem :=
  match mem_alloc cap47 mmap_moving arena_420 2000 with
  | Done (_, m) => m
  | _ => arena_420
  end.

Definition arena_blocks : mem :=
  match mem_alloc cap47 mmap_moving arena_block 5000 with
  | Done (_, m) => m
  | _ => arena_block
  end.

Ltac by_evaluation :=
  repeat split; vm_compute; first [reflexivity | discriminate | intros; discriminate].

Lemma handle_stability_witness :
  (cap47 <= 2 ^ 47 /\ arena_ok cap47 arena_420 /\ 0 <= 2000 < 2 ^ 61 /\
   mem_alloc cap47 mmap_moving arena_420 2000 = Done (48, arena_block) /\
   arena_later cap47 mmap_moving arena_block arena_blocks) /\
  header arena_420 <> header arena_block /\
  (forall x, 48 <= x < 48 + 2000 -> used arena_blocks x) /\
  (forall sz, 0 <= sz < 2 ^ 61 ->
     returns (mem_alloc cap47 mmap_moving arena_blocks sz) (fun '(h', m') =>
       forall x, 48 <= x < 48 + 2000 ->
         peek m' (MEMPTR m' x) = peek arena_blocks (MEMPTR arena_blocks x))).
Proof.
  assert (H1 : cap47 <= 2 ^ 47) by by_evaluation.
  assert (H2 : arena_ok cap47 arena_420) by by_evaluation.
  assert (H3 : 0 <= 2000 < 2 ^ 61) by lia.
  assert (H4 : mem_alloc cap47 mmap_moving arena_420 2000 = Done (48, arena_block))
    by (vm_compute; reflexivity).
  assert (H5 : arena_later cap47 mmap_moving arena_block arena_blocks).
  { eapply later_step; [apply later_refl |].
    apply (step_alloc cap47 mmap_moving arena_block 5000 2068 arena_blocks);
      [lia | vm_compute; reflexivity]. }
  split; [exact (conj H1 (conj H2 (conj H3 (conj H4 H5)))) |].
  split; [vm_compute; discriminate |].
  exact (handle_stability cap47 mmap_moving arena_420 2000 48 arena_block arena_blocks
           H1 H2 H3 H4 H5).
Defined.

Lemma allocation_alignment_witness :
  (cap47 <= 2 ^ 47 /\ 48 <= 420 /\
   mem_create cap47 mmap_moving blank_disk 420 = Done arena_420 /\
   arena_later cap47 mmap_moving arena_420 arena_420 /\ 0 <= 2000 < 2 ^ 61) /\
  is_done (mem_alloc cap47 mmap_moving arena_420 2000) = true /\
  returns (mem_alloc cap47 mmap_moving arena_420 2000) (fun '(h, m') =>
    h mod 4 = 0 /\ h = next_free arena_420 + sizeof_mem_block /\
    next_free arena_420 mod 4 = 0 /\ next_free m' mod 4 = 0).
Proof.
  assert (H1 : cap47 <= 2 ^ 47) by by_evaluation.
  assert (H2 : 48 <= 420) by lia.
  assert (H3 : mem_create cap47 mmap_moving blank_disk 420 = Done arena_420)
    by (vm_compute; reflexivity).
  assert (H4 : arena_later cap47 mmap_moving arena_420 arena_420) by apply later_refl.
  assert (H5 : 0 <= 2000 < 2 ^ 61) by lia.
  split; [exact (conj H1 (conj H2 (conj H3 (conj H4 H5)))) |].
  split; [vm_compute; reflexivity |].
  exact (allocation_alignment cap47 mmap_moving blank_disk 420 arena_420 arena_420 2000
           H1 H2 H3 H4 H5).
Defined.

Lemma three_keys_are_keys : Forall is_key three_keys.
Proof. repeat constructor; unfold is_char, strlen; cbn; lia. Defined.

Lemma three_keys_distinct : NoDup three_keys.
Proof. repeat constructor; cbn; intuition discriminate. Defined.

Lemma insert_lookup_round_trip_witness :
  (cap47 <= 2 ^ 47 /\ 48 <= 420 /\ 0 <= 0 <= 2 ^ 30 - 16 /\
   Forall is_key three_keys /\ NoDup three_keys /\
   Z.of_nat (length three_keys) < 2 ^ 28) /\
  is_done (table_of cap47 mmap_moving blank_disk 420 0 three_keys) = true /\
  returns (table_of cap47 mmap_moving blank_disk 420 0 three_keys) (fun '(t, m) =>
    (forall k, In k three_keys ->
       exists p, ht_lookup m t k = Done p /\ 0 <= p < bucket_count m t /\
                 strcmp_eq m k (load64 m (ht_bucket m t p + 8)) = true) /\
    length (ht_foreach m t) = length three_keys /\
    (forall i, In i (ht_foreach m t) ->
       0 <= i < bucket_count m t /\ load64 m (ht_bucket m t i) <> 0)).
Proof.
  assert (H1 : cap47 <= 2 ^ 47) by by_evaluation.
  assert (H2 : 48 <= 420) by lia.
  assert (H3 : 0 <= 0 <= 2 ^ 30 - 16) by lia.
  assert (H4 : Z.of_nat (length three_keys) < 2 ^ 28) by (cbn; lia).
  split; [exact (conj H1 (conj H2 (conj H3
            (conj three_keys_are_keys (conj three_keys_distinct H4))))) |].
  split; [vm_compute; reflexivity |].
  exact (insert_lookup_round_trip cap47 mmap_moving blank_disk 420 0 three_keys
           H1 H2 H3 three_keys_are_keys three_keys_distinct H4).
Defined.

Lemma load_factor_bound_witness :
  (cap47 <= 2 ^ 47 /\ 48 <= 420 /\ 0 <= 0 <= 2 ^ 30 - 16 /\
   Forall is_key three_keys /\ Z.of_nat (length three_keys) < 2 ^ 28) /\
  is_done (table_of cap47 mmap_moving blank_disk 420 0 three_keys) = true /\
  returns (table_of cap47 mmap_moving blank_disk 420 0 three_keys) (fun '(t, m) =>
    filled m t <= 9 * bucket_count m t / 10 /\
    2 <= bucket_count m t /\
    exists k, 0 < k /\ bucket_count m t = 2 ^ k).
Proof.
  assert (H1 : cap47 <= 2 ^ 47) by by_evaluation.
  assert (H2 : 48 <= 420) by lia.
  assert (H3 : 0 <= 0 <= 2 ^ 30 - 16) by lia.
  assert (H4 : Z.of_nat (length three_keys) < 2 ^ 28) by (cbn; lia).
  split; [exact (conj H1 (conj H2 (conj H3 (conj three_keys_are_keys H4)))) |].
  split; [vm_compute; reflexivity |].
  exact (load_factor_bound cap47 mmap_moving blank_disk 420 0 three_keys
           H1 H2 H3 three_keys_are_keys H4).
Defined.

Lemma probe_distance_bound_witness :
  (cap47 <= 2 ^ 47 /\ 48 <= 420 /\ 0 <= 0 <= 2 ^ 30 - 16 /\
   Forall is_key three_keys /\ Z.of_nat (length three_keys) < 2 ^ 28) /\
  is_done (table_of cap47 mmap_moving blank_disk 420 0 three_keys) = true /\
  returns (table_of cap47 mmap_moving blank_disk 420 0 three_keys) (fun '(t, m) =>
    forall p, 0 <= p < bucket_count m t ->
      load64 m (ht_bucket m t p) <> 0 ->
      (p - load64 m (ht_bucket m t p) mod bucket_count m t) mod bucket_count m t
      <= max_dist m t).
Proof.
  assert (H1 : cap47 <= 2 ^ 47) by by_evaluation.
  assert (H2 : 48 <= 420) by lia.
  assert (H3 : 0 <= 0 <= 2 ^ 30 - 16) by lia.
  assert (H4 : Z.of_nat (length three_keys) < 2 ^ 28) by (cbn; lia).
  split; [exact (conj H1 (conj H2 (conj H3 (conj three_keys_are_keys H4)))) |].
  split; [vm_compute; reflexivity |].
  exact (probe_distance_bound cap47 mmap_moving blank_disk 420 0 three_keys
           H1 H2 H3 three_keys_are_keys H4).
Defined.

Lemma bucket_key_coherence_witness :
  (cap47 <= 2 ^ 47 /\ 48 <= 420 /\ 0 <= 0 <= 2 ^ 30 - 16 /\
   Forall is_key three_keys /\ Z.of_nat (length three_keys) < 2 ^ 28) /\
  is_done (table_of cap47 mmap_moving blank_disk 420 0 three_keys) = true /\
  returns (table_of cap47 mmap_moving blank_disk 420 0 three_keys) (fun '(t, m) =>
    forall p, 0 <= p < bucket_count m t ->
      load64 m (ht_bucket m t p) <> 0 ->
      let keyptr := load64 m (ht_bucket m t p + 8) in
      keyptr <> 0 /\
      exists s, Forall is_char s /\ cstr_at m keyptr s /\
        (forall x, keyptr <= x < keyptr + strlen s + 1 -> used m x) /\
        load64 m (ht_bucket m t p) = hash s).
Proof.
  assert (H1 : cap47 <= 2 ^ 47) by by_evaluation.
  assert (H2 : 48 <= 420) by lia.
  assert (H3 : 0 <= 0 <= 2 ^ 30 - 16) by lia.
  assert (H4 : Z.of_nat (length three_keys) < 2 ^ 28) by (cbn; lia).
  split; [exact (conj H1 (conj H2 (conj H3 (conj three_keys_are_keys H4)))) |].
  split; [vm_compute; reflexivity |].
  exact (bucket_key_coherence cap47 mmap_moving blank_disk 420 0 three_keys
           H1 H2 H3 three_keys_are_keys H4).
Defined.

(** ** Inserting a key that is present *)

(** A new table; "key0" is looked up, inserted, looked up, inserted again
    and looked up again.  The run gives: the three results of [ht_lookup],
    the two results of [ht_insert_str], [filled] after each insertion, the
    bucket count and the enumeration at the end, and the key handles of the
    two buckets the insertions returned. *)
Definition insert_twice : outcome (Z * Z * Z * Z * Z * Z * Z * Z * list Z * Z * Z) :=
  '(t, m) <- new_table cap47 mmap_moving blank_disk 420 0 ;;
  l0 <- ht_lookup m t key0 ;;
  '(r1, m1) <- ht_insert_str cap47 mmap_moving m t key0 ;;
  l1 <- ht_lookup m1 t key0 ;;
  '(r2, m2) <- ht_insert_str cap47 mmap_moving m1 t key0 ;;
  l2 <- ht_lookup m2 t key0 ;;
  Done (l0, l1, l2, r1, r2, filled m1 t, filled m2 t, bucket_count m2 t,
        ht_foreach m2 t,
        load64 m2 (ht_bucket m2 t r1 + 8), load64 m2 (ht_bucket m2 t r2 + 8)).

(** C2 -- a second insertion of the same key.  The key is absent, then
    found at bucket 0.  The first insertion returns bucket 0 and the
    second one bucket 1; [filled] is 1 and then 2; the enumeration visits
    two buckets, and their keys are two copies of the key, at the handles
    160 and 184. *)
Theorem duplicate_insert :
  insert_twice = Done (-1, 0, 0, 0, 1, 1, 2, 4, [0; 1], 160, 184).
Proof. vm_compute. reflexivity. Qed.

(** ** A rehash with a key that was inserted twice *)

(** "key3" *)
Definition key3 : cstring := [107; 101; 121; 51].

(** A new table with payloads of 8 bytes; "key3" is inserted twice; the
    payload of the bucket [ht_lookup] finds for "key3" is set to 1234;
    "key0" and "key1" are inserted, and the second of these insertions
    rehashes.  The run gives, before and after these two insertions: the
    bucket count, the result of [ht_lookup] for "key3", the payload of that
    bucket, and the payloads of all occupied buckets. *)
Definition rehash_with_duplicate
    : outcome ((Z * Z * Z * list Z) * (Z * Z * Z * list Z)) :=
  '(t, m) <- table_of cap47 mmap_moving blank_disk 420 8 [key3; key3] ;;
  p <- ht_lookup m t key3 ;;
  let m := store64 m (ht_value m t p) 1234 in
  m' <- insert_all cap47 mmap_moving m t [key0; key1] ;;
  p' <- ht_lookup m' t key3 ;;
  Done ((bucket_count m t, p, load64 m (ht_value m t p),
         map (fun i => load64 m (ht_value m t i)) (ht_foreach m t)),
        (bucket_count m' t, p', load64 m' (ht_value m' t p'),
         map (fun i => load64 m' (ht_value m' t i)) (ht_foreach m' t))).

(** C4 -- a rehash of a table in which a key was inserted twice.  Before
    the rehash "key3" is found at bucket 3 of 4, with the payload 1234;
    after it, it is found at bucket 7 of 8, with the payload 0: the entry
    with the payload 1234 was carried over (to bucket 0), but [ht_lookup]
    meets the other entry of the key first. *)
Theorem rehash_duplicate_key :
  rehash_with_duplicate =
  Done ((4, 3, 1234, [0; 1234]), (8, 7, 0, [1234; 0; 0; 0])).
Proof. vm_compute. reflexivity. Qed.

(** ** A run of the multi-map *)

Definition pairs_before : list (cstring * cstring) := [(key0, key1); (key1, key0)].
Definition pairs_after : list (cstring * cstring) :=
  [(key0, key2); (key2, key0); (key0, key0); (key3, key1)].

Lemma pairs_are_keys : Forall pair_ok (pairs_before ++ pairs_after).
Proof. repeat constructor; unfold is_char, strlen; cbn; lia. Defined.

Lemma pairs_distinct : NoDup (pairs_before ++ pairs_after).
Proof. repeat constructor; cbn; intuition discriminate. Defined.

Lemma multimap_closure_witness :
  (cap47 <= 2 ^ 47 /\ 48 <= 420 /\
   Forall pair_ok (pairs_before ++ pairs_after) /\ NoDup (pairs_before ++ pairs_after) /\
   Z.of_nat (length (pairs_before ++ pairs_after)) < 2 ^ 28) /\
  is_done ('(t, m1) <- multimap_of cap47 mmap_moving blank_disk 420 pairs_before ;;
           multimap_insert_all cap47 mmap_moving m1 t pairs_after) = true /\
  returns (multimap_of cap47 mmap_moving blank_disk 420 pairs_before) (fun '(t, m1) =>
    returns (multimap_insert_all cap47 mmap_moving m1 t pairs_after) (fun m =>
      forall k, In k (map fst (pairs_before ++ pairs_after)) ->
        exists p, ht_lookup m t k = Done p /\ 0 <= p < bucket_count m t /\
          let tab := multimap_get m (ht_value m t p) in
          ht_ok m tab /\
          filled m tab =
            Z.of_nat (length (values_under k (pairs_before ++ pairs_after))) /\
          (forall v, In v (values_under k (pairs_before ++ pairs_after)) ->
             exists q, ht_lookup m tab v = Done q /\ 0 <= q < bucket_count m tab) /\
          (In k (map fst pairs_before) ->
             exists p1, ht_lookup m1 t k = Done p1 /\
                        multimap_get m1 (ht_value m1 t p1) = tab))).
Proof.
  assert (H1 : cap47 <= 2 ^ 47) by by_evaluation.
  assert (H2 : 48 <= 420) by lia.
  assert (H3 : Z.of_nat (length (pairs_before ++ pairs_after)) < 2 ^ 28) by (cbn; lia).
  split; [exact (conj H1 (conj H2 (conj pairs_are_keys (conj pairs_distinct H3)))) |].
  split; [vm_compute; reflexivity |].
  exact (multimap_closure cap47 mmap_moving blank_disk 420 pairs_before pairs_after
           H1 H2 pairs_are_keys pairs_distinct H3).
Defined.

(** * Further properties of the code *)

(** ** The arena *)



(** X2 -- Blocks do not overlap.  A block that [mem_alloc] returns lies
    behind every block that was returned before, with at least the 16
    bytes of its descriptor in between, and it lies inside the mapped
    file, together with the descriptor of the tail that follows it. *)
Theorem allocations_disjoint cap mmap m0 n1 h1 m1 m n2 :
  cap <= 2 ^ 47 -> arena_ok cap m0 -> 0 <= n1 < 2 ^ 61 ->
  mem_alloc cap mmap m0 n1 = Done (h1, m1) ->
  arena_later cap mmap m1 m -> 0 <= n2 < 2 ^ 61 ->
  returns (mem_alloc cap mmap m n2) (fun '(h2, m2) =>
    48 <= h1 /\ h1 + n1 + 16 <= h2 /\ h2 + n2 + 16 < size m2).
Proof.
  intros Hc A Hn1 Hrun L Hn2. assert (Hc' : cap < 2 ^ 62) by lia.
  pose proof (mem_alloc_returns cap mmap m0 n1 Hc' A Hn1) as R.
  rewrite Hrun in R. cbn in R. destruct R as (-> & A1 & N1 & U1 & F1 & W1).
  destruct (arena_later_ok cap mmap m1 m Hc' A1 L) as (Am & Um).
  eapply returns_weaken; [apply (mem_alloc_returns cap mmap m n2 Hc' Am Hn2) |].
  intros [h2 m2] (-> & A2 & N2 & _).
  destruct A as (A01 & A02 & _). destruct A2 as (_ & _ & _ & _ & Hsz & _).
  unfold sizeof_mem, sizeof_mem_block in *.
  assert (Hlast : used m (next_free m0 + 16 + n1)).
  { apply Um, W1. lia. }
  pose proof (used_below m _ Hlast). lia.
Qed.

Lemma allocations_disjoint_witness :
  (cap47 <= 2 ^ 47 /\ arena_ok cap47 arena_420 /\ 0 <= 2000 < 2 ^ 61 /\
   mem_alloc cap47 mmap_moving arena_420 2000 = Done (48, arena_block) /\
   arena_later cap47 mmap_moving arena_block arena_block /\ 0 <= 0 < 2 ^ 61) /\
  returns (mem_alloc cap47 mmap_moving arena_block 0) (fun '(h2, m2) =>
    48 <= 48 /\ 48 + 2000 + 16 <= h2 /\ h2 + 0 + 16 < size m2).
Proof.
  assert (H1 : cap47 <= 2 ^ 47) by by_evaluation.
  assert (H2 : arena_ok cap47 arena_420) by by_evaluation.
  assert (H3 : 0 <= 2000 < 2 ^ 61) by lia.
  assert (H4 : mem_alloc cap47 mmap_moving arena_420 2000 = Done (48, arena_block))
    by (vm_compute; reflexivity).
  assert (H5 : arena_later cap47 mmap_moving arena_block arena_block) by apply later_refl.
  assert (H6 : 0 <= 0 < 2 ^ 61) by lia.
  split; [exact (conj H1 (conj H2 (conj H3 (conj H4 (conj H5 H6))))) |].
  exact (allocations_disjoint cap47 mmap_moving arena_420 2000 48 arena_block arena_block 0
           H1 H2 H3 H4 H5 H6).
Defined.

(** X3 -- What an allocation takes, and when the file grows.  A block of
    [sz] bytes advances the tail by the 16 bytes of a descriptor and [sz]
    rounded up to the next multiple of 4 above it (1 to 4 bytes of padding,
    also when [sz] is 0 or a multiple of 4).  When the descriptor of the new
    tail ends before the end of the file, the file and its mapping stay as
    they are; otherwise the file grows to one and a half times the end of
    that descriptor, rounded up to the next multiple of 256, and is mapped
    again, and the call leaves through [handle_error] if this exceeds what
    the file may grow to. *)
Theorem mem_alloc_layout cap mmap m sz :
  cap <= 2 ^ 47 -> arena_ok cap m -> 0 <= sz < 2 ^ 61 ->
  let tail := next_free m + 16 + 4 * (sz / 4 + 1) in
  if tail + 16 <? size m then
    exists m', mem_alloc cap mmap m sz = Done (next_free m + 16, m') /\
      next_free m' = tail /\ size m' = size m /\ header m' = header m
  else if grow_size (tail + 16) <=? cap then
    exists m', mem_alloc cap mmap m sz = Done (next_free m + 16, m') /\
      next_free m' = tail /\ size m' = grow_size (tail + 16) /\
      header m' = mmap (header m) (size m') /\
      size m < size m' /\ size m' mod 256 = 0
  else mem_alloc cap mmap m sz = Exit.
Proof.
  intros Hc (Hp1 & Hp2 & Hal & Hnx & Hsz & Hcap) Hs. cbv zeta.
  unfold mem_alloc. rewrite find_free_tail by assumption. cbn [bind].
  rewrite Hnx, Z.eqb_refl.
  set (t := next_free m) in *. set (p := block_prev m t) in *.
  unfold sizeof_mem, sizeof_mem_block in *.
  pose proof (next_free_range m) as Ht. fold t in Ht.
  rewrite (u64_small (16 + sz)) by lia.
  rewrite (u64_small (t + (16 + sz))) by lia.
  rewrite align4 by lia.
  pose proof (align4_bounds (t + (16 + sz)) ltac:(lia)) as (Hn1 & Hn2).
  assert (En : 4 * ((t + (16 + sz)) / 4 + 1) = t + 16 + 4 * (sz / 4 + 1)).
  { pose proof (Z.div_mod t 4 ltac:(lia)) as Hd. rewrite Hal in Hd.
    replace (t + (16 + sz)) with (sz + (t / 4 + 4) * 4) by lia.
    rewrite Z.div_add by lia. lia. }
  rewrite En in *. set (next := t + 16 + 4 * (sz / 4 + 1)) in *. clearbody next.
  rewrite (u64_small next) by lia.
  rewrite (u64_small (next + 16)) by lia.
  rewrite (u64_small (t + 16)) by lia.
  destruct (Z.ltb_spec (next + 16) (size m)) as [Hfit | Hgrow].
  - replace (size m <=? next + 16) with false by (symmetry; apply Z.leb_gt; lia).
    cbn [bind]. eexists; split; [reflexivity |].
    unfold_arena. fold t. fold p.
    rewrite !header_store64.
    mem_simp. rewrite ?(u64_small next), ?(u64_small t) by lia.
    mem_simp. rewrite ?(u64_small next), ?(u64_small t) by lia.
    repeat split; reflexivity.
  - replace (size m <=? next + 16) with true by (symmetry; apply Z.leb_le; lia).
    unfold mem_resize.
    pose proof (grow_size_bounds (next + 16) ltac:(lia)) as Hg.
    assert (Hg256 : grow_size (next + 16) mod 256 = 0).
    { unfold grow_size.
      assert (H1 : 0 <= 3 * (next + 16) / 2 < 2 ^ 63).
      { split; [apply Z.div_pos; lia | apply Z.div_lt_upper_bound; lia]. }
      rewrite (u64_small (3 * (next + 16) / 2)) by lia.
      rewrite Z.shiftl_mul_pow2, Z.shiftr_div_pow2 by lia. change (2 ^ 8) with 256.
      pose proof (Z.div_mod (3 * (next + 16) / 2) 256 ltac:(lia)).
      pose proof (Z.mod_pos_bound (3 * (next + 16) / 2) 256 ltac:(lia)).
      rewrite u64_small by lia. apply Z.mod_mul; lia. }
    set (g := grow_size (next + 16)) in *.
    destruct (Z.leb_spec g cap) as [Hok | Hbig]; [| reflexivity].
    cbn [bind]. eexists; split; [reflexivity |].
    unfold_arena. fold t. fold p.
    assert (Hg64 : u64 g = g) by (apply u64_small; lia).
    assert (Hl8 : forall m0 x, load8 {| header := mmap (header (store8 m g 0)) g; file := file m0 |} x = load8 m0 x) by reflexivity.
    assert (Hl64 : forall m0 x, load64 {| header := mmap (header (store8 m g 0)) g; file := file m0 |} x = load64 m0 x)
      by (intros; apply load64_ext; intros; apply Hl8).
    rewrite !header_store64. cbn [header].
    mem_simp. rewrite ?(u64_small next), ?(u64_small t), ?Hg64 by lia.
    mem_simp. rewrite ?(u64_small next), ?(u64_small t), ?Hg64 by lia.
    repeat split; try reflexivity; try lia; try exact Hg256.
Qed.

Lemma mem_alloc_layout_witness :
  (cap47 <= 2 ^ 47 /\ arena_ok cap47 arena_420 /\ 0 <= 2000 < 2 ^ 61) /\
  (let tail := next_free arena_420 + 16 + 4 * (2000 / 4 + 1) in
   if tail + 16 <? size arena_420 then
     exists m', mem_alloc cap47 mmap_moving arena_420 2000 =
                Done (next_free arena_420 + 16, m') /\
       next_free m' = tail /\ size m' = size arena_420 /\ header m' = header arena_420
   else if grow_size (tail + 16) <=? cap47 then
     exists m', mem_alloc cap47 mmap_moving arena_420 2000 =
                Done (next_free arena_420 + 16, m') /\
       next_free m' = tail /\ size m' = grow_size (tail + 16) /\
       header m' = mmap_moving (header arena_420) (size m') /\
       size arena_420 < size m' /\ size m' mod 256 = 0
   else mem_alloc cap47 mmap_moving arena_420 2000 = Exit).
Proof.
  assert (H1 : cap47 <= 2 ^ 47) by by_evaluation.
  assert (H2 : arena_ok cap47 arena_420) by by_evaluation.
  assert (H3 : 0 <= 2000 < 2 ^ 61) by lia.
  split; [exact (conj H1 (conj H2 H3)) |].
  exact (mem_alloc_layout cap47 mmap_moving arena_420 2000 H1 H2 H3).
Defined.



(** ** The hash of a key and of its interned copy *)

(** X5 -- The hash of an interned key.  An insertion hashes the copy of
    the key that lies in the file, a lookup the string of the caller: for
    a key that [mem_insert_str] has interned the two computations give the
    same value, which lies between 1 and 2^64 - 1, so that it is never
    taken for the mark of an empty bucket. *)
Theorem hash_of_interned cap mmap m s :
  cap <= 2 ^ 47 -> arena_ok cap m -> is_key s ->
  returns (mem_insert_str cap mmap m s) (fun '(p, m') =>
    hash_mem m' p = Done (hash s) /\ 0 < hash s < 2 ^ 64).
Proof.
  intros Hc A Hk. assert (Hc' : cap < 2 ^ 62) by lia.
  eapply returns_weaken; [apply (mem_insert_str_spec cap mmap m s Hc' A Hk) |].
  intros [p m'] (-> & A' & Hs & U & F & W). split; [| apply hash_range].
  apply hash_mem_spec; [apply Hk | exact Hs |].
  assert (Hl0 : 0 <= strlen s) by (unfold strlen; lia).
  pose proof (used_below m' _ (W (next_free m + 16 + strlen s) ltac:(lia))).
  destruct A' as (_ & _ & _ & _ & Hsz & _). unfold sizeof_mem_block in Hsz. lia.
Qed.

Lemma hash_of_interned_witness :
  (cap47 <= 2 ^ 47 /\ arena_ok cap47 arena_420 /\ is_key [0xc3; 0xa9]) /\
  returns (mem_insert_str cap47 mmap_moving arena_420 [0xc3; 0xa9]) (fun '(p, m') =>
    hash_mem m' p = Done (hash [0xc3; 0xa9]) /\ 0 < hash [0xc3; 0xa9] < 2 ^ 64).
Proof.
  assert (H1 : cap47 <= 2 ^ 47) by by_evaluation.
  assert (H2 : arena_ok cap47 arena_420) by by_evaluation.
  assert (H3 : is_key [0xc3; 0xa9])
    by (split; [repeat constructor; unfold is_char; lia | cbn; lia]).
  split; [exact (conj H1 (conj H2 H3)) |].
  exact (hash_of_interned cap47 mmap_moving arena_420 [0xc3; 0xa9] H1 H2 H3).
Defined.

Lemma hash_ascii_witness :
  Forall (fun c => 0 <= c < 128) key0 /\ hash key0 = spec_hash key0.
Proof.
  assert (H : Forall (fun c => 0 <= c < 128) key0) by (repeat constructor; lia).
  split; [exact H | exact (hash_ascii key0 H)].
Defined.

(** ** The keys of a table *)

Lemma Forall2_impl_in {A B : Type} (R R' : A -> B -> Prop) l ks :
  Forall2 R l ks -> (forall a s, In a l -> R a s -> R' a s) -> Forall2 R' l ks.
Proof.
  induction 1 as [| a s l ks Ha F IH]; intros Himp; constructor.
  - apply Himp; [left; reflexivity | exact Ha].
  - apply IH. intros a' s' Hin. apply Himp. right; exact Hin.
Qed.

Lemma Forall2_in_l {A B : Type} (R : A -> B -> Prop) l ks a :
  Forall2 R l ks -> In a l -> exists s, In s ks /\ R a s.
Proof.
  induction 1 as [| a0 s0 l ks Ha F IH]; intros Hin; [destruct Hin |].
  destruct Hin as [<- | Hin].
  - exists s0. split; [left; reflexivity | exact Ha].
  - destruct (IH Hin) as (s & Hs & Hr). exists s. split; [right; exact Hs | exact Hr].
Qed.

Lemma Forall2_in_r {A B : Type} (R : A -> B -> Prop) l ks s :
  Forall2 R l ks -> In s ks -> exists a, In a l /\ R a s.
Proof.
  induction 1 as [| a0 s0 l ks Ha F IH]; intros Hin; [destruct Hin |].
  destruct Hin as [<- | Hin].
  - exists a0. split; [left; reflexivity | exact Ha].
  - destruct (IH Hin) as (a & Hs & Hr). exists a. split; [right; exact Hs | exact Hr].
Qed.

Lemma Forall2_map_l {A B C : Type} (R : B -> C -> Prop) (f : A -> B) l ks :
  Forall2 R (map f l) ks -> Forall2 (fun a s => R (f a) s) l ks.
Proof.
  revert ks. induction l as [| a l IH]; intros ks F; inversion F; subst; constructor.
  - assumption.
  - apply IH. assumption.
Qed.

Definition cstring_eq_dec : forall a b : cstring, {a = b} + {a <> b} :=
  list_eq_dec Z.eq_dec.

(** Two elements related to [k] are one, when [k] occurs once on the
    other side. *)
Lemma Forall2_unique {A : Type} (R : A -> cstring -> Prop) l ks k :
  Forall2 R l ks ->
  (forall a s s', R a s -> R a s' -> s = s') ->
  (count_occ cstring_eq_dec ks k <= 1)%nat ->
  forall a1 a2, In a1 l -> In a2 l -> R a1 k -> R a2 k -> a1 = a2.
Proof.
  intros F Hfun. induction F as [| a s l ks Ha F IH]; intros Hc a1 a2 H1 H2 R1 R2.
  - destruct H1.
  - assert (Htail : forall x, In x l -> R x k -> s <> k).
    { intros x Hx Rx E. destruct (Forall2_in_l R l ks x F Hx) as (s' & Hs' & Rs').
      rewrite (Hfun x s' k Rs' Rx) in Hs'.
      apply (count_occ_In cstring_eq_dec) in Hs'.
      cbn [count_occ] in Hc. destruct (cstring_eq_dec s k); [lia | contradiction]. }
    assert (Hc' : (count_occ cstring_eq_dec ks k <= 1)%nat).
    { cbn [count_occ] in Hc. destruct (cstring_eq_dec s k); lia. }
    destruct H1 as [<- | H1], H2 as [<- | H2].
    + reflexivity.
    + exfalso. apply (Htail a2 H2 R2). apply (Hfun a s k Ha R1).
    + exfalso. apply (Htail a1 H1 R1). apply (Hfun a s k Ha R2).
    + apply IH; assumption.
Qed.

(** The entries of the table carry the keys [keys], one entry for each
    of them. *)
Definition keyed (m : mem) (t : hash_table) (keys : list cstring) : Prop :=
  exists ks, Permutation ks keys /\ Forall2 (key_of m) (entries m t) ks.

Lemma keyed_perm m t keys keys' :
  Permutation keys keys' -> keyed m t keys -> keyed m t keys'.
Proof.
  intros P (ks & Pk & F). exists ks. split; [| exact F].
  apply (Permutation_trans Pk P).
Qed.

Lemma keyed_replace m' t l keys :
  Permutation (entries m' t) l ->
  (exists ks, Permutation ks keys /\ Forall2 (key_of m') l ks) ->
  keyed m' t keys.
Proof.
  intros P (ks & Pk & F).
  destruct (Permutation_Forall2 (Permutation_sym P) F) as (ks' & Pk' & F').
  exists ks'. split; [| exact F'].
  apply (Permutation_trans (Permutation_sym Pk') Pk).
Qed.

Lemma keyed_insert m m' t nb k keys :
  ht_ok m t -> grows_in m m' t -> is_key k -> cstr_at m' (b_keyptr nb) k ->
  Permutation (entries m' t) (nb :: entries m t) ->
  keyed m t keys -> keyed m' t (k :: keys).
Proof.
  intros H G Hk Hs P (ks & Pk & F).
  apply (keyed_replace m' t (nb :: entries m t)); [exact P |].
  exists (k :: ks). split; [constructor; exact Pk |].
  constructor; [split; assumption |].
  apply (Forall2_impl_in (key_of m)); [exact F |].
  intros b s Hb (Hks & Hbs). split; [exact Hks |].
  apply (own_key_kept m m' t b s H G Hb Hks Hbs).
Qed.

Lemma keyed_stored m t keys k :
  ht_ok m t -> keyed m t keys -> is_key k -> stored m t k <-> In k keys.
Proof.
  intros H (ks & Pk & F) Hk. rewrite (stored_entry m t k H Hk). split.
  - intros (b & Hb & Kb). destruct (Forall2_in_l _ _ _ b F Hb) as (s & Hs & Ks).
    rewrite (key_of_inj m b k s Kb Ks). apply (Permutation_in _ Pk Hs).
  - intros Hin. apply (Permutation_in _ (Permutation_sym Pk)) in Hin.
    apply (Forall2_in_r _ _ _ k F Hin).
Qed.

(** A key that was inserted once has one bucket. *)
Lemma found_unique m t keys k p r :
  ht_ok m t -> keyed m t keys -> is_key k ->
  (count_occ cstring_eq_dec keys k <= 1)%nat ->
  found m t k p -> found m t k r -> slot m t p = slot m t r.
Proof.
  intros H (ks & Pk & F) Hk Hc Hp Hr.
  apply (Forall2_unique (key_of m) (entries m t) ks k F).
  - intros a s s'. apply key_of_inj.
  - rewrite (Permutation_count_occ cstring_eq_dec ks keys) in Pk. rewrite Pk. exact Hc.
  - apply (found_entry m t k p Hp).
  - apply (found_entry m t k r Hr).
  - split; [exact Hk | apply Hp].
  - split; [exact Hk | apply Hr].
Qed.

Lemma insert_all_keyed cap mmap keys : forall m t ks0,
  cap < 2 ^ 62 -> arena_ok cap m -> ht_ok m t ->
  filled m t + Z.of_nat (length keys) < 2 ^ 28 ->
  Forall is_key keys -> keyed m t ks0 ->
  returns (insert_all cap mmap m t keys) (fun m' =>
    arena_ok cap m' /\ ht_ok m' t /\
    filled m' t = filled m t + Z.of_nat (length keys) /\
    bucket_size m' t = bucket_size m t /\
    keyed m' t (keys ++ ks0) /\
    (forall b, In b (entries m t) -> In b (entries m' t)) /\
    (forall b s, In b (entries m t) -> key_of m b s -> key_of m' b s)).
Proof.
  induction keys as [| k keys IH]; intros m t ks0 Hc A H Hn Hk K.
  - cbn [insert_all returns length app]. split; [exact A |]. split; [exact H |].
    split; [lia |]. split; [reflexivity |]. split; [exact K | auto].
  - cbn [insert_all]. inversion Hk as [| k' ks Hk1 Hk2]; subst. cbn [length] in Hn.
    eapply returns_bind;
      [apply (ht_insert_str_grows cap mmap m t k Hc A H ltac:(lia) Hk1) |].
    intros [r m1] (A1 & H1 & S1 & F1 & Hr & (kp & Hfr & Hs & Hsl & P) & G).
    cbv beta iota zeta.
    assert (K1 : keyed m1 t (k :: ks0)).
    { apply (keyed_insert m m1 t (new_bucket m t k kp)); assumption. }
    eapply returns_weaken; [apply (IH m1 t (k :: ks0) Hc A1 H1); [lia | exact Hk2 | exact K1] |].
    intros m' (A' & H' & F' & S' & K' & Hold & Kf).
    assert (Hold1 : forall b, In b (entries m t) -> In b (entries m1 t)).
    { intros b Hb. apply (Permutation_in _ (Permutation_sym P)). right; exact Hb. }
    split; [exact A' |]. split; [exact H' |]. split; [cbn [length]; lia |].
    split; [congruence |]. split; [| split].
    + apply (keyed_perm m' t (keys ++ k :: ks0)); [| exact K'].
      cbn [app]. apply Permutation_sym, Permutation_middle.
    + intros b Hb. apply Hold, Hold1, Hb.
    + intros b s Hb (Hks & Hbs). apply Kf; [apply Hold1, Hb |].
      split; [exact Hks | apply (own_key_kept m m1 t b s H G Hb Hks Hbs)].
Qed.

(** A table built by insertions. *)
Lemma table_of_keyed cap mmap disk isz vs keys :
  cap < 2 ^ 62 -> 48 <= isz -> 0 <= vs <= 2 ^ 30 - 16 ->
  Z.of_nat (length keys) < 2 ^ 28 -> Forall is_key keys ->
  returns (table_of cap mmap disk isz vs keys) (fun '(t, m) =>
    arena_ok cap m /\ ht_ok m t /\
    filled m t = Z.of_nat (length keys) /\
    bucket_size m t = 16 + vs /\
    keyed m t keys).
Proof.
  intros Hc Hisz Hvs Hn Hk. unfold table_of.
  eapply returns_bind; [apply (new_table_spec cap mmap disk isz vs Hc Hisz Hvs) |].
  intros [t m] (A & H & B & S & F & E). cbv beta iota zeta.
  assert (K0 : keyed m t []).
  { exists []. split; [constructor | rewrite E; constructor]. }
  eapply returns_bind;
    [apply (insert_all_keyed cap mmap keys m t [] Hc A H); [lia | exact Hk | exact K0] |].
  intros m' (A' & H' & F' & S' & K' & _). cbn [returns]. rewrite app_nil_r in K'.
  split; [exact A' |]. split; [exact H' |]. split; [lia |]. split; [congruence | exact K'].
Qed.

(** ** The enumeration, once more *)

Lemma occupied_from_complete m t n : forall i j,
  i <= j < i + Z.of_nat n -> occupied (slot m t j) -> In j (occupied_from m t i n).
Proof.
  induction n as [| n IH]; intros i j Hj Ho; [lia |].
  cbn [occupied_from]. apply in_or_app.
  destruct (Z.eq_dec j i) as [-> | N].
  - left. destruct (occupiedb_spec (slot m t i)) as [O | O]; [left; reflexivity | contradiction].
  - right. apply IH; [lia | exact Ho].
Qed.

Lemma occupied_from_sorted m t n : forall i,
  StronglySorted Z.lt (occupied_from m t i n).
Proof.
  induction n as [| n IH]; intros i; cbn [occupied_from]; [constructor |].
  destruct (occupiedb (slot m t i)); cbn [app]; [| apply IH].
  constructor; [apply IH |].
  apply Forall_forall. intros j Hj. apply in_occupied_from in Hj. lia.
Qed.

Lemma in_ht_foreach m t i :
  layout m t ->
  In i (ht_foreach m t) <-> 0 <= i < bucket_count m t /\ occupied (slot m t i).
Proof.
  intros L. pose proof (layout_bc m t L). rewrite (ht_foreach_spec m t L). split.
  - intros Hin. apply in_occupied_from in Hin. split; [lia | apply Hin].
  - intros (Hi & Ho). apply occupied_from_complete; [lia | exact Ho].
Qed.

Lemma keyed_indices m t keys :
  ht_ok m t -> keyed m t keys ->
  exists ks, Permutation ks keys /\
    Forall2 (fun i s => key_of m (slot m t i) s) (ht_foreach m t) ks.
Proof.
  intros H (ks & Pk & F). exists ks. split; [exact Pk |].
  rewrite (ht_foreach_spec m t (ht_ok_layout m t H)).
  apply Forall2_map_l. rewrite occupied_from_entries. exact F.
Qed.

(** A key that was inserted once is found at one index. *)
Lemma found_index_unique m t keys k p r :
  ht_ok m t -> keyed m t keys -> is_key k ->
  (count_occ cstring_eq_dec keys k <= 1)%nat ->
  found m t k p -> found m t k r -> p = r.
Proof.
  intros H K Hk Hc Hp Hr. pose proof (ht_ok_layout m t H) as L.
  destruct (keyed_indices m t keys H K) as (ks & Pk & F).
  assert (Hocc : forall i, found m t k i -> In i (ht_foreach m t)).
  { intros i (Hi & Hh & _). apply in_ht_foreach; [exact L |]. split; [exact Hi |].
    unfold occupied. rewrite Hh. apply hash_nonzero. }
  apply (Forall2_unique (fun i s => key_of m (slot m t i) s) (ht_foreach m t) ks k F).
  - intros a s s'. apply key_of_inj.
  - rewrite (Permutation_count_occ cstring_eq_dec ks keys) in Pk. rewrite Pk. exact Hc.
  - apply Hocc, Hp.
  - apply Hocc, Hr.
  - split; [exact Hk | apply Hp].
  - split; [exact Hk | apply Hr].
Qed.

(** ** Stepping through the buckets *)

Lemma ht_next_loop_spec m t :
  layout m t ->
  forall (n : nat) i, 0 <= i -> i + Z.of_nat n = bucket_count m t ->
    let j := ht_next_loop n m t i in
    (j = -1 /\ forall x, i <= x < bucket_count m t -> ~ occupied (slot m t x)) \/
    (i <= j < bucket_count m t /\ occupied (slot m t j) /\
     forall x, i <= x < j -> ~ occupied (slot m t x)).
Proof.
  intros L. induction n as [| n IH]; intros i Hi Hn; cbv zeta.
  - left. split; [reflexivity | intros x Hx; lia].
  - rewrite ht_next_loop_step by (try assumption; lia).
    destruct (occupiedb_spec (slot m t i)) as [O | O].
    + right. split; [lia |]. split; [exact O | intros x Hx; lia].
    + destruct (IH (i + 1) ltac:(lia) ltac:(lia)) as [(E & Hall) | (Hj & Ho & Hall)].
      * left. split; [exact E |]. intros x Hx.
        destruct (Z.eq_dec x i) as [-> | N]; [exact O | apply Hall; lia].
      * right. split; [lia |]. split; [exact Ho |]. intros x Hx.
        destruct (Z.eq_dec x i) as [-> | N]; [exact O | apply Hall; lia].
Qed.

Lemma ht_next_spec m t i :
  layout m t -> -1 <= i < bucket_count m t ->
  let j := ht_next m t i in
  (j = -1 /\ forall x, i < x < bucket_count m t -> ~ occupied (slot m t x)) \/
  (i < j < bucket_count m t /\ occupied (slot m t j) /\
   forall x, i < x < j -> ~ occupied (slot m t x)).
Proof.
  intros L Hi. cbv zeta. rewrite (ht_next_eq m t i L Hi).
  pose proof (layout_bc m t L).
  destruct (ht_next_loop_spec m t L (Z.to_nat (bucket_count m t - (i + 1))) (i + 1)
              ltac:(lia) ltac:(lia)) as [(E & Hall) | (Hj & Ho & Hall)].
  - left. split; [exact E | intros x Hx; apply Hall; lia].
  - right. split; [lia |]. split; [exact Ho | intros x Hx; apply Hall; lia].
Qed.

Lemma ht_next_outside m t i :
  layout m t -> - 2 ^ 31 <= i < 2 ^ 31 - 1 ->
  i < -1 \/ bucket_count m t - 1 <= i -> ht_next m t i = -1.
Proof.
  intros L Hi Hout. pose proof (layout_bc m t L). unfold ht_next.
  rewrite (to_int_small (i + 1)) by lia.
  replace (Z.to_nat (bucket_count m t - u64 (i + 1))) with O; [reflexivity |].
  destruct Hout as [Hneg | Hbig].
  - unfold u64. replace (i + 1) with ((i + 1 + 2 ^ 64) + (-1) * 2 ^ 64) by lia.
    rewrite Z.mod_add by lia. rewrite Z.mod_small by lia. lia.
  - rewrite u64_small by lia. lia.
Qed.

Lemma hash_field m t x :
  layout m t -> 0 <= x < bucket_count m t ->
  load64 m (ht_bucket m t x) = b_hash (slot m t x).
Proof. intros L Hx. rewrite (ht_bucket_slot' m t x L Hx). reflexivity. Qed.

Lemma key_field m t x :
  layout m t -> 0 <= x < bucket_count m t ->
  load64 m (ht_bucket m t x + 8) = b_keyptr (slot m t x).
Proof. intros L Hx. rewrite (ht_bucket_slot' m t x L Hx). reflexivity. Qed.

(** ** Tables built by insertions, further *)

(** X7 -- A new table is empty.  In any arena, [ht_init] returns (unless
    the file cannot grow) a table of two buckets of 16 bytes plus the
    requested payload size, with [filled] and [max_dist] 0; [ht_next] finds
    no bucket in it, [ht_lookup] returns -1 for every string, and the bytes
    that were allocated before are unchanged. *)
Theorem ht_init_empty cap mmap m vs :
  cap <= 2 ^ 47 -> arena_ok cap m -> 0 <= vs <= 2 ^ 30 - 16 ->
  returns (ht_init cap mmap m vs) (fun '(t, m') =>
    header_ptr t = next_free m + 16 /\
    bucket_count m' t = 2 /\ bucket_size m' t = 16 + vs /\
    filled m' t = 0 /\ max_dist m' t = 0 /\
    ht_next m' t (-1) = -1 /\ ht_foreach m' t = [] /\
    (forall k, ht_lookup m' t k = Done (-1)) /\
    (forall x, used m x -> peek m' (MEMPTR m' x) = peek m (MEMPTR m x))).
Proof.
  intros Hc A Hvs. assert (Hc' : cap < 2 ^ 62) by lia.
  eapply returns_weaken; [apply (ht_init_spec cap mmap m vs Hc' A Hvs) |].
  intros [t m'] (Hh & A' & H' & B & S & F & M & E & U & K & T).
  pose proof (ht_ok_layout m' t H') as L.
  assert (Hemp : forall x, 0 <= x < bucket_count m' t -> ~ occupied (slot m' t x)).
  { intros x Hx Ho.
    assert (Hin : In (slot m' t x) (entries m' t))
      by (apply in_entries; exists x; split; [exact Hx | split; [reflexivity | exact Ho]]).
    rewrite E in Hin. destruct Hin. }
  do 5 (split; [assumption |]). split; [| split; [| split]].
  - assert (Hr : -1 <= -1 < bucket_count m' t) by lia.
    destruct (ht_next_spec m' t (-1) L Hr) as [(En & _) | (Hj & Ho & _)];
      [exact En | exfalso; apply (Hemp (ht_next m' t (-1))); [lia | exact Ho]].
  - destruct (ht_foreach m' t) as [| i l] eqn:Ef; [reflexivity | exfalso].
    assert (Hi : In i (ht_foreach m' t)) by (rewrite Ef; left; reflexivity).
    apply (in_ht_foreach m' t i L) in Hi. apply (Hemp i); apply Hi.
  - intros k. destruct (ht_lookup_total m' t k H') as (r & Er & [-> | Hf]); [exact Er |].
    exfalso. pose proof (found_entry m' t k r Hf) as Hin. rewrite E in Hin. destruct Hin.
  - intros x Hx. rewrite !peek_MEMPTR. apply K, Hx.
Qed.

Lemma ht_init_empty_witness :
  (cap47 <= 2 ^ 47 /\ arena_ok cap47 arena_block /\ 0 <= 8 <= 2 ^ 30 - 16) /\
  is_done (ht_init cap47 mmap_moving arena_block 8) = true /\
  returns (ht_init cap47 mmap_moving arena_block 8) (fun '(t, m') =>
    header_ptr t = next_free arena_block + 16 /\
    bucket_count m' t = 2 /\ bucket_size m' t = 16 + 8 /\
    filled m' t = 0 /\ max_dist m' t = 0 /\
    ht_next m' t (-1) = -1 /\ ht_foreach m' t = [] /\
    (forall k, ht_lookup m' t k = Done (-1)) /\
    (forall x, used arena_block x ->
       peek m' (MEMPTR m' x) = peek arena_block (MEMPTR arena_block x))).
Proof.
  assert (H1 : cap47 <= 2 ^ 47) by by_evaluation.
  assert (H2 : arena_ok cap47 arena_block) by by_evaluation.
  assert (H3 : 0 <= 8 <= 2 ^ 30 - 16) by lia.
  split; [exact (conj H1 (conj H2 H3)) |].
  split; [vm_compute; reflexivity |].
  exact (ht_init_empty cap47 mmap_moving arena_block 8 H1 H2 H3).
Defined.

(** X8 -- Lookup decides membership.  In a table built by insertions,
    [ht_lookup] of a key returns the index of a bucket that holds the key
    if the key was inserted, and -1 if it was not. *)
Theorem lookup_decides_membership cap mmap disk isz vs keys :
  cap <= 2 ^ 47 -> 48 <= isz -> 0 <= vs <= 2 ^ 30 - 16 ->
  Forall is_key keys -> Z.of_nat (length keys) < 2 ^ 28 ->
  returns (table_of cap mmap disk isz vs keys) (fun '(t, m) =>
    forall k, is_key k ->
      exists r, ht_lookup m t k = Done r /\
        ((In k keys /\ 0 <= r < bucket_count m t /\
          strcmp_eq m k (load64 m (ht_bucket m t r + 8)) = true) \/
         (~ In k keys /\ r = -1))).
Proof.
  intros Hc Hisz Hvs Hk Hn. assert (Hc' : cap < 2 ^ 62) by lia.
  eapply returns_weaken;
    [apply (table_of_keyed cap mmap disk isz vs keys); try assumption |].
  intros [t m] (A & H & F & S & K) k Hkk. pose proof (ht_ok_layout m t H) as L.
  destruct (ht_lookup_total m t k H) as (r & Er & Hr). exists r. split; [exact Er |].
  destruct Hr as [-> | Hf].
  - right. split; [| reflexivity]. intros Hin.
    apply (keyed_stored m t keys k H K Hkk) in Hin.
    destruct (stored_lookup m t k H Hin) as (p & Ep & Hp & _).
    rewrite Er in Ep. injection Ep as <-. lia.
  - left. split; [apply (keyed_stored m t keys k H K Hkk); exists r; exact Hf |].
    destruct Hf as (Hr & _ & Hs). split; [exact Hr |].
    rewrite (key_field m t r L Hr). apply strcmp_eq_true. exact Hs.
Qed.

Lemma lookup_decides_membership_witness :
  (cap47 <= 2 ^ 47 /\ 48 <= 420 /\ 0 <= 0 <= 2 ^ 30 - 16 /\
   Forall is_key three_keys /\ Z.of_nat (length three_keys) < 2 ^ 28) /\
  is_done (table_of cap47 mmap_moving blank_disk 420 0 three_keys) = true /\
  returns (table_of cap47 mmap_moving blank_disk 420 0 three_keys) (fun '(t, m) =>
    forall k, is_key k ->
      exists r, ht_lookup m t k = Done r /\
        ((In k three_keys /\ 0 <= r < bucket_count m t /\
          strcmp_eq m k (load64 m (ht_bucket m t r + 8)) = true) \/
         (~ In k three_keys /\ r = -1))).
Proof.
  assert (H1 : cap47 <= 2 ^ 47) by by_evaluation.
  assert (H2 : 48 <= 420) by lia.
  assert (H3 : 0 <= 0 <= 2 ^ 30 - 16) by lia.
  assert (H4 : Z.of_nat (length three_keys) < 2 ^ 28) by (cbn; lia).
  split; [exact (conj H1 (conj H2 (conj H3 (conj three_keys_are_keys H4)))) |].
  split; [vm_compute; reflexivity |].
  exact (lookup_decides_membership cap47 mmap_moving blank_disk 420 0 three_keys
           H1 H2 H3 three_keys_are_keys H4).
Defined.

(** X9 -- [ht_next].  In a table built by insertions, [ht_next] of an
    index [i] from -1 on returns the first index after [i] whose bucket is
    occupied, and -1 when there is none; for [i] below -1, and from the last
    index on, it returns -1. *)
Theorem ht_next_first_occupied cap mmap disk isz vs keys :
  cap <= 2 ^ 47 -> 48 <= isz -> 0 <= vs <= 2 ^ 30 - 16 ->
  Forall is_key keys -> Z.of_nat (length keys) < 2 ^ 28 ->
  returns (table_of cap mmap disk isz vs keys) (fun '(t, m) =>
    (forall i, -1 <= i < bucket_count m t ->
       let j := ht_next m t i in
       (j = -1 /\
        forall x, i < x < bucket_count m t -> load64 m (ht_bucket m t x) = 0) \/
       (i < j < bucket_count m t /\ load64 m (ht_bucket m t j) <> 0 /\
        forall x, i < x < j -> load64 m (ht_bucket m t x) = 0)) /\
    (forall i, - 2 ^ 31 <= i < 2 ^ 31 - 1 ->
       i < -1 \/ bucket_count m t - 1 <= i -> ht_next m t i = -1)).
Proof.
  intros Hc Hisz Hvs Hk Hn. assert (Hc' : cap < 2 ^ 62) by lia.
  eapply returns_weaken;
    [apply (table_of_spec cap mmap disk isz vs keys); try assumption |].
  intros [t m] (A & H & _). pose proof (ht_ok_layout m t H) as L.
  assert (Hz : forall x, 0 <= x < bucket_count m t -> ~ occupied (slot m t x) ->
                 load64 m (ht_bucket m t x) = 0).
  { intros x Hx Ho. rewrite (hash_field m t x L Hx).
    destruct (Z.eq_dec (b_hash (slot m t x)) 0) as [E | N]; [exact E | contradiction]. }
  split; [| intros i Hi Hout; apply ht_next_outside; assumption].
  intros i Hi. cbv zeta.
  destruct (ht_next_spec m t i L Hi) as [(E & Hall) | (Hj & Ho & Hall)].
  - left. split; [exact E |]. intros x Hx. apply Hz; [lia | apply Hall; exact Hx].
  - right. split; [exact Hj |]. split.
    + assert (Hj0 : 0 <= ht_next m t i < bucket_count m t) by lia.
      rewrite (hash_field m t _ L Hj0). exact Ho.
    + intros x Hx. apply Hz; [lia | apply Hall; exact Hx].
Qed.

Lemma ht_next_first_occupied_witness :
  (cap47 <= 2 ^ 47 /\ 48 <= 420 /\ 0 <= 0 <= 2 ^ 30 - 16 /\
   Forall is_key three_keys /\ Z.of_nat (length three_keys) < 2 ^ 28) /\
  is_done (table_of cap47 mmap_moving blank_disk 420 0 three_keys) = true /\
  returns (table_of cap47 mmap_moving blank_disk 420 0 three_keys) (fun '(t, m) =>
    (forall i, -1 <= i < bucket_count m t ->
       let j := ht_next m t i in
       (j = -1 /\
        forall x, i < x < bucket_count m t -> load64 m (ht_bucket m t x) = 0) \/
       (i < j < bucket_count m t /\ load64 m (ht_bucket m t j) <> 0 /\
        forall x, i < x < j -> load64 m (ht_bucket m t x) = 0)) /\
    (forall i, - 2 ^ 31 <= i < 2 ^ 31 - 1 ->
       i < -1 \/ bucket_count m t - 1 <= i -> ht_next m t i = -1)).
Proof.
  assert (H1 : cap47 <= 2 ^ 47) by by_evaluation.
  assert (H2 : 48 <= 420) by lia.
  assert (H3 : 0 <= 0 <= 2 ^ 30 - 16) by lia.
  assert (H4 : Z.of_nat (length three_keys) < 2 ^ 28) by (cbn; lia).
  split; [exact (conj H1 (conj H2 (conj H3 (conj three_keys_are_keys H4)))) |].
  split; [vm_compute; reflexivity |].
  exact (ht_next_first_occupied cap47 mmap_moving blank_disk 420 0 three_keys
           H1 H2 H3 three_keys_are_keys H4).
Defined.

(** X10 -- The enumeration is exact.  In a table built by insertions,
    [HTFOREACH] visits the indices of the occupied buckets, all of them,
    once each and in ascending order, and the keys that [HTFOREACH_KEY]
    designates on the way are the keys that were inserted, each as often
    as it was inserted (in an order of their own). *)
Theorem enumeration_exact cap mmap disk isz vs keys :
  cap <= 2 ^ 47 -> 48 <= isz -> 0 <= vs <= 2 ^ 30 - 16 ->
  Forall is_key keys -> Z.of_nat (length keys) < 2 ^ 28 ->
  returns (table_of cap mmap disk isz vs keys) (fun '(t, m) =>
    StronglySorted Z.lt (ht_foreach m t) /\
    (forall i, In i (ht_foreach m t) <->
       0 <= i < bucket_count m t /\ load64 m (ht_bucket m t i) <> 0) /\
    exists ks, Permutation ks keys /\
      Forall2 (fun i s => cstr_at m (load64 m (ht_bucket m t i + 8)) s)
              (ht_foreach m t) ks).
Proof.
  intros Hc Hisz Hvs Hk Hn. assert (Hc' : cap < 2 ^ 62) by lia.
  eapply returns_weaken;
    [apply (table_of_keyed cap mmap disk isz vs keys); try assumption |].
  intros [t m] (A & H & F & S & K). pose proof (ht_ok_layout m t H) as L.
  split; [| split].
  - rewrite (ht_foreach_spec m t L). apply occupied_from_sorted.
  - intros i. rewrite (in_ht_foreach m t i L). split.
    + intros (Hi & Ho). split; [exact Hi |]. rewrite (hash_field m t i L Hi). exact Ho.
    + intros (Hi & Ho). split; [exact Hi |]. rewrite (hash_field m t i L Hi) in Ho. exact Ho.
  - destruct (keyed_indices m t keys H K) as (ks & Pk & F2).
    exists ks. split; [exact Pk |].
    apply (Forall2_impl_in (fun i s => key_of m (slot m t i) s)); [exact F2 |].
    intros i s Hin (_ & Hs). apply (in_ht_foreach m t i L) in Hin.
    rewrite (key_field m t i L (proj1 Hin)). exact Hs.
Qed.

Lemma enumeration_exact_witness :
  (cap47 <= 2 ^ 47 /\ 48 <= 420 /\ 0 <= 0 <= 2 ^ 30 - 16 /\
   Forall is_key three_keys /\ Z.of_nat (length three_keys) < 2 ^ 28) /\
  is_done (table_of cap47 mmap_moving blank_disk 420 0 three_keys) = true /\
  returns (table_of cap47 mmap_moving blank_disk 420 0 three_keys) (fun '(t, m) =>
    StronglySorted Z.lt (ht_foreach m t) /\
    (forall i, In i (ht_foreach m t) <->
       0 <= i < bucket_count m t /\ load64 m (ht_bucket m t i) <> 0) /\
    exists ks, Permutation ks three_keys /\
      Forall2 (fun i s => cstr_at m (load64 m (ht_bucket m t i + 8)) s)
              (ht_foreach m t) ks).
Proof.
  assert (H1 : cap47 <= 2 ^ 47) by by_evaluation.
  assert (H2 : 48 <= 420) by lia.
  assert (H3 : 0 <= 0 <= 2 ^ 30 - 16) by lia.
  assert (H4 : Z.of_nat (length three_keys) < 2 ^ 28) by (cbn; lia).
  split; [exact (conj H1 (conj H2 (conj H3 (conj three_keys_are_keys H4)))) |].
  split; [vm_compute; reflexivity |].
  exact (enumeration_exact cap47 mmap_moving blank_disk 420 0 three_keys
           H1 H2 H3 three_keys_are_keys H4).
Defined.

Lemma count_occ_absent keys k :
  ~ In k keys -> (count_occ cstring_eq_dec (k :: keys) k <= 1)%nat.
Proof.
  intros Hn. cbn [count_occ]. destruct (cstring_eq_dec k k) as [_ | N]; [| contradiction].
  rewrite (proj1 (count_occ_not_In cstring_eq_dec keys k) Hn). lia.
Qed.

(** X11 -- Inserting a key that is new.  When a key that was not
    inserted before is inserted into a table built by insertions,
    [ht_insert_str] returns the index at which [ht_lookup] finds the key
    afterwards; the payload of that bucket is all zeros, and [filled] has
    grown by one. *)
Theorem insert_new_key cap mmap disk isz vs keys k :
  cap <= 2 ^ 47 -> 48 <= isz -> 0 <= vs <= 2 ^ 30 - 16 ->
  Forall is_key keys -> Z.of_nat (length keys) + 1 < 2 ^ 28 ->
  is_key k -> ~ In k keys ->
  returns (table_of cap mmap disk isz vs keys) (fun '(t, m) =>
    returns (ht_insert_str cap mmap m t k) (fun '(r, m') =>
      ht_lookup m' t k = Done r /\ 0 <= r < bucket_count m' t /\
      load_bytes m' (ht_value m' t r) (Z.to_nat vs) = repeat 0 (Z.to_nat vs) /\
      filled m' t = Z.of_nat (length keys) + 1)).
Proof.
  intros Hc Hisz Hvs Hk Hn Hkk Hnew. assert (Hc' : cap < 2 ^ 62) by lia.
  eapply returns_weaken;
    [apply (table_of_keyed cap mmap disk isz vs keys); try assumption; lia |].
  intros [t m] (A & H & F & S & K).
  eapply returns_weaken;
    [apply (ht_insert_str_grows cap mmap m t k Hc' A H ltac:(lia) Hkk) |].
  intros [r m'] (A' & H' & S' & F' & Hr & (kp & Hfr & Hs & Hsl & P) & G).
  pose proof (ht_ok_layout m' t H') as L'.
  assert (K' : keyed m' t (k :: keys)).
  { apply (keyed_insert m m' t (new_bucket m t k kp)); assumption. }
  assert (Hfr' : found m' t k r).
  { split; [exact Hr |]. rewrite Hsl. cbn [new_bucket b_hash b_keyptr].
    split; [reflexivity | exact Hs]. }
  destruct (stored_lookup m' t k H' (ex_intro _ r Hfr')) as (p & Ep & Hp).
  assert (p = r).
  { apply (found_index_unique m' t (k :: keys) k p r H' K' Hkk); try assumption.
    apply count_occ_absent. exact Hnew. }
  subst p. split; [exact Ep |]. split; [exact Hr |]. split; [| lia].
  rewrite (ht_value_slot m' t r L' Hr).
  assert (Ev : b_value (slot m' t r) = repeat 0 (Z.to_nat vs)).
  { rewrite Hsl. cbn [new_bucket b_value]. rewrite S. unfold sizeof_hash_bucket.
    f_equal. lia. }
  rewrite <- Ev. unfold slot, read_bucket. cbn [b_value]. rewrite S', S.
  f_equal. lia.
Qed.

Lemma insert_new_key_witness :
  (cap47 <= 2 ^ 47 /\ 48 <= 420 /\ 0 <= 8 <= 2 ^ 30 - 16 /\
   Forall is_key three_keys /\ Z.of_nat (length three_keys) + 1 < 2 ^ 28 /\
   is_key key3 /\ ~ In key3 three_keys) /\
  is_done ('(t, m) <- table_of cap47 mmap_moving blank_disk 420 8 three_keys ;;
           ht_insert_str cap47 mmap_moving m t key3) = true /\
  returns (table_of cap47 mmap_moving blank_disk 420 8 three_keys) (fun '(t, m) =>
    returns (ht_insert_str cap47 mmap_moving m t key3) (fun '(r, m') =>
      ht_lookup m' t key3 = Done r /\ 0 <= r < bucket_count m' t /\
      load_bytes m' (ht_value m' t r) (Z.to_nat 8) = repeat 0 (Z.to_nat 8) /\
      filled m' t = Z.of_nat (length three_keys) + 1)).
Proof.
  assert (H1 : cap47 <= 2 ^ 47) by by_evaluation.
  assert (H2 : 48 <= 420) by lia.
  assert (H3 : 0 <= 8 <= 2 ^ 30 - 16) by lia.
  assert (H4 : Z.of_nat (length three_keys) + 1 < 2 ^ 28) by (cbn; lia).
  assert (H5 : is_key key3) by (split; [repeat constructor; unfold is_char; lia | cbn; lia]).
  assert (H6 : ~ In key3 three_keys) by (cbn; intuition discriminate).
  split; [exact (conj H1 (conj H2 (conj H3 (conj three_keys_are_keys (conj H4 (conj H5 H6)))))) |].
  split; [vm_compute; reflexivity |].
  exact (insert_new_key cap47 mmap_moving blank_disk 420 8 three_keys key3
           H1 H2 H3 three_keys_are_keys H4 H5 H6).
Defined.

(** X12 -- [ht_check].  The assertion of [ht_check] (the enumeration
    counts as many buckets as the header says are filled) holds for every
    table built by insertions, whether or not keys were repeated. *)
Theorem ht_check_passes cap mmap disk isz vs keys :
  cap <= 2 ^ 47 -> 48 <= isz -> 0 <= vs <= 2 ^ 30 - 16 ->
  Forall is_key keys -> Z.of_nat (length keys) < 2 ^ 28 ->
  returns (table_of cap mmap disk isz vs keys) (fun '(t, m) =>
    ht_check m t = true /\ filled m t = Z.of_nat (length keys)).
Proof.
  intros Hc Hisz Hvs Hk Hn. assert (Hc' : cap < 2 ^ 62) by lia.
  eapply returns_weaken;
    [apply (table_of_spec cap mmap disk isz vs keys); try assumption |].
  intros [t m] (A & H & F & _). split; [| exact F].
  unfold ht_check. rewrite (length_ht_foreach m t H).
  rewrite u64_small by (rewrite F; lia). apply Z.eqb_refl.
Qed.

Lemma ht_check_passes_witness :
  (cap47 <= 2 ^ 47 /\ 48 <= 420 /\ 0 <= 0 <= 2 ^ 30 - 16 /\
   Forall is_key [key0; key0; key1] /\ Z.of_nat (length [key0; key0; key1]) < 2 ^ 28) /\
  is_done (table_of cap47 mmap_moving blank_disk 420 0 [key0; key0; key1]) = true /\
  returns (table_of cap47 mmap_moving blank_disk 420 0 [key0; key0; key1]) (fun '(t, m) =>
    ht_check m t = true /\ filled m t = Z.of_nat (length [key0; key0; key1])).
Proof.
  assert (H1 : cap47 <= 2 ^ 47) by by_evaluation.
  assert (H2 : 48 <= 420) by lia.
  assert (H3 : 0 <= 0 <= 2 ^ 30 - 16) by lia.
  assert (H4 : Forall is_key [key0; key0; key1])
    by (repeat constructor; unfold is_char, strlen; cbn; lia).
  assert (H5 : Z.of_nat (length [key0; key0; key1]) < 2 ^ 28) by (cbn; lia).
  split; [exact (conj H1 (conj H2 (conj H3 (conj H4 H5)))) |].
  split; [vm_compute; reflexivity |].
  exact (ht_check_passes cap47 mmap_moving blank_disk 420 0 [key0; key0; key1]
           H1 H2 H3 H4 H5).
Defined.

(** ** Payloads of a table *)

(** Writing into the payload of an occupied bucket. *)
Lemma payload_write cap m m' t r :
  ht_ok m t -> arena_ok cap m ->
  0 <= r < bucket_count m t -> occupied (slot m t r) ->
  (forall x,
     ~ (slot_pos m t r + sizeof_hash_bucket <= x < slot_pos m t r + bucket_size m t) ->
     load8 m' x = load8 m x) ->
  ht_ok m' t /\ arena_ok cap m' /\ grows_in m m' t /\
  bucket_count m' t = bucket_count m t /\ bucket_size m' t = bucket_size m t /\
  filled m' t = filled m t /\ buckets_ptr m' t = buckets_ptr m t /\
  b_hash (slot m' t r) = b_hash (slot m t r) /\
  b_keyptr (slot m' t r) = b_keyptr (slot m t r) /\
  Permutation (slot m t r :: entries m' t) (slot m' t r :: entries m t) /\
  (forall i, 0 <= i < bucket_count m t -> i <> r -> slot m' t i = slot m t i).
Proof.
  intros H A Hr Ho F. pose proof (ht_ok_layout m t H) as L.
  destruct (payload_change cap m m' t r H A Hr F)
    as (H' & A' & U & E1 & E2 & E3 & E4 & E5 & S & Eh & Ek).
  pose proof (layout_bc m t L) as Hbc. pose proof L as (_ & Hbs & _).
  unfold sizeof_hash_bucket in *.
  pose proof (slot_bounds _ (bucket_size m t) r Hr ltac:(lia)) as Hrb.
  assert (Fk : forall x, used m x -> ~ table_bytes m t x -> load8 m' x = load8 m x).
  { intros x _ Tx. apply F. intros Hp. apply Tx. right. unfold slot_pos in Hp. lia. }
  assert (T : forall x, table_bytes m' t x <-> table_bytes m t x)
    by (intros x; apply table_bytes_ext; assumption).
  assert (K : forall x, key_bytes m' t x <-> key_bytes m t x).
  { apply key_bytes_kept; try assumption.
    - intros i Hi. destruct (Z.eq_dec i r) as [-> | N]; [split; assumption |].
      rewrite (S i Hi N). split; reflexivity.
    - intros x (i & s & Hi & Hoi & Hk & Hs & Hx).
      destruct (ok_keys m t H i Hi Hoi) as (s0 & Hk0 & Hs0 & _ & Hu).
      assert (s0 = s) by (eapply cstr_at_inj; try eassumption; [apply Hk0 | apply Hk]).
      subst s0. destruct (Hu x Hx). apply Fk; assumption. }
  split; [exact H' |]. split; [exact A' |]. split.
  { constructor.
    - intros x; apply U.
    - exact Fk.
    - intros x Hx; left; apply T; exact Hx.
    - intros x [Hx | Hx]; left; [left; apply T | right; apply K]; exact Hx. }
  do 6 (split; [assumption |]). split; [| exact S].
  unfold entries. rewrite E1.
  assert (P : placed (bucket_count m t) (slot m t) (slot m' t) r (slot m' t r)).
  { split; [reflexivity |]. intros i Hi N. apply S; assumption. }
  apply (placed_entries _ _ _ _ _ Hr) in P; [| unfold occupied; rewrite Eh; exact Ho].
  rewrite (occ_occupied _ Ho) in P. exact P.
Qed.

Lemma keyed_payload_write m m' t r keys :
  ht_ok m t -> grows_in m m' t ->
  0 <= r < bucket_count m t -> occupied (slot m t r) ->
  b_keyptr (slot m' t r) = b_keyptr (slot m t r) ->
  Permutation (slot m t r :: entries m' t) (slot m' t r :: entries m t) ->
  keyed m t keys -> keyed m' t keys.
Proof.
  intros H G Hr Ho Ek P (ks & Pk & F).
  assert (Hb : In (slot m t r) (entries m t))
    by (apply in_entries; exists r; split; [exact Hr | split; [reflexivity | exact Ho]]).
  destruct (entry_key m t _ H Hb) as (s & Hks & Hs).
  assert (Ks : key_of m' (slot m t r) s)
    by (split; [exact Hks | apply (own_key_kept m m' t _ s H G Hb Hks Hs)]).
  assert (F1 : Forall2 (key_of m') (slot m' t r :: entries m t) (s :: ks)).
  { constructor.
    - split; [exact Hks |]. rewrite Ek. apply Ks.
    - apply (Forall2_impl_in (key_of m)); [exact F |].
      intros b s' Hb' (Hks' & Hbs'). split; [exact Hks' |].
      apply (own_key_kept m m' t b s' H G Hb' Hks' Hbs'). }
  destruct (Permutation_Forall2 (Permutation_sym P) F1) as (ks2 & P2 & F2).
  inversion F2 as [| b s2 l ks3 K2 F3]; subst.
  rewrite <- (key_of_inj m' _ s s2 Ks K2) in P2.
  exists ks3. split; [| exact F3].
  apply (Permutation_trans (Permutation_sym (Permutation_cons_inv P2)) Pk).
Qed.

(** Two entries with the key [k] are one, when [k] was inserted once. *)
Lemma entry_unique m t keys k b1 b2 :
  keyed m t keys -> (count_occ cstring_eq_dec keys k <= 1)%nat ->
  In b1 (entries m t) -> In b2 (entries m t) ->
  key_of m b1 k -> key_of m b2 k -> b1 = b2.
Proof.
  intros (ks & Pk & F) Hc H1 H2 K1 K2.
  apply (Forall2_unique (key_of m) (entries m t) ks k F); try assumption.
  - intros a s s'. apply key_of_inj.
  - rewrite (Permutation_count_occ cstring_eq_dec ks keys) in Pk. rewrite Pk. exact Hc.
Qed.

Lemma NoDup_count_le (l : list cstring) k :
  NoDup l -> (count_occ cstring_eq_dec l k <= 1)%nat.
Proof. intros H. apply (proj1 (NoDup_count_occ cstring_eq_dec l) H). Qed.

(** X13 -- Payloads outlive insertions.  Let a table be built from
    pairwise distinct keys, let the payload of the bucket that [ht_lookup]
    finds for one of them be overwritten with bytes of the client (as many
    as [ht_init] reserved), and let further keys be inserted, different
    from all the others.  Whatever moves of buckets, rehashes and remaps
    these insertions cause, [ht_lookup] then finds the key in a bucket
    whose payload holds the bytes of the client, and it finds all the other
    keys as well. *)
Theorem payload_survives cap mmap disk isz vs keys more k data :
  cap <= 2 ^ 47 -> 48 <= isz -> 0 <= vs <= 2 ^ 30 - 16 ->
  Forall is_key (keys ++ more) -> NoDup (keys ++ more) ->
  Z.of_nat (length (keys ++ more)) < 2 ^ 28 ->
  In k keys -> Forall is_byte data -> Z.of_nat (length data) = vs ->
  returns (table_of cap mmap disk isz vs keys) (fun '(t, m) =>
    exists p, ht_lookup m t k = Done p /\ 0 <= p < bucket_count m t /\
      returns (insert_all cap mmap (store_bytes m (ht_value m t p) data) t more)
        (fun m' =>
           (exists p', ht_lookup m' t k = Done p' /\ 0 <= p' < bucket_count m' t /\
              load_bytes m' (ht_value m' t p') (length data) = data) /\
           (forall k', In k' (keys ++ more) ->
              exists q, ht_lookup m' t k' = Done q /\ 0 <= q < bucket_count m' t))).
Proof.
  intros Hc Hisz Hvs Hk Hnd Hn Hin Hdata Hlen. assert (Hc' : cap < 2 ^ 62) by lia.
  apply Forall_app in Hk. destruct Hk as (Hk1 & Hk2).
  rewrite length_app, Nat2Z.inj_add in Hn.
  assert (Hkk : is_key k) by (rewrite Forall_forall in Hk1; apply Hk1, Hin).
  eapply returns_weaken;
    [apply (table_of_keyed cap mmap disk isz vs keys); try assumption; lia |].
  intros [t m] (A & H & F & S & K). pose proof (ht_ok_layout m t H) as L.
  destruct (stored_lookup m t k H (proj2 (keyed_stored m t keys k H K Hkk) Hin))
    as (p & Ep & Hf).
  pose proof Hf as (Hp & Hh & Hs).
  exists p. split; [exact Ep |]. split; [exact Hp |].
  assert (Ho : occupied (slot m t p)) by (unfold occupied; rewrite Hh; apply hash_nonzero).
  set (m1 := store_bytes m (ht_value m t p) data).
  assert (Fr : forall x,
    ~ (slot_pos m t p + sizeof_hash_bucket <= x < slot_pos m t p + bucket_size m t) ->
    load8 m1 x = load8 m x).
  { intros x Hx. unfold m1. rewrite (ht_value_slot m t p L Hp).
    apply load8_store_bytes_other. unfold sizeof_hash_bucket in Hx. lia. }
  destruct (payload_write cap m m1 t p H A Hp Ho Fr)
    as (H1 & A1 & G1 & E1 & E2 & E3 & E5 & Eh & Ek & P1 & S1).
  assert (K1 : keyed m1 t keys)
    by (apply (keyed_payload_write m m1 t p keys); assumption).
  assert (Ev : b_value (slot m1 t p) = data).
  { unfold slot, read_bucket. cbn [b_value]. rewrite E2, S.
    replace (Z.to_nat (16 + vs - 16)) with (length data) by lia.
    unfold slot_pos. rewrite E5, E2. fold (slot_pos m t p).
    unfold m1. rewrite (ht_value_slot m t p L Hp).
    apply load_bytes_store_bytes. exact Hdata. }
  assert (Hb1 : In (slot m1 t p) (entries m1 t)).
  { apply in_entries. exists p. split; [rewrite E1; exact Hp |].
    split; [reflexivity |]. unfold occupied. rewrite Eh. exact Ho. }
  assert (Kb1 : key_of m1 (slot m1 t p) k).
  { split; [exact Hkk |]. rewrite Ek.
    apply (own_key_kept m m1 t (slot m t p) k H G1); try assumption.
    apply (found_entry m t k p Hf). }
  eapply returns_weaken;
    [apply (insert_all_keyed cap mmap more m1 t keys Hc' A1 H1); try assumption; lia |].
  intros m' (A' & H' & F' & S' & K' & Hold & Kf). pose proof (ht_ok_layout m' t H') as L'.
  assert (Kall : keyed m' t (keys ++ more)).
  { apply (keyed_perm m' t (more ++ keys)); [apply Permutation_app_comm | exact K']. }
  split.
  - assert (Hst : stored m' t k).
    { apply (stored_entry m' t k H' Hkk). exists (slot m1 t p).
      split; [apply Hold, Hb1 | apply Kf; assumption]. }
    destruct (stored_lookup m' t k H' Hst) as (p' & Ep' & Hf').
    pose proof Hf' as (Hp' & _ & Hs').
    exists p'. split; [exact Ep' |]. split; [exact Hp' |].
    assert (Es : slot m' t p' = slot m1 t p).
    { apply (entry_unique m' t (keys ++ more) k); try assumption.
      - apply NoDup_count_le. exact Hnd.
      - apply (found_entry m' t k p' Hf').
      - apply Hold, Hb1.
      - split; assumption.
      - apply Kf; assumption. }
    rewrite <- Ev at 2. rewrite <- Es.
    rewrite (ht_value_slot m' t p' L' Hp'). unfold slot, read_bucket. cbn [b_value].
    rewrite S', E2, S. f_equal. lia.
  - intros k' Hin'.
    assert (Hkk' : is_key k').
    { apply in_app_or in Hin'. rewrite Forall_forall in Hk1, Hk2.
      destruct Hin'; [apply Hk1 | apply Hk2]; assumption. }
    destruct (stored_lookup m' t k' H' (proj2 (keyed_stored m' t _ k' H' Kall Hkk') Hin'))
      as (q & Eq & Hq & _).
    exists q. split; assumption.
Qed.

Definition four_keys : list cstring := three_keys ++ [key3].
Definition client_bytes : list Z := [1; 2; 3; 4; 5; 6; 7; 255].

Lemma four_keys_are_keys : Forall is_key four_keys.
Proof. repeat constructor; unfold is_char, strlen; cbn; lia. Defined.

Lemma four_keys_distinct : NoDup four_keys.
Proof. repeat constructor; cbn; intuition discriminate. Defined.

Lemma payload_survives_witness :
  (cap47 <= 2 ^ 47 /\ 48 <= 420 /\ 0 <= 8 <= 2 ^ 30 - 16 /\
   Forall is_key (three_keys ++ [key3]) /\ NoDup (three_keys ++ [key3]) /\
   Z.of_nat (length (three_keys ++ [key3])) < 2 ^ 28 /\
   In key1 three_keys /\ Forall is_byte client_bytes /\
   Z.of_nat (length client_bytes) = 8) /\
  is_done ('(t, m) <- table_of cap47 mmap_moving blank_disk 420 8 three_keys ;;
           p <- ht_lookup m t key1 ;;
           insert_all cap47 mmap_moving
             (store_bytes m (ht_value m t p) client_bytes) t [key3]) = true /\
  returns (table_of cap47 mmap_moving blank_disk 420 8 three_keys) (fun '(t, m) =>
    exists p, ht_lookup m t key1 = Done p /\ 0 <= p < bucket_count m t /\
      returns (insert_all cap47 mmap_moving
                 (store_bytes m (ht_value m t p) client_bytes) t [key3])
        (fun m' =>
           (exists p', ht_lookup m' t key1 = Done p' /\ 0 <= p' < bucket_count m' t /\
              load_bytes m' (ht_value m' t p') (length client_bytes) = client_bytes) /\
           (forall k', In k' (three_keys ++ [key3]) ->
              exists q, ht_lookup m' t k' = Done q /\ 0 <= q < bucket_count m' t))).
Proof.
  assert (H1 : cap47 <= 2 ^ 47) by by_evaluation.
  assert (H2 : 48 <= 420) by lia.
  assert (H3 : 0 <= 8 <= 2 ^ 30 - 16) by lia.
  assert (H4 : Z.of_nat (length (three_keys ++ [key3])) < 2 ^ 28) by (cbn; lia).
  assert (H5 : In key1 three_keys) by (right; left; reflexivity).
  assert (H6 : Forall is_byte client_bytes) by (repeat constructor; unfold is_byte; lia).
  assert (H7 : Z.of_nat (length client_bytes) = 8) by reflexivity.
  split; [exact (conj H1 (conj H2 (conj H3 (conj four_keys_are_keys
            (conj four_keys_distinct (conj H4 (conj H5 (conj H6 H7)))))))) |].
  split; [vm_compute; reflexivity |].
  exact (payload_survives cap47 mmap_moving blank_disk 420 8 three_keys [key3] key1
           client_bytes H1 H2 H3 four_keys_are_keys four_keys_distinct H4 H5 H6 H7).
Defined.

(** ** The size of the bucket array *)

Lemma returns_conj {A : Type} (c : outcome A) (P Q : A -> Prop) :
  returns c P -> returns c Q -> returns c (fun a => P a /\ Q a).
Proof. destruct c; cbn; auto. Qed.

(** The threshold of [ht_insert_intern] for a table of [bc] buckets. *)
Definition threshold (bc : Z) : Z := Z.min (9 * bc / 10) (bc - 1).

(** The bucket array doubles exactly when [filled] has reached the
    threshold. *)
Lemma ht_insert_intern_bc cap mmap d m t kp s :
  cap < 2 ^ 62 -> arena_ok cap m -> ht_ok m t -> filled m t < 2 ^ 28 ->
  is_key s -> cstr_at m kp s ->
  (forall x, kp <= x < kp + strlen s + 1 -> used m x /\ ~ table_bytes m t x) ->
  returns (ht_insert_intern cap mmap (S d) m t kp) (fun '(r, m') =>
    bucket_count m' t =
    if filled m t <? threshold (bucket_count m t)
    then bucket_count m t else 2 * bucket_count m t).
Proof.
  intros Hc A H Hf Hkey Hs Hku. unfold threshold.
  pose proof (ht_ok_layout m t H) as L. pose proof (layout_bc m t L) as Hbc.
  destruct (Z.ltb_spec (filled m t)
              (Z.min (9 * bucket_count m t / 10) (bucket_count m t - 1)))
    as [Hroom | Hfull].
  - destruct (ht_insert_intern_fits cap mmap (S d) m t kp s A H Hroom Hkey Hs Hku)
      as (r & m' & -> & H' & A' & F & E1 & _).
    cbn [returns]. exact E1.
  - rewrite ht_insert_intern_unfold. rewrite (max_filled_eq m t L).
    replace (_ <=? filled m t) with true by (symmetry; apply Z.leb_le; lia).
    eapply returns_bind;
      [apply (ht_resize_spec cap mmap d m t Hc A H); apply rehash_due; assumption || lia |].
    intros m1 (A1 & H1 & B1 & S1 & F1 & P1 & U1 & K1 & T1). cbv beta.
    pose proof (ht_ok_layout m1 t H1) as L1.
    pose proof (ok_load m t H) as [Hl1 Hl2].
    assert (Hroom : filled m1 t <
              Z.min (9 * bucket_count m1 t / 10) (bucket_count m1 t - 1)).
    { rewrite F1, B1.
      pose proof (Z.div_mod (9 * (2 * bucket_count m t)) 10 ltac:(lia)).
      pose proof (Z.mod_pos_bound (9 * (2 * bucket_count m t)) 10 ltac:(lia)). lia. }
    match goal with
    | |- returns ?c _ => replace c with (ht_insert_intern cap mmap 0 m1 t kp)
    end.
    2: { rewrite ht_insert_intern_unfold, (max_filled_eq m1 t L1).
         replace (_ <=? filled m1 t) with false by (symmetry; apply Z.leb_gt; exact Hroom).
         reflexivity. }
    destruct (ht_insert_intern_fits cap mmap 0 m1 t kp s A1 H1 Hroom Hkey)
      as (r & m' & -> & H' & A' & F & E1 & _).
    { apply (cstr_at_ext m); [| exact Hs]. intros x Hx. destruct (Hku x Hx) as [Ux Tx].
      apply K1; assumption. }
    { intros x Hx. destruct (Hku x Hx) as [Ux Tx]. split; [apply U1; exact Ux |].
      intros Hx1. destruct (T1 x Hx1) as [Hh | Hn]; [apply Tx; left; exact Hh | apply Hn; exact Ux]. }
    cbn [returns]. congruence.
Qed.

Lemma ht_insert_str_bc cap mmap m t s :
  cap < 2 ^ 62 -> arena_ok cap m -> ht_ok m t -> filled m t < 2 ^ 28 -> is_key s ->
  returns (ht_insert_str cap mmap m t s) (fun '(r, m') =>
    bucket_count m' t =
    if filled m t <? threshold (bucket_count m t)
    then bucket_count m t else 2 * bucket_count m t).
Proof.
  intros Hc A H Hf Hk. unfold ht_insert_str.
  destruct (ht_lookup_total m t s H) as (pos & -> & _). cbn [bind].
  eapply returns_bind; [apply (mem_insert_str_spec cap mmap m s Hc A Hk) |].
  intros [kp m1] (Ekp & A1 & Hs1 & U1 & F1 & W1). cbv beta iota zeta.
  destruct (ht_ok_frame m m1 t H U1) as (H1 & E1 & E2 & E3 & E4 & E5 & S1 & En1 & T1).
  { intros x Hx. apply F1. apply (footprint_used m t x H Hx). }
  assert (Hl0 : 0 <= strlen s) by (unfold strlen; lia).
  rewrite <- E1, <- E3.
  apply (ht_insert_intern_bc cap mmap 1 m1 t kp s Hc A1 H1); try assumption; [lia |].
  intros x Hx. split; [apply W1; exact Hx |].
  rewrite T1. intros Tx. pose proof (used_below m x (table_bytes_used m t x H Tx)). lia.
Qed.

(** The bucket array is the smallest that the threshold allows. *)
Definition tight (m : mem) (t : hash_table) : Prop :=
  bucket_count m t = 2 \/ threshold (bucket_count m t / 2) < filled m t.

Lemma insert_all_tight cap mmap keys : forall m t,
  cap < 2 ^ 62 -> arena_ok cap m -> ht_ok m t ->
  filled m t + Z.of_nat (length keys) < 2 ^ 28 ->
  Forall is_key keys -> tight m t ->
  returns (insert_all cap mmap m t keys) (fun m' => tight m' t).
Proof.
  induction keys as [| k keys IH]; intros m t Hc A H Hn Hk Ht.
  - exact Ht.
  - cbn [insert_all]. inversion Hk as [| k' ks Hk1 Hk2]; subst. cbn [length] in Hn.
    eapply returns_bind;
      [apply (returns_conj _ _ _
                (ht_insert_str_spec cap mmap m t k Hc A H ltac:(lia) Hk1)
                (ht_insert_str_bc cap mmap m t k Hc A H ltac:(lia) Hk1)) |].
    intros [r m1] ((A1 & H1 & _ & _ & F1 & _) & B1). cbv beta iota zeta.
    apply (IH m1 t Hc A1 H1); [lia | exact Hk2 |].
    pose proof (layout_bc m t (ht_ok_layout m t H)) as Hbc.
    unfold tight in *. rewrite B1, F1.
    destruct (Z.ltb_spec (filled m t) (threshold (bucket_count m t))) as [Hroom | Hfull].
    + destruct Ht as [E | Ht]; [left; exact E | right; lia].
    + right. replace (2 * bucket_count m t / 2) with (bucket_count m t)
        by (rewrite Z.mul_comm, Z.div_mul; lia). lia.
Qed.

Lemma table_of_tight cap mmap disk isz vs keys :
  cap < 2 ^ 62 -> 48 <= isz -> 0 <= vs <= 2 ^ 30 - 16 ->
  Z.of_nat (length keys) < 2 ^ 28 -> Forall is_key keys ->
  returns (table_of cap mmap disk isz vs keys) (fun '(t, m) => tight m t).
Proof.
  intros Hc Hisz Hvs Hn Hk. unfold table_of.
  eapply returns_bind; [apply (new_table_spec cap mmap disk isz vs Hc Hisz Hvs) |].
  intros [t m] (A & H & B & S & F & E). cbv beta iota zeta.
  eapply returns_bind;
    [apply (insert_all_tight cap mmap keys m t Hc A H); [lia | exact Hk | left; exact B] |].
  intros m' Ht. exact Ht.
Qed.

(** A table with fewer than 2^28 entries has at most 2^29 buckets. *)
Lemma tight_small m t :
  ht_ok m t -> tight m t -> filled m t < 2 ^ 28 -> bucket_count m t <= 2 ^ 29.
Proof.
  intros H Ht Hf. destruct (ok_pow m t H) as (k & Hk & E).
  destruct Ht as [E2 | Ht]; [lia |].
  destruct (Z.eq_dec k 30) as [-> | N].
  - exfalso. rewrite E in Ht. unfold threshold in Ht.
    assert (Et : Z.min (9 * (2 ^ 30 / 2) / 10) (2 ^ 30 / 2 - 1) = 483183820)
      by (vm_compute; reflexivity).
    rewrite Et in Ht. lia.
  - rewrite E. apply Z.pow_le_mono_r; lia.
Qed.

Lemma threshold_mono a b : 0 <= a <= b -> threshold a <= threshold b.
Proof.
  intros H. unfold threshold.
  assert (9 * a / 10 <= 9 * b / 10) by (apply Z.div_le_mono; lia). lia.
Qed.

(** X15 -- The size of the bucket array.  After [n] insertions into a new
    table, the number of buckets is the smallest power of two, from 2 on,
    whose threshold [min(floor(0.9 * buckets), buckets - 1)] is at least
    [n]: the array doubles when an insertion finds [filled] at the
    threshold, and at no other time. *)
Theorem bucket_count_minimal cap mmap disk isz vs keys :
  cap <= 2 ^ 47 -> 48 <= isz -> 0 <= vs <= 2 ^ 30 - 16 ->
  Forall is_key keys -> Z.of_nat (length keys) < 2 ^ 28 ->
  returns (table_of cap mmap disk isz vs keys) (fun '(t, m) =>
    (exists k, 0 < k /\ bucket_count m t = 2 ^ k) /\
    Z.of_nat (length keys) <= threshold (bucket_count m t) /\
    (forall j, 0 < j -> Z.of_nat (length keys) <= threshold (2 ^ j) ->
       bucket_count m t <= 2 ^ j)).
Proof.
  intros Hc Hisz Hvs Hk Hn. assert (Hc' : cap < 2 ^ 62) by lia.
  eapply returns_weaken;
    [apply (returns_conj _ _ _
              (table_of_spec cap mmap disk isz vs keys Hc' Hisz Hvs Hn Hk)
              (table_of_tight cap mmap disk isz vs keys Hc' Hisz Hvs Hn Hk)) |].
  intros [t m] ((A & H & F & _) & Ht).
  destruct (ok_pow m t H) as (k & Hk' & E). destruct (ok_load m t H) as [Hl1 Hl2].
  pose proof (layout_bc m t (ht_ok_layout m t H)) as Hbc.
  split; [exists k; split; [lia | exact E] |]. split.
  - rewrite <- F. unfold threshold.
    assert (filled m t <= 9 * bucket_count m t / 10) by (apply Z.div_le_lower_bound; lia).
    lia.
  - intros j Hj Hfit. destruct Ht as [E2 | Ht].
    + rewrite E2. change 2 with (2 ^ 1) at 1. apply Z.pow_le_mono_r; lia.
    + rewrite F in Ht. rewrite E in *.
      assert (Eh : 2 ^ k / 2 = 2 ^ (k - 1)).
      { replace k with (k - 1 + 1) at 1 by lia.
        rewrite Z.pow_add_r by lia. change (2 ^ 1) with 2. apply Z.div_mul. lia. }
      rewrite Eh in Ht.
      destruct (Z_lt_dec (k - 1) j) as [Hlt | Hge];
        [apply Z.pow_le_mono_r; lia | exfalso].
      assert (threshold (2 ^ j) <= threshold (2 ^ (k - 1))).
      { apply threshold_mono. split; [apply Z.pow_nonneg; lia |].
        apply Z.pow_le_mono_r; lia. }
      lia.
Qed.

Lemma bucket_count_minimal_witness :
  (cap47 <= 2 ^ 47 /\ 48 <= 420 /\ 0 <= 0 <= 2 ^ 30 - 16 /\
   Forall is_key three_keys /\ Z.of_nat (length three_keys) < 2 ^ 28) /\
  is_done (table_of cap47 mmap_moving blank_disk 420 0 three_keys) = true /\
  returns (table_of cap47 mmap_moving blank_disk 420 0 three_keys) (fun '(t, m) =>
    (exists k, 0 < k /\ bucket_count m t = 2 ^ k) /\
    Z.of_nat (length three_keys) <= threshold (bucket_count m t) /\
    (forall j, 0 < j -> Z.of_nat (length three_keys) <= threshold (2 ^ j) ->
       bucket_count m t <= 2 ^ j)).
Proof.
  assert (H1 : cap47 <= 2 ^ 47) by by_evaluation.
  assert (H2 : 48 <= 420) by lia.
  assert (H3 : 0 <= 0 <= 2 ^ 30 - 16) by lia.
  assert (H4 : Z.of_nat (length three_keys) < 2 ^ 28) by (cbn; lia).
  split; [exact (conj H1 (conj H2 (conj H3 (conj three_keys_are_keys H4)))) |].
  split; [vm_compute; reflexivity |].
  exact (bucket_count_minimal cap47 mmap_moving blank_disk 420 0 three_keys
           H1 H2 H3 three_keys_are_keys H4).
Defined.

(** X14 -- A rehash of a table of distinct keys.  When [ht_resize] is
    called on a table built from pairwise distinct keys, it comes back
    with twice the buckets and the same [filled],
    and every key is found again, in a bucket that has the key handle (the
    key is not copied) and the payload bytes of the bucket in which the key
    was found before. *)
Theorem rehash_keeps_entries cap mmap disk isz vs keys :
  cap <= 2 ^ 47 -> 48 <= isz -> 0 <= vs <= 2 ^ 30 - 16 ->
  Forall is_key keys -> NoDup keys -> Z.of_nat (length keys) < 2 ^ 28 ->
  returns (table_of cap mmap disk isz vs keys) (fun '(t, m) =>
    returns (ht_resize cap mmap (ht_insert_intern cap mmap 1) m t) (fun m' =>
      bucket_count m' t = 2 * bucket_count m t /\
      filled m' t = filled m t /\
      forall k, In k keys ->
        exists p p', ht_lookup m t k = Done p /\ ht_lookup m' t k = Done p' /\
          0 <= p < bucket_count m t /\ 0 <= p' < bucket_count m' t /\
          load64 m' (ht_bucket m' t p' + 8) = load64 m (ht_bucket m t p + 8) /\
          load_bytes m' (ht_value m' t p') (Z.to_nat vs) =
          load_bytes m (ht_value m t p) (Z.to_nat vs))).
Proof.
  intros Hc Hisz Hvs Hk Hnd Hn. assert (Hc' : cap < 2 ^ 62) by lia.
  eapply returns_weaken;
    [apply (returns_conj _ _ _
              (table_of_keyed cap mmap disk isz vs keys Hc' Hisz Hvs Hn Hk)
              (table_of_tight cap mmap disk isz vs keys Hc' Hisz Hvs Hn Hk)) |].
  intros [t m] ((A & H & F & S & K) & Ht). pose proof (ht_ok_layout m t H) as L.
  assert (Hbig : bucket_count m t <= 2 ^ 29) by (apply tight_small; try assumption; lia).
  eapply returns_weaken; [apply (rehash_transparent cap mmap 1 m t Hc' A H Hbig) |].
  intros m' (H' & B & F' & P & Hfind & Hsame). pose proof (ht_ok_layout m' t H') as L'.
  split; [exact B |]. split; [exact F' |].
  intros k Hin. assert (Hkk : is_key k) by (rewrite Forall_forall in Hk; apply Hk, Hin).
  assert (Hst : stored m t k) by (apply (keyed_stored m t keys k H K Hkk); exact Hin).
  destruct (stored_lookup m t k H Hst) as (p & Ep & Hf).
  destruct (Hfind k Hkk Hst) as (p' & Ep' & Hf').
  exists p, p'. split; [exact Ep |]. split; [exact Ep' |].
  pose proof Hf as (Hp & _). pose proof Hf' as (Hp' & _).
  split; [exact Hp |]. split; [exact Hp' |].
  assert (Es : slot m' t p' = slot m t p).
  { apply (Hsame k p p' Hkk Hf); [| exact Hf'].
    intros i Hi. apply (found_index_unique m t keys k i p H K Hkk); try assumption.
    apply NoDup_count_le. exact Hnd. }
  assert (Ebs : bucket_size m' t = bucket_size m t).
  { assert (Hl : length (b_value (slot m' t p')) = length (b_value (slot m t p)))
      by (rewrite Es; reflexivity).
    unfold slot, read_bucket in Hl. cbn [b_value] in Hl.
    assert (Hlb : forall mm a n, length (load_bytes mm a n) = n).
    { intros mm a n. revert mm a. induction n; intros; cbn [load_bytes length]; [reflexivity |].
      f_equal. apply IHn. }
    rewrite !Hlb in Hl.
    pose proof (ok_bs m' t H'). pose proof (ok_bs m t H). unfold sizeof_hash_bucket in *. lia. }
  split.
  - rewrite (key_field m' t p' L' Hp'), (key_field m t p L Hp), Es. reflexivity.
  - rewrite (ht_value_slot m' t p' L' Hp'), (ht_value_slot m t p L Hp).
    assert (Ev : b_value (slot m' t p') = b_value (slot m t p)) by (rewrite Es; reflexivity).
    unfold slot, read_bucket in Ev. cbn [b_value] in Ev. rewrite Ebs, S in Ev.
    replace (Z.to_nat (16 + vs - 16)) with (Z.to_nat vs) in Ev by lia. exact Ev.
Qed.

Lemma rehash_keeps_entries_witness :
  (cap47 <= 2 ^ 47 /\ 48 <= 420 /\ 0 <= 8 <= 2 ^ 30 - 16 /\
   Forall is_key three_keys /\ NoDup three_keys /\
   Z.of_nat (length three_keys) < 2 ^ 28) /\
  is_done ('(t, m) <- table_of cap47 mmap_moving blank_disk 420 8 three_keys ;;
           ht_resize cap47 mmap_moving (ht_insert_intern cap47 mmap_moving 1) m t) = true /\
  returns (table_of cap47 mmap_moving blank_disk 420 8 three_keys) (fun '(t, m) =>
    returns (ht_resize cap47 mmap_moving (ht_insert_intern cap47 mmap_moving 1) m t)
      (fun m' =>
         bucket_count m' t = 2 * bucket_count m t /\
         filled m' t = filled m t /\
         forall k, In k three_keys ->
           exists p p', ht_lookup m t k = Done p /\ ht_lookup m' t k = Done p' /\
             0 <= p < bucket_count m t /\ 0 <= p' < bucket_count m' t /\
             load64 m' (ht_bucket m' t p' + 8) = load64 m (ht_bucket m t p + 8) /\
             load_bytes m' (ht_value m' t p') (Z.to_nat 8) =
             load_bytes m (ht_value m t p) (Z.to_nat 8))).
Proof.
  assert (H1 : cap47 <= 2 ^ 47) by by_evaluation.
  assert (H2 : 48 <= 420) by lia.
  assert (H3 : 0 <= 8 <= 2 ^ 30 - 16) by lia.
  assert (H4 : Z.of_nat (length three_keys) < 2 ^ 28) by (cbn; lia).
  split; [exact (conj H1 (conj H2 (conj H3 (conj three_keys_are_keys
            (conj three_keys_distinct H4))))) |].
  split; [vm_compute; reflexivity |].
  exact (rehash_keeps_entries cap47 mmap_moving blank_disk 420 8 three_keys
           H1 H2 H3 three_keys_are_keys three_keys_distinct H4).
Defined.

(** ** The keys of a multi-map *)

(** Distinct keys that are stored have distinct entries. *)
Lemma entries_for_keys m t (K : list cstring) :
  ht_ok m t -> NoDup K -> Forall is_key K -> (forall k, In k K -> stored m t k) ->
  exists bs, Forall2 (key_of m) bs K /\ NoDup bs /\ incl bs (entries m t).
Proof.
  intros H. induction K as [| k K IH]; intros Hnd Hk Hst.
  - exists []. split; [constructor | split; [constructor | intros b []]].
  - inversion Hnd as [| k' K' Hnin Hnd']; subst. inversion Hk as [| k' K' Hk1 Hk2]; subst.
    destruct (IH Hnd' Hk2 (fun x Hx => Hst x (or_intror Hx))) as (bs & F & Nb & Ib).
    destruct (proj1 (stored_entry m t k H Hk1) (Hst k (or_introl eq_refl)))
      as (b & Hb & Kb).
    exists (b :: bs). split; [constructor; assumption |]. split.
    + constructor; [| exact Nb]. intros Hin.
      destruct (Forall2_in_l _ _ _ b F Hin) as (s & Hs & Ks).
      apply Hnin. rewrite (key_of_inj m b k s Kb Ks). exact Hs.
    + intros x [<- | Hx]; [exact Hb | apply Ib, Hx].
Qed.

(** A table that stores the distinct keys [K] and has as many entries
    holds these keys and no others. *)
Lemma keyed_of_stored m t (K : list cstring) :
  ht_ok m t -> NoDup K -> Forall is_key K -> (forall k, In k K -> stored m t k) ->
  filled m t <= Z.of_nat (length K) -> keyed m t K.
Proof.
  intros H Hnd Hk Hst Hf.
  destruct (entries_for_keys m t K H Hnd Hk Hst) as (bs & F & Nb & Ib).
  assert (P : Permutation bs (entries m t)).
  { apply NoDup_Permutation_bis; [exact Nb | | exact Ib].
    rewrite (Forall2_length F). pose proof (ok_filled m t H). lia. }
  apply (keyed_replace m t bs); [apply Permutation_sym, P |].
  exists K. split; [apply Permutation_refl | exact F].
Qed.

Lemma stored_keys_le m t (K : list cstring) :
  ht_ok m t -> NoDup K -> Forall is_key K -> (forall k, In k K -> stored m t k) ->
  Z.of_nat (length K) <= filled m t.
Proof.
  intros H Hnd Hk Hst.
  destruct (entries_for_keys m t K H Hnd Hk Hst) as (bs & F & Nb & Ib).
  pose proof (NoDup_incl_length Nb Ib) as Hl. rewrite (Forall2_length F) in Hl.
  rewrite (ok_filled m t H). lia.
Qed.

(** The keys of a list of pairs, each once. *)
Definition keys_of (pairs : list (cstring * cstring)) : list cstring :=
  nodup cstring_eq_dec (map fst pairs).

Lemma keys_of_snoc_old pairs k v :
  In k (map fst pairs) -> length (keys_of (pairs ++ [(k, v)])) = length (keys_of pairs).
Proof.
  intros Hin. unfold keys_of. apply Permutation_length.
  apply NoDup_Permutation; try apply NoDup_nodup.
  intros x. rewrite !nodup_In, map_app, in_app_iff. cbn [map fst In].
  split; [intros [Hx | [<- | []]]; assumption | intros Hx; left; exact Hx].
Qed.

Lemma keys_of_snoc_new pairs k v :
  ~ In k (map fst pairs) ->
  length (keys_of (pairs ++ [(k, v)])) = S (length (keys_of pairs)).
Proof.
  intros Hin. unfold keys_of.
  change (S (length (nodup cstring_eq_dec (map fst pairs))))
    with (length (k :: nodup cstring_eq_dec (map fst pairs))).
  apply Permutation_length.
  apply NoDup_Permutation; [apply NoDup_nodup | |].
  - constructor; [rewrite nodup_In; exact Hin | apply NoDup_nodup].
  - intros x. cbn [In]. rewrite !nodup_In, map_app, in_app_iff. cbn [map fst In].
    split; [intros [Hx | [<- | []]]; auto | intros [<- | Hx]; auto].
Qed.

Lemma keys_of_are_keys pairs : Forall pair_ok pairs -> Forall is_key (keys_of pairs).
Proof.
  intros Hd. apply Forall_forall. intros k Hk. unfold keys_of in Hk.
  rewrite nodup_In in Hk. apply in_map_iff in Hk. destruct Hk as ([k' v] & <- & Hin).
  rewrite Forall_forall in Hd. apply (Hd _ Hin).
Qed.

Lemma keys_of_stored cap m t pairs :
  mm_ok cap m t pairs -> forall k, In k (keys_of pairs) -> stored m t k.
Proof.
  intros I k Hk. unfold keys_of in Hk. rewrite nodup_In in Hk.
  apply in_map_iff in Hk. destruct Hk as ([k' v] & <- & Hin).
  apply (mm_keys _ _ _ _ I k' v Hin).
Qed.

(** [multimap_insert_key_val], with the count of the outer table. *)
Lemma multimap_insert_key_val_count cap mmap m t done k v :
  cap < 2 ^ 62 -> mm_ok cap m t done -> Forall pair_ok done ->
  is_key k -> is_key v ->
  filled m t = Z.of_nat (length (keys_of done)) ->
  Z.of_nat (length done) + 1 < 2 ^ 28 ->
  returns (multimap_insert_key_val cap mmap m t k v) (fun m' =>
    mm_ok cap m' t (done ++ [(k, v)]) /\
    filled m' t = Z.of_nat (length (keys_of (done ++ [(k, v)])))).
Proof.
  intros Hc I Hd Hk Hv Hf Hlen. unfold multimap_insert_key_val.
  assert (Ht : ht_ok m t) by (apply (mm_fam _ _ _ _ I); left; reflexivity).
  pose proof (ht_ok_layout m t Ht) as L.
  assert (Hle : Z.of_nat (length (keys_of done)) <= Z.of_nat (length done)).
  { unfold keys_of. pose proof (NoDup_incl_length (NoDup_nodup cstring_eq_dec (map fst done))
      (fun x Hx => proj1 (nodup_In cstring_eq_dec (map fst done) x) Hx)) as Hl.
    rewrite length_map in Hl. lia. }
  destruct (ht_lookup_total m t k Ht) as (pos & E & Hcase). rewrite E. cbn [bind].
  destruct Hcase as [-> | Hfound].
  - change (-1 <? 0) with true. cbv iota.
    assert (Habs : ~ stored m t k).
    { intros Hst. destruct (stored_lookup m t k Ht Hst) as (p & E2 & Hp & _).
      rewrite E in E2. injection E2 as <-. lia. }
    assert (Hnew : ~ In k (map fst done)).
    { intros Hin. apply in_map_iff in Hin. destruct Hin as ([k' v'] & Ek & Hin).
      cbn [fst] in Ek. subst k'. apply Habs, (mm_keys _ _ _ _ I k v' Hin). }
    eapply returns_bind; [apply (mm_create cap mmap m t done k); try assumption; lia |].
    intros [tab m3] (I3 & Ef3 & (b' & Hb' & Kb' & <-) & Hold & Kf).
    eapply returns_bind; [apply (mm_add cap mmap m3 t done b' k v); try assumption; lia |].
    intros [r m4] (I4 & Ef4 & En4 & Kf4). cbn [returns].
    split; [exact I4 |]. rewrite (keys_of_snoc_new done k v Hnew). lia.
  - pose proof Hfound as (Hpos & Hh & Hs).
    replace (pos <? 0) with false by (symmetry; apply Z.ltb_ge; lia). cbv iota.
    cbn [bind]. cbv beta iota zeta.
    change {| header_ptr := load64 m (ht_value m t pos) |}
      with (multimap_get m (ht_value m t pos)).
    rewrite (multimap_get_slot m t pos L (mm_bs _ _ _ _ I) Hpos).
    assert (Hold : In k (map fst done)).
    { destruct (in_dec cstring_eq_dec k (map fst done)) as [Hin | Hnin]; [exact Hin |].
      exfalso.
      assert (Hl : Z.of_nat (length (k :: keys_of done)) <= filled m t).
      { apply stored_keys_le; [exact Ht | | |].
        - constructor; [unfold keys_of; rewrite nodup_In; exact Hnin | apply NoDup_nodup].
        - constructor; [exact Hk | apply keys_of_are_keys; exact Hd].
        - intros x [<- | Hx]; [exists pos; exact Hfound | apply (keys_of_stored cap m t done I x Hx)]. }
      cbn [length] in Hl. lia. }
    eapply returns_bind;
      [apply (mm_add cap mmap m t done (slot m t pos) k v); try assumption;
         [lia | apply (found_entry m t k pos Hfound) | split; assumption] |].
    intros [r m4] (I4 & Ef4 & En4 & Kf4). cbn [returns].
    split; [exact I4 |]. rewrite (keys_of_snoc_old done k v Hold). lia.
Qed.

Lemma multimap_insert_all_count cap mmap pairs : forall m t done,
  cap < 2 ^ 62 -> mm_ok cap m t done -> Forall pair_ok done -> Forall pair_ok pairs ->
  filled m t = Z.of_nat (length (keys_of done)) ->
  Z.of_nat (length done) + Z.of_nat (length pairs) < 2 ^ 28 ->
  returns (multimap_insert_all cap mmap m t pairs) (fun m' =>
    mm_ok cap m' t (done ++ pairs) /\
    filled m' t = Z.of_nat (length (keys_of (done ++ pairs)))).
Proof.
  induction pairs as [| [k v] rest IH]; intros m t done Hc I Hd Hp Hf Hlen.
  - cbn [multimap_insert_all returns]. rewrite app_nil_r. auto.
  - cbn [multimap_insert_all]. inversion Hp as [| kv l Hkv Hrest]; subst.
    destruct Hkv as (Hk & Hv). cbn [fst snd] in Hk, Hv. cbn [length] in Hlen.
    eapply returns_bind;
      [apply (multimap_insert_key_val_count cap mmap m t done k v); try assumption; lia |].
    intros m1 (I1 & Ef1).
    eapply returns_weaken; [apply (IH m1 t (done ++ [(k, v)]) Hc I1) |].
    + apply Forall_app. split; [exact Hd |]. constructor; [split; assumption | constructor].
    + exact Hrest.
    + exact Ef1.
    + rewrite length_app. cbn [length]. lia.
    + intros m' (I' & Ef'). rewrite <- app_assoc in I', Ef'. cbn [app] in I', Ef'.
      split; assumption.
Qed.

Lemma multimap_of_count cap mmap disk isz pairs :
  cap < 2 ^ 62 -> 48 <= isz -> Forall pair_ok pairs ->
  Z.of_nat (length pairs) < 2 ^ 28 ->
  returns (multimap_of cap mmap disk isz pairs) (fun '(t, m) =>
    mm_ok cap m t pairs /\ filled m t = Z.of_nat (length (keys_of pairs))).
Proof.
  intros Hc Hisz Hd Hlen. unfold multimap_of.
  eapply returns_bind; [apply (new_multimap_ok cap mmap disk isz Hc Hisz) |].
  intros [t m0] (I0 & Ef0). cbv beta iota zeta.
  eapply returns_bind;
    [apply (multimap_insert_all_count cap mmap pairs m0 t [] Hc I0);
       [constructor | exact Hd | exact Ef0 | cbn [length]; lia] |].
  cbn [app]. intros m (I & Ef). cbn [returns]. split; assumption.
Qed.

Lemma NoDup_map_on {A B : Type} (f : A -> B) (l : list A) :
  NoDup l -> (forall x y, In x l -> In y l -> f x = f y -> x = y) -> NoDup (map f l).
Proof.
  induction 1 as [| a l Hnin Hnd IH]; intros Hinj; cbn [map]; constructor.
  - intros Hin. apply in_map_iff in Hin. destruct Hin as (y & Ey & Hy).
    apply Hnin. rewrite (Hinj a y (or_introl eq_refl) (or_intror Hy) (eq_sym Ey)). exact Hy.
  - apply IH. intros x y Hx Hy. apply Hinj; right; assumption.
Qed.

Lemma values_under_NoDup k pairs : NoDup pairs -> NoDup (values_under k pairs).
Proof.
  intros Hnd. unfold values_under. apply NoDup_map_on; [apply NoDup_filter, Hnd |].
  intros [k1 v1] [k2 v2] H1 H2 E. cbn [snd] in E. subst v2.
  apply filter_In in H1. apply filter_In in H2.
  destruct H1 as (_ & H1). destruct H2 as (_ & H2). cbn [fst] in H1, H2.
  apply cstring_eqb_spec in H1. apply cstring_eqb_spec in H2. congruence.
Qed.

Lemma ht_check_ok m t : ht_ok m t -> ht_check m t = true.
Proof.
  intros H. unfold ht_check. rewrite (length_ht_foreach m t H).
  pose proof (load64_range m (header_ptr t + 16)) as Hr. fold (filled m t) in Hr.
  rewrite u64_small by exact Hr. apply Z.eqb_refl.
Qed.

Lemma keyed_enumeration m t keys :
  ht_ok m t -> keyed m t keys ->
  exists ks, Permutation ks keys /\
    Forall2 (fun i s => cstr_at m (load64 m (ht_bucket m t i + 8)) s) (ht_foreach m t) ks.
Proof.
  intros H K. pose proof (ht_ok_layout m t H) as L.
  destruct (keyed_indices m t keys H K) as (ks & Pk & F2).
  exists ks. split; [exact Pk |].
  apply (Forall2_impl_in (fun i s => key_of m (slot m t i) s)); [exact F2 |].
  intros i s Hin (_ & Hs). apply (in_ht_foreach m t i L) in Hin.
  rewrite (key_field m t i L (proj1 Hin)). exact Hs.
Qed.

Lemma keyed_lookup m t keys k :
  ht_ok m t -> keyed m t keys -> is_key k ->
  exists r, ht_lookup m t k = Done r /\
    ((In k keys /\ 0 <= r < bucket_count m t) \/ (~ In k keys /\ r = -1)).
Proof.
  intros H K Hkk.
  destruct (ht_lookup_total m t k H) as (r & Er & Hr). exists r. split; [exact Er |].
  destruct Hr as [-> | Hf].
  - right. split; [| reflexivity]. intros Hin.
    apply (keyed_stored m t keys k H K Hkk) in Hin.
    destruct (stored_lookup m t k H Hin) as (p & Ep & Hp & _).
    rewrite Er in Ep. injection Ep as <-. lia.
  - left. split; [apply (keyed_stored m t keys k H K Hkk); exists r; exact Hf | apply Hf].
Qed.

(** X16 -- The keys of a multi-map.  After any pairs were inserted into a
    new multi-map, [filled] of the outer table is the number of different
    keys among them (the assertion of [test2]), the assertion of [ht_check]
    holds for it, [ht_lookup] returns a bucket for the keys that were
    inserted and -1 for every other key, and the enumeration of the outer
    table designates every key once. *)
Theorem multimap_keys cap mmap disk isz pairs :
  cap <= 2 ^ 47 -> 48 <= isz -> Forall pair_ok pairs ->
  Z.of_nat (length pairs) < 2 ^ 28 ->
  returns (multimap_of cap mmap disk isz pairs) (fun '(t, m) =>
    filled m t = Z.of_nat (length (keys_of pairs)) /\
    ht_check m t = true /\
    (forall k, is_key k ->
       exists r, ht_lookup m t k = Done r /\
         ((In k (map fst pairs) /\ 0 <= r < bucket_count m t) \/
          (~ In k (map fst pairs) /\ r = -1))) /\
    exists ks, Permutation ks (keys_of pairs) /\
      Forall2 (fun i s => cstr_at m (load64 m (ht_bucket m t i + 8)) s)
              (ht_foreach m t) ks).
Proof.
  intros Hcap Hisz Hd Hlen. assert (Hc : cap < 2 ^ 62) by lia.
  eapply returns_weaken; [apply (multimap_of_count cap mmap disk isz pairs Hc Hisz Hd Hlen) |].
  intros [t m] (I & Ef).
  assert (Ht : ht_ok m t) by (apply (mm_fam _ _ _ _ I); left; reflexivity).
  assert (K : keyed m t (keys_of pairs)).
  { apply keyed_of_stored; [exact Ht | apply NoDup_nodup | apply keys_of_are_keys, Hd | | lia].
    apply (keys_of_stored cap m t pairs I). }
  split; [exact Ef |]. split; [apply ht_check_ok, Ht |]. split.
  - intros k Hkk. destruct (keyed_lookup m t _ k Ht K Hkk) as (r & Er & Hr).
    exists r. split; [exact Er |]. unfold keys_of in Hr. rewrite nodup_In in Hr. exact Hr.
  - apply keyed_enumeration; assumption.
Qed.

(** X17 -- The values of a multi-map.  After pairwise distinct pairs were
    inserted into a new multi-map, the table that [multimap_get] reads from
    the payload of the bucket of a key [k] holds the values that were
    inserted under [k], and nothing else: its enumeration designates each
    of them once, the assertion of [ht_check] holds for it, and
    [ht_lookup] in it returns -1 for every other string. *)
Theorem multimap_values cap mmap disk isz pairs :
  cap <= 2 ^ 47 -> 48 <= isz -> Forall pair_ok pairs -> NoDup pairs ->
  Z.of_nat (length pairs) < 2 ^ 28 ->
  returns (multimap_of cap mmap disk isz pairs) (fun '(t, m) =>
    forall k, In k (map fst pairs) ->
      exists p, ht_lookup m t k = Done p /\ 0 <= p < bucket_count m t /\
        let tab := multimap_get m (ht_value m t p) in
        ht_check m tab = true /\
        (exists vs, Permutation vs (values_under k pairs) /\
           Forall2 (fun i s => cstr_at m (load64 m (ht_bucket m tab i + 8)) s)
                   (ht_foreach m tab) vs) /\
        (forall v, is_key v ->
           exists r, ht_lookup m tab v = Done r /\
             ((In (k, v) pairs /\ 0 <= r < bucket_count m tab) \/
              (~ In (k, v) pairs /\ r = -1)))).
Proof.
  intros Hcap Hisz Hd Hnd Hlen. assert (Hc : cap < 2 ^ 62) by lia.
  eapply returns_weaken; [apply (multimap_of_count cap mmap disk isz pairs Hc Hisz Hd Hlen) |].
  intros [t m] (I & _) k Hk.
  destruct (mm_lookup cap m t pairs k I Hd Hk) as (p & E & Hp & Hb & Kb & Eg & Hn & Ef & _).
  exists p. split; [exact E |]. split; [exact Hp |]. cbv zeta. rewrite Eg.
  destruct (mm_values _ _ _ _ I _ k Hb Kb) as (_ & Hst).
  assert (K : keyed m (nested_of (slot m t p)) (values_under k pairs)).
  { apply keyed_of_stored; [exact Hn | apply values_under_NoDup, Hnd | | exact Hst | lia].
    apply Forall_forall. intros v Hv. apply values_under_In in Hv.
    rewrite Forall_forall in Hd. apply (Hd _ Hv). }
  split; [apply ht_check_ok, Hn |]. split; [apply keyed_enumeration; assumption |].
  intros v Hv. destruct (keyed_lookup m _ _ v Hn K Hv) as (r & Er & Hr).
  exists r. split; [exact Er |]. rewrite values_under_In in Hr. exact Hr.
Qed.

Lemma multimap_keys_witness :
  (cap47 <= 2 ^ 47 /\ 48 <= 420 /\ Forall pair_ok (pairs_before ++ pairs_after) /\
   Z.of_nat (length (pairs_before ++ pairs_after)) < 2 ^ 28) /\
  is_done (multimap_of cap47 mmap_moving blank_disk 420 (pairs_before ++ pairs_after))
    = true /\
  returns (multimap_of cap47 mmap_moving blank_disk 420 (pairs_before ++ pairs_after))
    (fun '(t, m) =>
       filled m t = Z.of_nat (length (keys_of (pairs_before ++ pairs_after))) /\
       ht_check m t = true /\
       (forall k, is_key k ->
          exists r, ht_lookup m t k = Done r /\
            ((In k (map fst (pairs_before ++ pairs_after)) /\
              0 <= r < bucket_count m t) \/
             (~ In k (map fst (pairs_before ++ pairs_after)) /\ r = -1))) /\
       exists ks, Permutation ks (keys_of (pairs_before ++ pairs_after)) /\
         Forall2 (fun i s => cstr_at m (load64 m (ht_bucket m t i + 8)) s)
                 (ht_foreach m t) ks).
Proof.
  assert (H1 : cap47 <= 2 ^ 47) by by_evaluation.
  assert (H2 : 48 <= 420) by lia.
  assert (H3 : Z.of_nat (length (pairs_before ++ pairs_after)) < 2 ^ 28) by (cbn; lia).
  split; [exact (conj H1 (conj H2 (conj pairs_are_keys H3))) |].
  split; [vm_compute; reflexivity |].
  exact (multimap_keys cap47 mmap_moving blank_disk 420 (pairs_before ++ pairs_after)
           H1 H2 pairs_are_keys H3).
Defined.

Lemma multimap_values_witness :
  (cap47 <= 2 ^ 47 /\ 48 <= 420 /\ Forall pair_ok (pairs_before ++ pairs_after) /\
   NoDup (pairs_before ++ pairs_after) /\
   Z.of_nat (length (pairs_before ++ pairs_after)) < 2 ^ 28) /\
  is_done (multimap_of cap47 mmap_moving blank_disk 420 (pairs_before ++ pairs_after))
    = true /\
  returns (multimap_of cap47 mmap_moving blank_disk 420 (pairs_before ++ pairs_after))
    (fun '(t, m) =>
       forall k, In k (map fst (pairs_before ++ pairs_after)) ->
         exists p, ht_lookup m t k = Done p /\ 0 <= p < bucket_count m t /\
           let tab := multimap_get m (ht_value m t p) in
           ht_check m tab = true /\
           (exists vs, Permutation vs (values_under k (pairs_before ++ pairs_after)) /\
              Forall2 (fun i s => cstr_at m (load64 m (ht_bucket m tab i + 8)) s)
                      (ht_foreach m tab) vs) /\
           (forall v, is_key v ->
              exists r, ht_lookup m tab v = Done r /\
                ((In (k, v) (pairs_before ++ pairs_after) /\
                  0 <= r < bucket_count m tab) \/
                 (~ In (k, v) (pairs_before ++ pairs_after) /\ r = -1)))).
Proof.
  assert (H1 : cap47 <= 2 ^ 47) by by_evaluation.
  assert (H2 : 48 <= 420) by lia.
  assert (H3 : Z.of_nat (length (pairs_before ++ pairs_after)) < 2 ^ 28) by (cbn; lia).
  split; [exact (conj H1 (conj H2 (conj pairs_are_keys (conj pairs_distinct H3)))) |].
  split; [vm_compute; reflexivity |].
  exact (multimap_values cap47 mmap_moving blank_disk 420 (pairs_before ++ pairs_after)
           H1 H2 pairs_are_keys pairs_distinct H3).
Defined.

(** ** Printing a byte *)

(** The number that a string of binary digits stands for. *)
Definition binary_value (s : cstring) : Z :=
  fold_left (fun a c => 2 * a + (c - 48)) s 0.

Definition print_byte_checks (b : Z) : bool :=
  (Z.of_nat (length (print_byte b)) =? 8) &&
  forallb (fun c => (c =? 48) || (c =? 49)) (print_byte b) &&
  (binary_value (print_byte b) =? b).

Lemma print_byte_all :
  forallb (fun n => print_byte_checks (Z.of_nat n)) (seq 0 256) = true.
Proof. vm_compute. reflexivity. Qed.

(** X18 -- [print_byte].  For every byte, [print_byte] prints eight
    characters, each '0' or '1', which are the byte in binary, the highest
    bit first; so different bytes are printed differently. *)
Theorem print_byte_binary b :
  0 <= b < 256 ->
  length (print_byte b) = 8%nat /\
  Forall (fun c => c = 48 \/ c = 49) (print_byte b) /\
  binary_value (print_byte b) = b.
Proof.
  intros Hb. pose proof print_byte_all as Hall. rewrite forallb_forall in Hall.
  specialize (Hall (Z.to_nat b)). rewrite Z2Nat.id in Hall by lia.
  assert (Hin : In (Z.to_nat b) (seq 0 256)) by (apply in_seq; lia).
  apply Hall in Hin. unfold print_byte_checks in Hin.
  apply andb_true_iff in Hin as [Hin H3]. apply andb_true_iff in Hin as [H1 H2].
  split; [apply Z.eqb_eq in H1; lia |]. split; [| apply Z.eqb_eq; exact H3].
  apply Forall_forall. intros c Hc. rewrite forallb_forall in H2.
  specialize (H2 c Hc). apply orb_true_iff in H2 as [H2 | H2]; apply Z.eqb_eq in H2; auto.
Qed.

Lemma print_byte_binary_witness :
  0 <= 0xa5 < 256 /\
  length (print_byte 0xa5) = 8%nat /\
  Forall (fun c => c = 48 \/ c = 49) (print_byte 0xa5) /\
  binary_value (print_byte 0xa5) = 0xa5.
Proof.
  assert (H : 0 <= 0xa5 < 256) by lia.
  split; [exact H | exact (print_byte_binary 0xa5 H)].
Defined.

(** ** The tests of the harness *)

(** The number that a string of decimal digits stands for. *)
Definition decimal_value (s : cstring) : Z :=
  fold_left (fun a c => 10 * a + (c - 48)) s 0.

Lemma digits_spec : forall (fuel : nat) n acc,
  0 <= n < 10 ^ Z.of_nat fuel ->
  exists ds, digits fuel n acc = ds ++ acc /\ decimal_value ds = n /\
    Forall (fun c => 48 <= c <= 57) ds /\ (length ds <= fuel)%nat.
Proof.
  induction fuel as [| f IH]; intros n acc Hn.
  - exists []. cbn in Hn. split; [reflexivity |]. split; [cbn; lia |].
    split; [constructor | cbn; lia].
  - cbn [digits]. pose proof (Z.mod_pos_bound n 10 ltac:(lia)) as Hm.
    pose proof (Z.div_mod n 10 ltac:(lia)) as Hd.
    destruct (Z.eqb_spec (n / 10) 0) as [E | N].
    + exists [48 + n mod 10]. split; [reflexivity |]. split; [| split].
      * unfold decimal_value. cbn [fold_left]. lia.
      * constructor; [lia | constructor].
      * cbn [length]. lia.
    + assert (Hq : 0 <= n / 10 < 10 ^ Z.of_nat f).
      { split; [apply Z.div_pos; lia |]. apply Z.div_lt_upper_bound; [lia |].
        rewrite Nat2Z.inj_succ, Z.pow_succ_r in Hn by lia. lia. }
      destruct (IH (n / 10) ((48 + n mod 10) :: acc) Hq) as (ds & E & V & F & Hl).
      exists (ds ++ [48 + n mod 10]). split; [rewrite E, <- app_assoc; reflexivity |].
      split; [| split].
      * unfold decimal_value in *. rewrite fold_left_app, V. cbn [fold_left]. lia.
      * apply Forall_app. split; [exact F |]. constructor; [lia | constructor].
      * rewrite length_app. cbn [length]. lia.
Qed.

Lemma sprintf_d_spec i :
  0 <= i < 2 ^ 31 ->
  decimal_value (sprintf_d i) = i /\
  Forall (fun c => 48 <= c <= 57) (sprintf_d i) /\ (length (sprintf_d i) <= 10)%nat.
Proof.
  intros Hi. unfold sprintf_d.
  replace (i <? 0) with false by (symmetry; apply Z.ltb_ge; lia).
  destruct (digits_spec 10 i [] ltac:(change (10 ^ Z.of_nat 10) with 10000000000; lia))
    as (ds & E & V & F & Hl).
  rewrite E, app_nil_r. auto.
Qed.

Lemma MAKEKEY_key i : 0 <= i < 2 ^ 31 -> is_key (MAKEKEY i) /\ strlen (MAKEKEY i) <= 13.
Proof.
  intros Hi. destruct (sprintf_d_spec i Hi) as (_ & F & Hl).
  assert (Hlen : strlen (MAKEKEY i) <= 13).
  { unfold strlen, MAKEKEY. rewrite length_app. cbn [length]. lia. }
  split; [| exact Hlen]. split; [| lia].
  unfold MAKEKEY. apply Forall_app. split.
  - repeat constructor; unfold is_char; lia.
  - apply (Forall_impl _ (P := fun c => 48 <= c <= 57)); [| exact F].
    intros c Hc. unfold is_char. lia.
Qed.

Lemma MAKEKEY_inj i j :
  0 <= i < 2 ^ 31 -> 0 <= j < 2 ^ 31 -> MAKEKEY i = MAKEKEY j -> i = j.
Proof.
  intros Hi Hj E. unfold MAKEKEY in E. apply app_inv_head in E.
  rewrite <- (proj1 (sprintf_d_spec i Hi)), <- (proj1 (sprintf_d_spec j Hj)), E.
  reflexivity.
Qed.

Lemma MAKEVAL_key key j :
  is_key key -> strlen key <= 13 -> 0 <= j < 2 ^ 31 -> is_key (MAKEVAL key j).
Proof.
  intros (Hk & _) Hl Hj. destruct (sprintf_d_spec j Hj) as (_ & F & Hlj).
  split.
  - unfold MAKEVAL. apply Forall_app. split; [exact Hk |]. apply Forall_app. split.
    + repeat constructor; unfold is_char; lia.
    + apply (Forall_impl _ (P := fun c => 48 <= c <= 57)); [| exact F].
      intros c Hc. unfold is_char. lia.
  - unfold strlen, MAKEVAL in *. rewrite !length_app. cbn [length]. lia.
Qed.

(** The numbers [i], [i + 1], ... *)
Fixpoint zseq (i : Z) (n : nat) : list Z :=
  match n with
  | O => []
  | S k => i :: zseq (i + 1) k
  end.

Lemma in_zseq n : forall i x, In x (zseq i n) <-> i <= x < i + Z.of_nat n.
Proof.
  induction n as [| n IH]; intros i x; cbn [zseq In].
  - split; [intros [] | lia].
  - rewrite IH. lia.
Qed.

Lemma length_zseq n : forall i, length (zseq i n) = n.
Proof. induction n as [| n IH]; intros i; cbn [zseq length]; [reflexivity | f_equal; apply IH]. Qed.

Lemma zseq_NoDup n : forall i, NoDup (zseq i n).
Proof.
  induction n as [| n IH]; intros i; cbn [zseq]; constructor; [| apply IH].
  rewrite in_zseq. lia.
Qed.

(** *** [test1] *)

Lemma test1_insert_eq cap mmap n : forall m t i,
  0 <= i -> i + Z.of_nat n < 2 ^ 31 ->
  test1_insert cap mmap n m t i = insert_all cap mmap m t (map MAKEKEY (zseq i n)).
Proof.
  induction n as [| n IH]; intros m t i Hi Hn; [reflexivity |].
  cbn [test1_insert zseq map insert_all].
  destruct (ht_insert_str cap mmap m t (MAKEKEY i)) as [[r m1] | |]; cbn [bind];
    try reflexivity.
  rewrite to_int_small by lia. apply IH; lia.
Qed.

Lemma test1_check_ok m t n : forall i,
  ht_ok m t -> 0 <= i -> i + Z.of_nat n < 2 ^ 31 ->
  (forall x, i <= x < i + Z.of_nat n -> stored m t (MAKEKEY x)) ->
  test1_check n m t i = Done true.
Proof.
  intros i H. revert i. induction n as [| n IH]; intros i Hi Hn Hst; [reflexivity |].
  cbn [test1_check].
  destruct (stored_lookup m t (MAKEKEY i) H (Hst i ltac:(lia))) as (p & -> & Hp & _).
  cbn [bind]. pose proof (layout_bc m t (ht_ok_layout m t H)).
  rewrite (to_int_small p) by lia.
  replace (0 <=? p) with true by (symmetry; apply Z.leb_le; lia).
  rewrite to_int_small by lia. apply IH; [lia | lia |].
  intros x Hx. apply Hst. lia.
Qed.

Lemma keys_from_are_keys n i :
  0 <= i -> i + Z.of_nat n < 2 ^ 31 -> Forall is_key (map MAKEKEY (zseq i n)).
Proof.
  intros Hi Hn. apply Forall_forall. intros k Hk. apply in_map_iff in Hk.
  destruct Hk as (x & <- & Hx). apply in_zseq in Hx. apply MAKEKEY_key. lia.
Qed.

(** X19 -- [test1].  For every number [n] of keys below 2^28 (the test
    takes 5000000), and whatever the file held, no assertion of [test1]
    fails: after "key0" ... "key<n-1>" were inserted into a new table,
    [filled] is [n], and [ht_lookup] finds each of the keys.  (The test
    may still leave through [handle_error], when the file cannot grow.) *)
Theorem test1_passes cap mmap disk n :
  cap <= 2 ^ 47 -> 0 <= n < 2 ^ 28 ->
  returns (test1_with cap mmap disk n) (fun ok => ok = true).
Proof.
  intros Hcap Hn. assert (Hc : cap < 2 ^ 62) by lia. unfold test1_with.
  destruct (Z_le_dec 4000 cap) as [Hle | Hgt].
  2: { unfold mem_create. replace (4000 <=? cap) with false by (symmetry; apply Z.leb_gt; lia).
       rewrite andb_false_r. exact I. }
  destruct (mem_create_ok cap mmap disk 4000 Hc ltac:(lia)) as (m0 & -> & A0 & _).
  cbn [bind].
  eapply returns_bind; [apply (ht_init_spec cap mmap m0 0 Hc A0); lia |].
  intros [t m1] (_ & A1 & H1 & _ & _ & F1 & _). cbv beta iota zeta.
  rewrite test1_insert_eq by lia.
  eapply returns_bind;
    [apply (insert_all_spec cap mmap (map MAKEKEY (zseq 0 (Z.to_nat n))) m1 t Hc A1 H1) |].
  - rewrite length_map, length_zseq. lia.
  - apply keys_from_are_keys; lia.
  - intros m (A & H & F & _ & _ & Hst).
    rewrite length_map, length_zseq in F.
    replace (filled m t =? u64 n) with true
      by (symmetry; apply Z.eqb_eq; rewrite u64_small by lia; lia).
    rewrite (test1_check_ok m t (Z.to_nat n) 0 H); [reflexivity | lia | lia |].
    intros x Hx. apply Hst. apply in_map. apply in_zseq. lia.
Qed.

Lemma test1_passes_witness :
  (cap47 <= 2 ^ 47 /\ 0 <= 20 < 2 ^ 28) /\
  test1_with cap47 mmap_moving blank_disk 20 = Done true /\
  returns (test1_with cap47 mmap_moving blank_disk 20) (fun ok => ok = true).
Proof.
  assert (H1 : cap47 <= 2 ^ 47) by by_evaluation.
  assert (H2 : 0 <= 20 < 2 ^ 28) by lia.
  split; [exact (conj H1 H2) |]. split; [vm_compute; reflexivity |].
  exact (test1_passes cap47 mmap_moving blank_disk 20 H1 H2).
Defined.

(** *** [test2] *)

(** The pairs that [test2] inserts for the key number [i], and for the
    [n] keys from number [i] on. *)
Definition test2_block (i : Z) : list (cstring * cstring) :=
  map (fun j => (MAKEKEY i, MAKEVAL (MAKEKEY i) j)) (zseq 0 (Z.to_nat i)).

Definition test2_pairs (i : Z) (n : nat) : list (cstring * cstring) :=
  flat_map test2_block (zseq i n).

Lemma multimap_insert_all_app cap mmap l1 : forall m t l2,
  multimap_insert_all cap mmap m t (l1 ++ l2) =
  (m' <- multimap_insert_all cap mmap m t l1 ;; multimap_insert_all cap mmap m' t l2).
Proof.
  induction l1 as [| [k v] l1 IH]; intros m t l2; [reflexivity |].
  cbn [app multimap_insert_all].
  destruct (multimap_insert_key_val cap mmap m t k v); cbn [bind]; [apply IH | | ]; reflexivity.
Qed.

Lemma test2_values_eq cap mmap key n : forall m t j,
  0 <= j -> j + Z.of_nat n < 2 ^ 31 ->
  test2_values cap mmap n m t key j =
  multimap_insert_all cap mmap m t (map (fun j => (key, MAKEVAL key j)) (zseq j n)).
Proof.
  induction n as [| n IH]; intros m t j Hj Hn; [reflexivity |].
  cbn [test2_values zseq map multimap_insert_all].
  destruct (multimap_insert_key_val cap mmap m t key (MAKEVAL key j)); cbn [bind];
    try reflexivity.
  rewrite to_int_small by lia. apply IH; lia.
Qed.

Lemma test2_insert_eq cap mmap n : forall m t i,
  0 <= i -> i + Z.of_nat n < 2 ^ 31 ->
  test2_insert cap mmap n m t i = multimap_insert_all cap mmap m t (test2_pairs i n).
Proof.
  induction n as [| n IH]; intros m t i Hi Hn; [reflexivity |].
  cbn [test2_insert]. unfold test2_pairs. cbn [zseq flat_map].
  rewrite multimap_insert_all_app. rewrite test2_values_eq by lia.
  fold (test2_block i).
  destruct (multimap_insert_all cap mmap m t (test2_block i)); cbn [bind]; try reflexivity.
  rewrite to_int_small by lia. apply IH; lia.
Qed.

Lemma in_test2_pairs n i k v :
  In (k, v) (test2_pairs i n) <->
  exists x j, i <= x < i + Z.of_nat n /\ 0 <= j < x /\
              k = MAKEKEY x /\ v = MAKEVAL (MAKEKEY x) j.
Proof.
  unfold test2_pairs, test2_block. rewrite in_flat_map. split.
  - intros (x & Hx & Hin). apply in_zseq in Hx. apply in_map_iff in Hin.
    destruct Hin as (j & E & Hj). apply in_zseq in Hj. injection E as <- <-.
    exists x, j. repeat split; lia.
  - intros (x & j & Hx & Hj & -> & ->). exists x. split; [apply in_zseq; lia |].
    apply in_map_iff. exists j. split; [reflexivity | apply in_zseq; lia].
Qed.

Lemma test2_pairs_ok n i :
  0 <= i -> i + Z.of_nat n < 2 ^ 31 -> Forall pair_ok (test2_pairs i n).
Proof.
  intros Hi Hn. apply Forall_forall. intros [k v] Hin.
  apply in_test2_pairs in Hin. destruct Hin as (x & j & Hx & Hj & -> & ->).
  destruct (MAKEKEY_key x ltac:(lia)) as (Hk & Hl).
  split; cbn [fst snd]; [exact Hk | apply MAKEVAL_key; try assumption; lia].
Qed.

Lemma length_test2_pairs n : forall i,
  0 <= i ->
  2 * Z.of_nat (length (test2_pairs i n)) = Z.of_nat n * (2 * i + Z.of_nat n - 1).
Proof.
  induction n as [| n IH]; intros i Hi; [cbn; lia |].
  unfold test2_pairs. cbn [zseq flat_map]. rewrite length_app.
  fold (test2_pairs (i + 1) n). unfold test2_block at 1.
  rewrite length_map, length_zseq. rewrite Nat2Z.inj_add.
  pose proof (IH (i + 1) ltac:(lia)). lia.
Qed.

Lemma values_under_app k l1 l2 :
  values_under k (l1 ++ l2) = values_under k l1 ++ values_under k l2.
Proof. unfold values_under. rewrite filter_app, map_app. reflexivity. Qed.

Lemma values_under_block x i :
  0 <= x < 2 ^ 31 -> 0 <= i < 2 ^ 31 ->
  length (values_under (MAKEKEY x) (test2_block i)) =
  if Z.eq_dec x i then Z.to_nat i else O.
Proof.
  intros Hx Hi. unfold test2_block.
  assert (G : forall js,
    length (values_under (MAKEKEY x)
              (map (fun j => (MAKEKEY i, MAKEVAL (MAKEKEY i) j)) js)) =
    if Z.eq_dec x i then length js else O).
  { induction js as [| j js IH]; [destruct (Z.eq_dec x i); reflexivity |].
    cbn [map]. change (?a :: ?l) with ([a] ++ l).
    rewrite values_under_app, length_app, IH.
    unfold values_under at 1. cbn [filter fst].
    destruct (cstring_eqb (MAKEKEY i) (MAKEKEY x)) eqn:Eq.
    - apply cstring_eqb_spec in Eq. apply MAKEKEY_inj in Eq; try assumption. subst i.
      destruct (Z.eq_dec x x); [reflexivity | contradiction].
    - destruct (Z.eq_dec x i) as [-> | N]; [| reflexivity].
      assert (T : cstring_eqb (MAKEKEY i) (MAKEKEY i) = true)
        by (apply cstring_eqb_spec; reflexivity).
      congruence. }
  rewrite G, length_zseq. reflexivity.
Qed.

Lemma values_under_test2_pairs x n : forall i,
  0 <= i -> i + Z.of_nat n < 2 ^ 31 -> i <= x < i + Z.of_nat n ->
  length (values_under (MAKEKEY x) (test2_pairs i n)) = Z.to_nat x.
Proof.
  assert (Out : forall n i, 0 <= i -> i + Z.of_nat n < 2 ^ 31 -> 0 <= x < i ->
            length (values_under (MAKEKEY x) (test2_pairs i n)) = O).
  { clear n. induction n as [| n IH]; intros i Hi Hn Hx; [reflexivity |].
    unfold test2_pairs. cbn [zseq flat_map]. fold (test2_pairs (i + 1) n).
    rewrite values_under_app, length_app, values_under_block by lia.
    rewrite IH by lia. destruct (Z.eq_dec x i); [lia | reflexivity]. }
  induction n as [| n IH]; intros i Hi Hn Hx; [lia |].
  unfold test2_pairs. cbn [zseq flat_map]. fold (test2_pairs (i + 1) n).
  rewrite values_under_app, length_app, values_under_block by lia.
  destruct (Z.eq_dec x i) as [-> | N].
  - rewrite Out by lia. lia.
  - rewrite IH by lia. reflexivity.
Qed.

Lemma test2_keys n i :
  1 <= i -> i + Z.of_nat n < 2 ^ 31 ->
  length (keys_of (test2_pairs i n)) = n.
Proof.
  intros Hi Hn. rewrite <- (length_zseq n i) at 2.
  rewrite <- (length_map MAKEKEY (zseq i n)).
  apply Permutation_length. apply NoDup_Permutation.
  - apply NoDup_nodup.
  - apply NoDup_map_on; [apply zseq_NoDup |].
    intros x y Hx Hy. apply in_zseq in Hx, Hy. apply MAKEKEY_inj; lia.
  - intros k. unfold keys_of. rewrite nodup_In, !in_map_iff. split.
    + intros ([k' v] & <- & Hin). apply in_test2_pairs in Hin.
      destruct Hin as (x & j & Hx & _ & -> & _). exists x.
      split; [reflexivity | apply in_zseq; exact Hx].
    + intros (x & <- & Hx). apply in_zseq in Hx.
      exists (MAKEKEY x, MAKEVAL (MAKEKEY x) 0). split; [reflexivity |].
      apply in_test2_pairs. exists x, 0. repeat split; lia.
Qed.

Lemma test2_check_ok cap m t N n : forall i,
  mm_ok cap m t (test2_pairs 1 N) -> 1 + Z.of_nat N < 2 ^ 31 ->
  1 <= i -> i + Z.of_nat n <= 1 + Z.of_nat N ->
  test2_check n m t i = Done true.
Proof.
  intros i I HN. revert i. induction n as [| n IH]; intros i Hi Hn; [reflexivity |].
  cbn [test2_check].
  assert (Hd : Forall pair_ok (test2_pairs 1 N)) by (apply test2_pairs_ok; lia).
  assert (Hk : In (MAKEKEY i) (map fst (test2_pairs 1 N))).
  { apply in_map_iff. exists (MAKEKEY i, MAKEVAL (MAKEKEY i) 0). split; [reflexivity |].
    apply in_test2_pairs. exists i, 0. repeat split; lia. }
  destruct (mm_lookup cap m t _ (MAKEKEY i) I Hd Hk)
    as (p & -> & Hp & _ & _ & Eg & _ & Ef & _).
  cbn [bind]. replace (p <? 0) with false by (symmetry; apply Z.ltb_ge; lia).
  rewrite Eg, Ef, values_under_test2_pairs by lia.
  replace (Z.of_nat (Z.to_nat i) =? u64 i) with true
    by (symmetry; apply Z.eqb_eq; rewrite u64_small by lia; lia).
  rewrite to_int_small by lia. apply IH; lia.
Qed.

(** X20 -- [test2].  For every number [n] of keys with n (n + 1) < 2^29 (the
    test takes 3000), and whatever the file held, no assertion of [test2]
    fails: after i values were inserted under "key<i>", for i from 1 to
    [n], into a new multi-map, [filled] of the outer table is [n],
    [ht_lookup] finds the bucket of each key, and [filled] of the table
    that [multimap_get] reads from the payload of "key<i>" is i.  (The
    test may still leave through [handle_error], when the file cannot
    grow.) *)
Theorem test2_passes cap mmap disk n :
  cap <= 2 ^ 47 -> 0 <= n -> n * (n + 1) < 2 ^ 29 ->
  returns (test2_with cap mmap disk n) (fun ok => ok = true).
Proof.
  intros Hcap Hn0 Hn. assert (Hc : cap < 2 ^ 62) by lia.
  assert (Hn31 : 1 + Z.of_nat (Z.to_nat n) < 2 ^ 31) by nia.
  pose proof (length_test2_pairs (Z.to_nat n) 1 ltac:(lia)) as Hlen.
  rewrite Z2Nat.id in Hlen by lia.
  pose proof (new_multimap_ok cap mmap disk 65536 Hc ltac:(lia)) as Hnew.
  unfold new_table in Hnew. unfold test2_with.
  destruct (mem_create cap mmap disk 65536) as [m00 | |]; cbn [bind] in *;
    [| exact I | exact Hnew].
  eapply returns_bind; [exact Hnew |].
  intros [t m0] (I0 & Ef0). cbv beta iota zeta.
  rewrite test2_insert_eq by lia.
  eapply returns_bind;
    [apply (multimap_insert_all_count cap mmap (test2_pairs 1 (Z.to_nat n)) m0 t [] Hc I0);
       [constructor | apply test2_pairs_ok; lia | exact Ef0 | cbn [length]; lia] |].
  cbn [app]. intros m (I & Ef). rewrite test2_keys in Ef by lia.
  replace (filled m t =? u64 n) with true
    by (symmetry; apply Z.eqb_eq; rewrite u64_small by lia; lia).
  rewrite (test2_check_ok cap m t (Z.to_nat n) (Z.to_nat n) 1 I); [reflexivity | lia ..].
Qed.

Lemma test2_passes_witness :
  (cap47 <= 2 ^ 47 /\ 0 <= 4 /\ 4 * (4 + 1) < 2 ^ 29) /\
  test2_with cap47 mmap_moving blank_disk 4 = Done true /\
  returns (test2_with cap47 mmap_moving blank_disk 4) (fun ok => ok = true).
Proof.
  assert (H1 : cap47 <= 2 ^ 47) by by_evaluation.
  assert (H2 : 0 <= 4) by lia.
  assert (H3 : 4 * (4 + 1) < 2 ^ 29) by lia.
  split; [exact (conj H1 (conj H2 H3)) |]. split; [vm_compute; reflexivity |].
  exact (test2_passes cap47 mmap_moving blank_disk 4 H1 H2 H3).
Defined.
